(** * file_tree: a verification development for [src/file_tree.pyx]

    The Cython module keeps a directory snapshot as a graph of mutable
    [TreeNode] objects and converts it to and from three textual or
    structured forms.  The development below embeds the module as it is
    written: Python strings are sequences of code points, [TreeNode] and
    [dict] objects live in explicit stores and are mutated through
    references, every [while stack:] loop is a fuelled loop over an
    explicit stack, and exceptions are results of their own. *)

From Stdlib Require Import ZArith String Ascii.
From stdpp Require Import base tactics option list gmap sorting.

Set Default Proof Using "Type".
Set Warnings "-register-all,-clear-no-such-hyp".
Local Open Scope Z_scope.

(** ** Python [str]: a sequence of Unicode code points *)

Module PyStr.

Abbreviation char := N (only parsing).
Abbreviation str := (list N) (only parsing).

(** UTF-8 decoding of a literal of this file into code points. *)
Fixpoint utf8 (bs : list N) : str :=
  match bs with
  | [] => []
  | b :: r =>
    if (b <? 128)%N then b :: utf8 r
    else if (b <? 224)%N then
      match r with
      | b1 :: r' => ((b - 192) * 64 + (b1 - 128))%N :: utf8 r'
      | _ => []
      end
    else if (b <? 240)%N then
      match r with
      | b1 :: b2 :: r' =>
        ((b - 224) * 4096 + (b1 - 128) * 64 + (b2 - 128))%N :: utf8 r'
      | _ => []
      end
    else
      match r with
      | b1 :: b2 :: b3 :: r' =>
        ((b - 240) * 262144 + (b1 - 128) * 4096 + (b2 - 128) * 64 + (b3 - 128))%N
          :: utf8 r'
      | _ => []
      end
  end.

Definition py (s : string) : str :=
  utf8 (map N_of_ascii (list_ascii_of_string s)).

Definition NL : char := 10%N.
Definition CR : char := 13%N.
Definition SPACE : char := 32%N.
Definition SLASH : char := 47%N.
Definition BANG : char := 33%N.
(** [│], [├], [└] and [─] of the box-drawing diagram. *)
Definition BOX_V : char := 9474%N.
Definition BOX_VR : char := 9500%N.
Definition BOX_UR : char := 9492%N.
Definition BOX_H : char := 9472%N.

(** [str.isspace] on one code point (CPython's [Py_UNICODE_ISSPACE]). *)
Definition isspace (c : char) : bool :=
  ((9 <=? c) && (c <=? 13) || (28 <=? c) && (c <=? 32) || (c =? 133) || (c =? 160)
   || (c =? 5760) || (8192 <=? c) && (c <=? 8202) || (c =? 8232) || (c =? 8233)
   || (c =? 8239) || (c =? 8287) || (c =? 12288))%N.

(** The line boundaries of [str.splitlines]. *)
Definition is_linebreak (c : char) : bool :=
  ((10 <=? c) && (c <=? 13) || (28 <=? c) && (c <=? 30) || (c =? 133)
   || (c =? 8232) || (c =? 8233))%N.

Fixpoint lstrip (s : str) : str :=
  match s with
  | c :: r => if isspace c then lstrip r else s
  | [] => []
  end.

Definition rstrip (s : str) : str := rev (lstrip (rev s)).

Definition strip (s : str) : str := rstrip (lstrip s).

Fixpoint startswith (s pre : str) : bool :=
  match pre, s with
  | [], _ => true
  | p :: pre', c :: s' => (p =? c)%N && startswith s' pre'
  | _ :: _, [] => false
  end.

Definition endswith (s suf : str) : bool := startswith (rev s) (rev suf).

(** [cur] holds the current line reversed; [\r\n] is one boundary and a
    final boundary opens no empty last line. *)
Fixpoint splitlines_from (cur : str) (s : str) : list str :=
  match s with
  | [] => match cur with [] => [] | _ => [rev cur] end
  | c :: r =>
    if is_linebreak c then
      match r with
      | c' :: r' =>
        if (c =? CR)%N && (c' =? NL)%N then rev cur :: splitlines_from [] r'
        else rev cur :: splitlines_from [] r
      | [] => rev cur :: splitlines_from [] r
      end
    else splitlines_from (c :: cur) r
  end.

Definition splitlines (s : str) : list str := splitlines_from [] s.

(** [s.replace(old, new)] for a non-empty [old]: leftmost occurrences that
    do not overlap; [skip] counts the characters of a match still to drop. *)
Fixpoint replace_from (old new : str) (skip : nat) (s : str) : str :=
  match s with
  | [] => []
  | c :: r =>
    match skip with
    | S k => replace_from old new k r
    | O =>
      if startswith s old then new ++ replace_from old new (length old - 1) r
      else c :: replace_from old new O r
    end
  end.

Definition replace (s old new : str) : str :=
  match old with
  | [] => new ++ flat_map (fun c => c :: new) s
  | _ => replace_from old new O s
  end.

(** [old in s]. *)
Fixpoint contains (s old : str) : bool :=
  startswith s old || match s with [] => false | _ :: r => contains r old end.

(** [sep.join(parts)]. *)
Fixpoint join (sep : str) (parts : list str) : str :=
  match parts with
  | [] => []
  | [p] => p
  | p :: ps => p ++ sep ++ join sep ps
  end.

(** [s.split(sep)] for a one-character separator. *)
Fixpoint split_from (sep : char) (cur : str) (s : str) : list str :=
  match s with
  | [] => [rev cur]
  | c :: r =>
    if (c =? sep)%N then rev cur :: split_from sep [] r
    else split_from sep (c :: cur) r
  end.

Definition split (s : str) (sep : char) : list str := split_from sep [] s.

(** [s * n] for an integer [n]; a negative count gives the empty string. *)
Definition times (s : str) (n : Z) : str := concat (replicate (Z.to_nat n) s).

(** [<] and [==] of [str]: code points compared left to right. *)
Fixpoint str_ltb (a b : str) : bool :=
  match a, b with
  | [], [] => false
  | [], _ :: _ => true
  | _ :: _, [] => false
  | x :: a', y :: b' => (x <? y)%N || (x =? y)%N && str_ltb a' b'
  end.

Definition str_eqb (a b : str) : bool := bool_decide (a = b).

(** Decimal digits of a non-negative integer, as [str(n)] prints them. *)
Fixpoint digits_fuel (fuel : nat) (n : N) (acc : str) : str :=
  match fuel with
  | O => acc
  | S f =>
    let acc' := (48 + n mod 10)%N :: acc in
    if (n <? 10)%N then acc' else digits_fuel f (n / 10)%N acc'
  end.

Definition str_of_nat (n : nat) : str :=
  digits_fuel (S n) (N.of_nat n) [].

End PyStr.
Export PyStr.

Example py_box : py "│├└─ /!" = [BOX_V; BOX_VR; BOX_UR; BOX_H; SPACE; SLASH; BANG].
Proof. reflexivity. Qed.

Example splitlines_ex :
  splitlines (py "a" ++ [NL] ++ [NL] ++ py "b" ++ [CR; NL]) = [py "a"; []; py "b"].
Proof. reflexivity. Qed.

Example replace_ex : replace (py "|-- a|-- b") (py "|-- ") [] = py "ab".
Proof. reflexivity. Qed.

Example str_of_nat_ex : str_of_nat 204 = py "204".
Proof. reflexivity. Qed.

(** ** Outcomes of a call *)

(** The exceptions the module raises or lets through. *)
Inductive exn :=
| ValueError (msg : str)
| AttributeError
| StopIteration
| KeyError (key : str)
| TypeError
| OSError.

(** [Ok] and [Raise] are Python's two outcomes.  [Stuck] is a read through a
    reference that names no object of the store, which Python rules out;
    [OutOfFuel] is a loop that the given number of iterations did not end. *)
Inductive result (A : Type) :=
| Ok (a : A)
| Raise (e : exn)
| Stuck
| OutOfFuel.
Arguments Ok {A} a.
Arguments Raise {A} e.
Arguments Stuck {A}.
Arguments OutOfFuel {A}.

Definition bind {A B : Type} (m : result A) (k : A -> result B) : result B :=
  match m with
  | Ok a => k a
  | Raise e => Raise e
  | Stuck => Stuck
  | OutOfFuel => OutOfFuel
  end.

Notation "x <- m ;; k" := (bind m (fun x => k))
  (at level 62, m at next level, right associativity).

Definition deref {A : Type} (o : option A) : result A :=
  match o with Some a => Ok a | None => Stuck end.

(** ** [TreeNode] objects and their store *)

Abbreviation loc := nat (only parsing).

(** The four [cdef] attributes; [non_leaf_names] stays [None] for a leaf. *)
Record TreeNode := mkTreeNode {
  name : str;
  is_leaf : bool;
  children : list loc;
  non_leaf_names : option (gset str)
}.

(** The objects allocated so far, a reference being an index. *)
Abbreviation heap := (list TreeNode) (only parsing).

Module Node.

(** [TreeNode(name, is_leaf)] *)
Definition new (nm : str) (leaf : bool) (h : heap) : loc * heap :=
  (length h,
   h ++ [mkTreeNode nm leaf [] (if leaf then None else Some ∅)]).

(** [self.add_child(node)] *)
Definition add_child (self node : loc) (h : heap) : result heap :=
  p <- deref (h !! self);;
  c <- deref (h !! node);;
  let p1 := mkTreeNode (name p) (is_leaf p) (children p ++ [node]) (non_leaf_names p) in
  if is_leaf c then Ok (<[self := p1]> h)
  else
    match non_leaf_names p with
    | Some s =>
      Ok (<[self := mkTreeNode (name p) (is_leaf p) (children p ++ [node])
                      (Some ({[name c]} ∪ s))]> h)
    | None => Raise AttributeError
    end.

Definition get_name (self : loc) (h : heap) : result str :=
  o <- deref (h !! self);; Ok (name o).

Definition check_leaf (self : loc) (h : heap) : result bool :=
  o <- deref (h !! self);; Ok (is_leaf o).

Definition get_children (self : loc) (h : heap) : result (list loc) :=
  o <- deref (h !! self);; Ok (children o).

(** [for x in reversed(xs): stack.append(f x)]; a stack keeps its top at
    the head of the list. *)
Definition push_reversed {A B : Type} (f : A -> B) (xs : list A) (stack : list B) : list B :=
  fold_left (fun st x => f x :: st) (rev xs) stack.

Definition CONNECTOR : str := Eval vm_compute in py "|-- ".
Definition INDENT : str := Eval vm_compute in py "    ".

(** *** [to_repr] *)

Fixpoint to_repr_loop (fuel : nat) (h : heap) (folder_depth file_depth : Z)
    (stack : list (loc * Z)) (representation : str) : result str :=
  match stack with
  | [] => Ok representation
  | (current_node, current_level) :: stack =>
    match fuel with
    | O => OutOfFuel
    | S fuel =>
      node <- deref (h !! current_node);;
      let indent := times INDENT current_level in
      let leaf := is_leaf node in
      if (if leaf then negb (file_depth =? 0) && (file_depth <? current_level)
          else negb (folder_depth =? 0) && (folder_depth <? current_level))
      then to_repr_loop fuel h folder_depth file_depth stack representation
      else
        let representation :=
          if 0 <? current_level
          then representation ++ [NL] ++ indent ++ CONNECTOR ++ name node
          else representation ++ name node in
        if negb leaf then
          to_repr_loop fuel h folder_depth file_depth
            (push_reversed (fun child => (child, current_level + 1)) (children node) stack)
            (representation ++ [SLASH])
        else to_repr_loop fuel h folder_depth file_depth stack representation
    end
  end.

Definition to_repr (fuel : nat) (h : heap) (self : loc) (level : Z) (depth : Z * Z)
  : result str :=
  let '(folder_depth, file_depth) := depth in
  if (folder_depth <? 0) || (file_depth <? 0)
  then Raise (ValueError (py "Depth values cannot be negative"))
  else to_repr_loop fuel h folder_depth file_depth [(self, level)] [].

(** *** [from_repr] *)

(** [while len(node_stack) > level + 1: node_stack.pop()]; [node_stack] is
    kept in Python's order, its top last. *)
Fixpoint pop_to_level (fuel : nat) (level : nat) (node_stack : list loc) : list loc :=
  match fuel with
  | O => node_stack
  | S fuel =>
    if (level + 1 <? length node_stack)%nat
    then pop_to_level fuel level (removelast node_stack)
    else node_stack
  end.

(** One pass of the [for line in lines[1:]] body, given the name, tag and
    level read off the line. *)
Definition attach (nm : str) (leaf : bool) (level : nat)
    (st : heap * list loc) : result (heap * list loc) :=
  let '(h, node_stack) := st in
  let '(new_node, h) := new nm leaf h in
  let node_stack := pop_to_level (length node_stack) level node_stack in
  parent_node <- match last node_stack with
                    | Some p => Ok p
                    | None => Raise (KeyError [])
                    end;;
  h <- add_child parent_node new_node h;;
  Ok (h, if negb leaf then node_stack ++ [new_node] else node_stack).

Definition from_repr_line (line : str) (st : heap * list loc) : result (heap * list loc) :=
  let indent_level := (length line - length (lstrip line))%nat in
  let level := (indent_level / 4)%nat in
  let line_content := strip line in
  let leaf := negb (endswith line_content [SLASH]) in
  let nm :=
    if leaf then strip (replace line_content CONNECTOR [])
    else strip (replace (replace line_content [SLASH] []) CONNECTOR []) in
  attach nm leaf level st.

Fixpoint for_lines (body : str -> heap * list loc -> result (heap * list loc))
    (lines : list str) (st : heap * list loc) : result (heap * list loc) :=
  match lines with
  | [] => Ok st
  | line :: lines => st <- body line st;; for_lines body lines st
  end.

(** The result is the root's reference, or [None] for a blank input. *)
Definition from_repr (repr_str : str) (h : heap) : result (option loc * heap) :=
  match splitlines (strip repr_str) with
  | [] => Ok (None, h)
  | line0 :: lines =>
    let root_name := replace (strip line0) [SLASH] [] in
    let '(root_node, h) := new root_name false h in
    st <- for_lines from_repr_line lines (h, [root_node]);;
    Ok (Some root_node, fst st)
  end.

(** *** [to_md] *)

Definition LAST_CONNECTOR : str := Eval vm_compute in py "└── ".
Definition MID_CONNECTOR : str := Eval vm_compute in py "├── ".
Definition BAR_INDENT : str := Eval vm_compute in py "│   ".

(** [validate_stack]: the children within the caps, in stored order. *)
Fixpoint validate (h : heap) (folder_depth file_depth current_level : Z)
    (cs : list loc) : result (list loc) :=
  match cs with
  | [] => Ok []
  | child :: cs =>
    c <- deref (h !! child);;
    rest <- validate h folder_depth file_depth current_level cs;;
    if is_leaf c then
      if (file_depth =? 0) || (current_level + 1 <=? file_depth)
      then Ok (child :: rest) else Ok rest
    else
      if (folder_depth =? 0) || (current_level + 1 <=? folder_depth)
      then Ok (child :: rest) else Ok rest
  end.

(** The last child is pushed first with [is_last = True], then the others
    from the right with [is_last = False]. *)
Definition push_children (cs : list loc) (level : Z) (new_prefix : str)
    (stack : list (loc * Z * bool * str)) : list (loc * Z * bool * str) :=
  match last cs with
  | None => stack
  | Some last_child =>
    push_reversed (fun child => (child, level, false, new_prefix)) (removelast cs)
      ((last_child, level, true, new_prefix) :: stack)
  end.

Fixpoint to_md_loop (fuel : nat) (h : heap) (prefix : str) (folder_depth file_depth : Z)
    (stack : list (loc * Z * bool * str)) (md_representation : str) : result str :=
  match stack with
  | [] => Ok md_representation
  | (current_node, current_level, current_is_last, current_prefix) :: stack =>
    match fuel with
    | O => OutOfFuel
    | S fuel =>
      node <- deref (h !! current_node);;
      let indent :=
        current_prefix ++
        (if 0 <? current_level
         then (if current_is_last : bool then LAST_CONNECTOR else MID_CONNECTOR)
         else []) in
      let md_representation :=
        if negb (is_leaf node) then md_representation ++ indent ++ name node ++ [SLASH]
        else md_representation ++ indent ++ name node in
      stack <-
        (if negb (is_leaf node) then
           let new_prefix :=
             if 0 <? current_level
             then current_prefix ++ (if current_is_last then INDENT else BAR_INDENT)
             else prefix in
           if (folder_depth =? 0) && (file_depth =? 0) then
             Ok (push_children (children node) (current_level + 1) new_prefix stack)
           else
             valid <- validate h folder_depth file_depth current_level (children node);;
             Ok (push_children valid (current_level + 1) new_prefix stack)
         else Ok stack);;
      let md_representation :=
        match stack with [] => md_representation | _ => md_representation ++ [NL] end in
      to_md_loop fuel h prefix folder_depth file_depth stack md_representation
    end
  end.

Definition to_md (fuel : nat) (h : heap) (self : loc) (level : Z) (is_last : bool)
    (prefix : str) (depth : Z * Z) : result str :=
  let '(folder_depth, file_depth) := depth in
  if (folder_depth <? 0) || (file_depth <? 0)
  then Raise (ValueError (py "Depth values must be non-negative"))
  else to_md_loop fuel h prefix folder_depth file_depth [(self, level, is_last, prefix)] [].

(** *** [from_md] *)

Definition from_md_line (line : str) (st : heap * list loc) : result (heap * list loc) :=
  let indent_level := (length line - length (lstrip (replace line [BOX_V] [])))%nat in
  let level := (indent_level / 4)%nat in
  let line_content := strip line in
  let leaf := negb (endswith line_content [SLASH]) in
  let nm :=
    strip (replace (replace (replace (replace line_content [BOX_V] [])
                                      LAST_CONNECTOR []) MID_CONNECTOR []) [SLASH] []) in
  attach nm leaf level st.

Definition from_md (md_str : str) (h : heap) : result (option loc * heap) :=
  match splitlines (strip md_str) with
  | [] => Ok (None, h)
  | line0 :: lines =>
    let root_name := replace (strip line0) [SLASH] [] in
    let '(root_node, h) := new root_name false h in
    st <- for_lines from_md_line lines (h, [root_node]);;
    Ok (Some root_node, fst st)
  end.

End Node.

(** ** [dict] objects and the mapping codec *)

Abbreviation dloc := nat (only parsing).

(** A value of the nested mapping: [None] or a reference to a [dict]. *)
Inductive pyval :=
| PyNone
| PyDict (d : dloc).

(** A [dict] keeps its items in insertion order, each key once. *)
Abbreviation pydict := (list (str * pyval)) (only parsing).
Abbreviation dheap := (list (list (str * pyval))) (only parsing).

Module Dict.

(** [d[key] = v] on the items: a present key keeps its place. *)
Fixpoint setitem (key : str) (v : pyval) (items : pydict) : pydict :=
  match items with
  | [] => [(key, v)]
  | (k, w) :: items =>
    if bool_decide (k = key) then (k, v) :: items
    else (k, w) :: setitem key v items
  end.

Fixpoint getitem (key : str) (items : pydict) : result pyval :=
  match items with
  | [] => Raise (KeyError key)
  | (k, w) :: items => if bool_decide (k = key) then Ok w else getitem key items
  end.

(** [{...}]: a fresh object. *)
Definition new (items : pydict) (dh : dheap) : dloc * dheap :=
  (length dh, dh ++ [items]).

(** [parent_dict[key] = v] through the reference. *)
Definition store (d : dloc) (key : str) (v : pyval) (dh : dheap) : result dheap :=
  items <- deref (dh !! d);;
  Ok (<[d := setitem key v items]> dh).

(** [next(iter(d))] *)
Definition first_key (items : pydict) : result str :=
  match items with
  | [] => Raise StopIteration
  | (k, _) :: _ => Ok k
  end.

End Dict.

Module Mapping.
Import Node.

(** *** [to_dict] *)

(** [result_dict] starts as a fresh empty [dict]. *)
Fixpoint to_dict_loop (fuel : nat) (h : heap) (stack : list (loc * option dloc))
    (result_dict : dloc) (dh : dheap) : result (dloc * dheap) :=
  match stack with
  | [] => Ok (result_dict, dh)
  | (current_node, parent_dict) :: stack =>
    match fuel with
    | O => OutOfFuel
    | S fuel =>
      node <- deref (h !! current_node);;
      let '(value, dh) :=
        if negb (is_leaf node)
        then let '(d, dh) := Dict.new [] dh in (PyDict d, dh)
        else (PyNone, dh) in
      let '(node_dict, dh) := Dict.new [(name node, value)] dh in
      dh <- match parent_dict with
            | Some pd => Dict.store pd (name node) value dh
            | None => Ok dh
            end;;
      let stack :=
        if negb (is_leaf node)
        then push_reversed
               (fun child => (child, match value with PyDict d => Some d | PyNone => None end))
               (children node) stack
        else stack in
      let result_dict :=
        match parent_dict with None => node_dict | Some _ => result_dict end in
      to_dict_loop fuel h stack result_dict dh
    end
  end.

Definition to_dict (fuel : nat) (h : heap) (self : loc) (dh : dheap)
  : result (dloc * dheap) :=
  let '(result_dict, dh) := Dict.new [] dh in
  to_dict_loop fuel h [(self, None)] result_dict dh.

(** *** [from_dict] *)

(** [stack.append((current_node, {child_name: child_dict}))]: the one-item
    [dict] is a fresh object. *)
Definition push_single (current_node : loc) (acc : list (option loc * dloc) * dheap)
    (item : str * pyval) : list (option loc * dloc) * dheap :=
  let '(stack, dh) := acc in
  let '(child_name, child_dict) := item in
  let '(single, dh) := Dict.new [(child_name, child_dict)] dh in
  ((Some current_node, single) :: stack, dh).

Fixpoint from_dict_loop (fuel : nat) (stack : list (option loc * dloc))
    (root_node : option loc) (st : heap * dheap) : result (option loc * (heap * dheap)) :=
  match stack with
  | [] => Ok (root_node, st)
  | (parent_node, current_dict) :: stack =>
    match fuel with
    | O => OutOfFuel
    | S fuel =>
      let '(h, dh) := st in
      items <- deref (dh !! current_dict);;
      nm <- Dict.first_key items;;
      value <- Dict.getitem nm items;;
      let leaf := match value with PyNone => true | PyDict _ => false end in
      let '(current_node, h) := new nm leaf h in
      h <- match parent_node with
           | Some p => add_child p current_node h
           | None => Ok h
           end;;
      let root_node :=
        match parent_node with None => Some current_node | Some _ => root_node end in
      match value with
      | PyNone => from_dict_loop fuel stack root_node (h, dh)
      | PyDict d =>
        child_items <- deref (dh !! d);;
        let '(stack, dh) :=
          fold_left (push_single current_node) (rev child_items) (stack, dh) in
        from_dict_loop fuel stack root_node (h, dh)
      end
    end
  end.

Definition from_dict (fuel : nat) (node_dict : dloc) (st : heap * dheap)
  : result (option loc * (heap * dheap)) :=
  from_dict_loop fuel [(None, node_dict)] None st.

End Mapping.

(** ** Library functions the module calls *)

(** [os.path.join], [basename] and [normpath] as CPython's [posixpath]
    defines them, with [os.sep = '/']. *)
Module PosixPath.

Definition sep : char := SLASH.

Definition join (a b : str) : str :=
  if startswith b [sep] then b
  else if bool_decide (a = []) || endswith a [sep] then a ++ b
  else a ++ [sep] ++ b.

Definition basename (p : str) : str :=
  match rev (split p sep) with
  | last_part :: _ => last_part
  | [] => []
  end.

Definition DOT : str := Eval vm_compute in py ".".
Definition DOTDOT : str := Eval vm_compute in py "..".

Definition normpath_step (initial_slashes : nat) (new_comps : list str) (comp : str)
  : list str :=
  if bool_decide (comp = []) || bool_decide (comp = DOT) then new_comps
  else if negb (bool_decide (comp = DOTDOT))
          || (bool_decide (initial_slashes = O) && bool_decide (new_comps = []))
          || bool_decide (last new_comps = Some DOTDOT)
       then new_comps ++ [comp]
       else removelast new_comps.

Definition normpath (path : str) : str :=
  if bool_decide (path = []) then DOT
  else
    let initial_slashes :=
      if startswith path [sep] then
        if startswith path [sep; sep] && negb (startswith path [sep; sep; sep])
        then 2%nat else 1%nat
      else O in
    let comps := fold_left (normpath_step initial_slashes) (split path sep) [] in
    let path := PyStr.join [sep] comps in
    let path := concat (replicate initial_slashes [sep]) ++ path in
    if bool_decide (path = []) then DOT else path.

End PosixPath.

(** [a < b] between two [TreeNode]s is [a.name < b.name]; so is the order
    [sorted] puts names in. *)
Definition str_le (a b : str) : Prop := str_ltb b a = false.

Global Instance str_le_dec a b : Decision (str_le a b).
Proof. unfold str_le. apply _. Defined.

(** [sorted(names)] of a set of names. *)
Definition sorted_names (s : gset str) : list str := merge_sort str_le (elements s).

(** [bisect.bisect_left(a, TreeNode(x))]: the probe node only carries [x]. *)
Fixpoint bisect_loop (fuel : nat) (h : heap) (a : list loc) (x : str) (lo hi : nat)
  : result nat :=
  if (lo <? hi)%nat then
    match fuel with
    | O => OutOfFuel
    | S fuel =>
      let mid := ((lo + hi) / 2)%nat in
      l <- deref (a !! mid);;
      o <- deref (h !! l);;
      if str_ltb (name o) x then bisect_loop fuel h a x (mid + 1) hi
      else bisect_loop fuel h a x lo mid
    end
  else Ok lo.

Definition bisect_left (h : heap) (a : list loc) (x : str) : result nat :=
  bisect_loop (length a) h a x O (length a).

(** [index < len(children) and children[index].get_name() == x]: the child
    found, if any. *)
Definition child_named (h : heap) (a : list loc) (x : str) : result (option loc) :=
  index <- bisect_left h a x;;
  match a !! index with
  | None => Ok None
  | Some l =>
    o <- deref (h !! l);;
    Ok (if bool_decide (name o = x) then Some l else None)
  end.

(** ** The operating system, as the module sees it *)

Inductive listing :=
| Entries (items : list str)
| PermissionDenied
| ListingFails.

Record os_env := {
  os_exists : str -> bool;
  os_isdir : str -> bool;
  os_listdir : str -> listing;
  os_relpath : str -> str -> str
}.

(** ** The tree builder and the facade *)

Record FileTree := mkFileTree {
  root_path : str;
  root_node : option loc
}.

Section Facade.

Variable os : os_env.
Variable fnmatch : str -> str -> bool.

(** *** [_should_ignore] *)

Fixpoint scan_patterns (path : str) (reversed_patterns : list str) : bool :=
  match reversed_patterns with
  | [] => false
  | pattern :: rest =>
    if startswith pattern [BANG] then
      if fnmatch path (drop 1 pattern) then false else scan_patterns path rest
    else
      if fnmatch path pattern then true else scan_patterns path rest
  end.

Definition _should_ignore (path : str) (ignore_patterns : option (list str)) : bool :=
  let ignore_patterns := default [] ignore_patterns in
  let path :=
    if os_isdir os path && negb (endswith path [SLASH]) then path ++ [SLASH] else path in
  scan_patterns path (rev ignore_patterns).

(** *** [_build_tree] *)

Definition build_item (root_path : str) (ignore_patterns : option (list str))
    (current_node : loc) (current_path : str) (item : str)
    (st : heap * list (loc * str)) : result (heap * list (loc * str)) :=
  let '(h, stack) := st in
  let item_path := PosixPath.join current_path item in
  let relative_path := os_relpath os item_path root_path in
  if _should_ignore relative_path ignore_patterns then Ok st
  else if os_isdir os item_path then
    let '(child_node, h) := Node.new item false h in
    h <- Node.add_child current_node child_node h;;
    Ok (h, (child_node, item_path) :: stack)
  else
    let '(leaf_node, h) := Node.new item true h in
    h <- Node.add_child current_node leaf_node h;;
    Ok (h, stack).

Fixpoint for_items {S : Type} (body : str -> S -> result S) (items : list str) (st : S)
  : result S :=
  match items with
  | [] => Ok st
  | item :: items => st <- body item st;; for_items body items st
  end.

(** A directory that may not be listed is reported and passed over. *)
Fixpoint build_loop (fuel : nat) (root_path : str) (ignore_patterns : option (list str))
    (st : heap * list (loc * str)) : result heap :=
  match st with
  | (h, []) => Ok h
  | (h, (current_node, current_path) :: stack) =>
    match fuel with
    | O => OutOfFuel
    | S fuel =>
      match os_listdir os current_path with
      | Entries items =>
        st <- for_items (build_item root_path ignore_patterns current_node current_path)
                        items (h, stack);;
        build_loop fuel root_path ignore_patterns st
      | PermissionDenied => build_loop fuel root_path ignore_patterns (h, stack)
      | ListingFails => Raise OSError
      end
    end
  end.

Definition _build_tree (fuel : nat) (root_node : loc) (root_path : str)
    (ignore_patterns : option (list str)) (h : heap) : result heap :=
  build_loop fuel root_path ignore_patterns (h, [(root_node, root_path)]).

(** *** [_build_tree_with_depth] *)

Definition depth_item (root_path : str) (folder_depth file_depth : Z)
    (ignore_patterns : option (list str))
    (current_node : loc) (current_path : str) (current_folder_depth : Z) (item : str)
    (st : heap * list (loc * str * Z)) : result (heap * list (loc * str * Z)) :=
  let '(h, stack) := st in
  let item_path := PosixPath.join current_path item in
  let relative_path := os_relpath os item_path root_path in
  if _should_ignore relative_path ignore_patterns then Ok st
  else if os_isdir os item_path then
    if negb (folder_depth =? 0) && (current_folder_depth =? folder_depth) then Ok st
    else
      let '(child_node, h) := Node.new item false h in
      h <- Node.add_child current_node child_node h;;
      Ok (h, (child_node, item_path, current_folder_depth + 1) :: stack)
  else
    if negb (file_depth =? 0) && (file_depth <=? current_folder_depth) then Ok st
    else
      let '(leaf_node, h) := Node.new item true h in
      h <- Node.add_child current_node leaf_node h;;
      Ok (h, stack).

(** One pass of the [while stack:] body; [None] once the stack is empty. *)
Definition depth_step (root_path : str) (folder_depth file_depth : Z)
    (ignore_patterns : option (list str)) (st : heap * list (loc * str * Z))
  : option (result (heap * list (loc * str * Z))) :=
  match st with
  | (h, []) => None
  | (h, (current_node, current_path, current_folder_depth) :: stack) =>
    Some
      (if negb (folder_depth =? 0) && (folder_depth <? current_folder_depth)
       then Ok (h, stack)
       else
         match os_listdir os current_path with
         | Entries items =>
           for_items (depth_item root_path folder_depth file_depth ignore_patterns
                        current_node current_path current_folder_depth)
                     items (h, stack)
         | PermissionDenied => Ok (h, stack)
         | ListingFails => Raise OSError
         end)
  end.

Fixpoint depth_loop (fuel : nat) (root_path : str) (folder_depth file_depth : Z)
    (ignore_patterns : option (list str)) (st : heap * list (loc * str * Z))
  : result heap :=
  match depth_step root_path folder_depth file_depth ignore_patterns st with
  | None => Ok (fst st)
  | Some r =>
    match fuel with
    | O => OutOfFuel
    | S fuel =>
      st <- r;;
      depth_loop fuel root_path folder_depth file_depth ignore_patterns st
    end
  end.

Definition _build_tree_with_depth (fuel : nat) (root_node : loc) (root_path : str)
    (depth : Z * Z) (ignore_patterns : option (list str)) (h : heap) : result heap :=
  let '(folder_depth, file_depth) := depth in
  depth_loop fuel root_path folder_depth file_depth ignore_patterns
    (h, [(root_node, root_path, 0)]).

(** *** [FileTree] *)

Definition STAR : str := Eval vm_compute in py "*".

(** [FileTree(root_path, ignore)] *)
Definition FileTree_init (fuel : nat) (root_path : str) (ignore : option (list str))
    (h : heap) : result (FileTree * heap) :=
  if negb (os_exists os root_path)
  then Raise (ValueError (py "The path " ++ root_path ++ py " does not exist."))
  else
    let '(root_node, h) := Node.new (PosixPath.basename root_path) false h in
    h <- _build_tree fuel root_node root_path ignore h;;
    Ok (mkFileTree root_path (Some root_node), h).

(** [tree.root_node = node] right after the construction of [tree]. *)
Definition set_root_node (tree : FileTree) (node : option loc) : FileTree :=
  mkFileTree (root_path tree) node.

Definition TrimmedTree (fuel : nat) (root_path : str) (depth : Z * Z)
    (ignore : option (list str)) (h : heap) : result (FileTree * heap) :=
  let '(root_node, h) := Node.new (PosixPath.basename root_path) false h in
  h <- _build_tree_with_depth fuel root_node root_path depth ignore h;;
  built <- FileTree_init fuel root_path (Some [STAR]) h;;
  let '(tree, h) := built in
  Ok (set_root_node tree (Some root_node), h).

(** *** [where] *)

(** [for non_leaf_name in sorted(...)]: each name found among the children
    is pushed with its path. *)
Fixpoint push_found (h : heap) (a : list loc) (current_path : str) (names : list str)
    (stack : list (loc * str)) : result (list (loc * str)) :=
  match names with
  | [] => Ok stack
  | non_leaf_name :: names =>
    found <- child_named h a non_leaf_name;;
    push_found h a current_path names
      match found with
      | Some l => (l, PosixPath.join current_path non_leaf_name) :: stack
      | None => stack
      end
  end.

Fixpoint where_loop (fuel : nat) (h : heap) (target : str) (stack : list (loc * str))
  : result (option str) :=
  match stack with
  | [] => Ok None
  | (current_node, current_path) :: stack =>
    match fuel with
    | O => OutOfFuel
    | S fuel =>
      node <- deref (h !! current_node);;
      found <- child_named h (children node) target;;
      match found with
      | Some _ => Ok (Some (PosixPath.join current_path target))
      | None =>
        match non_leaf_names node with
        | None => Raise TypeError
        | Some names =>
          stack <- push_found h (children node) current_path (sorted_names names) stack;;
          where_loop fuel h target stack
        end
      end
    end
  end.

Definition where_ (fuel : nat) (h : heap) (self : FileTree) (target : str)
  : result (option str) :=
  match root_node self with
  | None => Raise AttributeError
  | Some root => where_loop fuel h target [(root, root_path self)]
  end.

(** *** [create_subtree] *)

Definition ABOVE_ROOT : str := Eval vm_compute in py "Cannot navigate above the root directory.".

Definition missing_part (relative_path part : str) : str :=
  py "Path '" ++ relative_path ++ py "' is invalid. '" ++ part ++ py "' does not exist.".

(** The first loop: [path_queue] keeps its left end at the head. *)
Fixpoint resolve_parts (path_parts : list str) (path_queue : list str)
  : result (list str) :=
  match path_parts with
  | [] => Ok path_queue
  | part :: rest =>
    if bool_decide (part = PosixPath.DOT) then resolve_parts rest path_queue
    else if bool_decide (part = PosixPath.DOTDOT) then
      match path_queue with
      | [] => Raise (ValueError ABOVE_ROOT)
      | _ => resolve_parts rest (removelast path_queue)
      end
    else resolve_parts rest (path_queue ++ [part])
  end.

(** The second loop. *)
Fixpoint navigate (h : heap) (relative_path : str) (path_queue : list str)
    (current_node : option loc) : result (option loc) :=
  match path_queue with
  | [] => Ok current_node
  | part :: rest =>
    match current_node with
    | None => Raise AttributeError
    | Some l =>
      node <- deref (h !! l);;
      found <- child_named h (children node) part;;
      match found with
      | Some l' => navigate h relative_path rest (Some l')
      | None => Raise (ValueError (missing_part relative_path part))
      end
    end
  end.

Definition create_subtree (fuel : nat) (h : heap) (self : FileTree) (relative_path : str)
  : result (FileTree * heap) :=
  let path_parts := split (PosixPath.normpath relative_path) PosixPath.sep in
  path_queue <- resolve_parts path_parts [];;
  current_node <- navigate h relative_path path_queue (root_node self);;
  let subtree_root_path := PosixPath.join (root_path self) relative_path in
  built <- FileTree_init fuel subtree_root_path None h;;
  let '(subtree, h) := built in
  Ok (set_root_node subtree current_node, h).

(** *** [FileTree.from_md] *)

Definition FENCE : str := Eval vm_compute in py "```".

(** The first two lines that hold a fence, by index. *)
Fixpoint find_fences (lines : list str) (i : nat) (start_idx : option nat)
  : option nat * option nat :=
  match lines with
  | [] => (start_idx, None)
  | line :: lines =>
    if contains line FENCE then
      match start_idx with
      | None => find_fences lines (S i) (Some i)
      | Some _ => (start_idx, Some i)
      end
    else find_fences lines (S i) start_idx
  end.

Definition MISSING_FENCE : str :=
  Eval vm_compute in py "Markdown format error: missing matching ``` markers.".

Definition indent_mismatch (start_indent end_indent : nat) (start_line end_line : str) : str :=
  py "Markdown format error: inconsistent indentation for ``` markers." ++ [NL]
  ++ py "Start indent: " ++ str_of_nat start_indent ++ py ", line: '" ++ start_line
  ++ py "'" ++ [NL]
  ++ py "End indent: " ++ str_of_nat end_indent ++ py ", line: '" ++ end_line ++ py "'".

Definition leading_indent (line : str) : nat := (length line - length (lstrip line))%nat.

Definition FileTree_from_md (fuel : nat) (md_str : str) (h : heap)
  : result (option FileTree * heap) :=
  let lines := splitlines md_str in
  match lines with
  | [] => Ok (None, h)
  | _ =>
    match find_fences lines O None with
    | (Some start_idx, Some end_idx) =>
      start_line <- deref (lines !! start_idx);;
      end_line <- deref (lines !! end_idx);;
      let start_indent := leading_indent start_line in
      let end_indent := leading_indent end_line in
      if negb (start_indent =? end_indent)%nat
      then Raise (ValueError (indent_mismatch start_indent end_indent start_line end_line))
      else
        let indent_length := start_indent in
        let md_content :=
          PyStr.join [NL]
            (map (fun line => rstrip (drop indent_length line))
                 (take (end_idx - (start_idx + 1)) (drop (start_idx + 1) lines))) in
        built <- Node.from_md md_content h;;
        let '(root_node, h) := built in
        match root_node with
        | None => Raise AttributeError
        | Some root =>
          root_path <- Node.get_name root h;;
          built <- FileTree_init fuel root_path None h;;
          let '(tree, h) := built in
          Ok (Some (set_root_node tree (Some root)), h)
        end
    | _ => Raise (ValueError MISSING_FENCE)
    end
  end.

(** *** [FileTree.to_md], [dump_md] and [load_md] *)

Definition FileTree_to_md (fuel : nat) (h : heap) (self : FileTree) (depth : Z * Z)
  : result str :=
  match root_node self with
  | None => Raise AttributeError
  | Some root => Node.to_md fuel h root 0 false [] depth
  end.

(** The text of the file once [dump_md] is over, with the outcome of the
    call: the title and the opening fence are written before the diagram
    is computed, so that they stay in the file when [to_md] raises. *)
Definition dump_md (fuel : nat) (h : heap) (self : FileTree) (content : str)
    (append : bool) (indent : Z) (depth : Z * Z) (title : option str)
  : str * result unit :=
  let indent_space := times [SPACE] indent in
  let content :=
    (if append then content else [])
    ++ match title with Some t => t ++ [NL; NL] | None => [] end
    ++ indent_space ++ FENCE ++ [NL] in
  match (match root_node self with
         | None => Raise AttributeError
         | Some root => Node.to_md fuel h root 0 false indent_space depth
         end) with
  | Ok md_output => (content ++ md_output ++ [NL] ++ indent_space ++ FENCE ++ [NL], Ok tt)
  | Raise e => (content, Raise e)
  | Stuck => (content, Stuck)
  | OutOfFuel => (content, OutOfFuel)
  end.

(** Reading a file in text mode: [\r\n] and [\r] come out as [\n]. *)
Fixpoint universal_newlines (s : str) : str :=
  match s with
  | [] => []
  | c :: r =>
    if (c =? CR)%N then
      match r with
      | c' :: r' =>
        if (c' =? NL)%N then NL :: universal_newlines r' else NL :: universal_newlines r
      | [] => [NL]
      end
    else c :: universal_newlines r
  end.

Definition load_md (fuel : nat) (content : str) (h : heap)
  : result (option FileTree * heap) :=
  FileTree_from_md fuel (universal_newlines content) h.

(** *** [to_str] and [from_str] *)

Definition ROOT_DIR : str := Eval vm_compute in py "Root Dir: ".

Definition FileTree_to_str (fuel : nat) (h : heap) (self : FileTree) (depth : Z * Z)
  : result str :=
  match root_node self with
  | None => Raise AttributeError
  | Some root =>
    listing <- Node.to_repr fuel h root 0 depth;;
    Ok (ROOT_DIR ++ root_path self ++ [NL] ++ listing)
  end.

Definition FileTree_from_str (fuel : nat) (repr_str : str) (h : heap)
  : result (option FileTree * heap) :=
  let lines := splitlines (strip repr_str) in
  match lines with
  | line0 :: ((_ :: _) as rest) =>
    let root_path := strip (replace line0 ROOT_DIR []) in
    let repr_content := PyStr.join [NL] rest in
    built <- Node.from_repr repr_content h;;
    let '(root_node, h) := built in
    built <- FileTree_init fuel root_path None h;;
    let '(tree, h) := built in
    Ok (Some (set_root_node tree root_node), h)
  | _ => Ok (None, h)
  end.

(** *** [to_dict] and [from_dict] of the facade *)

Definition FileTree_to_dict (fuel : nat) (h : heap) (self : FileTree) (dh : dheap)
  : result (dloc * dheap) :=
  match root_node self with
  | None => Ok (Dict.new [] dh)
  | Some root => Mapping.to_dict fuel h root dh
  end.

Definition FileTree_from_dict (fuel : nat) (tree_dict : dloc) (root_path : option str)
    (st : heap * dheap) : result (option FileTree * (heap * dheap)) :=
  items <- deref (snd st !! tree_dict);;
  match items with
  | [] => Ok (None, st)
  | _ =>
    built <- Mapping.from_dict fuel tree_dict st;;
    let '(root_node, (h, dh)) := built in
    root_path <- match root_path, root_node with
                 | Some p, _ => Ok p
                 | None, Some root => Node.get_name root h
                 | None, None => Raise AttributeError
                 end;;
    built <- FileTree_init fuel root_path None h;;
    let '(tree, h) := built in
    Ok (Some (set_root_node tree root_node), (h, dh))
  end.

End Facade.

(** *** [parse_ignore_file] *)

(** [f.readlines()] on a file read in text mode: the lines keep their line
    feed; the last line has none when the text does not end with one. *)
Fixpoint readlines_from (cur : str) (s : str) : list str :=
  match s with
  | [] => match cur with [] => [] | _ => [rev cur] end
  | c :: r =>
    if (c =? NL)%N then rev (c :: cur) :: readlines_from [] r
    else readlines_from (c :: cur) r
  end.

Definition readlines (content : str) : list str :=
  readlines_from [] (universal_newlines content).

(** [[line.strip() for line in lines if line.strip() and not
    line.strip().startswith(comment_symbol)]] *)
Fixpoint parsed_lines (comment_symbol : str) (lines : list str) : list str :=
  match lines with
  | [] => []
  | line :: lines =>
    let pattern := strip line in
    if match pattern with [] => false | _ => true end
       && negb (startswith pattern comment_symbol)
    then pattern :: parsed_lines comment_symbol lines
    else parsed_lines comment_symbol lines
  end.

(** The two outcomes of the call: the patterns, or [FileNotFoundError]. *)
Inductive parsed : Type :=
| Patterns (patterns : list str)
| FileNotFoundError (msg : str).

(** [os_isfile] is [os.path.isfile] and [content] the text of the file. *)
Definition parse_ignore_file (os : os_env) (os_isfile : str -> bool) (content : str)
    (file_path comment_symbol : str) : parsed :=
  if negb (os_exists os file_path)
  then FileNotFoundError (py "The file '" ++ file_path ++ py "' does not exist.")
  else if negb (os_isfile file_path)
  then FileNotFoundError (py "'" ++ file_path ++ py "' is not a valid file.")
  else Patterns (parsed_lines comment_symbol (readlines content)).

(** ** Node Trees as values *)

(** What a reference stands for once the objects are read off the store:
    a name, the leaf tag and the children in stored order. *)
Inductive Tree :=
| Entry (t_name : str) (t_leaf : bool) (t_children : list Tree).

Definition t_name (T : Tree) : str := match T with Entry n _ _ => n end.
Definition t_leaf (T : Tree) : bool := match T with Entry _ lf _ => lf end.
Definition t_children (T : Tree) : list Tree := match T with Entry _ _ cs => cs end.

(** [represents h l T]: the objects reachable from [l] in [h] spell [T]. *)
Inductive represents (h : heap) : loc -> Tree -> Prop :=
| represents_entry l o cs :
    h !! l = Some o ->
    Forall2 (represents h) (children o) cs ->
    represents h l (Entry (name o) (is_leaf o) cs).

(** Reading a tree off the store, to a bounded depth. *)
Fixpoint reify (fuel : nat) (h : heap) (l : loc) : option Tree :=
  match fuel with
  | O => None
  | S fuel =>
    o ← h !! l;
    cs ← mapM (reify fuel h) (children o);
    Some (Entry (name o) (is_leaf o) cs)
  end.

Fixpoint size (T : Tree) : nat :=
  match T with Entry _ _ cs => S (list_sum (map size cs)) end.

(** The data model's conditions on a Node Tree: a leaf carries no children
    and sibling names are distinct. *)
Fixpoint well_formed (T : Tree) : Prop :=
  match T with
  | Entry _ lf cs =>
    (lf = true -> cs = []) /\ NoDup (map t_name cs) /\
    (fix all (cs : list Tree) : Prop :=
       match cs with [] => True | c :: cs => well_formed c /\ all cs end) cs
  end.

(** Children in ascending order of name, at every directory. *)
Fixpoint name_sorted (T : Tree) : Prop :=
  match T with
  | Entry _ _ cs =>
    StronglySorted (fun a b => str_ltb (t_name a) (t_name b) = true) cs /\
    (fix all (cs : list Tree) : Prop :=
       match cs with [] => True | c :: cs => name_sorted c /\ all cs end) cs
  end.

(** Every node with its level, the root at [lvl]. *)
Fixpoint nodes_at (lvl : Z) (T : Tree) : list (Z * Tree) :=
  (lvl, T) :: match T with Entry _ _ cs => flat_map (nodes_at (lvl + 1)) cs end.

(** The objects of a tree laid out in visiting order from reference [base]:
    the layout every decoder of the module produces. *)
Fixpoint child_locs (base : nat) (cs : list Tree) : list loc :=
  match cs with
  | [] => []
  | c :: cs => base :: child_locs (base + size c)%nat cs
  end.

Definition dir_names (cs : list Tree) : gset str :=
  list_to_set (map t_name (filter (fun c => t_leaf c = false) cs)).

Fixpoint flatten (base : nat) (T : Tree) : heap :=
  match T with
  | Entry n lf cs =>
    mkTreeNode n lf (child_locs (S base) cs) (if lf then None else Some (dir_names cs))
    :: (fix forest (b : nat) (cs : list Tree) : heap :=
          match cs with
          | [] => []
          | c :: cs => flatten b c ++ forest (b + size c)%nat cs
          end) (S base) cs
  end.

Definition flatten_forest : nat -> list Tree -> heap :=
  fix forest (b : nat) (cs : list Tree) : heap :=
    match cs with
    | [] => []
    | c :: cs => flatten b c ++ forest (b + size c)%nat cs
    end.

(** *** Depth caps on a tree *)

(** A node at [lvl] stays under the caps [(fd, ld)]; [0] caps nothing. *)
Definition within_caps (fd ld : Z) (lvl : Z) (c : Tree) : bool :=
  if t_leaf c then (ld =? 0) || (lvl <=? ld) else (fd =? 0) || (lvl <=? fd).

(** The tree left when every node over its cap is dropped with its subtree
    and its siblings are kept. *)
Fixpoint prune (fd ld : Z) (lvl : Z) (T : Tree) : Tree :=
  match T with
  | Entry n lf cs =>
    Entry n lf
      (flat_map (fun c => if within_caps fd ld (lvl + 1) c
                          then [prune fd ld (lvl + 1) c] else []) cs)
  end.

Local Close Scope Z_scope.

(** ** Pattern precedence *)

(** The path the patterns are tried on: a directory gets a trailing [/]. *)
Definition matched_path (os : os_env) (path : str) : str :=
  if os_isdir os path && negb (endswith path [SLASH]) then path ++ [SLASH] else path.

Definition is_negation (pattern : str) : bool := startswith pattern [BANG].

(** A pattern matches when its glob, the [!] dropped, matches the path. *)
Definition pattern_matches (fnmatch : str -> str -> bool) (path pattern : str) : bool :=
  if is_negation pattern then fnmatch path (drop 1 pattern) else fnmatch path pattern.

(** A matcher for the shell wildcards [*] and [?] (character classes are
    left out), to run the pattern scan on. *)
Fixpoint glob (pattern : str) (s : str) : bool :=
  match pattern with
  | [] => match s with [] => true | _ => false end
  | p :: pattern' =>
    if (p =? 42)%N then
      (fix star (s : str) : bool :=
         glob pattern' s || match s with [] => false | _ :: s' => star s' end) s
    else
      match s with
      | [] => false
      | c :: s' => ((p =? 63)%N || (p =? c)%N) && glob pattern' s'
      end
  end.

(** [fnmatch.fnmatchcase(filename, pattern)] on those wildcards. *)
Definition fnmatchcase (filename pattern : str) : bool := glob pattern filename.

Definition os_none : os_env :=
  {| os_exists := fun _ => false;
     os_isdir := fun _ => false;
     os_listdir := fun _ => ListingFails;
     os_relpath := fun p _ => p |}.

Definition KEEP_LOG : str := Eval vm_compute in py "keep.log".
Definition STAR_LOG : str := Eval vm_compute in py "*.log".
Definition NOT_KEEP_LOG : str := Eval vm_compute in py "!keep.log".

Lemma scan_patterns_app fnmatch path l1 l2 :
  Forall (fun q => pattern_matches fnmatch path q = false) l1 ->
  scan_patterns fnmatch path (l1 ++ l2) = scan_patterns fnmatch path l2.
Proof.
  induction 1 as [|q l1 Hq _ IH]; [done|].
  simpl. unfold pattern_matches, is_negation in Hq.
  destruct (startswith q [BANG]); rewrite Hq; exact IH.
Qed.

Lemma scan_patterns_hit fnmatch path pat rest :
  pattern_matches fnmatch path pat = true ->
  scan_patterns fnmatch path (pat :: rest) = negb (is_negation pat).
Proof.
  intros Hm. simpl. unfold pattern_matches, is_negation in *.
  destruct (startswith pat [BANG]); rewrite Hm; done.
Qed.

(** C3: the patterns are scanned from the last declared to the first and
    the first one that matches decides: a [!] pattern keeps the path, a
    plain one ignores it, and a path no pattern matches is kept.  With
    [*.log] then [!keep.log] the file [keep.log] is kept; with the two
    declared the other way round it is ignored. *)
Theorem should_ignore_last_match_wins (os : os_env) (fnmatch : str -> str -> bool)
    (path : str) (patterns : list str) :
  (forall earlier pat later,
      patterns = earlier ++ pat :: later ->
      pattern_matches fnmatch (matched_path os path) pat = true ->
      Forall (fun q => pattern_matches fnmatch (matched_path os path) q = false) later ->
      _should_ignore os fnmatch path (Some patterns) = negb (is_negation pat))
  /\ (Forall (fun q => pattern_matches fnmatch (matched_path os path) q = false) patterns ->
      _should_ignore os fnmatch path (Some patterns) = false)
  /\ (os_isdir os KEEP_LOG = false ->
      fnmatch KEEP_LOG STAR_LOG = true ->
      fnmatch KEEP_LOG KEEP_LOG = true ->
      _should_ignore os fnmatch KEEP_LOG (Some [STAR_LOG; NOT_KEEP_LOG]) = false
      /\ _should_ignore os fnmatch KEEP_LOG (Some [NOT_KEEP_LOG; STAR_LOG]) = true).
Proof.
  split; [|split].
  - intros earlier pat later -> Hm Hlater.
    unfold _should_ignore. fold (matched_path os path). simpl.
    rewrite rev_app_distr. simpl. rewrite <- app_assoc.
    rewrite scan_patterns_app; [apply scan_patterns_hit; exact Hm|].
    apply Forall_forall. intros q Hq. rewrite Forall_forall in Hlater. apply Hlater.
    apply list_elem_of_In, in_rev, list_elem_of_In. exact Hq.
  - intros Hnone. unfold _should_ignore. fold (matched_path os path). simpl.
    rewrite <- (app_nil_r (rev patterns)).
    rewrite scan_patterns_app; [done|].
    apply Forall_forall. intros q Hq. rewrite Forall_forall in Hnone. apply Hnone.
    apply list_elem_of_In, in_rev, list_elem_of_In. exact Hq.
  - intros Hfile Hstar Hlit. unfold _should_ignore. rewrite Hfile.
    cbn [andb default].
    change (scan_patterns fnmatch KEEP_LOG [NOT_KEEP_LOG; STAR_LOG] = false
            /\ scan_patterns fnmatch KEEP_LOG [STAR_LOG; NOT_KEEP_LOG] = true).
    split; rewrite scan_patterns_hit; first [reflexivity | assumption].
Qed.

Lemma should_ignore_last_match_wins_witness :
  _should_ignore os_none fnmatchcase KEEP_LOG (Some [STAR_LOG; NOT_KEEP_LOG]) = false
  /\ _should_ignore os_none fnmatchcase KEEP_LOG (Some [NOT_KEEP_LOG; STAR_LOG]) = true
  /\ _should_ignore os_none fnmatchcase KEEP_LOG (Some [STAR_LOG; NOT_KEEP_LOG]) =
     negb (is_negation NOT_KEEP_LOG).
Proof.
  pose proof (should_ignore_last_match_wins os_none fnmatchcase KEEP_LOG [STAR_LOG; NOT_KEEP_LOG])
    as (Hscan & _ & Hex).
  destruct Hex as [H1 H2]; [reflexivity..|].
  split; [exact H1|split; [exact H2|]].
  apply (Hscan [STAR_LOG] NOT_KEEP_LOG []); [reflexivity|reflexivity|constructor].
Defined.

(** ** The fenced diagram of a document *)

Definition fenced (line : str) : Prop := contains line FENCE = true.

Global Instance fenced_dec line : Decision (fenced line).
Proof. unfold fenced. apply _. Defined.

(** What [FileTree.from_md] goes on to do with the lines between the two
    fences, [indent] being the indentation the fences share. *)
Definition decode_fenced (os : os_env) (fnmatch : str -> str -> bool) (fuel : nat) (indent : nat) (body : list str)
    (h : heap) : result (option FileTree * heap) :=
  built <- Node.from_md (PyStr.join [NL] (map (fun line => rstrip (drop indent line)) body)) h;;
  let '(root_node, h) := built in
  match root_node with
  | None => Raise AttributeError
  | Some root =>
    root_path <- Node.get_name root h;;
    built <- FileTree_init os fnmatch fuel root_path None h;;
    let '(tree, h) := built in
    Ok (Some (set_root_node tree (Some root)), h)
  end.

Definition FENCE_2 : str := Eval vm_compute in py "  ```".
Definition FENCE_4 : str := Eval vm_compute in py "    ```".
Definition DIAGRAM_ROOT : str := Eval vm_compute in py "  root/".

Local Arguments leading_indent : simpl never.
Local Arguments indent_mismatch : simpl never.
Local Arguments Node.from_md : simpl never.
Local Arguments PyStr.join : simpl never.
Local Arguments rstrip : simpl never.
Local Arguments FileTree_init : simpl never.

Lemma match_nonempty {A B : Type} (l : list A) (x y : B) :
  l <> [] -> match l with [] => x | _ :: _ => y end = y.
Proof. by destruct l. Qed.

Lemma find_fences_unfenced lines i start_idx :
  Forall (fun l => ~ fenced l) lines ->
  find_fences lines i start_idx = (start_idx, None).
Proof.
  intros H. revert i. induction H as [|l lines Hl _ IH]; intros i; [done|].
  simpl. unfold fenced in Hl. destruct (contains l FENCE); [done|]. apply IH.
Qed.

Lemma find_fences_second mid close post i a :
  Forall (fun l => ~ fenced l) mid -> fenced close ->
  find_fences (mid ++ close :: post) i (Some a) = (Some a, Some (i + length mid)%nat).
Proof.
  intros H Hc. revert i. induction H as [|l mid Hl _ IH]; intros i.
  - simpl. rewrite Hc. by rewrite Nat.add_0_r.
  - simpl. unfold fenced in Hl. destruct (contains l FENCE); [done|].
    rewrite IH. do 2 f_equal. lia.
Qed.

Lemma find_fences_pair pre open mid close post i :
  Forall (fun l => ~ fenced l) pre -> fenced open ->
  Forall (fun l => ~ fenced l) mid -> fenced close ->
  find_fences (pre ++ open :: mid ++ close :: post) i None
  = (Some (i + length pre)%nat, Some (i + length pre + 1 + length mid)%nat).
Proof.
  intros H Ho Hm Hc. revert i. induction H as [|l pre Hl _ IH]; intros i.
  - simpl. rewrite Ho. rewrite find_fences_second by done.
    rewrite Nat.add_0_r. do 2 f_equal. lia.
  - simpl. unfold fenced in Hl. destruct (contains l FENCE); [done|].
    rewrite IH. f_equal; f_equal; simpl; lia.
Qed.

Lemma find_fences_counts lines i start_idx a b :
  find_fences lines i start_idx = (Some a, Some b) ->
  (2 <= length (filter fenced lines) + match start_idx with Some _ => 1 | None => 0 end)%nat.
Proof.
  revert i start_idx. induction lines as [|l lines IH]; intros i start_idx; simpl.
  - intros [= _ ?]. 
  - rewrite filter_cons. destruct (decide (fenced l)) as [Hf|Hf].
    + rewrite Hf. destruct start_idx.
      * intros _. simpl. lia.
      * intros H. apply IH in H. simpl in *. lia.
    + unfold fenced in Hf. destruct (contains l FENCE); [done|]. apply IH.
Qed.

(** C8 (as amended): for a document of at least one line, the decoder
    takes the first two lines that hold a fence.  It raises [ValueError]
    when fewer than two lines hold one, and when the two lines differ in
    the number of leading blanks; otherwise it decodes the lines between
    them.  A fence at two blanks closed by one at four is refused. *)
Theorem FileTree_from_md_fences (os : os_env) (fnmatch : str -> str -> bool) (fuel : nat) (md_str : str) (h : heap) :
  splitlines md_str <> [] ->
  ((length (filter fenced (splitlines md_str)) < 2)%nat ->
   FileTree_from_md os fnmatch fuel md_str h = Raise (ValueError MISSING_FENCE))
  /\ (forall pre open mid close post,
       splitlines md_str = pre ++ open :: mid ++ close :: post ->
       Forall (fun l => ~ fenced l) pre -> fenced open ->
       Forall (fun l => ~ fenced l) mid -> fenced close ->
       (leading_indent open <> leading_indent close ->
        FileTree_from_md os fnmatch fuel md_str h
        = Raise (ValueError (indent_mismatch (leading_indent open) (leading_indent close)
                               open close)))
       /\ (leading_indent open = leading_indent close ->
           FileTree_from_md os fnmatch fuel md_str h
           = decode_fenced os fnmatch fuel (leading_indent open) mid h))
  /\ (splitlines md_str = [FENCE_2; DIAGRAM_ROOT; FENCE_4] ->
      exists msg, FileTree_from_md os fnmatch fuel md_str h = Raise (ValueError msg)).
Proof.
  intros Hlines.
  assert (Hpair : forall pre open mid close post,
       splitlines md_str = pre ++ open :: mid ++ close :: post ->
       Forall (fun l => ~ fenced l) pre -> fenced open ->
       Forall (fun l => ~ fenced l) mid -> fenced close ->
       (leading_indent open <> leading_indent close ->
        FileTree_from_md os fnmatch fuel md_str h
        = Raise (ValueError (indent_mismatch (leading_indent open) (leading_indent close)
                               open close)))
       /\ (leading_indent open = leading_indent close ->
           FileTree_from_md os fnmatch fuel md_str h
           = decode_fenced os fnmatch fuel (leading_indent open) mid h)).
  { intros pre open mid close post Heq Hpre Ho Hmid Hc.
    unfold FileTree_from_md. rewrite Heq.
    rewrite match_nonempty by (by destruct pre).
    rewrite find_fences_pair by done. simpl.
    replace ((pre ++ open :: mid ++ close :: post) !! length pre) with (Some open)
      by (symmetry; apply list_lookup_middle; done).
    replace ((pre ++ open :: mid ++ close :: post) !! (length pre + 1 + length mid)%nat)
      with (Some close).
    2:{ symmetry. rewrite lookup_app_r by lia.
        replace (length pre + 1 + length mid - length pre)%nat with (S (length mid)) by lia.
        simpl. apply list_lookup_middle. done. }
    simpl. split.
    - intros Hne. apply Nat.eqb_neq in Hne. rewrite Hne. done.
    - intros He. rewrite <- He, Nat.eqb_refl. simpl. unfold decode_fenced.
      replace (take (length pre + 1 + length mid - (length pre + 1))
                 (drop (length pre + 1) (pre ++ open :: mid ++ close :: post))) with mid.
      { done. }
      rewrite drop_app, drop_ge by lia.
      replace (length pre + 1 - length pre)%nat with 1%nat by lia. simpl.
      replace (length pre + 1 + length mid - (length pre + 1))%nat with (length mid) by lia.
      by rewrite drop_0, take_app_length. }
  split; [|split; [exact Hpair|]].
  - intros Hfew. unfold FileTree_from_md.
    destruct (splitlines md_str) as [|l0 ls] eqn:E; [done|].
    destruct (find_fences (l0 :: ls) 0 None) as [[a|] [b|]] eqn:F; try done.
    apply find_fences_counts in F. lia.
  - intros Heq.
    destruct (Hpair [] FENCE_2 [DIAGRAM_ROOT] FENCE_4 []) as [Hne _];
      [exact Heq|constructor|reflexivity|idtac|reflexivity|].
    { constructor; [|constructor]. unfold fenced. vm_compute. discriminate. }
    eexists. apply Hne. vm_compute. discriminate.
Qed.

Lemma FileTree_from_md_fences_witness :
  exists msg,
    FileTree_from_md os_none fnmatchcase 0 (FENCE_2 ++ [NL] ++ DIAGRAM_ROOT ++ [NL] ++ FENCE_4) []
    = Raise (ValueError msg).
Proof.
  refine (proj2 (proj2 (FileTree_from_md_fences os_none fnmatchcase 0
            (FENCE_2 ++ [NL] ++ DIAGRAM_ROOT ++ [NL] ++ FENCE_4) [] _)) _).
  - vm_compute. discriminate.
  - vm_compute. reflexivity.
Defined.

(** The empty document has no fence and is answered with [None], no error
    being raised. *)
Lemma FileTree_from_md_empty_document :
  (length (filter fenced (splitlines [])) < 2)%nat
  /\ FileTree_from_md os_none fnmatchcase 0 [] [] = Ok (None, []).
Proof. split; [vm_compute; lia|reflexivity]. Qed.

(** ** The order of names and the binary search *)

Lemma str_ltb_irrefl a : str_ltb a a = false.
Proof.
  induction a as [|x a IH]; [done|]. simpl.
  rewrite N.ltb_irrefl, N.eqb_refl. exact IH.
Qed.

Lemma str_ltb_trans a b c :
  str_ltb a b = true -> str_ltb b c = true -> str_ltb a c = true.
Proof.
  revert b c. induction a as [|x a IH]; intros [|y b] [|z c]; simpl; try done.
  intros H1 H2.
  apply orb_true_iff in H1 as [H1|H1]; apply orb_true_iff in H2 as [H2|H2];
    apply orb_true_iff.
  - left. apply N.ltb_lt in H1, H2. apply N.ltb_lt. lia.
  - apply andb_true_iff in H2 as [H2 _]. apply N.eqb_eq in H2. subst. by left.
  - apply andb_true_iff in H1 as [H1 _]. apply N.eqb_eq in H1. subst. by left.
  - apply andb_true_iff in H1 as [H1 H1'], H2 as [H2 H2'].
    apply N.eqb_eq in H1, H2. subst. right.
    rewrite N.eqb_refl. simpl. eapply IH; eassumption.
Qed.

Lemma str_ltb_total a b : a <> b -> str_ltb a b = true \/ str_ltb b a = true.
Proof.
  revert b. induction a as [|x a IH]; intros [|y b] Hne; simpl; try done; auto.
  destruct (N.lt_trichotomy x y) as [H|[H|H]].
  - left. apply orb_true_iff. left. by apply N.ltb_lt.
  - subst. rewrite N.ltb_irrefl, N.eqb_refl. simpl.
    apply IH. congruence.
  - right. apply orb_true_iff. left. by apply N.ltb_lt.
Qed.

Lemma str_ltb_asym a b : str_ltb a b = true -> str_ltb b a = false.
Proof.
  intros H. destruct (str_ltb b a) eqn:E; [|done].
  pose proof (str_ltb_trans _ _ _ H E) as Hc. by rewrite str_ltb_irrefl in Hc.
Qed.

Global Instance str_le_total : Total str_le.
Proof.
  intros a b. unfold str_le. destruct (decide (a = b)) as [->|Hne].
  - left. apply str_ltb_irrefl.
  - destruct (str_ltb_total a b Hne) as [H|H]; [left|right]; by apply str_ltb_asym.
Qed.

Global Instance str_le_trans : Transitive str_le.
Proof.
  intros a b c. unfold str_le. intros H1 H2.
  destruct (str_ltb c a) eqn:E; [|done].
  destruct (decide (b = c)) as [->|Hbc]; [congruence|].
  destruct (str_ltb_total b c Hbc) as [H|H]; [|congruence].
  pose proof (str_ltb_trans _ _ _ H E). congruence.
Qed.

Global Instance str_le_antisym : AntiSymm (=) str_le.
Proof.
  intros a b. unfold str_le. intros H1 H2.
  destruct (decide (a = b)) as [|Hne]; [done|].
  destruct (str_ltb_total a b Hne); congruence.
Qed.

(** The names behind a list of references. *)
Definition names_of (h : heap) (a : list loc) (ns : list str) : Prop :=
  Forall2 (fun l n => exists o, h !! l = Some o /\ name o = n) a ns.

Definition ascending (ns : list str) : Prop :=
  forall i j a b, i < j -> ns !! i = Some a -> ns !! j = Some b -> str_ltb a b = true.

Lemma names_of_lookup h a ns i n :
  names_of h a ns -> ns !! i = Some n ->
  exists l o, a !! i = Some l /\ h !! l = Some o /\ name o = n.
Proof.
  intros H Hn. destruct (Forall2_lookup_r _ _ _ _ _ H Hn) as (l & Hl & o & Ho & Hnm).
  eauto.
Qed.

Lemma bisect_loop_S fuel h a x lo hi :
  bisect_loop (S fuel) h a x lo hi =
  if lo <? hi then
    l <- deref (a !! ((lo + hi) / 2));;
    o <- deref (h !! l);;
    if str_ltb (name o) x then bisect_loop fuel h a x ((lo + hi) / 2 + 1) hi
    else bisect_loop fuel h a x lo ((lo + hi) / 2)
  else Ok lo.
Proof. reflexivity. Qed.

Lemma half_between lo hi : lo < hi -> lo <= (lo + hi) / 2 < hi.
Proof.
  intros H. split; [apply Nat.div_le_lower_bound; lia|apply Nat.Div0.div_lt_upper_bound; lia].
Qed.

Lemma bisect_loop_spec h a ns x :
  names_of h a ns -> ascending ns ->
  forall fuel lo hi,
    lo <= hi -> hi <= length ns -> hi - lo <= fuel ->
    (forall j n, j < lo -> ns !! j = Some n -> str_ltb n x = true) ->
    (forall j n, hi <= j -> ns !! j = Some n -> str_ltb n x = false) ->
    exists i, bisect_loop fuel h a x lo hi = Ok i /\ i <= length ns /\
      (forall j n, j < i -> ns !! j = Some n -> str_ltb n x = true) /\
      (forall j n, i <= j -> ns !! j = Some n -> str_ltb n x = false).
Proof.
  intros Hn Hasc. induction fuel as [|fuel IH]; intros lo hi Hle Hhi Hfuel Hlo Hup.
  - assert (lo = hi) as -> by lia. exists hi. simpl.
    rewrite Nat.ltb_irrefl. eauto.
  - rewrite bisect_loop_S. destruct (lo <? hi) eqn:E.
    2:{ apply Nat.ltb_ge in E. assert (lo = hi) as -> by lia. exists hi. eauto. }
    apply Nat.ltb_lt in E.
    pose proof (half_between lo hi E) as Hmid.
    destruct (lookup_lt_is_Some_2 ns ((lo + hi) / 2)) as [n Hnm]; [lia|].
    destruct (names_of_lookup _ _ _ _ _ Hn Hnm) as (l & o & Hl & Ho & Hname).
    rewrite Hl. cbn [deref bind]. rewrite Ho. cbn [deref bind]. rewrite Hname.
    destruct (str_ltb n x) eqn:Elt.
    + apply IH; [lia..| |exact Hup].
      intros j m Hj Hm. destruct (decide (j = (lo + hi) / 2)) as [->|Hne].
      * congruence.
      * eapply str_ltb_trans; [|exact Elt].
        eapply (Hasc j ((lo + hi) / 2)); [lia|done..].
    + apply IH; [lia..|exact Hlo|].
      intros j m Hj Hm. destruct (decide (j = (lo + hi) / 2)) as [->|Hne].
      * congruence.
      * destruct (str_ltb m x) eqn:Emx; [|done].
        assert (str_ltb n m = true) by (eapply (Hasc ((lo + hi) / 2) j); [lia|done..]).
        pose proof (str_ltb_trans _ _ _ H Emx). congruence.
Qed.

(** Whatever the order of [a], the search ends on an index of [a] or on
    its length. *)
Lemma bisect_loop_ends h a ns x :
  names_of h a ns ->
  forall fuel lo hi,
    lo <= hi -> hi <= length ns -> hi - lo <= fuel ->
    exists i, bisect_loop fuel h a x lo hi = Ok i.
Proof.
  intros Hn. induction fuel as [|fuel IH]; intros lo hi Hle Hhi Hfuel.
  - assert (lo = hi) as -> by lia. exists hi. simpl. by rewrite Nat.ltb_irrefl.
  - rewrite bisect_loop_S. destruct (lo <? hi) eqn:E; [|eauto].
    apply Nat.ltb_lt in E.
    pose proof (half_between lo hi E) as Hmid.
    destruct (lookup_lt_is_Some_2 ns ((lo + hi) / 2)) as [n Hnm]; [lia|].
    destruct (names_of_lookup _ _ _ _ _ Hn Hnm) as (l & o & Hl & Ho & Hname).
    rewrite Hl. cbn [deref bind]. rewrite Ho. cbn [deref bind].
    destruct (str_ltb (name o) x); apply IH; lia.
Qed.

(** A name that no child carries is never found. *)
Lemma child_named_absent h a ns x :
  names_of h a ns -> x ∉ ns -> child_named h a x = Ok None.
Proof.
  intros Hn Hx. unfold child_named, bisect_left.
  pose proof (Forall2_length _ _ _ Hn) as Hlen.
  destruct (bisect_loop_ends h a ns x Hn (length a) 0 (length a)) as [i Hi]; [lia..|].
  rewrite Hi. cbn [deref bind]. destruct (a !! i) as [l|] eqn:El; [|done].
  destruct (Forall2_lookup_l _ _ _ _ _ Hn El) as (n & Hni & o & Ho & Hname).
  rewrite Ho. cbn [deref bind]. rewrite bool_decide_eq_false_2; [done|].
  intros E. apply Hx. apply list_elem_of_lookup. exists i. congruence.
Qed.

(** Among children in ascending order a name is found where it stands. *)
Lemma child_named_present h a ns x k l :
  names_of h a ns -> ascending ns -> ns !! k = Some x -> a !! k = Some l ->
  child_named h a x = Ok (Some l).
Proof.
  intros Hn Hasc Hk Hl. unfold child_named, bisect_left.
  pose proof (Forall2_length _ _ _ Hn) as Hlen.
  destruct (bisect_loop_spec h a ns x Hn Hasc (length a) 0 (length a))
    as (i & Hi & Hrange & Hlow & Hup); [lia..| | |].
  { intros j n Hj. lia. }
  { intros j n Hj Hjn. apply lookup_lt_Some in Hjn. lia. }
  rewrite Hi. cbn [deref bind].
  assert (i = k) as ->.
  { destruct (decide (k < i)) as [Hlt|Hge].
    - pose proof (Hlow k x Hlt Hk) as Hc. by rewrite str_ltb_irrefl in Hc.
    - destruct (decide (i = k)) as [|Hne]; [done|].
      assert (i < k) by lia.
      destruct (lookup_lt_is_Some_2 ns i) as [n Hni].
      { apply lookup_lt_Some in Hk. lia. }
      pose proof (Hasc i k n x H Hni Hk) as Hc.
      pose proof (Hup i n (le_n _) Hni). congruence. }
  rewrite Hl.
  destruct (names_of_lookup _ _ _ _ _ Hn Hk) as (l' & o & Hl' & Ho & Hname).
  assert (l' = l) as -> by congruence.
  rewrite Ho. cbn [deref bind]. rewrite bool_decide_eq_true_2; done.
Qed.

(** ** Subtree extraction *)

(** root/{a/{b.txt}, c.txt}, the tree of the specification's examples. *)
Definition h_example : heap :=
  [ mkTreeNode (py "root") false [1; 3] (Some {[py "a"]});
    mkTreeNode (py "a") false [2] (Some ∅);
    mkTreeNode (py "b.txt") true [] None;
    mkTreeNode (py "c.txt") true [] None ].

Definition tree_example : FileTree := mkFileTree (py "root") (Some 0).

(** Every path exists and every directory is empty. *)
Definition os_bare : os_env :=
  {| os_exists := fun _ => true;
     os_isdir := fun _ => false;
     os_listdir := fun _ => Entries [];
     os_relpath := fun p _ => p |}.

Definition A_DOTDOT : str := Eval vm_compute in py "a/..".

Lemma resolve_parts_app l1 l2 q :
  resolve_parts (l1 ++ l2) q = (q' <- resolve_parts l1 q;; resolve_parts l2 q').
Proof.
  revert q. induction l1 as [|part l1 IH]; intros q; [done|].
  cbn [app resolve_parts].
  destruct (bool_decide (part = PosixPath.DOT)); [apply IH|].
  destruct (bool_decide (part = PosixPath.DOTDOT)); [|apply IH].
  destruct q; [done|apply IH].
Qed.

Lemma navigate_app h rel q1 q2 cur :
  navigate h rel (q1 ++ q2) cur = (x <- navigate h rel q1 cur;; navigate h rel q2 x).
Proof.
  revert cur. induction q1 as [|part q1 IH]; intros cur; [done|].
  cbn [app navigate]. destruct cur as [l|]; [|done].
  destruct (deref (h !! l)) as [node| | |]; cbn [bind]; try done.
  destruct (child_named h (children node) part) as [[l'|]| | |]; cbn [bind]; try done.
Qed.

(** C6 (as amended): [create_subtree] raises [ValueError] without
    returning a subtree when a [..] of the normalised path has no resolved
    token before it, and when a token names no child of the node reached,
    the message then quoting that token.  [a/..] normalises to [.]: it
    names the root itself, and the call goes on to build the facade of the
    root node. *)
Theorem create_subtree_navigation (os : os_env) (fnmatch : str -> str -> bool)
    (fuel : nat) (h : heap) (self : FileTree) (relative_path : str) :
  (forall before after,
      split (PosixPath.normpath relative_path) PosixPath.sep
        = before ++ PosixPath.DOTDOT :: after ->
      resolve_parts before [] = Ok [] ->
      create_subtree os fnmatch fuel h self relative_path = Raise (ValueError ABOVE_ROOT))
  /\ (forall path_queue walked part rest l node ns,
      resolve_parts (split (PosixPath.normpath relative_path) PosixPath.sep) []
        = Ok path_queue ->
      path_queue = walked ++ part :: rest ->
      navigate h relative_path walked (root_node self) = Ok (Some l) ->
      h !! l = Some node ->
      names_of h (children node) ns ->
      part ∉ ns ->
      create_subtree os fnmatch fuel h self relative_path
        = Raise (ValueError (missing_part relative_path part)))
  /\ (relative_path = A_DOTDOT ->
      create_subtree os fnmatch fuel h self relative_path
        = (built <- FileTree_init os fnmatch fuel
                      (PosixPath.join (root_path self) A_DOTDOT) None h;;
           Ok (set_root_node (fst built) (root_node self), snd built))).
Proof.
  split; [|split].
  - intros before after Hparts Hbefore. unfold create_subtree.
    rewrite Hparts, resolve_parts_app, Hbefore. cbn [bind resolve_parts].
    rewrite bool_decide_eq_false_2 by (vm_compute; discriminate).
    rewrite bool_decide_eq_true_2 by done. done.
  - intros path_queue walked part rest l node ns Hq -> Hnav Hl Hns Hpart.
    unfold create_subtree. rewrite Hq. cbn [bind].
    rewrite navigate_app, Hnav. cbn [bind navigate].
    rewrite Hl. cbn [deref bind].
    rewrite (child_named_absent _ _ _ _ Hns Hpart). done.
  - intros ->. unfold create_subtree.
    change (split (PosixPath.normpath A_DOTDOT) PosixPath.sep) with [PosixPath.DOT].
    cbn [resolve_parts]. rewrite bool_decide_eq_true_2 by done.
    cbn [bind navigate].
    destruct (FileTree_init os fnmatch fuel (PosixPath.join (root_path self) A_DOTDOT) None h)
      as [[sub h']| | |]; done.
Qed.

Definition MISSING : str := Eval vm_compute in py "missing".

Lemma create_subtree_navigation_witness :
  create_subtree os_bare fnmatchcase 1 h_example tree_example PosixPath.DOTDOT
    = Raise (ValueError ABOVE_ROOT)
  /\ create_subtree os_bare fnmatchcase 1 h_example tree_example (py "a/missing")
    = Raise (ValueError (missing_part (py "a/missing") MISSING)).
Proof.
  split.
  - refine (proj1 (create_subtree_navigation os_bare fnmatchcase 1 h_example tree_example
                     PosixPath.DOTDOT) [] [] _ _); reflexivity.
  - refine (proj1 (proj2 (create_subtree_navigation os_bare fnmatchcase 1 h_example
                     tree_example (py "a/missing")))
              [py "a"; MISSING] [py "a"] MISSING [] 1
              (mkTreeNode (py "a") false [2] (Some ∅)) [py "b.txt"] _ _ _ _ _ _);
      try reflexivity.
    + constructor; [|constructor]. eexists. split; reflexivity.
    + vm_compute. intros H. apply list_elem_of_In in H. simpl in H.
      destruct H as [H|[]]. discriminate H.
Defined.

(** With [a] a child of the root, [create_subtree("a/..")] returns a
    facade of the root node itself. *)
Lemma create_subtree_parent_of_child_succeeds :
  exists h',
    create_subtree os_bare fnmatchcase 1 h_example tree_example A_DOTDOT
    = Ok (mkFileTree (py "root/a/..") (Some 0), h').
Proof. eexists. vm_compute. reflexivity. Qed.

(** ** Reading a tree: the two text encoders *)

(** The listing of a tree whose root stands at level [lvl], no cap set. *)
Fixpoint repr_text (lvl : Z) (T : Tree) : str :=
  match T with
  | Entry n lf cs =>
    (if (0 <? lvl)%Z then [NL] ++ times Node.INDENT lvl ++ Node.CONNECTOR ++ n else n)
    ++ (if lf then [] else [SLASH] ++ flat_map (repr_text (lvl + 1)) cs)
  end.

Definition nonempty {A : Type} (l : list A) : bool :=
  match l with [] => false | _ => true end.

(** The prefix of the lines below a directory, and a node's own line. *)
Definition md_new_prefix (prefix0 : str) (lvl : Z) (is_last : bool) (cur_prefix : str) : str :=
  if (0 <? lvl)%Z
  then cur_prefix ++ (if is_last then Node.INDENT else Node.BAR_INDENT)
  else prefix0.

Definition md_line (lvl : Z) (is_last : bool) (cur_prefix : str) (n : str) (lf : bool) : str :=
  cur_prefix
  ++ (if (0 <? lvl)%Z
      then (if is_last then Node.LAST_CONNECTOR else Node.MID_CONNECTOR) else [])
  ++ n ++ (if lf then [] else [SLASH]).

(** The diagram of a tree, no cap set: [more] tells whether another node
    follows the tree, [prefix0] is the prefix the call was given. *)
Fixpoint md_text (prefix0 : str) (more : bool) (lvl : Z) (is_last : bool)
    (cur_prefix : str) (T : Tree) : str :=
  match T with
  | Entry n lf cs =>
    md_line lvl is_last cur_prefix n lf
    ++ (if more || (negb lf && nonempty cs) then [NL] else [])
    ++ (if lf then []
        else (fix forest (cs : list Tree) : str :=
                match cs with
                | [] => []
                | c :: rest =>
                  match rest with
                  | [] => md_text prefix0 more (lvl + 1) true
                            (md_new_prefix prefix0 lvl is_last cur_prefix) c
                  | _ => md_text prefix0 true (lvl + 1) false
                           (md_new_prefix prefix0 lvl is_last cur_prefix) c
                         ++ forest rest
                  end
                end) cs)
  end.

(** The diagrams of the children of one directory, the last one marked. *)
Definition md_forest (prefix0 : str) (more : bool) (lvl : Z) (new_prefix : str)
  : list Tree -> str :=
  fix forest (cs : list Tree) : str :=
    match cs with
    | [] => []
    | c :: rest =>
      match rest with
      | [] => md_text prefix0 more lvl true new_prefix c
      | _ => md_text prefix0 true lvl false new_prefix c ++ forest rest
      end
    end.

Definition pruned_children (fd ld lvl : Z) (cs : list Tree) : list Tree :=
  flat_map (fun c => if within_caps fd ld lvl c then [prune fd ld lvl c] else []) cs.

Lemma Tree_ind' (P : Tree -> Prop) :
  (forall n lf cs, Forall P cs -> P (Entry n lf cs)) -> forall T, P T.
Proof.
  intros H. fix IH 1. intros [n lf cs]. apply H.
  induction cs as [|c cs IHcs]; constructor; [apply IH|exact IHcs].
Qed.

Lemma push_reversed_map {A B : Type} (f : A -> B) (xs : list A) (stack : list B) :
  Node.push_reversed f xs stack = map f xs ++ stack.
Proof.
  unfold Node.push_reversed. revert stack.
  induction xs as [|x xs IH] using rev_ind; intros stack; [done|].
  rewrite rev_unit. cbn [fold_left]. rewrite IH, map_app. cbn [map].
  by rewrite <- app_assoc.
Qed.

Lemma prune_unfold fd ld lvl n lf cs :
  prune fd ld lvl (Entry n lf cs) = Entry n lf (pruned_children fd ld (lvl + 1) cs).
Proof. reflexivity. Qed.

Lemma within_caps_uncapped lvl c : within_caps 0 0 lvl c = true.
Proof. unfold within_caps. by destruct (t_leaf c). Qed.

Lemma prune_uncapped T : forall lvl, prune 0 0 lvl T = T.
Proof.
  induction T as [n lf cs IH] using Tree_ind'. intros lvl. rewrite prune_unfold. f_equal.
  unfold pruned_children. induction IH as [|c cs Hc _ IHcs]; [done|].
  cbn [flat_map]. rewrite within_caps_uncapped, Hc. cbn [app]. by rewrite IHcs.
Qed.

Lemma size_pos T : 1 <= size T.
Proof. destruct T. simpl. lia. Qed.

Lemma to_repr_loop_S fuel h fd ld current_node current_level stack representation :
  Node.to_repr_loop (S fuel) h fd ld ((current_node, current_level) :: stack) representation
  = (node <- deref (h !! current_node);;
     if (if is_leaf node then negb (ld =? 0)%Z && (ld <? current_level)%Z
         else negb (fd =? 0)%Z && (fd <? current_level)%Z)
     then Node.to_repr_loop fuel h fd ld stack representation
     else
       let representation :=
         if (0 <? current_level)%Z
         then representation ++ [NL] ++ times Node.INDENT current_level
                ++ Node.CONNECTOR ++ name node
         else representation ++ name node in
       if negb (is_leaf node) then
         Node.to_repr_loop fuel h fd ld
           (Node.push_reversed (fun child => (child, (current_level + 1)%Z))
              (children node) stack)
           (representation ++ [SLASH])
       else Node.to_repr_loop fuel h fd ld stack representation).
Proof. reflexivity. Qed.

Lemma within_caps_leaf fd ld lvl c :
  t_leaf c = true ->
  (negb (ld =? 0)%Z && (ld <? lvl)%Z) = negb (within_caps fd ld lvl c).
Proof.
  intros H. unfold within_caps. rewrite H.
  destruct (ld =? 0)%Z; [done|]. cbn [negb andb orb].
  destruct (Z.ltb_spec ld lvl), (Z.leb_spec lvl ld); try done; lia.
Qed.

Lemma within_caps_dir fd ld lvl c :
  t_leaf c = false ->
  (negb (fd =? 0)%Z && (fd <? lvl)%Z) = negb (within_caps fd ld lvl c).
Proof.
  intros H. unfold within_caps. rewrite H.
  destruct (fd =? 0)%Z; [done|]. cbn [negb andb orb].
  destruct (Z.ltb_spec fd lvl), (Z.leb_spec lvl fd); try done; lia.
Qed.

(** One visit of [to_repr]'s loop and the visits of the subtree below it
    add the listing of the subtree as the caps leave it. *)
Lemma to_repr_loop_tree h fd ld T :
  forall l lvl, represents h l T ->
  exists k, k <= size T /\ forall fuel stack acc,
    Node.to_repr_loop (k + fuel) h fd ld ((l, lvl) :: stack) acc
    = Node.to_repr_loop fuel h fd ld stack
        (acc ++ if within_caps fd ld lvl T then repr_text lvl (prune fd ld lvl T) else []).
Proof.
  induction T as [n lf cs IH] using Tree_ind'. intros l lvl Hrep.
  inversion Hrep as [l' o cs' Ho Hcs Hl' HT]; subst.
  destruct (within_caps fd ld lvl (Entry (name o) (is_leaf o) cs)) eqn:Hw.
  2:{ exists 1. split; [apply size_pos|]. intros fuel stack acc.
      change (1 + fuel) with (S fuel). rewrite to_repr_loop_S, Ho. cbn [deref bind].
      destruct (is_leaf o) eqn:Hlf.
      - rewrite (within_caps_leaf fd ld lvl (Entry (name o) true cs)), Hw by done.
        cbn [negb]. by rewrite app_nil_r.
      - rewrite (within_caps_dir fd ld lvl (Entry (name o) false cs)), Hw by done.
        cbn [negb]. by rewrite app_nil_r. }
  destruct (is_leaf o) eqn:Hlf.
  - exists 1. split; [apply size_pos|]. intros fuel stack acc.
    change (1 + fuel) with (S fuel). rewrite to_repr_loop_S, Ho. cbn [deref bind].
    rewrite Hlf.
    rewrite (within_caps_leaf fd ld lvl (Entry (name o) true cs)), Hw by done.
    cbn [negb]. rewrite prune_unfold. cbn [repr_text]. rewrite app_nil_r.
    destruct (0 <? lvl)%Z; by rewrite <- ?app_assoc.
  - assert (Hforest : forall ls, Forall2 (represents h) ls cs ->
      exists k, k <= list_sum (map size cs) /\ forall fuel stack acc,
        Node.to_repr_loop (k + fuel) h fd ld
          (map (fun child => (child, (lvl + 1)%Z)) ls ++ stack) acc
        = Node.to_repr_loop fuel h fd ld stack
            (acc ++ flat_map (repr_text (lvl + 1)) (pruned_children fd ld (lvl + 1) cs))).
    { clear Hcs Hrep Ho Hw. intros ls Hls.
      induction Hls as [|l1 c1 ls cs Hc1 Hls IHls].
      - exists 0. split; [done|]. intros. cbn. by rewrite app_nil_r.
      - inversion IH as [|? ? IH1 IHrest]; subst.
        destruct (IH1 l1 (lvl + 1)%Z Hc1) as (k1 & Hk1 & Hrun1).
        destruct (IHls IHrest) as (k2 & Hk2 & Hrun2).
        exists (k1 + k2).
        split; [change (k1 + k2 <= size c1 + list_sum (map size cs)); lia|].
        intros fuel stack acc.
        cbn [map app]. rewrite <- Nat.add_assoc, Hrun1, Hrun2.
        f_equal. rewrite <- app_assoc. f_equal.
        unfold pruned_children. cbn [flat_map].
        destruct (within_caps fd ld (lvl + 1) c1); [|done].
        cbn [app flat_map]. done. }
    destruct (Hforest _ Hcs) as (k & Hk & Hrun).
    exists (S k). split; [cbn [size]; lia|]. intros fuel stack acc.
    cbn [Nat.add]. rewrite to_repr_loop_S, Ho. cbn [deref bind]. rewrite Hlf.
    rewrite (within_caps_dir fd ld lvl (Entry (name o) false cs)), Hw by done.
    cbn [negb]. rewrite push_reversed_map, Hrun. f_equal.
    rewrite prune_unfold. cbn [repr_text].
    destruct (0 <? lvl)%Z; by rewrite <- ?app_assoc.
Qed.

Lemma md_text_unfold prefix0 more lvl is_last cur_prefix n lf cs :
  md_text prefix0 more lvl is_last cur_prefix (Entry n lf cs)
  = md_line lvl is_last cur_prefix n lf
    ++ (if more || (negb lf && nonempty cs) then [NL] else [])
    ++ (if lf then []
        else md_forest prefix0 more (lvl + 1)
               (md_new_prefix prefix0 lvl is_last cur_prefix) cs).
Proof. reflexivity. Qed.

Lemma md_forest_cons2 prefix0 more lvl np c c' rest :
  md_forest prefix0 more lvl np (c :: c' :: rest)
  = md_text prefix0 true lvl false np c ++ md_forest prefix0 more lvl np (c' :: rest).
Proof. reflexivity. Qed.

Lemma to_md_loop_S fuel h prefix fd ld current_node current_level current_is_last
    current_prefix stack md_representation :
  Node.to_md_loop (S fuel) h prefix fd ld
    ((current_node, current_level, current_is_last, current_prefix) :: stack)
    md_representation
  = (node <- deref (h !! current_node);;
     stack' <-
       (if negb (is_leaf node) then
          if (fd =? 0)%Z && (ld =? 0)%Z then
            Ok (Node.push_children (children node) (current_level + 1)%Z
                  (md_new_prefix prefix current_level current_is_last current_prefix) stack)
          else
            valid <- Node.validate h fd ld current_level (children node);;
            Ok (Node.push_children valid (current_level + 1)%Z
                  (md_new_prefix prefix current_level current_is_last current_prefix) stack)
        else Ok stack);;
     Node.to_md_loop fuel h prefix fd ld stack'
       ((md_representation
         ++ md_line current_level current_is_last current_prefix (name node) (is_leaf node))
        ++ if nonempty stack' then [NL] else [])).
Proof.
  cbn [Node.to_md_loop]. destruct (deref (h !! current_node)) as [node| | |]; [|done..].
  cbn [bind]. unfold md_line, md_new_prefix.
  set (pushed := if negb (is_leaf node) then _ else _).
  destruct pushed as [stack'| | |]; [|done..]. cbn [bind].
  f_equal. destruct (is_leaf node); cbn [negb]; destruct stack'; cbn [nonempty];
    rewrite <- ?app_assoc, ?app_nil_r; reflexivity.
Qed.

Lemma push_children_nil lvl np (stack : list (loc * Z * bool * str)) :
  Node.push_children [] lvl np stack = stack.
Proof. reflexivity. Qed.

Lemma push_children_one l lvl np (stack : list (loc * Z * bool * str)) :
  Node.push_children [l] lvl np stack = (l, lvl, true, np) :: stack.
Proof. reflexivity. Qed.

Lemma push_children_cons2 l l' ls lvl np (stack : list (loc * Z * bool * str)) :
  Node.push_children (l :: l' :: ls) lvl np stack
  = (l, lvl, false, np) :: Node.push_children (l' :: ls) lvl np stack.
Proof.
  unfold Node.push_children.
  change (last (l :: l' :: ls)) with (last (l' :: ls)).
  destruct (last (l' :: ls)) as [z|] eqn:E.
  - rewrite !push_reversed_map. reflexivity.
  - exfalso. revert E. clear. revert l'. induction ls as [|x ls IH]; intros l'; [done|].
    apply IH.
Qed.

(** The children the caps keep, by reference, and the subtree each stands
    for once pruned. *)
Lemma validate_spec h fd ld lvl (R : loc -> Tree -> Prop) ls cs :
  Forall2 (represents h) ls cs ->
  Forall (fun c => forall l, represents h l c -> R l (prune fd ld (lvl + 1) c)) cs ->
  exists ls',
    Node.validate h fd ld lvl ls = Ok ls' /\
    (((fd =? 0)%Z && (ld =? 0)%Z = true) -> ls' = ls) /\
    Forall2 R ls' (pruned_children fd ld (lvl + 1) cs).
Proof.
  intros Hls. induction Hls as [|l c ls cs Hc Hls IH]; intros HP.
  - exists []. repeat split; constructor.
  - inversion HP as [|? ? HP1 HPrest]; subst.
    destruct (IH HPrest) as (ls' & Hv & Hall & HR).
    inversion Hc as [l' o cs' Ho Hcs' Hl' HT]; subst.
    cbn [Node.validate]. rewrite Ho. cbn [deref bind]. rewrite Hv. cbn [bind].
    unfold pruned_children. cbn [flat_map].
    fold (pruned_children fd ld (lvl + 1) cs).
    unfold within_caps at 1. cbn [t_leaf].
    destruct (is_leaf o) eqn:Hlf.
    + destruct ((ld =? 0)%Z || (lvl + 1 <=? ld)%Z) eqn:E.
      * exists (l :: ls'). split; [done|]. split.
        { intros H0. rewrite Hall; done. }
        cbn [app]. constructor; [|done]. apply HP1. done.
      * exists ls'. split; [done|]. split; [|done].
        intros H0. apply andb_true_iff in H0 as [_ H0]. rewrite H0 in E. done.
    + destruct ((fd =? 0)%Z || (lvl + 1 <=? fd)%Z) eqn:E.
      * exists (l :: ls'). split; [done|]. split.
        { intros H0. rewrite Hall; done. }
        cbn [app]. constructor; [|done]. apply HP1. done.
      * exists ls'. split; [done|]. split; [|done].
        intros H0. apply andb_true_iff in H0 as [H0 _]. rewrite H0 in E. done.
Qed.

(** The nodes a traversal visits: the children of a leaf are never read. *)
Fixpoint visits (T : Tree) : nat :=
  match T with
  | Entry _ lf cs => S (if lf then 0 else list_sum (map visits cs))
  end.

Lemma visits_le_size T : visits T <= size T.
Proof.
  induction T as [n lf cs IH] using Tree_ind'. cbn [visits size].
  destruct lf; [lia|]. apply le_n_S.
  induction IH as [|c cs Hc _ IHcs]; [done|].
  change (visits c + list_sum (map visits cs) <= size c + list_sum (map size cs)). lia.
Qed.

Lemma nonempty_push_children ls lvl np (stack : list (loc * Z * bool * str)) :
  nonempty (Node.push_children ls lvl np stack) = nonempty stack || nonempty ls.
Proof.
  destruct ls as [|l [|l' ls]].
  - by rewrite push_children_nil, orb_false_r.
  - by rewrite push_children_one, orb_true_r.
  - by rewrite push_children_cons2, orb_true_r.
Qed.

(** What the loop is known to do on a pushed child. *)
Definition md_visit (h : heap) (prefix0 : str) (fd ld lvl : Z) (l : loc) (c : Tree) : Prop :=
  forall is_last pfx fuel stack acc,
    Node.to_md_loop (visits c + fuel) h prefix0 fd ld ((l, lvl, is_last, pfx) :: stack) acc
    = Node.to_md_loop fuel h prefix0 fd ld stack
        (acc ++ md_text prefix0 (nonempty stack) lvl is_last pfx c).

Lemma to_md_loop_forest h prefix0 fd ld lvl np ls cs :
  Forall2 (md_visit h prefix0 fd ld lvl) ls cs ->
  forall fuel stack acc,
    Node.to_md_loop (list_sum (map visits cs) + fuel) h prefix0 fd ld
      (Node.push_children ls lvl np stack) acc
    = Node.to_md_loop fuel h prefix0 fd ld stack
        (acc ++ md_forest prefix0 (nonempty stack) lvl np cs).
Proof.
  induction 1 as [|l c ls cs Hc Hls IH]; intros fuel stack acc.
  - rewrite push_children_nil. cbn. by rewrite app_nil_r.
  - destruct Hls as [|l' c' ls cs Hc' Hls].
    + rewrite push_children_one.
      change (list_sum (map visits [c])) with (visits c + 0).
      rewrite Nat.add_0_r, Hc. reflexivity.
    + rewrite push_children_cons2, md_forest_cons2.
      change (list_sum (map visits (c :: c' :: cs)))
        with (visits c + list_sum (map visits (c' :: cs))).
      rewrite <- Nat.add_assoc, Hc, IH.
      rewrite nonempty_push_children, orb_true_r. by rewrite <- app_assoc.
Qed.

(** One visit of [to_md]'s loop and the visits below it add the diagram of
    the subtree as the caps leave it. *)
Lemma to_md_loop_tree h prefix0 fd ld T :
  forall l lvl, represents h l T -> md_visit h prefix0 fd ld lvl l (prune fd ld lvl T).
Proof.
  induction T as [n lf cs IH] using Tree_ind'.
  intros l lvl Hrep is_last pfx fuel stack acc.
  inversion Hrep as [l' o cs' Ho Hcs Hl' HT]; subst.
  rewrite prune_unfold, md_text_unfold. cbn [visits Nat.add].
  rewrite to_md_loop_S, Ho. cbn [deref bind].
  destruct (is_leaf o) eqn:Hlf.
  { cbn [negb bind andb]. rewrite orb_false_r, app_nil_r. by rewrite <- app_assoc. }
  destruct (validate_spec h fd ld lvl (md_visit h prefix0 fd ld (lvl + 1)) _ _ Hcs)
    as (ls' & Hv & Hall & HR).
  { eapply Forall_impl; [exact IH|]. intros c Hc l1 Hl1. apply Hc, Hl1. }
  cbn [negb andb].
  assert (Hpush :
    (if (fd =? 0)%Z && (ld =? 0)%Z
     then Ok (Node.push_children (children o) (lvl + 1)
                (md_new_prefix prefix0 lvl is_last pfx) stack)
     else valid <- Node.validate h fd ld lvl (children o);;
          Ok (Node.push_children valid (lvl + 1)
                (md_new_prefix prefix0 lvl is_last pfx) stack))
    = Ok (Node.push_children ls' (lvl + 1) (md_new_prefix prefix0 lvl is_last pfx) stack)).
  { destruct ((fd =? 0)%Z && (ld =? 0)%Z) eqn:E.
    - by rewrite Hall.
    - by rewrite Hv. }
  rewrite Hpush. cbn [bind].
  rewrite (to_md_loop_forest _ _ _ _ _ _ _ _ HR).
  f_equal. rewrite nonempty_push_children.
  assert (nonempty ls' = nonempty (pruned_children fd ld (lvl + 1) cs)) as ->.
  { destruct HR; reflexivity. }
  by rewrite <- !app_assoc.
Qed.

Lemma reify_represents fuel : forall h l T, reify fuel h l = Some T -> represents h l T.
Proof.
  induction fuel as [|fuel IH]; intros h l T; [done|].
  cbn [reify]. destruct (h !! l) as [o|] eqn:Ho; [|done]. cbn.
  destruct (mapM (reify fuel h) (children o)) as [cs|] eqn:Hcs; [|done]. cbn.
  intros [= <-]. constructor; [done|].
  apply mapM_Some in Hcs. eapply Forall2_impl; [exact Hcs|]. intros l' c Hc. by apply IH.
Qed.

Lemma size_prune_le fd ld T : forall lvl, size (prune fd ld lvl T) <= size T.
Proof.
  induction T as [n lf cs IH] using Tree_ind'. intros lvl.
  rewrite prune_unfold. cbn [size]. apply le_n_S.
  unfold pruned_children. induction IH as [|c cs Hc _ IHcs]; [done|].
  cbn [flat_map]. rewrite map_app, list_sum_app.
  change (list_sum (map size (c :: cs))) with (size c + list_sum (map size cs)).
  destruct (within_caps fd ld (lvl + 1) c).
  - cbn [map list_sum]. specialize (Hc (lvl + 1)%Z). cbn. lia.
  - cbn. lia.
Qed.

Lemma pruned_children_app fd ld lvl cs1 cs2 :
  pruned_children fd ld lvl (cs1 ++ cs2)
  = pruned_children fd ld lvl cs1 ++ pruned_children fd ld lvl cs2.
Proof. unfold pruned_children. apply flat_map_app. Qed.

Lemma nodes_at_prune_within fd ld T :
  forall lvl lvl' N,
    within_caps fd ld lvl T = true ->
    (lvl', N) ∈ nodes_at lvl (prune fd ld lvl T) -> within_caps fd ld lvl' N = true.
Proof.
  induction T as [n lf cs IH] using Tree_ind'. intros lvl lvl' N Hw.
  rewrite prune_unfold. cbn [nodes_at]. intros Hin.
  apply elem_of_cons in Hin as [Heq|Hin].
  { injection Heq as -> ->. exact Hw. }
  apply list_elem_of_In, in_flat_map in Hin as (c' & Hc' & Hin).
  unfold pruned_children in Hc'. apply in_flat_map in Hc' as (c & Hc & Hc').
  destruct (within_caps fd ld (lvl + 1) c) eqn:Hwc; [|done].
  destruct Hc' as [<-|[]].
  rewrite Forall_forall in IH.
  eapply (IH c); [by apply list_elem_of_In|exact Hwc|by apply list_elem_of_In].
Qed.

Lemma to_repr_text h l T fd ld fuel :
  represents h l T -> (0 <= fd)%Z -> (0 <= ld)%Z -> size T <= fuel ->
  Node.to_repr fuel h l 0 (fd, ld) = Ok (repr_text 0 (prune fd ld 0 T)).
Proof.
  intros Hrep Hfd Hld Hfuel. unfold Node.to_repr.
  destruct (Z.ltb_spec fd 0), (Z.ltb_spec ld 0); try lia. cbn [orb].
  destruct (to_repr_loop_tree h fd ld T l 0%Z Hrep) as (k & Hk & Hrun).
  replace fuel with (k + (fuel - k)) by lia. rewrite Hrun.
  assert (within_caps fd ld 0 T = true) as ->.
  { unfold within_caps. destruct (t_leaf T); apply orb_true_iff; right; by apply Z.leb_le. }
  by destruct (fuel - k).
Qed.

Lemma to_md_text h l T fd ld fuel :
  represents h l T -> (0 <= fd)%Z -> (0 <= ld)%Z -> size T <= fuel ->
  Node.to_md fuel h l 0 false [] (fd, ld)
  = Ok (md_text [] false 0 false [] (prune fd ld 0 T)).
Proof.
  intros Hrep Hfd Hld Hfuel. unfold Node.to_md.
  destruct (Z.ltb_spec fd 0), (Z.ltb_spec ld 0); try lia. cbn [orb].
  pose proof (visits_le_size (prune fd ld 0 T)) as Hv.
  pose proof (size_prune_le fd ld T 0%Z) as Hs.
  replace fuel with (visits (prune fd ld 0 T) + (fuel - visits (prune fd ld 0 T))) by lia.
  rewrite (to_md_loop_tree h [] fd ld T l 0%Z Hrep).
  by destruct (fuel - _).
Qed.

Definition T_example : Tree :=
  Entry (py "root") false
    [Entry (py "a") false [Entry (py "b.txt") true []]; Entry (py "c.txt") true []].

(** root/{a/, c.txt}: [T_example] under the caps [(0, 1)]. *)
Definition h_capped : heap :=
  [ mkTreeNode (py "root") false [1; 2] (Some {[py "a"]});
    mkTreeNode (py "a") false [] (Some ∅);
    mkTreeNode (py "c.txt") true [] None ].

(** Under the file cap [1] the leaf [c.txt], which stands at level [1], is
    still listed and drawn. *)
Lemma depth_cap_keeps_leaf_at_cap :
  Node.to_repr 4 h_example 0 0 (0, 1)%Z
    = Ok (py "root/" ++ [NL] ++ py "    |-- a/" ++ [NL] ++ py "    |-- c.txt")
  /\ Node.to_md 4 h_example 0 0 false [] (0, 1)%Z
    = Ok (py "root/" ++ [NL] ++ py "├── a/" ++ [NL] ++ py "└── c.txt")
  /\ (1%Z, Entry (py "c.txt") true []) ∈ nodes_at 0 (prune 0 1 0 T_example).
Proof.
  split; [reflexivity|]. split; [reflexivity|].
  vm_compute. apply list_elem_of_In. simpl. auto.
Qed.

(** ** The mapping codec *)

(** The [dict] objects [to_dict] allocates for a tree, in allocation order
    from reference [base]: a directory takes its inner [dict] and its
    one-item [dict], a leaf its one-item [dict] only. *)
Fixpoint dsize (T : Tree) : nat :=
  match T with
  | Entry _ lf cs => if lf then 1 else 2 + list_sum (map dsize cs)
  end.

Definition dvalue (base : nat) (T : Tree) : pyval :=
  if t_leaf T then PyNone else PyDict base.

Fixpoint dentries (base : nat) (cs : list Tree) : pydict :=
  match cs with
  | [] => []
  | c :: cs => (t_name c, dvalue base c) :: dentries (base + dsize c) cs
  end.

Fixpoint dflatten (base : nat) (T : Tree) : dheap :=
  match T with
  | Entry n lf cs =>
    if lf then [[(n, PyNone)]]
    else dentries (base + 2) cs :: [(n, PyDict base)]
         :: (fix forest (b : nat) (cs : list Tree) : dheap :=
               match cs with
               | [] => []
               | c :: cs => dflatten b c ++ forest (b + dsize c) cs
               end) (base + 2) cs
  end.

Definition dforest : nat -> list Tree -> dheap :=
  fix forest (b : nat) (cs : list Tree) : dheap :=
    match cs with
    | [] => []
    | c :: cs => dflatten b c ++ forest (b + dsize c) cs
    end.

(** [holds dh v T]: the value [v] spells what lies below the name of [T]. *)
Inductive holds (dh : dheap) : pyval -> Tree -> Prop :=
| holds_leaf n : holds dh PyNone (Entry n true [])
| holds_dir d items n cs :
    dh !! d = Some items ->
    Forall2 (fun (it : str * pyval) c => it.1 = t_name c /\ holds dh it.2 c) items cs ->
    holds dh (PyDict d) (Entry n false cs).

Lemma well_formed_unfold n lf cs :
  well_formed (Entry n lf cs)
  <-> (lf = true -> cs = []) /\ NoDup (map t_name cs) /\ Forall well_formed cs.
Proof.
  cbn [well_formed]. do 2 (apply and_iff_compat_l).
  induction cs as [|c cs IH]; [split; constructor|].
  rewrite Forall_cons, <- IH. reflexivity.
Qed.

Lemma dflatten_dir base n cs :
  dflatten base (Entry n false cs)
  = dentries (base + 2) cs :: [(n, PyDict base)] :: dforest (base + 2) cs.
Proof. reflexivity. Qed.

Lemma dforest_cons b c cs :
  dforest b (c :: cs) = dflatten b c ++ dforest (b + dsize c) cs.
Proof. reflexivity. Qed.

Lemma length_dflatten T : forall base, length (dflatten base T) = dsize T.
Proof.
  induction T as [n lf cs IH] using Tree_ind'. intros base.
  destruct lf; [done|]. rewrite dflatten_dir. cbn [length dsize].
  assert (forall b, length (dforest b cs) = list_sum (map dsize cs)) as ->; [|done].
  induction IH as [|c cs Hc _ IHcs]; intros b; [done|].
  rewrite dforest_cons, length_app, Hc, IHcs. done.
Qed.

Lemma setitem_fresh key v items :
  key ∉ items.*1 -> Dict.setitem key v items = items ++ [(key, v)].
Proof.
  induction items as [|[k w] items IH]; [done|]. cbn [Dict.setitem fmap list_fmap].
  intros Hk. apply not_elem_of_cons in Hk as [Hne Hk].
  rewrite bool_decide_eq_false_2 by (cbn in Hne; congruence).
  cbn [app]. f_equal. by apply IH.
Qed.

Lemma to_dict_loop_S fuel h current_node parent_dict stack result_dict dh :
  Mapping.to_dict_loop (S fuel) h ((current_node, parent_dict) :: stack) result_dict dh
  = (node <- deref (h !! current_node);;
     let value := if negb (is_leaf node) then PyDict (length dh) else PyNone in
     let dh1 := if negb (is_leaf node) then dh ++ [[]] else dh in
     let node_dict := length dh1 in
     let dh2 := dh1 ++ [[(name node, value)]] in
     dh3 <- match parent_dict with
            | Some pd => Dict.store pd (name node) value dh2
            | None => Ok dh2
            end;;
     Mapping.to_dict_loop fuel h
       (if negb (is_leaf node)
        then Node.push_reversed (fun child => (child, Some (length dh))) (children node) stack
        else stack)
       (match parent_dict with None => node_dict | Some _ => result_dict end) dh3).
Proof.
  cbn [Mapping.to_dict_loop]. destruct (deref (h !! current_node)) as [node| | |]; [|done..].
  cbn [bind]. destruct (is_leaf node); reflexivity.
Qed.

Lemma store_fresh dh ext pd items key v :
  dh !! pd = Some items -> key ∉ items.*1 ->
  Dict.store pd key v (dh ++ ext) = Ok (<[pd := items ++ [(key, v)]]> dh ++ ext).
Proof.
  intros Hpd Hkey. unfold Dict.store.
  rewrite (lookup_app_l_Some _ _ _ _ Hpd). cbn [deref bind].
  rewrite setitem_fresh by done.
  rewrite insert_app_l by (by eapply lookup_lt_Some). done.
Qed.

(** The visits of [to_dict]'s loop below one child enter the child under
    its name in the parent's [dict] and allocate the child's own. *)
Definition dict_visit (h : heap) (l : loc) (T : Tree) : Prop :=
  forall dh pd items fuel stack res,
    dh !! pd = Some items -> t_name T ∉ items.*1 ->
    Mapping.to_dict_loop (visits T + fuel) h ((l, Some pd) :: stack) res dh
    = Mapping.to_dict_loop fuel h stack res
        (<[pd := items ++ [(t_name T, dvalue (length dh) T)]]> dh ++ dflatten (length dh) T).

Lemma to_dict_loop_forest h ls cs :
  Forall2 (dict_visit h) ls cs ->
  forall dh pd items fuel stack res,
    dh !! pd = Some items -> NoDup (items.*1 ++ map t_name cs) ->
    Mapping.to_dict_loop (list_sum (map visits cs) + fuel) h
      (map (fun child => (child, Some pd)) ls ++ stack) res dh
    = Mapping.to_dict_loop fuel h stack res
        (<[pd := items ++ dentries (length dh) cs]> dh ++ dforest (length dh) cs).
Proof.
  induction 1 as [|l c ls cs Hc Hls IH]; intros dh pd items fuel stack res Hpd Hnd.
  - cbn. rewrite !app_nil_r. by rewrite list_insert_id.
  - change (list_sum (map visits (c :: cs))) with (visits c + list_sum (map visits cs)).
    cbn [map app]. rewrite <- Nat.add_assoc.
    assert (Hfresh : t_name c ∉ items.*1).
    { cbn [map] in Hnd. apply NoDup_app in Hnd as (_ & Hdis & _).
      intros Hin. apply (Hdis _ Hin). left. }
    rewrite (Hc dh pd items _ _ _ Hpd Hfresh).
    pose proof (lookup_lt_Some _ _ _ Hpd) as Hlt.
    rewrite (IH _ pd (items ++ [(t_name c, dvalue (length dh) c)])).
    + f_equal. rewrite length_app, length_insert, length_dflatten.
      rewrite insert_app_l by (by rewrite length_insert).
      rewrite list_insert_insert_eq. rewrite <- !app_assoc. reflexivity.
    + rewrite lookup_app_l by (by rewrite length_insert).
      by rewrite list_lookup_insert_eq.
    + rewrite fmap_app. cbn [fmap list_fmap]. rewrite <- app_assoc. exact Hnd.
Qed.

Lemma to_dict_loop_tree h T :
  forall l, represents h l T -> well_formed T -> dict_visit h l T.
Proof.
  induction T as [n lf cs IH] using Tree_ind'.
  intros l Hrep Hwf dh pd items fuel stack res Hpd Hfresh.
  inversion Hrep as [l' o cs' Ho Hcs Hl' HT]; subst.
  apply well_formed_unfold in Hwf as (Hleaf & Hnd & Hwfs).
  cbn [visits Nat.add]. rewrite to_dict_loop_S, Ho. cbn [deref bind t_name] in *.
  destruct (is_leaf o) eqn:Hlf; cbn [negb].
  - rewrite (store_fresh dh [[(name o, PyNone)]] pd items) by done. cbn [bind].
    rewrite (Hleaf eq_refl). reflexivity.
  - rewrite <- app_assoc. cbn [app].
    rewrite (store_fresh dh _ pd items) by done. cbn [bind].
    rewrite push_reversed_map.
    rewrite (to_dict_loop_forest h (children o) cs) with (items := []).
    + f_equal. rewrite length_app, length_insert. cbn [length].
      rewrite dflatten_dir. unfold dvalue. cbn [t_leaf app].
      replace (length dh + 2) with (length (<[pd := items ++ [(name o, PyDict (length dh))]]> dh) + 2)
        by (by rewrite length_insert).
      set (A := <[pd := items ++ [(name o, PyDict (length dh))]]> dh).
      assert (length A = length dh) as HA by apply length_insert.
      rewrite <- HA at 1.
      rewrite insert_app_r_alt by lia. rewrite Nat.sub_diag. cbn [insert list_insert].
      rewrite <- app_assoc. reflexivity.
    + clear Hrep Ho Hnd. induction Hcs as [|l1 c1 ls1 cs1 H1 Hcs1 IH1]; [constructor|].
      inversion IH as [|? ? IHc IHrest]; subst.
      inversion Hwfs as [|? ? Hw1 Hwrest]; subst.
      constructor; [by apply IHc|by apply IH1].
    + rewrite lookup_app_r by (by rewrite length_insert).
      rewrite length_insert, Nat.sub_diag. reflexivity.
    + exact Hnd.
Qed.

(** ** Building a tree: what [add_child] leaves in the store *)

(** The parent object once the trees [cs] are attached to it from
    reference [base] on. *)
Definition adopt (op : TreeNode) (base : nat) (cs : list Tree) : TreeNode :=
  mkTreeNode (name op) (is_leaf op) (children op ++ child_locs base cs)
    (match non_leaf_names op with
     | Some s => Some (dir_names cs ∪ s)
     | None => None
     end).

Lemma flatten_unfold base n lf cs :
  flatten base (Entry n lf cs)
  = mkTreeNode n lf (child_locs (S base) cs) (if lf then None else Some (dir_names cs))
    :: flatten_forest (S base) cs.
Proof. reflexivity. Qed.

Lemma flatten_forest_cons b c cs :
  flatten_forest b (c :: cs) = flatten b c ++ flatten_forest (b + size c) cs.
Proof. reflexivity. Qed.

Lemma length_flatten T : forall base, length (flatten base T) = size T.
Proof.
  induction T as [n lf cs IH] using Tree_ind'. intros base.
  rewrite flatten_unfold. cbn [length size]. f_equal.
  generalize (S base). induction IH as [|c cs Hc _ IHcs]; intros b; [done|].
  rewrite flatten_forest_cons, length_app, Hc, IHcs. done.
Qed.

Lemma length_flatten_forest cs : forall b, length (flatten_forest b cs) = list_sum (map size cs).
Proof.
  induction cs as [|c cs IH]; intros b; [done|].
  rewrite flatten_forest_cons, length_app, length_flatten, IH. done.
Qed.

Lemma dir_names_cons c cs :
  dir_names (c :: cs) = (if t_leaf c then ∅ else {[t_name c]}) ∪ dir_names cs.
Proof.
  unfold dir_names. rewrite filter_cons.
  destruct (decide (t_leaf c = false)) as [E|E].
  - rewrite E. reflexivity.
  - destruct (t_leaf c); [|done]. by rewrite union_empty_l_L.
Qed.

Lemma dir_names_nil : dir_names [] = ∅.
Proof. reflexivity. Qed.

Lemma dir_names_single (c : Tree) (s : gset (list N)) :
  dir_names [c] ∪ s = if t_leaf c then s else {[t_name c]} ∪ s.
Proof.
  rewrite dir_names_cons, dir_names_nil. destruct (t_leaf c); set_solver.
Qed.

Lemma adopt_nil op base : adopt op base [] = op.
Proof.
  unfold adopt. cbn [child_locs]. rewrite app_nil_r.
  destruct op as [n lf cs [s|]]; cbn [name is_leaf children non_leaf_names]; [|done].
  by rewrite dir_names_nil, union_empty_l_L.
Qed.

Lemma adopt_cons op base c cs :
  adopt (adopt op base [c]) (base + size c) cs = adopt op base (c :: cs).
Proof.
  unfold adopt. cbn [name is_leaf children non_leaf_names child_locs].
  rewrite <- app_assoc. cbn [app]. f_equal.
  destruct (non_leaf_names op) as [s|]; [|done]. f_equal.
  rewrite (dir_names_cons c cs), (dir_names_cons c []), dir_names_nil. set_solver.
Qed.

(** [TreeNode(nm, leaf)] followed by [parent.add_child] of the new node. *)
Lemma new_add_child h p op nm lf :
  h !! p = Some op -> is_Some (non_leaf_names op) ->
  Node.add_child p (length h) (h ++ [mkTreeNode nm lf [] (if lf then None else Some ∅)])
  = Ok (<[p := adopt op (length h) [Entry nm lf []]]> h
        ++ [mkTreeNode nm lf [] (if lf then None else Some ∅)]).
Proof.
  intros Hp [s Hs]. unfold Node.add_child.
  rewrite (lookup_app_l_Some _ _ _ _ Hp). cbn [deref bind].
  rewrite list_lookup_middle by done. cbn [deref bind is_leaf name].
  pose proof (lookup_lt_Some _ _ _ Hp) as Hlt.
  unfold adopt. rewrite Hs. cbn [child_locs].
  rewrite dir_names_single. cbn [t_leaf t_name].
  destruct lf; rewrite insert_app_l by done; rewrite <- ?Hs; reflexivity.
Qed.

Lemma represents_flatten T :
  forall A B, represents (A ++ flatten (length A) T ++ B) (length A) T.
Proof.
  induction T as [n lf cs IH] using Tree_ind'. intros A B.
  rewrite flatten_unfold.
  set (o := mkTreeNode n lf (child_locs (S (length A)) cs)
              (if lf then None else Some (dir_names cs))).
  change (Entry n lf cs) with (Entry (name o) (is_leaf o) cs).
  constructor; [by apply list_lookup_middle|].
  cbn [children o].
  change (A ++ (o :: flatten_forest (S (length A)) cs) ++ B)
    with (A ++ [o] ++ flatten_forest (S (length A)) cs ++ B).
  rewrite app_assoc.
  assert (Hlen : S (length A) = length (A ++ [o])) by (rewrite length_app; cbn; lia).
  rewrite Hlen. generalize (A ++ [o]). clear Hlen o. intros pre. revert pre.
  induction IH as [|c cs Hc _ IHcs]; intros pre; [constructor|].
  cbn [child_locs]. rewrite flatten_forest_cons. constructor.
  - rewrite <- app_assoc. apply Hc.
  - rewrite <- app_assoc, (app_assoc pre).
    replace (length pre + size c) with (length (pre ++ flatten (length pre) c))
      by (by rewrite length_app, length_flatten).
    apply IHcs.
Qed.

(** A tree read off the store is the only tree the reference stands for. *)
Lemma represents_unique h T : forall l T', represents h l T -> represents h l T' -> T' = T.
Proof.
  induction T as [n lf cs IH] using Tree_ind'. intros l T' H1 H2.
  inversion H1 as [l1 o1 cs1 Ho1 Hcs1]; subst.
  inversion H2 as [l2 o2 cs2 Ho2 Hcs2]; subst.
  assert (o2 = o1) as -> by congruence. f_equal.
  clear H1 H2 Ho1 Ho2. revert cs2 Hcs2.
  induction Hcs1 as [|l' c ls cs Hc Hls IHls]; intros cs2 Hcs2.
  - by inversion Hcs2.
  - inversion Hcs2 as [|? c2 ? cs2' Hc2 Hcs2']; subst.
    inversion IH as [|? ? IHc IHrest]; subst.
    f_equal; [by eapply IHc|by apply IHls].
Qed.

Lemma holds_extend dh ext T : forall v, holds dh v T -> holds (dh ++ ext) v T.
Proof.
  induction T as [n lf cs IH] using Tree_ind'. intros v Hv.
  inversion Hv as [|d items n' cs' Hd Hitems]; subst; [constructor|].
  econstructor; [by apply lookup_app_l_Some|].
  clear Hd Hv. induction Hitems as [|it c items cs [Hn Hc] _ IHitems]; [constructor|].
  inversion IH as [|? ? IHc IHrest]; subst.
  constructor; [split; [done|by apply IHc]|by apply IHitems].
Qed.

Lemma holds_dforest cs :
  Forall (fun c => well_formed c ->
            forall A B, holds (A ++ dflatten (length A) c ++ B) (dvalue (length A) c) c) cs ->
  Forall well_formed cs ->
  forall pre post,
    Forall2 (fun (it : list N * pyval) c =>
               it.1 = t_name c /\ holds (pre ++ dforest (length pre) cs ++ post) it.2 c)
      (dentries (length pre) cs) cs.
Proof.
  induction 1 as [|c cs Hc _ IHcs]; intros Hwfs pre post; [constructor|].
  inversion Hwfs as [|? ? Hw Hws]; subst.
  cbn [dentries]. rewrite dforest_cons. constructor.
  - split; [done|]. cbn [snd]. rewrite <- app_assoc. by apply Hc.
  - rewrite <- app_assoc, (app_assoc pre).
    replace (length pre + dsize c) with (length (pre ++ dflatten (length pre) c))
      by (by rewrite length_app, length_dflatten).
    by apply IHcs.
Qed.

Lemma holds_dflatten T :
  well_formed T ->
  forall A B, holds (A ++ dflatten (length A) T ++ B) (dvalue (length A) T) T.
Proof.
  induction T as [n lf cs IH] using Tree_ind'. intros Hwf A B.
  apply well_formed_unfold in Hwf as (Hleaf & _ & Hwfs).
  unfold dvalue. cbn [t_leaf]. destruct lf.
  { rewrite (Hleaf eq_refl). constructor. }
  rewrite dflatten_dir.
  econstructor; [by apply list_lookup_middle|].
  set (E := dentries (length A + 2) cs) at 1.
  change (A ++ (E :: [(n, PyDict (length A))] :: dforest (length A + 2) cs) ++ B)
    with (A ++ [E; [(n, PyDict (length A))]] ++ dforest (length A + 2) cs ++ B).
  rewrite app_assoc.
  assert (Hlen : length A + 2 = length (A ++ [E; [(n, PyDict (length A))]])).
  { rewrite length_app. cbn. lia. }
  rewrite Hlen. by apply holds_dforest.
Qed.

(** [e] is a [dict] whose first item is the name of [T] with what lies
    below it. *)
Definition dict_entry (dh : list (list (list N * pyval))) (e : nat) (T : Tree) : Prop :=
  exists v more, dh !! e = Some ((t_name T, v) :: more) /\ holds dh v T.

Lemma dict_entry_extend dh ext e T : dict_entry dh e T -> dict_entry (dh ++ ext) e T.
Proof.
  intros (v & more & He & Hv). exists v, more.
  split; [by apply lookup_app_l_Some|by apply holds_extend].
Qed.

Lemma push_singles current_node items :
  forall stack dh,
  exists es,
    fold_left (Mapping.push_single current_node) (rev items) (stack, dh)
    = (map (fun e => (Some current_node, e)) es ++ stack,
       dh ++ map (fun it => [it]) (rev items))
    /\ Forall2 (fun e it => (dh ++ map (fun it => [it]) (rev items)) !! e = Some [it])
         es items.
Proof.
  induction items as [|x items IH] using rev_ind; intros stack dh.
  - exists []. split; [by rewrite app_nil_r|constructor].
  - rewrite rev_unit. cbn [fold_left Mapping.push_single]. destruct x as [k v].
    unfold Dict.new.
    destruct (IH ((Some current_node, length dh) :: stack) (dh ++ [[(k, v)]]))
      as (es & Hfold & Hes).
    exists (es ++ [length dh]). split.
    + rewrite Hfold, map_app. cbn [map]. by rewrite <- !app_assoc.
    + cbn [map]. apply Forall2_app.
      * rewrite <- app_assoc in Hes. exact Hes.
      * constructor; [|constructor]. by apply list_lookup_middle.
Qed.

Lemma from_dict_loop_S fuel parent_node current_dict stack root_node h dh :
  Mapping.from_dict_loop (S fuel) ((parent_node, current_dict) :: stack) root_node (h, dh)
  = (items <- deref (dh !! current_dict);;
     nm <- Dict.first_key items;;
     value <- Dict.getitem nm items;;
     let leaf := match value with PyNone => true | PyDict _ => false end in
     h' <- match parent_node with
           | Some p => Node.add_child p (length h)
                         (h ++ [mkTreeNode nm leaf [] (if leaf then None else Some ∅)])
           | None => Ok (h ++ [mkTreeNode nm leaf [] (if leaf then None else Some ∅)])
           end;;
     let root_node' :=
       match parent_node with None => Some (length h) | Some _ => root_node end in
     match value with
     | PyNone => Mapping.from_dict_loop fuel stack root_node' (h', dh)
     | PyDict d =>
       child_items <- deref (dh !! d);;
       let pushed := fold_left (Mapping.push_single (length h)) (rev child_items) (stack, dh) in
       Mapping.from_dict_loop fuel pushed.1 root_node' (h', pushed.2)
     end).
Proof.
  cbn [Mapping.from_dict_loop]. destruct (deref (dh !! current_dict)) as [items| | |]; [|done..].
  cbn [bind]. destruct (Dict.first_key items) as [nm| | |]; [|done..]. cbn [bind].
  destruct (Dict.getitem nm items) as [value| | |]; [|done..]. cbn [bind].
  unfold Node.new.
  set (added := match parent_node with Some p => _ | None => _ end).
  destruct added as [h'| | |]; [|done..]. cbn [bind].
  destruct value as [|d]; [done|].
  destruct (deref (dh !! d)) as [child_items| | |]; [|done..]. cbn [bind].
  destruct (fold_left _ (rev child_items) (stack, dh)) as [stack' dh']. reflexivity.
Qed.

(** The visits of [from_dict]'s loop below one entry attach the tree it
    spells to the parent, its objects laid out in visiting order. *)
Definition entry_visit (e : nat) (T : Tree) : Prop :=
  forall dh h p op fuel stack root,
    dict_entry dh e T -> h !! p = Some op -> is_Some (non_leaf_names op) ->
    exists ext,
      Mapping.from_dict_loop (size T + fuel) ((Some p, e) :: stack) root (h, dh)
      = Mapping.from_dict_loop fuel stack root
          (<[p := adopt op (length h) [T]]> h ++ flatten (length h) T, dh ++ ext).

Lemma from_dict_loop_forest x es cs :
  Forall2 entry_visit es cs ->
  forall dh h ox fuel stack root,
    Forall2 (dict_entry dh) es cs -> h !! x = Some ox -> is_Some (non_leaf_names ox) ->
    exists ext,
      Mapping.from_dict_loop (list_sum (map size cs) + fuel)
        (map (fun e => (Some x, e)) es ++ stack) root (h, dh)
      = Mapping.from_dict_loop fuel stack root
          (<[x := adopt ox (length h) cs]> h ++ flatten_forest (length h) cs, dh ++ ext).
Proof.
  induction 1 as [|e c es cs Hc Hes IH]; intros dh h ox fuel stack root Hent Hx Hnl.
  - exists []. cbn. rewrite !app_nil_r, adopt_nil. by rewrite list_insert_id.
  - inversion Hent as [|? ? ? ? He Hrest]; subst.
    change (list_sum (map size (c :: cs))) with (size c + list_sum (map size cs)).
    cbn [map app]. rewrite <- Nat.add_assoc.
    destruct (Hc dh h x ox (list_sum (map size cs) + fuel)
                (map (fun e => (Some x, e)) es ++ stack) root He Hx Hnl) as (ext1 & Hrun1).
    rewrite Hrun1.
    pose proof (lookup_lt_Some _ _ _ Hx) as Hlt.
    destruct (IH (dh ++ ext1) (<[x := adopt ox (length h) [c]]> h ++ flatten (length h) c)
                (adopt ox (length h) [c]) fuel stack root) as (ext2 & Hrun2).
    + eapply Forall2_impl; [exact Hrest|]. intros. by apply dict_entry_extend.
    + rewrite lookup_app_l by (by rewrite length_insert). by rewrite list_lookup_insert_eq.
    + unfold adopt. cbn [non_leaf_names]. destruct Hnl as [s ->]. eauto.
    + exists (ext1 ++ ext2). rewrite Hrun2. f_equal. f_equal.
      * rewrite length_app, length_insert, length_flatten, adopt_cons.
        rewrite insert_app_l by (by rewrite length_insert).
        rewrite list_insert_insert_eq, flatten_forest_cons. by rewrite <- app_assoc.
      * by rewrite <- app_assoc.
Qed.

Definition is_none (v : pyval) : bool :=
  match v with PyNone => true | PyDict _ => false end.

(** What the loop does once the node of an entry is allocated as the last
    object of the store [A ++ [_]]. *)
Lemma from_dict_expand n lf cs v :
  Forall (fun c => forall e, entry_visit e c) cs ->
  forall dh A fuel stack root,
    holds dh v (Entry n lf cs) ->
    exists ext,
      match v with
      | PyNone =>
        Mapping.from_dict_loop (list_sum (map size cs) + fuel) stack root
          (A ++ [mkTreeNode n (is_none v) [] (if is_none v then None else Some ∅)], dh)
      | PyDict d =>
        child_items <- deref (dh !! d);;
        let pushed :=
          fold_left (Mapping.push_single (length A)) (rev child_items) (stack, dh) in
        Mapping.from_dict_loop (list_sum (map size cs) + fuel) pushed.1 root
          (A ++ [mkTreeNode n (is_none v) [] (if is_none v then None else Some ∅)], pushed.2)
      end
      = Mapping.from_dict_loop fuel stack root
          (A ++ flatten (length A) (Entry n lf cs), dh ++ ext).
Proof.
  intros IH dh A fuel stack root Hv.
  inversion Hv as [|d items n' cs' Hd Hitems]; subst.
  { exists []. cbn. by rewrite app_nil_r. }
  rewrite Hd. cbn [deref bind is_none].
  destruct (push_singles (length A) items stack dh) as (es & Hfold & Hes).
  rewrite Hfold. cbn [fst snd].
  set (dh' := dh ++ map (fun it => [it]) (rev items)) in *.
  set (x0 := mkTreeNode n false [] (Some ∅)).
  destruct (from_dict_loop_forest (length A) es cs) with
    (dh := dh') (h := A ++ [x0]) (ox := x0) (fuel := fuel) (stack := stack) (root := root)
    as (ext & Hrun).
  - apply Forall2_same_length_lookup_2.
    + rewrite (Forall2_length _ _ _ Hes). by rewrite (Forall2_length _ _ _ Hitems).
    + intros i e c He Hc. rewrite Forall_forall in IH. apply IH.
      apply list_elem_of_lookup. eauto.
  - eapply Forall2_trans; [|exact Hes|exact Hitems].
    intros e [k w] c He [Hk Hw]. cbn in Hk, Hw. subst k.
    exists w, []. split; [exact He|]. by apply holds_extend.
  - by apply list_lookup_middle.
  - by eexists.
  - exists (map (fun it => [it]) (rev items) ++ ext). rewrite Hrun. f_equal. f_equal.
    + rewrite insert_app_r_alt by lia. rewrite Nat.sub_diag. cbn [insert list_insert].
      rewrite flatten_unfold, length_app. cbn [length].
      rewrite Nat.add_1_r. unfold adopt, x0. cbn [name is_leaf children non_leaf_names app].
      rewrite union_empty_r_L. by rewrite <- app_assoc.
    + unfold dh'. by rewrite <- app_assoc.
Qed.

Lemma adopt_single op base c :
  adopt op base [Entry (t_name c) (t_leaf c) []] = adopt op base [c].
Proof.
  unfold adopt. cbn [child_locs]. f_equal.
  destruct (non_leaf_names op) as [s|]; [|done].
  by rewrite !dir_names_single.
Qed.

Lemma from_dict_loop_tree T : forall e, entry_visit e T.
Proof.
  induction T as [n lf cs IH] using Tree_ind'.
  intros e dh h p op fuel stack root (v & more & He & Hv) Hp Hnl.
  cbn [size Nat.add t_name] in *. rewrite from_dict_loop_S, He.
  cbn [deref bind Dict.first_key Dict.getitem]. rewrite bool_decide_eq_true_2 by done.
  cbn [bind]. fold (is_none v).
  assert (Hlf : is_none v = lf) by (inversion Hv; done). subst lf.
  rewrite (new_add_child h p op) by done. cbn [bind].
  pose proof (lookup_lt_Some _ _ _ Hp) as Hlt.
  destruct (from_dict_expand n (is_none v) cs v IH dh
              (<[p := adopt op (length h) [Entry n (is_none v) cs]]> h)
              fuel stack root Hv) as (ext & Hrun).
  exists ext. rewrite length_insert in Hrun. rewrite <- Hrun.
  pose proof (adopt_single op (length h) (Entry n (is_none v) cs)) as Ha.
  cbn [t_name t_leaf] in Ha. rewrite Ha.
  destruct v; reflexivity.
Qed.

Lemma from_dict_root T d dh h fuel :
  dict_entry dh d T -> size T <= fuel ->
  exists ext,
    Mapping.from_dict fuel d (h, dh)
    = Ok (Some (length h), (h ++ flatten (length h) T, dh ++ ext)).
Proof.
  destruct T as [n lf cs]. intros (v & more & He & Hv) Hfuel.
  unfold Mapping.from_dict. cbn [size t_name] in *.
  replace fuel with (S (list_sum (map size cs) + (fuel - S (list_sum (map size cs))))) by lia.
  rewrite from_dict_loop_S, He.
  cbn [deref bind Dict.first_key Dict.getitem]. rewrite bool_decide_eq_true_2 by done.
  cbn [bind]. fold (is_none v).
  destruct (from_dict_expand n lf cs v) with
    (dh := dh) (A := h) (fuel := fuel - S (list_sum (map size cs)))
    (stack := @nil (option nat * nat)) (root := Some (length h)) as (ext & Hrun).
  - apply Forall_forall. intros c _. apply from_dict_loop_tree.
  - exact Hv.
  - exists ext.
    assert (Mapping.from_dict_loop (fuel - S (list_sum (map size cs))) [] (Some (length h))
              (h ++ flatten (length h) (Entry n lf cs), dh ++ ext)
            = Ok (Some (length h), (h ++ flatten (length h) (Entry n lf cs), dh ++ ext)))
      as <- by (by destruct (fuel - _)).
    rewrite <- Hrun. destruct v; reflexivity.
Qed.

Lemma dict_visit_children h ls cs :
  Forall2 (represents h) ls cs -> Forall well_formed cs -> Forall2 (dict_visit h) ls cs.
Proof.
  induction 1 as [|l c ls cs Hc _ IH]; intros Hwf; [constructor|].
  inversion Hwf; subst. constructor; [by apply to_dict_loop_tree|by apply IH].
Qed.

Lemma to_dict_root h l T dh fuel :
  represents h l T -> well_formed T -> visits T <= fuel ->
  Mapping.to_dict fuel h l dh
  = Ok (S (length dh) + (if t_leaf T then 0 else 1),
        dh ++ [[]] ++ dflatten (S (length dh)) T).
Proof.
  intros Hrep Hwf Hfuel. destruct T as [n lf cs].
  inversion Hrep as [l' o cs' Ho Hcs Hl' HT]; subst.
  apply well_formed_unfold in Hwf as (Hleaf & Hnd & Hwfs).
  unfold Mapping.to_dict, Dict.new. cbn [visits t_leaf] in *.
  destruct fuel as [|fuel]; [lia|].
  rewrite to_dict_loop_S, Ho. cbn [deref bind].
  set (dh1 := dh ++ [[]]).
  assert (Hl1 : length dh1 = S (length dh)) by (unfold dh1; rewrite length_app; cbn; lia).
  destruct (is_leaf o) eqn:Hlf; cbn [negb].
  - rewrite (Hleaf eq_refl), Hl1, Nat.add_0_r. unfold dh1. rewrite <- app_assoc.
    by destruct fuel.
  - rewrite push_reversed_map.
    replace fuel with (list_sum (map visits cs) + (fuel - list_sum (map visits cs))) by lia.
    rewrite (to_dict_loop_forest h (children o) cs) with (items := []).
    + rewrite !length_app, Hl1. cbn [length].
      rewrite insert_app_l by (rewrite length_app, Hl1; cbn; lia).
      rewrite insert_app_r_alt by lia. rewrite Hl1, Nat.sub_diag.
      cbn [insert list_insert app]. rewrite dflatten_dir.
      replace (S (length dh) + 1 + 1) with (S (length dh) + 2) by lia.
      rewrite Nat.add_1_r. unfold dh1. rewrite <- !app_assoc. cbn [app].
      by destruct (fuel - _).
    + by apply dict_visit_children.
    + rewrite lookup_app_l by (rewrite length_app, Hl1; cbn; lia).
      rewrite lookup_app_r by lia. by rewrite Hl1, Nat.sub_diag.
    + exact Hnd.
Qed.

(** Encoding a tree into the [dict] store and decoding the result into a
    store [h0] lays the same tree out at the end of [h0]. *)
Lemma mapping_round_trip h l T dh h0 fuel :
  represents h l T -> well_formed T -> size T <= fuel ->
  exists d dh1 ext,
    Mapping.to_dict fuel h l dh = Ok (d, dh1)
    /\ Mapping.from_dict fuel d (h0, dh1)
       = Ok (Some (length h0), (h0 ++ flatten (length h0) T, dh1 ++ ext)).
Proof.
  intros Hrep Hwf Hfuel.
  pose proof (visits_le_size T) as Hv.
  set (d := S (length dh) + (if t_leaf T then 0 else 1)).
  set (dh1 := dh ++ [[]] ++ dflatten (S (length dh)) T).
  assert (Hent : dict_entry dh1 d T).
  { exists (dvalue (S (length dh)) T), []. split.
    - unfold dh1, d. rewrite app_assoc.
      rewrite lookup_app_r by (rewrite length_app; cbn; lia).
      rewrite length_app. cbn [length].
      destruct T as [n [|] cs]; cbn [t_leaf t_name].
      + replace (S (length dh) + 0 - (length dh + 1)) with 0 by lia. reflexivity.
      + replace (S (length dh) + 1 - (length dh + 1)) with 1 by lia. reflexivity.
    - unfold dh1. rewrite app_assoc.
      replace (S (length dh)) with (length (dh ++ [[]])) by (rewrite length_app; cbn; lia).
      rewrite <- (app_nil_r (dflatten _ T)). by apply holds_dflatten. }
  destruct (from_dict_root T d dh1 h0 fuel Hent Hfuel) as (ext & Hdec).
  exists d, dh1, ext. split; [|exact Hdec].
  apply to_dict_root; [done..|lia].
Qed.

(** Trees that agree on names and tags, the children of each directory
    taken as a set. *)
Inductive similar : Tree -> Tree -> Prop :=
| similar_entry n lf cs cs' reordered :
    Permutation cs reordered ->
    Forall2 similar reordered cs' ->
    similar (Entry n lf cs) (Entry n lf cs').

Lemma similar_refl T : similar T T.
Proof.
  induction T as [n lf cs IH] using Tree_ind'.
  apply (similar_entry n lf cs cs cs); [done|].
  induction IH; constructor; done.
Qed.

(** Settles [well_formed] on a tree that is written out. *)
Ltac wf_tree :=
  apply well_formed_unfold;
  split; [first [done | intros; discriminate]|];
  split; [apply (bool_decide_unpack _); by vm_compute|];
  repeat first [apply Forall_nil_2 | apply Forall_cons_2; [wf_tree|]].

Lemma well_formed_example : well_formed T_example.
Proof. wf_tree. Qed.

(** C9: for a Node Tree (no leaf with children, sibling names distinct) the
    mapping codec gives back each directory's children in their stored
    order: the decoded reference stands for [T] itself and for no other
    tree. *)
Theorem mapping_round_trip_keeps_order (h : list TreeNode) (l : nat) (T : Tree)
    (dh : list (list (list N * pyval))) (h0 : list TreeNode) (fuel : nat) :
  represents h l T -> well_formed T -> size T <= fuel ->
  exists d dh1 root h1 dh2,
    Mapping.to_dict fuel h l dh = Ok (d, dh1)
    /\ Mapping.from_dict fuel d (h0, dh1) = Ok (Some root, (h1, dh2))
    /\ represents h1 root T
    /\ (forall T', represents h1 root T' -> T' = T).
Proof.
  intros Hrep Hwf Hfuel.
  destruct (mapping_round_trip h l T dh h0 fuel Hrep Hwf Hfuel) as (d & dh1 & ext & He & Hd).
  exists d, dh1, (length h0), (h0 ++ flatten (length h0) T), (dh1 ++ ext).
  assert (Hr : represents (h0 ++ flatten (length h0) T) (length h0) T).
  { rewrite <- (app_nil_r (flatten _ T)). apply represents_flatten. }
  repeat split; try done.
  intros T' HT'. by eapply represents_unique.
Qed.

Lemma mapping_round_trip_keeps_order_witness :
  exists d dh1 root h1 dh2,
    Mapping.to_dict 4 h_example 0 [] = Ok (d, dh1)
    /\ Mapping.from_dict 4 d ([], dh1) = Ok (Some root, (h1, dh2))
    /\ represents h1 root T_example
    /\ (forall T', represents h1 root T' -> T' = T_example).
Proof.
  apply (mapping_round_trip_keeps_order h_example 0 T_example [] [] 4).
  - apply (reify_represents 3). reflexivity.
  - exact well_formed_example.
  - vm_compute. lia.
Defined.

(** C2: for a Node Tree the mapping codec loses nothing: the decoded tree
    has the same names, the same tags and the same children at every
    directory, and every node of [T], at whatever level, is in it. *)
Theorem mapping_round_trip_complete (h : list TreeNode) (l : nat) (T : Tree)
    (dh : list (list (list N * pyval))) (h0 : list TreeNode) (fuel : nat) :
  represents h l T -> well_formed T -> size T <= fuel ->
  exists d dh1 root h1 dh2 T',
    Mapping.to_dict fuel h l dh = Ok (d, dh1)
    /\ Mapping.from_dict fuel d (h0, dh1) = Ok (Some root, (h1, dh2))
    /\ represents h1 root T'
    /\ similar T T'
    /\ (forall lvl N, (lvl, N) ∈ nodes_at 0 T ->
          exists N', (lvl, N') ∈ nodes_at 0 T'
                     /\ t_name N' = t_name N /\ t_leaf N' = t_leaf N).
Proof.
  intros Hrep Hwf Hfuel.
  destruct (mapping_round_trip h l T dh h0 fuel Hrep Hwf Hfuel) as (d & dh1 & ext & He & Hd).
  exists d, dh1, (length h0), (h0 ++ flatten (length h0) T), (dh1 ++ ext), T.
  repeat split; try done.
  - rewrite <- (app_nil_r (flatten _ T)). apply represents_flatten.
  - apply similar_refl.
  - intros lvl N HN. exists N. done.
Qed.

Lemma mapping_round_trip_complete_witness :
  exists d dh1 root h1 dh2 T',
    Mapping.to_dict 4 h_example 0 [] = Ok (d, dh1)
    /\ Mapping.from_dict 4 d ([], dh1) = Ok (Some root, (h1, dh2))
    /\ represents h1 root T'
    /\ similar T_example T'
    /\ (forall lvl N, (lvl, N) ∈ nodes_at 0 T_example ->
          exists N', (lvl, N') ∈ nodes_at 0 T'
                     /\ t_name N' = t_name N /\ t_leaf N' = t_leaf N).
Proof.
  apply (mapping_round_trip_complete h_example 0 T_example [] [] 4).
  - apply (reify_represents 3). reflexivity.
  - exact well_formed_example.
  - vm_compute. lia.
Defined.

(** ** The set of directory-child names *)

(** The names of the children of a node that are directories. *)
Definition dir_child_names (h : list TreeNode) (cs : list nat) : gset (list N) :=
  list_to_set
    (flat_map (fun c => match h !! c with
                        | Some o => if is_leaf o then [] else [name o]
                        | None => []
                        end) cs).

(** Every object refers to objects of the store, and the set a directory
    keeps is the set of the names of its directory children. *)
Definition heap_inv (h : list TreeNode) : Prop :=
  forall l o, h !! l = Some o ->
    Forall (fun c => c < length h) (children o)
    /\ (is_leaf o = false -> non_leaf_names o = Some (dir_child_names h (children o))).

Definition tag (o : TreeNode) : list N * bool := (name o, is_leaf o).

Lemma dir_child_names_stable h h' cs :
  (forall c, c < length h -> tag <$> h' !! c = tag <$> h !! c) ->
  Forall (fun c => c < length h) cs ->
  dir_child_names h' cs = dir_child_names h cs.
Proof.
  intros Hsame Hcs. unfold dir_child_names. f_equal.
  induction Hcs as [|c cs Hc _ IH]; [done|]. cbn [flat_map]. rewrite IH. f_equal.
  specialize (Hsame c Hc). unfold tag in Hsame.
  destruct (h' !! c) as [o'|], (h !! c) as [o|]; cbn in Hsame; try done.
  by injection Hsame as -> ->.
Qed.

Lemma dir_child_names_app h cs1 cs2 :
  dir_child_names h (cs1 ++ cs2) = dir_child_names h cs1 ∪ dir_child_names h cs2.
Proof. unfold dir_child_names. by rewrite flat_map_app, list_to_set_app_L. Qed.

Lemma heap_inv_new h nm lf : heap_inv h -> heap_inv (Node.new nm lf h).2.
Proof.
  intros Hinv l o Hl. cbn [Node.new snd] in *. rewrite length_app. cbn [length].
  destruct (decide (l < length h)) as [Hlt|Hge].
  - rewrite lookup_app_l in Hl by done. destruct (Hinv l o Hl) as [Hclosed Hset].
    split.
    + eapply Forall_impl; [exact Hclosed|]. cbn. lia.
    + intros Hdir. rewrite (Hset Hdir). f_equal. symmetry.
      apply dir_child_names_stable; [|done].
      intros c Hc. by rewrite lookup_app_l.
  - rewrite lookup_app_r in Hl by lia.
    destruct (l - length h) as [|k]; [|by destruct k].
    injection Hl as <-. cbn. split; [constructor|].
    intros ->. reflexivity.
Qed.

Lemma heap_inv_add_child h p c h' :
  heap_inv h -> Node.add_child p c h = Ok h' -> heap_inv h'.
Proof.
  intros Hinv Hadd. unfold Node.add_child in Hadd.
  destruct (h !! p) as [op|] eqn:Hp; [|done]. cbn [deref bind] in Hadd.
  destruct (h !! c) as [oc|] eqn:Hc; [|done]. cbn [deref bind] in Hadd.
  destruct (Hinv p op Hp) as [Hclosed Hset].
  pose proof (lookup_lt_Some _ _ _ Hp) as Hplt.
  pose proof (lookup_lt_Some _ _ _ Hc) as Hclt.
  assert (Hshape : exists nl,
    h' = <[p := mkTreeNode (name op) (is_leaf op) (children op ++ [c]) nl]> h
    /\ (is_leaf op = false -> nl = Some (dir_child_names h (children op ++ [c])))).
  { assert (Hone : dir_child_names h [c] = if is_leaf oc then ∅ else {[name oc]}).
    { unfold dir_child_names. cbn [flat_map]. rewrite Hc, app_nil_r.
      destruct (is_leaf oc); cbn; [done|]. apply union_empty_r_L. }
    destruct (is_leaf oc) eqn:Hlf.
    - injection Hadd as <-. eexists. split; [done|].
      intros Hdir. rewrite (Hset Hdir), dir_child_names_app, Hone.
      by rewrite union_empty_r_L.
    - destruct (non_leaf_names op) as [s|] eqn:Hs; [|done].
      injection Hadd as <-. eexists. split; [done|].
      intros Hdir. specialize (Hset Hdir). injection Hset as ->.
      rewrite dir_child_names_app, Hone. f_equal. set_solver. }
  destruct Hshape as (nl & -> & Hnl).
  assert (Hstable : forall cs, Forall (fun c => c < length h) cs ->
            dir_child_names
              (<[p := mkTreeNode (name op) (is_leaf op) (children op ++ [c]) nl]> h) cs
            = dir_child_names h cs).
  { intros cs Hcs. apply dir_child_names_stable; [|done].
    intros c' Hc'. destruct (decide (c' = p)) as [->|Hne].
    - rewrite list_lookup_insert_eq by done. by rewrite Hp.
    - by rewrite list_lookup_insert_ne. }
  intros l o Hl. rewrite length_insert.
  destruct (decide (l = p)) as [->|Hne].
  - rewrite list_lookup_insert_eq in Hl by done. injection Hl as <-.
    cbn [children is_leaf non_leaf_names].
    assert (Hall : Forall (fun c => c < length h) (children op ++ [c])).
    { apply Forall_app. split; [done|]. by constructor. }
    split; [done|]. intros Hdir. rewrite Hstable by done. by apply Hnl.
  - rewrite list_lookup_insert_ne in Hl by done.
    destruct (Hinv l o Hl) as [Hcl Hst]. split; [done|].
    intros Hdir. rewrite Hstable by done. by apply Hst.
Qed.

Lemma bind_Ok {A B : Type} (m : result A) (k : A -> result B) (b : B) :
  (x <- m;; k x) = Ok b -> exists a, m = Ok a /\ k a = Ok b.
Proof. destruct m as [a| | |]; [eauto|done..]. Qed.

(** Splits a hypothesis [bind m k = Ok _] into its two steps. *)
Ltac bind_inv H :=
  let a := fresh "a" in
  let H1 := fresh "Hstep" in
  apply bind_Ok in H as (a & H1 & H).

Lemma for_items_inv {S : Type} (P : S -> Prop) (body : list N -> S -> result S) items :
  (forall item st st', P st -> body item st = Ok st' -> P st') ->
  forall st st', P st -> for_items body items st = Ok st' -> P st'.
Proof.
  intros Hbody. induction items as [|item items IH]; intros st st' HP Hrun.
  - by injection Hrun as <-.
  - cbn [for_items] in Hrun. bind_inv Hrun. eapply IH; [|exact Hrun]. by eapply Hbody.
Qed.

Lemma for_lines_inv (P : list TreeNode * list nat -> Prop) body lines :
  (forall line st st', P st -> body line st = Ok st' -> P st') ->
  forall st st', P st -> Node.for_lines body lines st = Ok st' -> P st'.
Proof.
  intros Hbody. induction lines as [|line lines IH]; intros st st' HP Hrun.
  - by injection Hrun as <-.
  - cbn [Node.for_lines] in Hrun. bind_inv Hrun. eapply IH; [|exact Hrun]. by eapply Hbody.
Qed.

Lemma heap_inv_attach nm lf level st st' :
  heap_inv st.1 -> Node.attach nm lf level st = Ok st' -> heap_inv st'.1.
Proof.
  destruct st as [h node_stack]. cbn [fst]. intros Hinv Hrun.
  unfold Node.attach in Hrun.
  destruct (Node.new nm lf h) as [new_node h1] eqn:Hnew.
  assert (Hinv1 : heap_inv h1).
  { replace h1 with (Node.new nm lf h).2 by (by rewrite Hnew). by apply heap_inv_new. }
  bind_inv Hrun. bind_inv Hrun. injection Hrun as <-. cbn [fst].
  eapply heap_inv_add_child; eassumption.
Qed.

Lemma heap_inv_from_repr repr_str h r h' :
  heap_inv h -> Node.from_repr repr_str h = Ok (r, h') -> heap_inv h'.
Proof.
  intros Hinv Hrun. unfold Node.from_repr in Hrun.
  destruct (splitlines (strip repr_str)) as [|line0 lines]; [by injection Hrun as <- <-|].
  destruct (Node.new _ false h) as [root_node h1] eqn:Hnew.
  assert (Hinv1 : heap_inv h1).
  { replace h1 with (Node.new (replace (strip line0) [SLASH] []) false h).2
      by (by rewrite Hnew). by apply heap_inv_new. }
  bind_inv Hrun. injection Hrun as _ <-.
  refine (for_lines_inv (fun st => heap_inv st.1) _ _ _ (h1, [root_node]) _ Hinv1 Hstep).
  intros line st st' HP Hline. eapply heap_inv_attach; eassumption.
Qed.

Lemma heap_inv_from_md md_str h r h' :
  heap_inv h -> Node.from_md md_str h = Ok (r, h') -> heap_inv h'.
Proof.
  intros Hinv Hrun. unfold Node.from_md in Hrun.
  destruct (splitlines (strip md_str)) as [|line0 lines]; [by injection Hrun as <- <-|].
  destruct (Node.new _ false h) as [root_node h1] eqn:Hnew.
  assert (Hinv1 : heap_inv h1).
  { replace h1 with (Node.new (replace (strip line0) [SLASH] []) false h).2
      by (by rewrite Hnew). by apply heap_inv_new. }
  bind_inv Hrun. injection Hrun as _ <-.
  refine (for_lines_inv (fun st => heap_inv st.1) _ _ _ (h1, [root_node]) _ Hinv1 Hstep).
  intros line st st' HP Hline. eapply heap_inv_attach; eassumption.
Qed.

Lemma heap_inv_from_dict_loop fuel :
  forall stack root h dh r h' dh',
    heap_inv h ->
    Mapping.from_dict_loop fuel stack root (h, dh) = Ok (r, (h', dh')) -> heap_inv h'.
Proof.
  induction fuel as [|fuel IH]; intros stack root h dh r h' dh' Hinv Hrun.
  - destruct stack as [|[parent cur] stack]; [|done]. by injection Hrun as _ <- _.
  - destruct stack as [|[parent cur] stack]; [by injection Hrun as _ <- _|].
    rewrite from_dict_loop_S in Hrun. do 4 bind_inv Hrun.
    assert (Hinv1 : heap_inv a2).
    { set (x := mkTreeNode a0 _ [] _) in Hstep2.
      assert (Hx : heap_inv (h ++ [x])).
      { apply (heap_inv_new h a0 (match a1 with PyNone => true | PyDict _ => false end) Hinv). }
      destruct parent as [p|].
      - eapply heap_inv_add_child; eassumption.
      - by injection Hstep2 as <-. }
    destruct a1 as [|d].
    + eapply IH; eassumption.
    + bind_inv Hrun. cbv zeta in Hrun.
      destruct (fold_left _ _ _) as [stack' dh1] in Hrun. eapply IH; eassumption.
Qed.

Section BuilderInvariant.

Variable os : os_env.
Variable fnmatch : list N -> list N -> bool.

Lemma heap_inv_build_item root_path ignore current_node current_path item st st' :
  heap_inv st.1 ->
  build_item os fnmatch root_path ignore current_node current_path item st = Ok st' ->
  heap_inv st'.1.
Proof.
  destruct st as [h stack]. cbn [fst]. intros Hinv Hrun. unfold build_item in Hrun.
  destruct (_should_ignore _ _ _ _); [by injection Hrun as <-|].
  destruct (os_isdir os _).
  - destruct (Node.new item false h) as [child h1] eqn:Hnew.
    bind_inv Hrun. injection Hrun as <-. cbn [fst].
    eapply heap_inv_add_child; [|exact Hstep].
    replace h1 with (Node.new item false h).2 by (by rewrite Hnew). by apply heap_inv_new.
  - destruct (Node.new item true h) as [child h1] eqn:Hnew.
    bind_inv Hrun. injection Hrun as <-. cbn [fst].
    eapply heap_inv_add_child; [|exact Hstep].
    replace h1 with (Node.new item true h).2 by (by rewrite Hnew). by apply heap_inv_new.
Qed.

Lemma heap_inv_build_loop fuel root_path ignore :
  forall st h', heap_inv st.1 -> build_loop os fnmatch fuel root_path ignore st = Ok h' ->
  heap_inv h'.
Proof.
  induction fuel as [|fuel IH]; intros [h stack] h' Hinv Hrun.
  - destruct stack as [|[node path] stack]; [|done]. by injection Hrun as <-.
  - destruct stack as [|[node path] stack]; [by injection Hrun as <-|].
    cbn [build_loop] in Hrun. destruct (os_listdir os path) as [items| |]; [| |done].
    + bind_inv Hrun. eapply IH; [|exact Hrun].
      refine (for_items_inv (fun st => heap_inv st.1) _ _ _ (h, stack) _ Hinv Hstep).
      intros. eapply heap_inv_build_item; eassumption.
    + eapply IH; [|exact Hrun]. exact Hinv.
Qed.

Lemma heap_inv_depth_item root_path fd ld ignore current_node current_path cfd item st st' :
  heap_inv st.1 ->
  depth_item os fnmatch root_path fd ld ignore current_node current_path cfd item st = Ok st' ->
  heap_inv st'.1.
Proof.
  destruct st as [h stack]. cbn [fst]. intros Hinv Hrun. unfold depth_item in Hrun.
  destruct (_should_ignore _ _ _ _); [by injection Hrun as <-|].
  destruct (os_isdir os _).
  - destruct (_ && _); [by injection Hrun as <-|].
    destruct (Node.new item false h) as [child h1] eqn:Hnew.
    bind_inv Hrun. injection Hrun as <-. cbn [fst].
    eapply heap_inv_add_child; [|exact Hstep].
    replace h1 with (Node.new item false h).2 by (by rewrite Hnew). by apply heap_inv_new.
  - destruct (_ && _); [by injection Hrun as <-|].
    destruct (Node.new item true h) as [child h1] eqn:Hnew.
    bind_inv Hrun. injection Hrun as <-. cbn [fst].
    eapply heap_inv_add_child; [|exact Hstep].
    replace h1 with (Node.new item true h).2 by (by rewrite Hnew). by apply heap_inv_new.
Qed.

Lemma heap_inv_depth_step root_path fd ld ignore st st' :
  heap_inv st.1 ->
  depth_step os fnmatch root_path fd ld ignore st = Some (Ok st') -> heap_inv st'.1.
Proof.
  destruct st as [h [|[[node path] cfd] stack]]; [done|]. cbn [fst depth_step].
  intros Hinv [= Hrun]. destruct (_ && _); [by injection Hrun as <-|].
  destruct (os_listdir os path) as [items| |]; [|by injection Hrun as <-|done].
  refine (for_items_inv (fun st => heap_inv st.1) _ _ _ (h, stack) _ Hinv Hrun).
  intros. eapply heap_inv_depth_item; eassumption.
Qed.

Lemma heap_inv_depth_loop fuel root_path fd ld ignore :
  forall st h', heap_inv st.1 ->
  depth_loop os fnmatch fuel root_path fd ld ignore st = Ok h' -> heap_inv h'.
Proof.
  induction fuel as [|fuel IH]; intros st h' Hinv Hrun; cbn [depth_loop] in Hrun;
    destruct (depth_step os fnmatch root_path fd ld ignore st) as [r|] eqn:Hstep;
    try done; try (by injection Hrun as <-).
  bind_inv Hrun. subst r. eapply IH; [|exact Hrun].
  eapply heap_inv_depth_step; eassumption.
Qed.

Lemma heap_inv_FileTree_init fuel root_path ignore h tree h' :
  heap_inv h -> FileTree_init os fnmatch fuel root_path ignore h = Ok (tree, h') ->
  heap_inv h'.
Proof.
  intros Hinv Hrun. unfold FileTree_init in Hrun.
  destruct (negb _); [done|].
  destruct (Node.new _ false h) as [root h1] eqn:Hnew.
  bind_inv Hrun. injection Hrun as _ <-.
  eapply heap_inv_build_loop; [|exact Hstep]. cbn [fst].
  replace h1 with (Node.new (PosixPath.basename root_path) false h).2 by (by rewrite Hnew).
  by apply heap_inv_new.
Qed.

Lemma heap_inv_TrimmedTree fuel root_path depth ignore h tree h' :
  heap_inv h -> TrimmedTree os fnmatch fuel root_path depth ignore h = Ok (tree, h') ->
  heap_inv h'.
Proof.
  intros Hinv Hrun. unfold TrimmedTree in Hrun.
  destruct (Node.new _ false h) as [root h1] eqn:Hnew.
  bind_inv Hrun. bind_inv Hrun. destruct a0 as [t h2]. injection Hrun as _ <-.
  eapply heap_inv_FileTree_init; [|exact Hstep0].
  unfold _build_tree_with_depth in Hstep. destruct depth as [fd ld].
  eapply heap_inv_depth_loop; [|exact Hstep]. cbn [fst].
  replace h1 with (Node.new (PosixPath.basename root_path) false h).2 by (by rewrite Hnew).
  by apply heap_inv_new.
Qed.

Lemma heap_inv_create_subtree fuel h self relative_path sub h' :
  heap_inv h -> create_subtree os fnmatch fuel h self relative_path = Ok (sub, h') ->
  heap_inv h'.
Proof.
  intros Hinv Hrun. unfold create_subtree in Hrun.
  do 3 bind_inv Hrun. destruct a1 as [t h2]. injection Hrun as _ <-.
  eapply heap_inv_FileTree_init; eassumption.
Qed.

Lemma heap_inv_FileTree_from_md fuel md_str h r h' :
  heap_inv h -> FileTree_from_md os fnmatch fuel md_str h = Ok (r, h') -> heap_inv h'.
Proof.
  intros Hinv Hrun. unfold FileTree_from_md in Hrun.
  destruct (splitlines md_str) as [|l0 ls]; [by injection Hrun as _ <-|].
  destruct (find_fences _ _ _) as [[a|] [b|]]; try done.
  do 2 bind_inv Hrun. destruct (negb _); [done|].
  bind_inv Hrun. destruct a2 as [[root|] h1]; [|done].
  do 2 bind_inv Hrun. destruct a3 as [t h2]. injection Hrun as _ <-.
  eapply heap_inv_FileTree_init; [|exact Hstep3].
  eapply heap_inv_from_md; eassumption.
Qed.

End BuilderInvariant.

Lemma heap_inv_example : heap_inv h_example.
Proof.
  intros l o Hl.
  destruct l as [|[|[|[|l]]]]; try done; injection Hl as <-;
    (split; [repeat constructor; cbn; lia|intros Hdir; try done; vm_compute; reflexivity]).
Qed.

(** C10: [non_leaf_names] of every directory object is the set of the
    names of its directory children.  A new node starts with no child and
    the empty set, [add_child] keeps the property, and so do the three
    decoders, the two builders behind [FileTree] and [TrimmedTree], the
    subtree extraction, whose result shares the nodes of the store, and the
    decoder of a fenced diagram. *)
Theorem non_leaf_names_invariant (os : os_env) (fnmatch : list N -> list N -> bool)
    (h : list TreeNode) :
  heap_inv h ->
  (forall nm lf,
     heap_inv (Node.new nm lf h).2
     /\ (Node.new nm lf h).2 !! (Node.new nm lf h).1
        = Some (mkTreeNode nm lf [] (if lf then None else Some ∅)))
  /\ (forall p c h', Node.add_child p c h = Ok h' -> heap_inv h')
  /\ (forall s r h', Node.from_repr s h = Ok (r, h') -> heap_inv h')
  /\ (forall s r h', Node.from_md s h = Ok (r, h') -> heap_inv h')
  /\ (forall fuel d dh r h' dh',
        Mapping.from_dict fuel d (h, dh) = Ok (r, (h', dh')) -> heap_inv h')
  /\ (forall fuel root_path ignore tree h',
        FileTree_init os fnmatch fuel root_path ignore h = Ok (tree, h') -> heap_inv h')
  /\ (forall fuel root_path depth ignore tree h',
        TrimmedTree os fnmatch fuel root_path depth ignore h = Ok (tree, h') -> heap_inv h')
  /\ (forall fuel self relative_path sub h',
        create_subtree os fnmatch fuel h self relative_path = Ok (sub, h') -> heap_inv h')
  /\ (forall fuel md_str r h',
        FileTree_from_md os fnmatch fuel md_str h = Ok (r, h') -> heap_inv h').
Proof.
  intros Hinv.
  split. { intros nm lf. split; [by apply heap_inv_new|].
           cbn [Node.new fst snd]. by apply list_lookup_middle. }
  split. { intros. eapply heap_inv_add_child; eassumption. }
  split. { intros. eapply heap_inv_from_repr; eassumption. }
  split. { intros. eapply heap_inv_from_md; eassumption. }
  split. { intros. eapply heap_inv_from_dict_loop; eassumption. }
  split. { intros. eapply heap_inv_FileTree_init; eassumption. }
  split. { intros. eapply heap_inv_TrimmedTree; eassumption. }
  split. { intros. eapply heap_inv_create_subtree; eassumption. }
  intros. eapply heap_inv_FileTree_from_md; eassumption.
Qed.

Lemma non_leaf_names_invariant_witness :
  exists h', Node.add_child 1 2 h_example = Ok h' /\ heap_inv h'.
Proof.
  eexists. split; [reflexivity|].
  refine (proj1 (proj2 (non_leaf_names_invariant os_bare fnmatchcase h_example
                          heap_inv_example)) 1 2 _ _).
  reflexivity.
Defined.

(** ** Lookup by name *)

(** The search [where] performs, read on the tree: a directory is searched
    for a child of the name, then its directory children are searched from
    the last to the first. *)
Fixpoint where_descending (path : list N) (T : Tree) (target : list N) : option (list N) :=
  match T with
  | Entry _ _ cs =>
    if bool_decide (target ∈ map t_name cs) then Some (PosixPath.join path target)
    else
      (fix scan (cs : list Tree) : option (list N) :=
         match cs with
         | [] => None
         | c :: rest =>
           match scan rest with
           | Some p => Some p
           | None =>
             if t_leaf c then None
             else where_descending (PosixPath.join path (t_name c)) c target
           end
         end) cs
  end.

(** The search as the specification words it: the directory children are
    searched from the first to the last. *)
Fixpoint where_ascending (path : list N) (T : Tree) (target : list N) : option (list N) :=
  match T with
  | Entry _ _ cs =>
    if bool_decide (target ∈ map t_name cs) then Some (PosixPath.join path target)
    else
      (fix scan (cs : list Tree) : option (list N) :=
         match cs with
         | [] => None
         | c :: rest =>
           match (if t_leaf c then None
                  else where_ascending (PosixPath.join path (t_name c)) c target) with
           | Some p => Some p
           | None => scan rest
           end
         end) cs
  end.

(** Every node below the root with its full path; nothing is read below a
    leaf. *)
Fixpoint paths (path : list N) (T : Tree) : list (list N * Tree) :=
  match T with
  | Entry _ _ cs =>
    flat_map (fun c => (PosixPath.join path (t_name c), c)
                       :: (if t_leaf c then []
                           else paths (PosixPath.join path (t_name c)) c)) cs
  end.

(** The first result of [f] along a list. *)
Definition find_first {A : Type} (f : A -> option (list N)) : list A -> option (list N) :=
  fix go (l : list A) : option (list N) :=
    match l with
    | [] => None
    | x :: l => match f x with Some p => Some p | None => go l end
    end.

(** The directory children with their references. *)
Fixpoint dir_pairs (ls : list nat) (cs : list Tree) : list (nat * Tree) :=
  match ls, cs with
  | l :: ls, c :: cs => if t_leaf c then dir_pairs ls cs else (l, c) :: dir_pairs ls cs
  | _, _ => []
  end.

(** root/{a/{t}, b/{t}}: the name [t] occurs under both directories. *)
Definition h_twice : list TreeNode :=
  [ mkTreeNode (py "root") false [1; 3] (Some {[py "a"; py "b"]});
    mkTreeNode (py "a") false [2] (Some ∅);
    mkTreeNode (py "t") true [] None;
    mkTreeNode (py "b") false [4] (Some ∅);
    mkTreeNode (py "t") true [] None ].

Definition T_twice : Tree :=
  Entry (py "root") false
    [Entry (py "a") false [Entry (py "t") true []];
     Entry (py "b") false [Entry (py "t") true []]].

Lemma find_first_app {A : Type} (f : A -> option (list N)) l1 l2 :
  find_first f (l1 ++ l2)
  = match find_first f l1 with Some p => Some p | None => find_first f l2 end.
Proof.
  induction l1 as [|x l1 IH]; [done|]. cbn [app find_first].
  destruct (f x); [done|exact IH].
Qed.

Lemma where_descending_unfold path n lf cs target :
  where_descending path (Entry n lf cs) target
  = if bool_decide (target ∈ map t_name cs) then Some (PosixPath.join path target)
    else find_first
           (fun c => if t_leaf c then None
                     else where_descending (PosixPath.join path (t_name c)) c target)
           (rev cs).
Proof.
  cbn [where_descending]. destruct (bool_decide _); [done|].
  induction cs as [|c cs IH]; [done|].
  cbn [rev]. rewrite find_first_app, <- IH. cbn [find_first].
  destruct ((fix scan (cs0 : list Tree) := _) cs); [done|].
  by destruct (if t_leaf c then None else _).
Qed.

Lemma StronglySorted_lookup {A : Type} (R : A -> A -> Prop) l :
  StronglySorted R l ->
  forall i j a b, i < j -> l !! i = Some a -> l !! j = Some b -> R a b.
Proof.
  induction 1 as [|x l Hl IH Hx]; intros i j a b Hij Hi Hj; [done|].
  destruct j as [|j]; [lia|]. cbn in Hj. destruct i as [|i].
  - injection Hi as <-. rewrite Forall_forall in Hx. apply Hx.
    apply list_elem_of_lookup. eauto.
  - cbn in Hi. eapply (IH i j); [lia|done..].
Qed.

Lemma names_of_represents h ls cs :
  Forall2 (represents h) ls cs -> names_of h ls (map t_name cs).
Proof.
  induction 1 as [|l c ls cs Hc _ IH]; [constructor|].
  cbn [map]. constructor; [|exact IH].
  inversion Hc; subst. eauto.
Qed.

Lemma ascending_names cs :
  StronglySorted (fun a b => str_ltb (t_name a) (t_name b) = true) cs ->
  ascending (map t_name cs).
Proof.
  intros Hs i j a b Hij Hi Hj.
  rewrite list_lookup_fmap in Hi, Hj.
  destruct (cs !! i) as [ci|] eqn:Ei; [|done].
  destruct (cs !! j) as [cj|] eqn:Ej; [|done].
  injection Hi as <-. injection Hj as <-.
  eapply (StronglySorted_lookup _ cs Hs i j); done.
Qed.

Lemma dir_pairs_lookup ls cs :
  Forall (fun ld => exists k, ls !! k = Some ld.1 /\ cs !! k = Some ld.2) (dir_pairs ls cs).
Proof.
  revert cs. induction ls as [|l ls IH]; intros [|c cs]; cbn [dir_pairs]; try constructor.
  destruct (t_leaf c).
  - eapply Forall_impl; [apply IH|]. intros ld (k & H1 & H2). exists (S k). done.
  - constructor; [by exists 0|].
    eapply Forall_impl; [apply IH|]. intros ld (k & H1 & H2). exists (S k). done.
Qed.

Lemma dir_child_names_pairs h ls cs :
  Forall2 (represents h) ls cs ->
  dir_child_names h ls = list_to_set (map (fun ld => t_name ld.2) (dir_pairs ls cs)).
Proof.
  induction 1 as [|l c ls cs Hc _ IH]; [done|].
  change (l :: ls) with ([l] ++ ls). rewrite dir_child_names_app, IH.
  unfold dir_child_names. cbn [flat_map dir_pairs app].
  inversion Hc as [l' o cs' Ho _]; subst. rewrite Ho. cbn [t_leaf t_name].
  destruct (is_leaf o); cbn [app map list_to_set snd t_name]; set_solver.
Qed.

Lemma strictly_ascending_NoDup (L : list (list N)) :
  StronglySorted (fun a b => str_ltb a b = true) L -> NoDup L.
Proof.
  induction 1 as [|x l Hl IH Hx]; constructor; [|exact IH].
  intros Hin. rewrite Forall_forall in Hx. specialize (Hx x Hin).
  by rewrite str_ltb_irrefl in Hx.
Qed.

Lemma StronglySorted_mono {A : Type} (R R' : A -> A -> Prop) l :
  (forall a b, R a b -> R' a b) -> StronglySorted R l -> StronglySorted R' l.
Proof.
  intros HR. induction 1 as [|x l Hl IH Hx]; constructor; [exact IH|].
  eapply Forall_impl; [exact Hx|]. intros b. apply HR.
Qed.

Lemma sorted_names_ascending (L : list (list N)) :
  StronglySorted (fun a b => str_ltb a b = true) L -> sorted_names (list_to_set L) = L.
Proof.
  intros Hs. unfold sorted_names.
  apply (Sorted_unique str_le).
  - apply Sorted_merge_sort. apply _.
  - apply StronglySorted_Sorted.
    eapply StronglySorted_mono; [|exact Hs]. intros a b Hab. by apply str_ltb_asym.
  - rewrite merge_sort_Permutation. apply elements_list_to_set.
    by apply strictly_ascending_NoDup.
Qed.

Lemma dir_pairs_elem ls cs ld : ld ∈ dir_pairs ls cs -> ld.2 ∈ cs.
Proof.
  revert cs. induction ls as [|l ls IH]; intros [|c cs]; cbn [dir_pairs];
    try (intros H; by apply elem_of_nil in H).
  destruct (t_leaf c).
  - intros H. right. by apply IH.
  - intros H. apply elem_of_cons in H as [->|H]; [left|right; by apply IH].
Qed.

Lemma dir_pairs_ascending ls cs :
  StronglySorted (fun a b => str_ltb (t_name a) (t_name b) = true) cs ->
  StronglySorted (fun a b => str_ltb a b = true)
    (map (fun ld => t_name ld.2) (dir_pairs ls cs)).
Proof.
  intros Hs. revert ls. induction Hs as [|c cs Hcs IH Hc]; intros [|l ls];
    cbn [dir_pairs map]; try constructor.
  destruct (t_leaf c); [apply IH|]. cbn [map]. constructor; [apply IH|].
  apply Forall_forall. intros n Hn. apply list_elem_of_fmap in Hn as (ld & -> & Hld).
  rewrite Forall_forall in Hc. apply Hc. by eapply dir_pairs_elem.
Qed.

Section Where.

Variable h : list TreeNode.
Variable target : list N.

Lemma where_loop_S fuel current_node current_path stack :
  where_loop (S fuel) h target ((current_node, current_path) :: stack)
  = (node <- deref (h !! current_node);;
     found <- child_named h (children node) target;;
     match found with
     | Some _ => Ok (Some (PosixPath.join current_path target))
     | None =>
       match non_leaf_names node with
       | None => Raise TypeError
       | Some names =>
         stack' <- push_found h (children node) current_path (sorted_names names) stack;;
         where_loop fuel h target stack'
       end
     end).
Proof. reflexivity. Qed.

Lemma push_found_dirs a ns path :
  names_of h a ns -> ascending ns ->
  forall (ds : list (nat * Tree)) stack,
    Forall (fun ld => exists k, a !! k = Some ld.1 /\ ns !! k = Some (t_name ld.2)) ds ->
    push_found h a path (map (fun ld => t_name ld.2) ds) stack
    = Ok (rev (map (fun ld => (ld.1, PosixPath.join path (t_name ld.2))) ds) ++ stack).
Proof.
  intros Hns Hasc. induction ds as [|[l d] ds IH]; intros stack Hds; [done|].
  inversion Hds as [|? ? (k & Hl & Hn) Hrest]; subst. cbn [fst snd] in *.
  cbn [map push_found fst snd].
  rewrite (child_named_present h a ns (t_name d) k l Hns Hasc Hn Hl). cbn [bind].
  rewrite IH by done. cbn [rev fst snd]. by rewrite <- app_assoc.
Qed.

(** The loop on a pushed directory: it answers with the path found below
    it, or goes on with the rest of the stack. *)
Definition where_visit (l : nat) (T : Tree) : Prop :=
  exists k, forall path fuel stack,
    where_loop (k + fuel) h target ((l, path) :: stack)
    = match where_descending path T target with
      | Some p => Ok (Some p)
      | None => where_loop fuel h target stack
      end.

Lemma where_loop_forest ds :
  Forall (fun ld => where_visit ld.1 ld.2) ds ->
  exists k, forall path fuel stack,
    where_loop (k + fuel) h target
      (map (fun ld => (ld.1, PosixPath.join path (t_name ld.2))) ds ++ stack)
    = match find_first
              (fun ld => where_descending (PosixPath.join path (t_name ld.2)) ld.2 target) ds
      with
      | Some p => Ok (Some p)
      | None => where_loop fuel h target stack
      end.
Proof.
  induction 1 as [|[l d] ds (k1 & Hrun1) _ (k2 & Hrun2)].
  - exists 0. reflexivity.
  - exists (k1 + k2). cbn [fst snd] in *.
    intros path fuel stack. cbn [map app find_first fst snd].
    rewrite <- Nat.add_assoc, Hrun1.
    destruct (where_descending _ d target); [done|]. apply Hrun2.
Qed.

Lemma dir_pairs_represents ls cs :
  Forall2 (represents h) ls cs ->
  Forall (fun ld => represents h ld.1 ld.2 /\ ld.2 ∈ cs /\ t_leaf ld.2 = false)
    (dir_pairs ls cs).
Proof.
  induction 1 as [|l c ls cs Hc _ IH]; [constructor|]. cbn [dir_pairs].
  assert (Hrest : Forall (fun ld => represents h ld.1 ld.2 /\ ld.2 ∈ c :: cs
                                    /\ t_leaf ld.2 = false) (dir_pairs ls cs)).
  { eapply Forall_impl; [exact IH|]. intros ld (H1 & H2 & H3).
    split; [done|]. split; [by right|done]. }
  destruct (t_leaf c) eqn:Hlf; [exact Hrest|].
  constructor; [|exact Hrest]. split; [done|]. split; [left|done].
Qed.

Lemma find_first_dir_pairs (g : Tree -> option (list N)) ls cs :
  length ls = length cs ->
  find_first (fun ld : nat * Tree => g ld.2) (rev (dir_pairs ls cs))
  = find_first (fun c => if t_leaf c then None else g c) (rev cs).
Proof.
  revert cs. induction ls as [|l ls IH]; intros [|c cs] Hlen; try done.
  cbn [dir_pairs rev]. rewrite find_first_app, <- (IH cs) by (cbn in Hlen; lia).
  cbn [find_first]. destruct (t_leaf c) eqn:Hlf.
  - by destruct (find_first _ (rev (dir_pairs ls cs))).
  - cbn [rev]. rewrite find_first_app. cbn [find_first snd].
    destruct (find_first _ (rev (dir_pairs ls cs))); [done|].
    by destruct (g c).
Qed.

End Where.

Lemma name_sorted_unfold n lf cs :
  name_sorted (Entry n lf cs)
  <-> StronglySorted (fun a b => str_ltb (t_name a) (t_name b) = true) cs
      /\ Forall name_sorted cs.
Proof.
  cbn [name_sorted]. apply and_iff_compat_l.
  induction cs as [|c cs IH]; [split; constructor|].
  rewrite Forall_cons, <- IH. reflexivity.
Qed.

(** On a sorted tree whose sets of names agree with the children, a visit
    of [where]'s loop answers as [where_descending] does. *)
Lemma where_loop_tree h target T :
  heap_inv h ->
  forall l, represents h l T -> name_sorted T -> t_leaf T = false ->
  where_visit h target l T.
Proof.
  intros Hinv. induction T as [n lf cs IH] using Tree_ind'.
  intros l Hrep Hsorted Hdir.
  inversion Hrep as [l' o cs' Ho Hcs]; subst. cbn [t_leaf] in Hdir.
  apply name_sorted_unfold in Hsorted as [Hasc Hsorted].
  pose proof (names_of_represents _ _ _ Hcs) as Hns.
  pose proof (ascending_names _ Hasc) as Hup.
  destruct (decide (target ∈ map t_name cs)) as [Hin|Hout].
  - exists 1. intros path fuel stack.
    change (1 + fuel) with (S fuel). rewrite where_loop_S, Ho. cbn [deref bind].
    apply list_elem_of_lookup in Hin as [k Hk].
    destruct (lookup_lt_is_Some_2 (children o) k) as [lk Hlk].
    { rewrite (Forall2_length _ _ _ Hns). by eapply lookup_lt_Some. }
    rewrite (child_named_present h _ _ target k lk Hns Hup Hk Hlk). cbn [bind].
    rewrite where_descending_unfold, bool_decide_eq_true_2; [done|].
    apply list_elem_of_lookup. eauto.
  - destruct (where_loop_forest h target (rev (dir_pairs (children o) cs))) as (k & Hrun).
    { apply Forall_rev.
      pose proof (dir_pairs_represents h _ _ Hcs) as Hpairs.
      rewrite Forall_forall in Hpairs. rewrite Forall_forall in IH.
      rewrite Forall_forall in Hsorted.
      apply Forall_forall. intros ld Hld.
      destruct (Hpairs ld Hld) as (Hr1 & Hr2 & Hr3).
      apply IH; auto. }
    exists (S k). intros path fuel stack.
    cbn [Nat.add]. rewrite where_loop_S, Ho. cbn [deref bind].
    rewrite (child_named_absent h _ _ target Hns Hout). cbn [bind].
    destruct (Hinv l o Ho) as [_ Hset]. rewrite (Hset Hdir).
    rewrite (dir_child_names_pairs h _ cs Hcs).
    rewrite sorted_names_ascending by (by apply dir_pairs_ascending).
    rewrite (push_found_dirs h _ _ path Hns Hup).
    2:{ eapply Forall_impl; [apply dir_pairs_lookup|].
        intros ld (i & Hi1 & Hi2). exists i. split; [done|].
        by rewrite list_lookup_fmap, Hi2. }
    cbn [bind]. rewrite <- map_rev, Hrun.
    rewrite where_descending_unfold, bool_decide_eq_false_2 by done.
    rewrite (find_first_dir_pairs
               (fun c => where_descending (PosixPath.join path (t_name c)) c target)).
    + done.
    + by eapply Forall2_length.
Qed.

Lemma find_first_Some {A : Type} (f : A -> option (list N)) l p :
  find_first f l = Some p -> exists x, In x l /\ f x = Some p.
Proof.
  induction l as [|x l IH]; [done|]. cbn [find_first].
  destruct (f x) as [q|] eqn:E.
  - intros [= <-]. exists x. split; [by left|done].
  - intros H. destruct (IH H) as (y & Hy & Hf). exists y. split; [by right|done].
Qed.

Lemma find_first_None {A : Type} (f : A -> option (list N)) l :
  find_first f l = None -> forall x, In x l -> f x = None.
Proof.
  induction l as [|x l IH]; [done|]. cbn [find_first].
  destruct (f x) as [q|] eqn:E; [done|].
  intros H y [<-|Hy]; [done|by apply IH].
Qed.

Lemma paths_unfold path n lf cs :
  paths path (Entry n lf cs)
  = flat_map (fun c => (PosixPath.join path (t_name c), c)
                       :: (if t_leaf c then []
                           else paths (PosixPath.join path (t_name c)) c)) cs.
Proof. reflexivity. Qed.

Lemma where_descending_sound target T :
  forall path p,
    where_descending path T target = Some p ->
    exists N, (p, N) ∈ paths path T /\ t_name N = target.
Proof.
  induction T as [n lf cs IH] using Tree_ind'. intros path p.
  rewrite where_descending_unfold, paths_unfold.
  destruct (decide (target ∈ map t_name cs)) as [Hin|Hout].
  - rewrite bool_decide_eq_true_2 by done. intros [= <-].
    apply list_elem_of_fmap in Hin as (c & -> & Hc). exists c. split; [|done].
    apply list_elem_of_In, in_flat_map. exists c. split; [by apply list_elem_of_In|by left].
  - rewrite bool_decide_eq_false_2 by done. intros Hfind.
    apply find_first_Some in Hfind as (c & Hc & Hfc).
    apply in_rev in Hc. destruct (t_leaf c) eqn:Hlf; [done|].
    rewrite Forall_forall in IH.
    destruct (IH c (proj2 (list_elem_of_In _ _) Hc) _ _ Hfc) as (N & HN & Hname).
    exists N. split; [|done].
    apply list_elem_of_In, in_flat_map. exists c. split; [done|].
    right. rewrite Hlf. by apply list_elem_of_In.
Qed.

Lemma where_descending_complete target T :
  forall path,
    where_descending path T target = None ->
    forall p N, (p, N) ∈ paths path T -> t_name N <> target.
Proof.
  induction T as [n lf cs IH] using Tree_ind'. intros path.
  rewrite where_descending_unfold, paths_unfold.
  destruct (decide (target ∈ map t_name cs)) as [Hin|Hout].
  { by rewrite bool_decide_eq_true_2. }
  rewrite bool_decide_eq_false_2 by done. intros Hfind p N HN.
  apply list_elem_of_In, in_flat_map in HN as (c & Hc & HN).
  destruct HN as [[= <- <-]|HN].
  - intros E. apply Hout. apply list_elem_of_fmap. exists c.
    split; [done|by apply list_elem_of_In].
  - destruct (t_leaf c) eqn:Hlf; [done|].
    pose proof (find_first_None _ _ Hfind c (proj1 (in_rev _ _) Hc)) as Hfc.
    cbn beta in Hfc. rewrite Hlf in Hfc.
    rewrite Forall_forall in IH.
    eapply (IH c); [by apply list_elem_of_In|exact Hfc|by apply list_elem_of_In].
Qed.

(** Settles [name_sorted] on a tree that is written out. *)
Ltac sorted_tree :=
  apply name_sorted_unfold;
  split; [repeat first [apply SSorted_nil
                       | apply SSorted_cons;
                         [|repeat first [apply Forall_nil_2
                                        | apply Forall_cons_2; [by vm_compute|]]]]|];
  repeat first [apply Forall_nil_2 | apply Forall_cons_2; [sorted_tree|]].

Lemma name_sorted_example : name_sorted T_example.
Proof. sorted_tree. Qed.

Definition B_TXT : list N := Eval vm_compute in py "b.txt".

(** C5 (as amended): on a tree whose children are sorted by name, [where]
    looks for a child of the name at the root, then searches the directory
    children from the alphabetically last to the first, each in the same
    way, and returns the first path found; the path returned is one at
    which the name occurs below the root, and there is no answer only when
    the name occurs nowhere below the root.  On root/{a/{b.txt}, c.txt},
    [b.txt] is found at [root/a/b.txt] and [missing] is not found. *)
Theorem where_search (h : list TreeNode) (l : nat) (T : Tree)
    (start target : list N) :
  represents h l T -> heap_inv h -> name_sorted T -> t_leaf T = false ->
  (exists n, forall fuel, n <= fuel ->
     where_ fuel h (mkFileTree start (Some l)) target
     = Ok (where_descending start T target))
  /\ (forall p, where_descending start T target = Some p ->
        exists N, (p, N) ∈ paths start T /\ t_name N = target)
  /\ (where_descending start T target = None ->
        forall p N, (p, N) ∈ paths start T -> t_name N <> target)
  /\ where_ 4 h_example tree_example B_TXT = Ok (Some (py "root/a/b.txt"))
  /\ where_ 4 h_example tree_example MISSING = Ok None.
Proof.
  intros Hrep Hinv Hsorted Hdir. split; [|split; [|split; [|split]]].
  - destruct (where_loop_tree h target T Hinv l Hrep Hsorted Hdir) as (k & Hrun).
    exists k. intros fuel Hfuel. unfold where_. cbn [root_node root_path].
    replace fuel with (k + (fuel - k)) by lia. rewrite Hrun.
    destruct (where_descending start T target); [done|]. by destruct (fuel - k).
  - intros p. apply where_descending_sound.
  - apply where_descending_complete.
  - vm_compute. reflexivity.
  - vm_compute. reflexivity.
Qed.

Lemma where_search_witness :
  exists n, forall fuel, n <= fuel ->
    where_ fuel h_example tree_example B_TXT
    = Ok (where_descending (py "root") T_example B_TXT).
Proof.
  refine (proj1 (where_search h_example 0 T_example (py "root") B_TXT _ _ _ _)).
  - apply (reify_represents 3). reflexivity.
  - exact heap_inv_example.
  - exact name_sorted_example.
  - reflexivity.
Defined.

(** On root/{a/{t}, b/{t}}, a sorted tree, [where("t")] answers
    [root/b/t], while the search of the directories in alphabetical order
    finds [root/a/t] first. *)
Lemma where_searches_last_directory_first :
  represents h_twice 0 T_twice
  /\ name_sorted T_twice
  /\ where_ 5 h_twice (mkFileTree (py "root") (Some 0)) (py "t") = Ok (Some (py "root/b/t"))
  /\ where_ascending (py "root") T_twice (py "t") = Some (py "root/a/t").
Proof.
  split; [apply (reify_represents 3); reflexivity|].
  split; [sorted_tree|].
  split; vm_compute; reflexivity.
Qed.

(** ** The depth-bounded walk *)

Section DepthWalk.

Variable os : os_env.
Variable fnmatch : list N -> list N -> bool.
Variable root_path : list N.
Variable folder_depth file_depth : Z.
Variable ignore_patterns : option (list (list N)).

(** The states the walk passes through, one pass of the loop body at a
    time. *)
Inductive walk_reaches :
  list TreeNode * list (nat * list N * Z) -> list TreeNode * list (nat * list N * Z) -> Prop :=
| walk_here st : walk_reaches st st
| walk_on st st' st'' :
    depth_step os fnmatch root_path folder_depth file_depth ignore_patterns st = Some (Ok st') ->
    walk_reaches st' st'' ->
    walk_reaches st st''.

(** Every queued directory lies within the folder cap. *)
Definition queue_within_cap (st : list TreeNode * list (nat * list N * Z)) : Prop :=
  Forall (fun e : nat * list N * Z =>
            (0 <= e.2)%Z /\ (folder_depth <> 0%Z -> (e.2 <= folder_depth)%Z)) st.2.

Lemma depth_item_queue current_node current_path cfd item st st' :
  (0 <= cfd)%Z -> (folder_depth <> 0%Z -> (cfd <= folder_depth)%Z) ->
  queue_within_cap st ->
  depth_item os fnmatch root_path folder_depth file_depth ignore_patterns
    current_node current_path cfd item st = Ok st' ->
  queue_within_cap st'.
Proof.
  destruct st as [h stack]. intros Hpos Hcap Hq Hrun. unfold depth_item in Hrun.
  destruct (_should_ignore _ _ _ _); [by injection Hrun as <-|].
  destruct (os_isdir os _).
  - destruct (negb (folder_depth =? 0)%Z && (cfd =? folder_depth)%Z) eqn:E;
      [by injection Hrun as <-|].
    destruct (Node.new item false h) as [child h1].
    bind_inv Hrun. injection Hrun as <-. unfold queue_within_cap in *. cbn [snd] in *.
    constructor; [|exact Hq]. cbn [snd]. split; [lia|].
    intros Hne. specialize (Hcap Hne).
    apply andb_false_iff in E as [E|E].
    + apply negb_false_iff, Z.eqb_eq in E. done.
    + apply Z.eqb_neq in E. lia.
  - destruct (_ && _); [by injection Hrun as <-|].
    destruct (Node.new item true h) as [child h1].
    bind_inv Hrun. by injection Hrun as <-.
Qed.

Lemma depth_step_queue st st' :
  queue_within_cap st ->
  depth_step os fnmatch root_path folder_depth file_depth ignore_patterns st = Some (Ok st') ->
  queue_within_cap st'.
Proof.
  destruct st as [h [|[[node path] cfd] stack]]; [done|].
  intros Hq [= Hrun]. unfold queue_within_cap in Hq. cbn [snd] in Hq.
  inversion Hq as [|? ? [Hpos Hcap] Hrest]; subst. cbn [snd] in *.
  destruct (_ && _); [by injection Hrun as <-|].
  destruct (os_listdir os path) as [items| |]; [|by injection Hrun as <-|done].
  refine (for_items_inv queue_within_cap _ _ _ (h, stack) _ Hrest Hrun).
  intros item s s' Hs Hitem. eapply depth_item_queue; eassumption.
Qed.

Lemma walk_reaches_queue st st' :
  walk_reaches st st' -> queue_within_cap st -> queue_within_cap st'.
Proof.
  induction 1 as [|st st' st'' Hstep _ IH]; [done|].
  intros Hq. apply IH. by eapply depth_step_queue.
Qed.

(** [depth_loop] only ever answers with a store the walk reaches. *)
Lemma depth_loop_reaches fuel :
  forall st h',
    depth_loop os fnmatch fuel root_path folder_depth file_depth ignore_patterns st = Ok h' ->
    walk_reaches st (h', []).
Proof.
  induction fuel as [|fuel IH]; intros [h stack] h' Hrun; cbn [depth_loop] in Hrun;
    destruct (depth_step _ _ _ _ _ _ (h, stack)) as [r|] eqn:Hstep; try done.
  - destruct stack as [|[[? ?] ?] ?]; [|done]. injection Hrun as <-. constructor.
  - bind_inv Hrun. subst r. econstructor; [exact Hstep|]. by apply IH.
  - destruct stack as [|[[? ?] ?] ?]; [|done]. injection Hrun as <-. constructor.
Qed.

End DepthWalk.

(** ** Strings: the facts the diagram decoder rests on *)

Lemma lstrip_head c s : isspace c = false -> lstrip (c :: s) = c :: s.
Proof. intros H. cbn [lstrip]. by rewrite H. Qed.

Lemma lstrip_spaces s r :
  Forall (fun c => isspace c = true) s -> lstrip (s ++ r) = lstrip r.
Proof.
  induction 1 as [|c s Hc _ IH]; [done|]. cbn [app lstrip]. by rewrite Hc.
Qed.

Lemma rstrip_last s c : isspace c = false -> rstrip (s ++ [c]) = s ++ [c].
Proof.
  intros H. unfold rstrip. rewrite rev_unit, lstrip_head by done.
  by rewrite <- (rev_unit s c), rev_involutive.
Qed.

Lemma strip_id c s d :
  isspace c = false -> isspace d = false -> strip (c :: s ++ [d]) = c :: s ++ [d].
Proof.
  intros Hc Hd. unfold strip. rewrite lstrip_head by done.
  change (c :: s ++ [d]) with ((c :: s) ++ [d]). by apply rstrip_last.
Qed.

Lemma startswith_head c old s : startswith s (c :: old) = true -> head s = Some c.
Proof.
  destruct s as [|x s]; [done|]. cbn [startswith].
  intros H. apply andb_true_iff in H as [H _]. apply N.eqb_eq in H. by subst.
Qed.

Lemma startswith_app old s : startswith (old ++ s) old = true.
Proof.
  induction old as [|c old IH]; [by destruct s|]. cbn [app startswith].
  by rewrite N.eqb_refl, IH.
Qed.

(** A string that lacks the first character of [old] holds no [old]. *)
Lemma replace_from_absent c old new s :
  c ∉ s -> replace_from (c :: old) new 0 s = s.
Proof.
  induction s as [|x s IH]; [done|]. intros Hc.
  apply not_elem_of_cons in Hc as [Hne Hc].
  cbn [replace_from startswith].
  assert ((c =? x)%N = false) as -> by (by apply N.eqb_neq).
  cbn [andb]. by rewrite IH.
Qed.

Lemma replace_from_skip old new u s :
  replace_from old new (length u) (u ++ s) = replace_from old new 0 s.
Proof.
  induction u as [|x u IH]; [done|]. cbn [length app replace_from]. exact IH.
Qed.

(** The first occurrence of [old], after a stretch that lacks its first
    character, is replaced and the scan goes on behind it. *)
Lemma replace_from_first c old new s1 s2 :
  c ∉ s1 ->
  replace_from (c :: old) new 0 (s1 ++ (c :: old) ++ s2)
  = s1 ++ new ++ replace_from (c :: old) new 0 s2.
Proof.
  induction s1 as [|x s1 IH]; intros Hc.
  - cbn [app]. cbn [replace_from].
    change (c :: old ++ s2) with ((c :: old) ++ s2) at 1.
    rewrite startswith_app.
    replace (length (c :: old) - 1) with (length old) by (cbn [length]; lia).
    by rewrite replace_from_skip.
  - apply not_elem_of_cons in Hc as [Hne Hc].
    specialize (IH Hc).
    change ((x :: s1) ++ (c :: old) ++ s2) with (x :: (s1 ++ (c :: old) ++ s2)).
    change ((x :: s1) ++ new ++ replace_from (c :: old) new 0 s2)
      with (x :: (s1 ++ new ++ replace_from (c :: old) new 0 s2)).
    rewrite <- IH. generalize (s1 ++ (c :: old) ++ s2). intros r.
    cbn [replace_from startswith].
    assert ((c =? x)%N = false) as -> by (by apply N.eqb_neq).
    done.
Qed.

Lemma replace_absent s c old new :
  c ∉ s -> replace s (c :: old) new = s.
Proof. apply replace_from_absent. Qed.

Lemma replace_first s1 s2 c old :
  c ∉ s1 -> c ∉ s2 -> replace (s1 ++ (c :: old) ++ s2) (c :: old) [] = s1 ++ s2.
Proof.
  intros H1 H2. unfold replace. rewrite replace_from_first by done.
  by rewrite replace_from_absent.
Qed.

(** Dropping one character. *)
Lemma replace_char s c : replace s [c] [] = filter (fun x => x <> c) s.
Proof.
  unfold replace. induction s as [|x s IH]; [done|].
  cbn [replace_from startswith]. rewrite filter_cons.
  destruct (N.eqb_spec c x) as [->|Hne].
  - cbn [andb length app]. rewrite decide_False by naive_solver.
    assert (startswith s [] = true) as -> by (by destruct s). exact IH.
  - cbn [andb]. rewrite decide_True by congruence. by rewrite IH.
Qed.

Lemma filter_absent (s : list N) c : c ∉ s -> filter (fun x => x <> c) s = s.
Proof.
  induction s as [|x s IH]; [done|]. intros H.
  apply not_elem_of_cons in H as [Hne H].
  rewrite filter_cons, decide_True by congruence. by rewrite IH.
Qed.

Definition no_linebreak (s : list N) : Prop := Forall (fun c => is_linebreak c = false) s.

Lemma splitlines_from_line cur l rest :
  no_linebreak l -> splitlines_from cur (l ++ rest) = splitlines_from (rev l ++ cur) rest.
Proof.
  intros Hl. revert cur. induction Hl as [|c l Hc _ IH]; intros cur; [done|].
  cbn [app splitlines_from rev]. rewrite Hc, IH. by rewrite <- app_assoc.
Qed.

Lemma splitlines_from_join lines : forall cur l,
  Forall no_linebreak (l :: lines) ->
  last (l :: lines) <> Some [] ->
  splitlines_from cur (PyStr.join [NL] (l :: lines)) = (rev cur ++ l) :: lines.
Proof.
  induction lines as [|l2 lines IH]; intros cur l Hall Hlast.
  - change (PyStr.join [NL] [l]) with l.
    inversion Hall as [|? ? Hl _]; subst.
    pose proof (splitlines_from_line cur l [] Hl) as E0.
    rewrite app_nil_r in E0. rewrite E0. cbn [splitlines_from].
    destruct (rev l ++ cur) eqn:E.
    + exfalso. apply app_eq_nil in E as [E1 E2]. apply Hlast. cbn.
      f_equal. rewrite <- (rev_involutive l), E1. done.
    + rewrite <- E, rev_app_distr, rev_involutive. done.
  - change (PyStr.join [NL] (l :: l2 :: lines))
      with (l ++ [NL] ++ PyStr.join [NL] (l2 :: lines)).
    inversion Hall as [|? ? Hl Hrest]; subst.
    rewrite splitlines_from_line by done. cbn [app].
    assert (Hlast2 : last (l2 :: lines) <> Some []) by exact Hlast.
    pose proof (IH [] l2 Hrest Hlast2) as Hsplit. cbn [rev app] in Hsplit.
    cbn [splitlines_from]. change (is_linebreak NL) with true. cbn match.
    destruct (PyStr.join [NL] (l2 :: lines)) as [|c r] eqn:E.
    + cbn [splitlines_from] in Hsplit. done.
    + change ((NL =? CR)%N) with false. cbn [andb].
      rewrite Hsplit, rev_app_distr, rev_involutive. done.
Qed.

Lemma splitlines_join l lines :
  Forall no_linebreak (l :: lines) -> last (l :: lines) <> Some [] ->
  splitlines (PyStr.join [NL] (l :: lines)) = l :: lines.
Proof. intros H1 H2. unfold splitlines. by rewrite splitlines_from_join. Qed.

(** ** Names a diagram can carry *)

(** A character that is neither a line boundary nor one of the marks the
    decoder deletes from a line. *)
Definition plain_char (c : N) : bool :=
  negb (is_linebreak c) && negb (c =? SLASH)%N && negb (c =? BOX_V)%N
  && negb (c =? BOX_VR)%N && negb (c =? BOX_UR)%N.

(** A non-empty name of plain characters with no white space at either end. *)
Definition plain_name (n : list N) : bool :=
  match n with [] => false | c :: _ => negb (isspace c) end
  && match last n with Some c => negb (isspace c) | None => false end
  && forallb plain_char n.

Fixpoint plain_names (T : Tree) : bool :=
  match T with Entry n _ cs => plain_name n && forallb plain_names cs end.

(** The lines of the diagram below the root line. *)
Fixpoint tree_lines (is_last : bool) (pfx : list N) (T : Tree) : list (list N) :=
  match T with
  | Entry n lf cs =>
    (pfx ++ (if is_last then Node.LAST_CONNECTOR else Node.MID_CONNECTOR)
         ++ n ++ (if lf then [] else [SLASH]))
    :: (if lf then []
        else (fix forest (cs : list Tree) : list (list N) :=
                match cs with
                | [] => []
                | c :: rest =>
                  tree_lines (negb (nonempty rest))
                    (pfx ++ (if is_last then Node.INDENT else Node.BAR_INDENT)) c
                  ++ forest rest
                end) cs)
  end.

Definition forest_lines (np : list N) : list Tree -> list (list N) :=
  fix forest (cs : list Tree) : list (list N) :=
    match cs with
    | [] => []
    | c :: rest => tree_lines (negb (nonempty rest)) np c ++ forest rest
    end.

Definition terminated (lines : list (list N)) : list N :=
  flat_map (fun l => l ++ [NL]) lines.

Lemma tree_lines_unfold il pfx n lf cs :
  tree_lines il pfx (Entry n lf cs)
  = (pfx ++ (if il then Node.LAST_CONNECTOR else Node.MID_CONNECTOR)
         ++ n ++ (if lf then [] else [SLASH]))
    :: (if lf then []
        else forest_lines (pfx ++ (if il then Node.INDENT else Node.BAR_INDENT)) cs).
Proof. reflexivity. Qed.

Lemma forest_lines_cons np c cs :
  forest_lines np (c :: cs) = tree_lines (negb (nonempty cs)) np c ++ forest_lines np cs.
Proof. reflexivity. Qed.

Lemma terminated_app a b : terminated (a ++ b) = terminated a ++ terminated b.
Proof. unfold terminated. by rewrite flat_map_app. Qed.

Lemma terminated_join l lines :
  terminated (l :: lines) = PyStr.join [NL] (l :: lines) ++ [NL].
Proof.
  revert l. induction lines as [|l2 lines IH]; intros l.
  - cbn. by rewrite app_nil_r.
  - change (terminated (l :: l2 :: lines)) with ((l ++ [NL]) ++ terminated (l2 :: lines)).
    rewrite IH.
    change (PyStr.join [NL] (l :: l2 :: lines))
      with (l ++ [NL] ++ PyStr.join [NL] (l2 :: lines)).
    by rewrite <- !app_assoc.
Qed.

(** The text [to_md] writes below the root is its lines, each closed by a
    line feed but the last one when nothing follows. *)
Lemma md_text_lines T : forall more lvl il pfx,
  (0 < lvl)%Z ->
  md_text [] more lvl il pfx T ++ (if more then [] else [NL])
  = terminated (tree_lines il pfx T).
Proof.
  induction T as [n lf cs IH] using Tree_ind'. intros more lvl il pfx Hlvl.
  rewrite md_text_unfold, tree_lines_unfold. unfold md_line, md_new_prefix.
  assert ((0 <? lvl)%Z = true) as -> by lia.
  set (line := pfx ++ (if il then Node.LAST_CONNECTOR else Node.MID_CONNECTOR)
                   ++ n ++ (if lf then [] else [SLASH])).
  set (np := pfx ++ (if il then Node.INDENT else Node.BAR_INDENT)).
  change (terminated (line :: ?r)) with ((line ++ [NL]) ++ terminated r).
  rewrite <- !app_assoc. f_equal.
  destruct lf; cbn [negb andb].
  { rewrite orb_false_r. cbn [terminated flat_map app]. by destruct more. }
  destruct cs as [|c cs].
  { cbn [nonempty]. rewrite orb_false_r. cbn. by destruct more. }
  cbn [nonempty]. rewrite orb_true_r. cbn [app]. f_equal.
  assert (Hl1 : (0 < lvl + 1)%Z) by lia. revert Hl1. generalize (lvl + 1)%Z. intros lv Hlv.
  clear line. revert c IH. induction cs as [|c2 cs IHcs]; intros c IH.
  - inversion IH as [|? ? Hc _]; subst.
    change (md_forest [] more lv np [c]) with (md_text [] more lv true np c).
    rewrite forest_lines_cons. cbn [nonempty negb forest_lines]. rewrite app_nil_r.
    by apply Hc.
  - inversion IH as [|? ? Hc Hrest]; subst.
    rewrite md_forest_cons2, forest_lines_cons, terminated_app. cbn [nonempty negb].
    rewrite <- app_assoc, (IHcs c2 Hrest).
    f_equal. rewrite <- (Hc true lv false np Hlv). by rewrite app_nil_r.
Qed.

Lemma md_text_root n cs :
  md_text [] false 0 false [] (Entry n false cs)
  = PyStr.join [NL] ((n ++ [SLASH]) :: forest_lines [] cs).
Proof.
  apply (app_inj_tail _ _ NL NL). rewrite <- terminated_join.
  change (terminated ((n ++ [SLASH]) :: forest_lines [] cs))
    with (((n ++ [SLASH]) ++ [NL]) ++ terminated (forest_lines [] cs)).
  rewrite md_text_unfold. unfold md_line, md_new_prefix.
  change (0 <? 0)%Z with false. cbn [app negb andb orb].
  rewrite <- !app_assoc.
  destruct cs as [|c cs]; [done|]. cbn [nonempty app]. f_equal.
  do 2 f_equal. change (0 + 1)%Z with 1%Z.
  enough (Hgen : forall lv np, (0 < lv)%Z ->
            md_forest [] false lv np (c :: cs) ++ [NL]
            = terminated (forest_lines np (c :: cs))) by (apply Hgen; lia).
  intros lv np Hlv.
  revert c. induction cs as [|c2 cs IHcs]; intros c.
  - change (md_forest [] false lv np [c]) with (md_text [] false lv true np c).
    rewrite forest_lines_cons. cbn [nonempty negb forest_lines]. rewrite app_nil_r.
    by apply (md_text_lines c false).
  - rewrite md_forest_cons2, forest_lines_cons, terminated_app. cbn [nonempty negb].
    rewrite <- app_assoc, IHcs.
    f_equal. rewrite <- (md_text_lines c true lv false np Hlv). by rewrite app_nil_r.
Qed.

(** ** C4: what the encoders show under caps *)

(** The nodes the encoders show, in the order they show them, each with
    its level: the children of a leaf are never pushed. *)
Fixpoint listed (lvl : Z) (T : Tree) : list (Z * Tree) :=
  (lvl, T) :: match T with
              | Entry _ lf cs => if lf then [] else flat_map (listed (lvl + 1)%Z) cs
              end.

(** What the listing holds for one node, and the end of a node's line in
    both texts. *)
Definition listing_entry (e : Z * Tree) : list N :=
  (if (0 <? e.1)%Z
   then [NL] ++ times Node.INDENT e.1 ++ Node.CONNECTOR ++ t_name e.2
   else t_name e.2)
  ++ (if t_leaf e.2 then [] else [SLASH]).

Definition entry_name (e : Z * Tree) : list N :=
  t_name e.2 ++ (if t_leaf e.2 then [] else [SLASH]).

Lemma listed_nodes_at T : forall lvl e, e ∈ listed lvl T -> e ∈ nodes_at lvl T.
Proof.
  induction T as [n lf cs IH] using Tree_ind'. intros lvl e.
  cbn [listed nodes_at]. intros He. apply elem_of_cons in He as [->|He]; [set_solver|].
  apply elem_of_cons. right. destruct lf; [set_solver|].
  apply list_elem_of_In, in_flat_map in He as (c & Hc & He).
  apply list_elem_of_In, in_flat_map. exists c. split; [done|].
  rewrite Forall_forall in IH. apply list_elem_of_In.
  apply (IH c); [by apply list_elem_of_In|by apply list_elem_of_In].
Qed.

(** The listing is the entries of the nodes shown, one after the other. *)
Lemma repr_text_listed T : forall lvl,
  repr_text lvl T = flat_map listing_entry (listed lvl T).
Proof.
  induction T as [n lf cs IH] using Tree_ind'. intros lvl.
  cbn [repr_text listed flat_map]. unfold listing_entry at 1. cbn [fst snd t_name t_leaf].
  rewrite <- app_assoc. f_equal. destruct lf; [done|]. cbn [app]. f_equal.
  generalize (lvl + 1)%Z. intros lv.
  induction IH as [|c cs Hc _ IHcs]; [done|].
  cbn [flat_map]. rewrite flat_map_app. by rewrite Hc, IHcs.
Qed.

(** The diagram has one line for each node shown, in the same order, and
    the line of a node ends with its name. *)
Lemma tree_lines_listed T : forall il pfx lvl,
  exists prefixes,
    length prefixes = length (listed lvl T)
    /\ tree_lines il pfx T = zip_with app prefixes (map entry_name (listed lvl T)).
Proof.
  induction T as [n lf cs IH] using Tree_ind'. intros il pfx lvl.
  rewrite tree_lines_unfold. cbn [listed].
  assert (Hforest : forall np lv, exists ps,
            length ps = length (flat_map (listed lv) cs)
            /\ forest_lines np cs = zip_with app ps (map entry_name (flat_map (listed lv) cs))).
  { intros np lv. induction IH as [|c cs Hc _ IHcs]; [by exists []|].
    destruct (Hc (negb (nonempty cs)) np lv) as (p1 & Hl1 & E1).
    destruct IHcs as (p2 & Hl2 & E2).
    exists (p1 ++ p2). cbn [flat_map]. split.
    - rewrite !length_app. lia.
    - rewrite forest_lines_cons, map_app, zip_with_app by (by rewrite length_map).
      by rewrite E1, E2. }
  destruct lf.
  - exists [pfx ++ (if il then Node.LAST_CONNECTOR else Node.MID_CONNECTOR)].
    split; [done|]. cbn [map zip_with]. unfold entry_name. cbn [snd t_name t_leaf].
    by rewrite <- !app_assoc.
  - destruct (Hforest (pfx ++ (if il then Node.INDENT else Node.BAR_INDENT)) (lvl + 1)%Z)
      as (ps & Hl & E).
    exists ((pfx ++ (if il then Node.LAST_CONNECTOR else Node.MID_CONNECTOR)) :: ps).
    split; [cbn [length]; by rewrite Hl|].
    cbn [map zip_with]. unfold entry_name at 1. cbn [snd t_name t_leaf].
    rewrite <- !app_assoc. f_equal. exact E.
Qed.

Lemma md_text_listed T :
  exists prefixes,
    length prefixes = length (listed 0 T)
    /\ md_text [] false 0 false [] T
       = PyStr.join [NL] (zip_with app prefixes (map entry_name (listed 0 T))).
Proof.
  destruct T as [n lf cs]. destruct lf.
  - exists [[]]. split; [done|]. rewrite md_text_unfold. unfold md_line.
    change (0 <? 0)%Z with false. cbn. by rewrite app_nil_r.
  - rewrite md_text_root. cbn [listed].
    assert (Hforest : exists ps,
              length ps = length (flat_map (listed (0 + 1)) cs)
              /\ forest_lines [] cs
                 = zip_with app ps (map entry_name (flat_map (listed (0 + 1)) cs))).
    { induction cs as [|c cs (p2 & Hl2 & E2)]; [by exists []|].
      destruct (tree_lines_listed c (negb (nonempty cs)) [] (0 + 1)%Z) as (p1 & Hl1 & E1).
      exists (p1 ++ p2). cbn [flat_map]. split.
      - rewrite !length_app. lia.
      - rewrite forest_lines_cons, map_app, zip_with_app by (by rewrite length_map).
        by rewrite E1, E2. }
    destruct Hforest as (ps & Hl & E).
    exists ([] :: ps). split; [cbn [length]; by rewrite Hl|].
    cbn [map zip_with]. unfold entry_name at 1. cbn [snd t_name t_leaf app].
    by rewrite E.
Qed.

Lemma within_caps_iff fd ld lvl c :
  within_caps fd ld lvl c = true
  <-> (if t_leaf c then ld = 0 \/ lvl <= ld else fd = 0 \/ lvl <= fd)%Z.
Proof.
  unfold within_caps. destruct (t_leaf c); rewrite orb_true_iff; lia.
Qed.

(** C4 (as amended): with caps [(fd, ld)] the listing that [to_repr]
    returns and the diagram that [to_md] returns are those of the tree
    [prune fd ld 0 T]: the listing is the entries of the nodes of that tree,
    the diagram has one line for each of them, ending with its name, in the
    same order.  That tree holds no directory at a level above a cap
    [fd > 0] and no leaf at a level above a cap [ld > 0].  A child stays
    exactly when its level is within the cap of its kind, so that a leaf at
    level [ld] itself stays; a child that is dropped takes its subtree
    along and leaves the siblings before and after it in place.  The texts
    are also those a tree that spells [prune fd ld 0 T] gives without
    caps. *)
Theorem depth_caps_prune (h : heap) (l : loc) (T : Tree) (fd ld : Z) :
  represents h l T -> (0 <= fd)%Z -> (0 <= ld)%Z ->
  (forall fuel, size T <= fuel ->
     Node.to_repr fuel h l 0 (fd, ld) = Ok (repr_text 0 (prune fd ld 0 T))
     /\ Node.to_md fuel h l 0 false [] (fd, ld)
        = Ok (md_text [] false 0 false [] (prune fd ld 0 T)))
  /\ repr_text 0 (prune fd ld 0 T) = flat_map listing_entry (listed 0 (prune fd ld 0 T))
  /\ (exists prefixes,
        length prefixes = length (listed 0 (prune fd ld 0 T))
        /\ md_text [] false 0 false [] (prune fd ld 0 T)
           = PyStr.join [NL]
               (zip_with app prefixes (map entry_name (listed 0 (prune fd ld 0 T)))))
  /\ (forall e, e ∈ listed 0 (prune fd ld 0 T) -> e ∈ nodes_at 0 (prune fd ld 0 T))
  /\ (forall lvl M, (lvl, M) ∈ nodes_at 0 (prune fd ld 0 T) ->
        (t_leaf M = false -> (0 < fd)%Z -> (lvl <= fd)%Z)
        /\ (t_leaf M = true -> (0 < ld)%Z -> (lvl <= ld)%Z))
  /\ (forall lvl n lf cs,
        prune fd ld lvl (Entry n lf cs) = Entry n lf (pruned_children fd ld (lvl + 1) cs))
  /\ (forall lvl c,
        within_caps fd ld lvl c = true
        <-> (if t_leaf c then ld = 0 \/ lvl <= ld else fd = 0 \/ lvl <= fd)%Z)
  /\ (forall lvl before c after,
        pruned_children fd ld lvl (before ++ c :: after)
        = pruned_children fd ld lvl before
          ++ (if within_caps fd ld lvl c then [prune fd ld lvl c] else [])
          ++ pruned_children fd ld lvl after)
  /\ (forall fuel h' l',
        size T <= fuel -> represents h' l' (prune fd ld 0 T) ->
        exists listing diagram,
          Node.to_repr fuel h l 0 (fd, ld) = Ok listing
          /\ Node.to_repr fuel h' l' 0 (0, 0)%Z = Ok listing
          /\ Node.to_md fuel h l 0 false [] (fd, ld) = Ok diagram
          /\ Node.to_md fuel h' l' 0 false [] (0, 0)%Z = Ok diagram).
Proof.
  intros Hrep Hfd Hld.
  split. { intros fuel Hfuel. split; [by apply to_repr_text|by apply to_md_text]. }
  split. { apply repr_text_listed. }
  split. { apply md_text_listed. }
  split. { intros e. apply listed_nodes_at. }
  split.
  { intros lvl M Hin.
    assert (Hw : within_caps fd ld lvl M = true).
    { eapply nodes_at_prune_within; [|exact Hin].
      unfold within_caps. destruct (t_leaf T); apply orb_true_iff; right; by apply Z.leb_le. }
    unfold within_caps in Hw. split; intros Hlf Hcap; rewrite Hlf in Hw;
      apply orb_true_iff in Hw as [Hw|Hw];
      first [apply Z.eqb_eq in Hw; lia | by apply Z.leb_le in Hw]. }
  split. { intros lvl n lf cs. apply prune_unfold. }
  split. { intros lvl c. apply within_caps_iff. }
  split. { intros lvl before c after. rewrite pruned_children_app. reflexivity. }
  intros fuel h' l' Hfuel Hrep'.
  pose proof (size_prune_le fd ld T 0%Z) as Hs.
  exists (repr_text 0 (prune fd ld 0 T)), (md_text [] false 0 false [] (prune fd ld 0 T)).
  split; [by apply to_repr_text|]. split.
  { rewrite (to_repr_text h' l' (prune fd ld 0 T)) by (done || lia).
    by rewrite prune_uncapped. }
  split; [by apply to_md_text|].
  rewrite (to_md_text h' l' (prune fd ld 0 T)) by (done || lia).
  by rewrite prune_uncapped.
Qed.

Lemma depth_caps_prune_witness :
  Node.to_repr 4 h_example 0 0 (0, 1)%Z = Ok (repr_text 0 (prune 0 1 0 T_example))
  /\ Node.to_md 4 h_example 0 0 false [] (0, 1)%Z
     = Ok (md_text [] false 0 false [] (prune 0 1 0 T_example)).
Proof.
  refine (proj1 (depth_caps_prune h_example 0 T_example 0 1 _ _ _) 4 _).
  - apply (reify_represents 3). reflexivity.
  - lia.
  - lia.
  - vm_compute. lia.
Defined.

(** ** Reading one line of a diagram *)

(** A prefix is made of blanks and vertical bars. *)
Definition bars (pfx : list N) : Prop := Forall (fun c => c = SPACE \/ c = BOX_V) pfx.

Definition blanks (s : list N) : Prop := Forall (fun c => c = SPACE) s.

Lemma plain_name_head n :
  plain_name n = true -> exists c r, n = c :: r /\ isspace c = false.
Proof.
  unfold plain_name. destruct n as [|c r]; [done|].
  intros H. apply andb_true_iff in H as [H _]. apply andb_true_iff in H as [H _].
  exists c, r. split; [done|]. by apply negb_true_iff.
Qed.

Lemma plain_name_last n :
  plain_name n = true -> exists f d, n = f ++ [d] /\ isspace d = false.
Proof.
  unfold plain_name. intros H.
  apply andb_true_iff in H as [H _]. apply andb_true_iff in H as [_ H].
  destruct (last n) as [d|] eqn:E; [|done].
  apply last_Some in E as [f ->]. exists f, d. split; [done|]. by apply negb_true_iff.
Qed.

Lemma plain_name_chars n c :
  plain_name n = true -> plain_char c = false -> c ∉ n.
Proof.
  unfold plain_name. intros H Hc Hin.
  apply andb_true_iff in H as [_ H]. rewrite forallb_forall in H.
  apply list_elem_of_In in Hin. specialize (H c Hin). congruence.
Qed.

Lemma plain_name_no_linebreak n : plain_name n = true -> no_linebreak n.
Proof.
  unfold plain_name. intros H. apply andb_true_iff in H as [_ H].
  rewrite forallb_forall in H. apply Forall_forall. intros c Hin.
  apply list_elem_of_In in Hin. specialize (H c Hin).
  unfold plain_char in H. destruct (is_linebreak c); [done|done].
Qed.

Lemma blanks_absent s c : blanks s -> c <> SPACE -> c ∉ s.
Proof.
  intros Hs Hc Hin. unfold blanks in Hs. rewrite Forall_forall in Hs.
  specialize (Hs c Hin). done.
Qed.

Lemma bars_filter pfx : bars pfx -> blanks (filter (fun x => x <> BOX_V) pfx).
Proof.
  induction 1 as [|c pfx Hc _ IH]; [constructor|].
  rewrite filter_cons. destruct (decide (c <> BOX_V)) as [Hne|_]; [|exact IH].
  constructor; [|exact IH]. by destruct Hc.
Qed.

Lemma bars_lstrip pfx c rest :
  bars pfx -> isspace c = false ->
  exists pfx', lstrip (pfx ++ c :: rest) = pfx' ++ c :: rest /\ bars pfx'.
Proof.
  intros Hp Hc. induction Hp as [|x pfx Hx Hp IH].
  - exists []. split; [by apply lstrip_head|constructor].
  - destruct Hx as [->| ->].
    + destruct IH as (pfx' & E & Hb). exists pfx'. split; [|done].
      cbn [app lstrip]. change (isspace SPACE) with true. exact E.
    + exists (BOX_V :: pfx). split; [|by constructor; [right|]].
      cbn [app]. by apply lstrip_head.
Qed.

Lemma blanks_lstrip s c rest :
  blanks s -> isspace c = false -> lstrip (s ++ c :: rest) = c :: rest.
Proof.
  intros Hs Hc. rewrite lstrip_spaces, lstrip_head; [done..|].
  eapply Forall_impl; [exact Hs|]. by intros x ->.
Qed.

Section Line.
Variables (pfx n : list N) (il lf : bool).
Hypothesis Hpfx : bars pfx.
Hypothesis Hn : plain_name n = true.

Let conn : list N := if il then Node.LAST_CONNECTOR else Node.MID_CONNECTOR.
Let sl : list N := if lf then [] else [SLASH].
Let line : list N := pfx ++ conn ++ n ++ sl.

Lemma conn_head : exists k r, conn = k :: r /\ isspace k = false /\ k <> BOX_V.
Proof using All. unfold conn. destruct il; eexists _, _; (split; [reflexivity|done]). Qed.

Lemma line_end : exists f d, conn ++ n ++ sl = f ++ [d] /\ isspace d = false
                             /\ (d = SLASH <-> lf = false).
Proof using All.
  destruct (plain_name_last n Hn) as (f & d & E & Hd). unfold sl. destruct lf.
  - exists (conn ++ f), d. rewrite E, app_nil_r, app_assoc. repeat split; [done| |done].
    intros ->. exfalso. apply (plain_name_chars n SLASH Hn); [done|].
    rewrite E. set_solver.
  - exists (conn ++ n), SLASH. rewrite app_assoc. done.
Qed.

Lemma absent_body c :
  plain_char c = false -> c <> SLASH -> c ∉ n ++ sl.
Proof using All.
  intros Hc Hs. apply not_elem_of_app. split; [by apply plain_name_chars|].
  unfold sl. destruct lf; set_solver.
Qed.

Lemma filter_bar_line p :
  bars p ->
  exists sp, replace (p ++ conn ++ n ++ sl) [BOX_V] [] = sp ++ conn ++ n ++ sl
             /\ blanks sp /\ length sp <= length p.
Proof using All.
  intros Hp. rewrite replace_char.
  exists (filter (fun x => x <> BOX_V) p). rewrite filter_app. split; [|split].
  - f_equal. apply filter_absent. apply not_elem_of_app. split.
    + unfold conn. destruct il; vm_compute; set_solver.
    + by apply absent_body.
  - by apply bars_filter.
  - apply length_filter.
Qed.

(** The indentation the decoder measures is the length of the prefix. *)
Lemma line_indent :
  length line - length (lstrip (replace line [BOX_V] [])) = length pfx.
Proof using All.
  unfold line. rewrite replace_char, filter_app.
  assert (filter (fun x => x <> BOX_V) (conn ++ n ++ sl) = conn ++ n ++ sl) as ->.
  { apply filter_absent. apply not_elem_of_app. split.
    - unfold conn. destruct il; vm_compute; set_solver.
    - by apply absent_body. }
  destruct conn_head as (k & r & E & Hk & _). rewrite E. cbn [app].
  rewrite blanks_lstrip by (done || by apply bars_filter).
  rewrite length_app. cbn [length]. lia.
Qed.

Lemma line_content :
  exists p, strip line = p ++ conn ++ n ++ sl /\ bars p.
Proof using All.
  unfold line, strip. destruct conn_head as (k & r & E & Hk & _).
  destruct (bars_lstrip pfx k (r ++ n ++ sl) Hpfx Hk) as (p & Hl & Hp).
  exists p. split; [|done]. rewrite E. cbn [app]. rewrite Hl.
  destruct line_end as (f & d & E2 & Hd & _). rewrite E in E2. cbn [app] in E2.
  rewrite E2, app_assoc. by apply rstrip_last.
Qed.

Lemma line_leaf p : negb (endswith (p ++ conn ++ n ++ sl) [SLASH]) = lf.
Proof using All.
  destruct line_end as (f & d & E & _ & Hd). rewrite E, app_assoc.
  unfold endswith. rewrite rev_unit. cbn [rev app startswith].
  assert (startswith (rev (p ++ f)) [] = true) as -> by (by destruct (rev (p ++ f))).
  rewrite andb_true_r. destruct (N.eqb_spec SLASH d) as [Heq|Hne].
  - symmetry in Heq. apply Hd in Heq. by rewrite Heq.
  - destruct lf; [done|]. exfalso. apply Hne. symmetry. by apply Hd.
Qed.

Lemma line_name p :
  bars p ->
  strip (replace (replace (replace (replace (p ++ conn ++ n ++ sl)
           [BOX_V] []) Node.LAST_CONNECTOR []) Node.MID_CONNECTOR []) [SLASH] []) = n.
Proof using All.
  intros Hp. destruct (filter_bar_line p Hp) as (sp & -> & Hsp & _).
  assert (Hur : BOX_UR ∉ n ++ sl) by (by apply absent_body).
  assert (Hvr : BOX_VR ∉ n ++ sl) by (by apply absent_body).
  assert (Hsur : BOX_UR ∉ sp) by (by apply blanks_absent).
  assert (Hsvr : BOX_VR ∉ sp) by (by apply blanks_absent).
  assert (replace (replace (sp ++ conn ++ n ++ sl) Node.LAST_CONNECTOR [])
            Node.MID_CONNECTOR [] = sp ++ n ++ sl) as ->.
  { unfold conn. destruct il.
    - change Node.LAST_CONNECTOR with (BOX_UR :: [BOX_H; BOX_H; SPACE]).
      rewrite replace_first by done.
      change Node.MID_CONNECTOR with (BOX_VR :: [BOX_H; BOX_H; SPACE]).
      apply replace_absent. by apply not_elem_of_app.
    - change Node.LAST_CONNECTOR with (BOX_UR :: [BOX_H; BOX_H; SPACE]).
      rewrite replace_absent.
      + change Node.MID_CONNECTOR with (BOX_VR :: [BOX_H; BOX_H; SPACE]).
        by rewrite replace_first.
      + apply not_elem_of_app. split; [done|]. apply not_elem_of_app. split; [|done].
        vm_compute. set_solver. }
  rewrite replace_char, !filter_app.
  rewrite (filter_absent sp) by (by apply blanks_absent).
  rewrite (filter_absent n) by (by apply plain_name_chars).
  assert (filter (fun x => x <> SLASH) sl = []) as ->.
  { unfold sl. destruct lf; [done|]. rewrite filter_cons, decide_False by naive_solver. done. }
  rewrite app_nil_r. unfold strip.
  destruct (plain_name_head n Hn) as (c & r & E & Hc).
  rewrite E, blanks_lstrip by done. rewrite <- E.
  destruct (plain_name_last n Hn) as (f & d & E2 & Hd). rewrite E2.
  by apply rstrip_last.
Qed.

Lemma from_md_line_attach st :
  Node.from_md_line line st = Node.attach n lf (length pfx / 4) st.
Proof using All.
  unfold Node.from_md_line. rewrite line_indent.
  destruct line_content as (p & -> & Hp).
  rewrite line_leaf, line_name by done. reflexivity.
Qed.

Lemma line_no_linebreak : no_linebreak line.
Proof using All.
  unfold line, no_linebreak. rewrite !Forall_app. repeat split.
  - eapply Forall_impl; [exact Hpfx|]. by intros c [-> | ->].
  - unfold conn. destruct il; by repeat constructor.
  - by apply plain_name_no_linebreak.
  - unfold sl. destruct lf; by repeat constructor.
Qed.

Lemma line_nonempty : line <> [].
Proof using All.
  unfold line. destruct conn_head as (k & r & E & _). rewrite E.
  by destruct pfx.
Qed.

End Line.

(** ** Decoding the lines of a diagram *)

(** No leaf has children. *)
Fixpoint bare_leaves (T : Tree) : bool :=
  match T with
  | Entry _ lf cs => (negb lf || negb (nonempty cs)) && forallb bare_leaves cs
  end.

Lemma pop_to_level_take fuel : forall k s,
  length s <= fuel -> Node.pop_to_level fuel k s = take (S k) s.
Proof.
  induction fuel as [|fuel IH]; intros k s Hlen.
  - destruct s; [done|cbn in Hlen; lia].
  - cbn [Node.pop_to_level]. destruct (Nat.ltb_spec (k + 1) (length s)) as [Hlt|Hge].
    + rewrite removelast_firstn_len.
      change (firstn (Nat.pred (length s)) s) with (take (Nat.pred (length s)) s).
      rewrite IH by (rewrite length_take; lia).
      rewrite take_take. f_equal. lia.
    + symmetry. apply take_ge. lia.
Qed.

Lemma attach_spec nm lf k h stack p op :
  stack !! k = Some p -> h !! p = Some op -> is_Some (non_leaf_names op) ->
  Node.attach nm lf k (h, stack)
  = Ok (<[p := adopt op (length h) [Entry nm lf []]]> h
          ++ [mkTreeNode nm lf [] (if lf then None else Some ∅)],
        if lf then take (S k) stack else take (S k) stack ++ [length h]).
Proof.
  intros Hk Hp Hnl. unfold Node.attach, Node.new.
  rewrite pop_to_level_take by done.
  rewrite (take_S_r _ _ _ Hk), last_snoc. cbn [bind].
  rewrite (new_add_child h p op) by done. cbn [bind]. by destruct lf.
Qed.

Lemma for_lines_cons body l ls st :
  Node.for_lines body (l :: ls) st = (st' <- body l st;; Node.for_lines body ls st').
Proof. reflexivity. Qed.

(** Reading the lines of a tree whose prefix has [4 * k] characters
    attaches the tree to the node at position [k] of the stack and keeps
    the stack up to that position. *)
Definition line_visit (T : Tree) : Prop :=
  forall il pfx k h stack p op more,
    bars pfx -> length pfx = 4 * k ->
    stack !! k = Some p -> h !! p = Some op -> is_Some (non_leaf_names op) ->
    exists stack',
      Node.for_lines Node.from_md_line (tree_lines il pfx T ++ more) (h, stack)
      = Node.for_lines Node.from_md_line more
          (<[p := adopt op (length h) [T]]> h ++ flatten (length h) T, stack')
      /\ take (S k) stack' = take (S k) stack.

Lemma for_lines_forest cs :
  Forall line_visit cs ->
  forall np k h stack x ox more,
    bars np -> length np = 4 * k ->
    stack !! k = Some x -> h !! x = Some ox -> is_Some (non_leaf_names ox) ->
    exists stack',
      Node.for_lines Node.from_md_line (forest_lines np cs ++ more) (h, stack)
      = Node.for_lines Node.from_md_line more
          (<[x := adopt ox (length h) cs]> h ++ flatten_forest (length h) cs, stack')
      /\ take (S k) stack' = take (S k) stack.
Proof.
  induction 1 as [|c cs Hc _ IH]; intros np k h stack x ox more Hnp Hlen Hk Hx Hnl.
  - exists stack. split; [|done]. cbn [forest_lines app flatten_forest].
    by rewrite app_nil_r, adopt_nil, list_insert_id.
  - rewrite forest_lines_cons, <- app_assoc.
    destruct (Hc (negb (nonempty cs)) np k h stack x ox (forest_lines np cs ++ more)
                Hnp Hlen Hk Hx Hnl) as (stack1 & Hrun1 & Hst1).
    rewrite Hrun1.
    pose proof (lookup_lt_Some _ _ _ Hx) as Hlt.
    pose proof (lookup_lt_Some _ _ _ Hk) as Hklt.
    destruct (IH np k (<[x := adopt ox (length h) [c]]> h ++ flatten (length h) c) stack1
                x (adopt ox (length h) [c]) more Hnp Hlen) as (stack2 & Hrun2 & Hst2).
    + rewrite <- (lookup_take_lt stack1 (S k) k) by lia. rewrite Hst1.
      by rewrite lookup_take_lt by lia.
    + rewrite lookup_app_l by (by rewrite length_insert). by rewrite list_lookup_insert_eq.
    + unfold adopt. cbn [non_leaf_names]. destruct Hnl as [s ->]. eauto.
    + exists stack2. split; [|congruence]. rewrite Hrun2. do 2 f_equal.
      rewrite length_app, length_insert, length_flatten, adopt_cons.
      rewrite insert_app_l by (by rewrite length_insert).
      rewrite list_insert_insert_eq, flatten_forest_cons. by rewrite <- app_assoc.
Qed.

Lemma bars_extend pfx (il : bool) k :
  bars pfx -> length pfx = 4 * k ->
  bars (pfx ++ (if il then Node.INDENT else Node.BAR_INDENT))
  /\ length (pfx ++ (if il then Node.INDENT else Node.BAR_INDENT)) = 4 * S k.
Proof.
  intros Hp Hlen. split.
  - apply Forall_app. split; [done|].
    destruct il; repeat (constructor; [by (left + right)|]); constructor.
  - rewrite length_app. destruct il; cbn [length Node.INDENT Node.BAR_INDENT]; lia.
Qed.

(** The store once the children of the node allocated last are attached. *)
Lemma flatten_grown A n cs :
  <[length A := adopt (mkTreeNode n false [] (Some ∅)) (length (A ++ [mkTreeNode n false [] (Some ∅)])) cs]>
    (A ++ [mkTreeNode n false [] (Some ∅)])
  ++ flatten_forest (length (A ++ [mkTreeNode n false [] (Some ∅)])) cs
  = A ++ flatten (length A) (Entry n false cs).
Proof.
  rewrite insert_app_r_alt by lia. rewrite Nat.sub_diag. cbn [insert list_insert].
  rewrite flatten_unfold, length_app. cbn [length].
  rewrite Nat.add_1_r. unfold adopt. cbn [name is_leaf children non_leaf_names app].
  rewrite union_empty_r_L. by rewrite <- app_assoc.
Qed.

Lemma for_lines_tree T :
  plain_names T = true -> bare_leaves T = true -> line_visit T.
Proof.
  induction T as [n lf cs IH] using Tree_ind'.
  intros Hplain Hbare il pfx k h stack p op more Hpfx Hlen Hk Hp Hnl.
  cbn [plain_names bare_leaves] in Hplain, Hbare.
  apply andb_true_iff in Hplain as [Hn Hcs]. apply andb_true_iff in Hbare as [Hlf Hbs].
  rewrite tree_lines_unfold. cbn [app]. rewrite for_lines_cons.
  rewrite (from_md_line_attach pfx n il lf Hpfx Hn).
  replace (length pfx / 4) with k by (rewrite Hlen, Nat.mul_comm, Nat.div_mul; lia).
  rewrite (attach_spec n lf k h stack p op) by done. cbn [bind].
  pose proof (lookup_lt_Some _ _ _ Hk) as Hklt.
  pose proof (lookup_lt_Some _ _ _ Hp) as Hplt.
  destruct lf.
  - destruct cs as [|c cs]; [|done]. cbn [app].
    exists (take (S k) stack). split; [done|].
    rewrite take_take. f_equal. lia.
  - destruct (bars_extend pfx il k Hpfx Hlen) as (Hnp & Hnplen).
    set (x0 := mkTreeNode n false [] (Some ∅)).
    set (A := <[p := adopt op (length h) [Entry n false []]]> h).
    assert (HA : length A = length h) by apply length_insert.
    destruct (for_lines_forest cs) with
      (np := pfx ++ (if il then Node.INDENT else Node.BAR_INDENT)) (k := S k)
      (h := A ++ [x0]) (stack := take (S k) stack ++ [length h]) (x := length h)
      (ox := x0) (more := more) as (stack2 & Hrun & Hst); try done.
    + rewrite Forall_forall in IH. apply Forall_forall. intros c Hc.
      rewrite forallb_forall in Hcs, Hbs. apply list_elem_of_In in Hc as Hc'.
      apply IH; [done|by apply Hcs|by apply Hbs].
    + rewrite lookup_app_r by (rewrite length_take; lia).
      rewrite length_take. replace (S k - S k `min` length stack) with 0 by lia. done.
    + rewrite <- HA. by apply list_lookup_middle.
    + exists stack2. split.
      * rewrite Hrun. do 2 f_equal. rewrite <- HA at 1. unfold x0. rewrite flatten_grown.
        unfold A. rewrite length_insert.
        pose proof (adopt_single op (length h) (Entry n false cs)) as Ha.
        cbn [t_name t_leaf] in Ha. by rewrite Ha.
      * assert (take (S k) stack2 = take (S k) (take (S (S k)) stack2)) as ->
          by (rewrite take_take; f_equal; lia).
        rewrite Hst, take_take. replace (S k `min` S (S k)) with (S k) by lia.
        rewrite take_app_le by (rewrite length_take; lia).
        rewrite take_take. f_equal. lia.
Qed.

(** ** The whole diagram *)

Definition line_ok (l : list N) : Prop :=
  no_linebreak l /\ exists f d, l = f ++ [d] /\ isspace d = false.

Lemma bars_cont pfx (il : bool) :
  bars pfx -> bars (pfx ++ (if il then Node.INDENT else Node.BAR_INDENT)).
Proof.
  intros Hp. apply Forall_app. split; [done|].
  destruct il; repeat (constructor; [by (left + right)|]); constructor.
Qed.

Lemma tree_lines_ok T : forall il pfx,
  plain_names T = true -> bars pfx -> Forall line_ok (tree_lines il pfx T).
Proof.
  induction T as [n lf cs IH] using Tree_ind'. intros il pfx Hplain Hpfx.
  cbn [plain_names] in Hplain. apply andb_true_iff in Hplain as [Hn Hcs].
  rewrite tree_lines_unfold. constructor.
  - split; [by apply line_no_linebreak|].
    destruct (line_end pfx n il lf Hpfx Hn) as (f & d & E & Hd & _).
    exists (pfx ++ f), d. split; [|done]. by rewrite E, app_assoc.
  - destruct lf; [constructor|].
    pose proof (bars_cont pfx il Hpfx) as Hnp. revert Hnp.
    generalize (pfx ++ (if il then Node.INDENT else Node.BAR_INDENT)). intros np Hnp.
    induction IH as [|c cs Hc _ IHcs]; [constructor|].
    cbn [forallb] in Hcs. apply andb_true_iff in Hcs as [Hc1 Hcs].
    rewrite forest_lines_cons. apply Forall_app. split; [by apply Hc|by apply IHcs].
Qed.

Lemma forest_lines_ok cs np :
  forallb plain_names cs = true -> bars np -> Forall line_ok (forest_lines np cs).
Proof.
  intros Hcs Hnp. induction cs as [|c cs IH]; [constructor|].
  cbn [forallb] in Hcs. apply andb_true_iff in Hcs as [Hc Hcs].
  rewrite forest_lines_cons. apply Forall_app.
  split; [by apply tree_lines_ok|by apply IH].
Qed.

Lemma join_last lines : forall l,
  Forall line_ok (l :: lines) ->
  exists f d, PyStr.join [NL] (l :: lines) = f ++ [d] /\ isspace d = false.
Proof.
  induction lines as [|l2 lines IH]; intros l Hall.
  - inversion Hall as [|? ? [_ Hl] _]; subst. exact Hl.
  - inversion Hall as [|? ? _ Hrest]; subst.
    destruct (IH l2 Hrest) as (f & d & E & Hd).
    exists (l ++ [NL] ++ f), d. split; [|done].
    change (PyStr.join [NL] (l :: l2 :: lines))
      with (l ++ [NL] ++ PyStr.join [NL] (l2 :: lines)).
    rewrite E. by rewrite <- !app_assoc.
Qed.

Lemma strip_ends s :
  (exists c r, s = c :: r /\ isspace c = false) ->
  (exists f d, s = f ++ [d] /\ isspace d = false) -> strip s = s.
Proof.
  intros (c & r & E1 & Hc) (f & d & E2 & Hd).
  unfold strip. rewrite E1, lstrip_head by done.
  rewrite <- E1, E2. by apply rstrip_last.
Qed.

Lemma line_ok_last l lines : Forall line_ok (l :: lines) -> last (l :: lines) <> Some [].
Proof.
  intros Hall E. apply last_Some in E as [front E].
  rewrite Forall_forall in Hall.
  destruct (Hall []) as (_ & f & d & Ef & _).
  - rewrite E. set_solver.
  - by destruct f.
Qed.

(** Decoding the diagram of a directory tree with plain names lays the
    tree out at the end of the store. *)
Lemma from_md_md_text n cs h0 :
  plain_names (Entry n false cs) = true -> bare_leaves (Entry n false cs) = true ->
  Node.from_md (md_text [] false 0 false [] (Entry n false cs)) h0
  = Ok (Some (length h0), h0 ++ flatten (length h0) (Entry n false cs)).
Proof.
  intros Hplain Hbare. rewrite md_text_root.
  pose proof Hplain as Hplain'. pose proof Hbare as Hbare'.
  cbn [plain_names bare_leaves] in Hplain', Hbare'.
  apply andb_true_iff in Hplain' as [Hn Hcs]. apply andb_true_iff in Hbare' as [_ Hbs].
  destruct (plain_name_head n Hn) as (c & r & En & Hc).
  assert (Hl0 : line_ok (n ++ [SLASH])).
  { split; [|by exists n, SLASH].
    apply Forall_app. split; [by apply plain_name_no_linebreak|by repeat constructor]. }
  assert (Hall : Forall line_ok ((n ++ [SLASH]) :: forest_lines [] cs)).
  { constructor; [done|]. apply forest_lines_ok; [done|constructor]. }
  unfold Node.from_md. rewrite strip_ends; [| |by apply join_last].
  2:{ rewrite En. destruct (forest_lines [] cs); eexists _, _; (split; [reflexivity|done]). }
  rewrite splitlines_join; [| |by apply line_ok_last].
  2:{ eapply Forall_impl; [exact Hall|]. by intros ? [? _]. }
  rewrite (strip_ends (n ++ [SLASH]));
    [|by rewrite En; eexists _, _|by exists n, SLASH].
  rewrite replace_char, filter_app, (filter_absent n) by (by apply plain_name_chars).
  rewrite filter_cons, decide_False by naive_solver.
  change (filter _ []) with (@nil N). rewrite app_nil_r.
  unfold Node.new.
  set (x0 := mkTreeNode n false [] (Some ∅)).
  destruct (for_lines_forest cs) with
    (np := @nil N) (k := 0) (h := h0 ++ [x0]) (stack := [length h0]) (x := length h0)
    (ox := x0) (more := @nil (list N)) as (stack2 & Hrun & _); try done.
  - apply Forall_forall. intros t Ht. rewrite forallb_forall in Hcs, Hbs.
    apply list_elem_of_In in Ht. by apply for_lines_tree; [apply Hcs|apply Hbs].
  - constructor.
  - by apply list_lookup_middle.
  - rewrite app_nil_r in Hrun. rewrite Hrun. cbn [Node.for_lines bind fst].
    unfold x0. by rewrite flatten_grown.
Qed.

(** ** C1: encoding a tree as text and decoding the text *)

(** C1 (amended): for every Node Tree whose root is a directory, whose
    leaves carry no children and whose names are plain (non-empty, no line
    boundary, no [/], no [│], [├] or [└], no white space at either end),
    [to_md] with the caps [(0, 0)] returns a diagram from which [from_md]
    builds the same tree: the same names, tags, children and child order. *)
Theorem diagram_round_trip (h : list TreeNode) (l : nat) (T : Tree)
    (h0 : list TreeNode) (fuel : nat) :
  represents h l T -> t_leaf T = false ->
  plain_names T = true -> bare_leaves T = true -> size T <= fuel ->
  exists s root h1,
    Node.to_md fuel h l 0 false [] (0%Z, 0%Z) = Ok s
    /\ Node.from_md s h0 = Ok (Some root, h1)
    /\ represents h1 root T
    /\ (forall T', represents h1 root T' -> T' = T).
Proof.
  intros Hrep Hdir Hplain Hbare Hfuel.
  exists (md_text [] false 0 false [] T), (length h0), (h0 ++ flatten (length h0) T).
  assert (Hlaid : represents (h0 ++ flatten (length h0) T) (length h0) T).
  { rewrite <- (app_nil_r (flatten _ T)). apply represents_flatten. }
  split; [|split; [|split]].
  - rewrite (to_md_text h l T 0 0 fuel) by (done || lia). by rewrite prune_uncapped.
  - destruct T as [n lf cs]. cbn [t_leaf] in Hdir. subst lf. by apply from_md_md_text.
  - exact Hlaid.
  - intros T' HT'. by eapply represents_unique.
Qed.

Lemma diagram_round_trip_witness :
  exists s root h1,
    Node.to_md 4 h_example 0 0 false [] (0%Z, 0%Z) = Ok s
    /\ Node.from_md s [] = Ok (Some root, h1)
    /\ represents h1 root T_example
    /\ (forall T', represents h1 root T' -> T' = T_example).
Proof.
  apply (diagram_round_trip h_example 0 T_example [] 4).
  - apply (reify_represents 3). reflexivity.
  - reflexivity.
  - reflexivity.
  - reflexivity.
  - vm_compute. lia.
Defined.

(** The tree the listing of root/{a/, c.txt} is decoded into. *)
Definition T_capped : Tree :=
  Entry (py "root") false [Entry (py "a") false []; Entry (py "c.txt") true []].

Definition T_nested : Tree :=
  Entry (py "root") false [Entry (py "a") false [Entry (py "c.txt") true []]].

Definition LISTING_CAPPED : list N :=
  Eval vm_compute in PyStr.join [NL] [py "root/"; py "    |-- a/"; py "    |-- c.txt"].

Definition h_leaf : list TreeNode := [mkTreeNode (py "f") true [] None].

(** A tree whose root is a leaf is drawn as its bare name and decoded as a
    directory; and the listing of root/{a/, c.txt} is decoded with [c.txt]
    below [a]: the listing indents the children of the root by four blanks,
    which the decoder reads as level 1 and so keeps two nodes on its stack. *)
Lemma text_round_trip_changes_tree :
  (Node.to_md 1 h_leaf 0 0 false [] (0%Z, 0%Z) = Ok (py "f")
   /\ Node.from_md (py "f") [] = Ok (Some 0, [mkTreeNode (py "f") false [] (Some ∅)]))
  /\ (represents h_capped 0 T_capped
      /\ Node.to_repr 3 h_capped 0 0 (0%Z, 0%Z) = Ok LISTING_CAPPED
      /\ exists h1, Node.from_repr LISTING_CAPPED [] = Ok (Some 0, h1)
                    /\ represents h1 0 T_nested
                    /\ ~ represents h1 0 T_capped).
Proof.
  split; [split; reflexivity|].
  split; [apply (reify_represents 3); reflexivity|].
  split; [reflexivity|].
  eexists. split; [reflexivity|].
  assert (Hrep : represents
            [mkTreeNode (py "root") false [1] (Some {[py "a"]});
             mkTreeNode (py "a") false [2] (Some ∅);
             mkTreeNode (py "c.txt") true [] None] 0 T_nested)
    by (apply (reify_represents 3); reflexivity).
  split; [exact Hrep|].
  intros Hbad. pose proof (represents_unique _ _ _ _ Hrep Hbad) as E. discriminate E.
Qed.

(** * The walk and the file system *)

(** [tree_in h P l T]: the objects reachable from [l] spell [T], and their
    references all satisfy [P]. *)
Inductive tree_in (h : list TreeNode) (P : nat -> Prop) : nat -> Tree -> Prop :=
| tree_in_entry l o cs :
    h !! l = Some o -> P l ->
    Forall2 (tree_in h P) (children o) cs ->
    tree_in h P l (Entry (name o) (is_leaf o) cs).

Lemma Forall2_Forall_r {A B : Type} (R R' : A -> B -> Prop) (Q : B -> Prop) l k :
  Forall Q k -> Forall2 R l k -> (forall a b, Q b -> R a b -> R' a b) -> Forall2 R' l k.
Proof.
  intros HQ HR Himp. induction HR as [|a b l k Hab _ IH]; [constructor|].
  inversion HQ; subst. constructor; [by apply Himp|by apply IH].
Qed.

Lemma tree_in_represents h P T : forall l, tree_in h P l T -> represents h l T.
Proof.
  induction T as [n lf cs IH] using Tree_ind'. intros l Hin.
  inversion Hin as [l' o cs' Ho HP Hcs]; subst. constructor; [done|].
  eapply Forall2_Forall_r; [exact IH|exact Hcs|]. intros a b Hb Hab. by apply Hb.
Qed.

(** A tree stays where its objects stay. *)
Lemma tree_in_agree h h' P T :
  (forall x o, P x -> h !! x = Some o -> h' !! x = Some o) ->
  forall l, tree_in h P l T -> tree_in h' P l T.
Proof.
  intros Hsame. induction T as [n lf cs IH] using Tree_ind'. intros l Hin.
  inversion Hin as [l' o cs' Ho HP Hcs]; subst. constructor; [by apply Hsame|done|].
  eapply Forall2_Forall_r; [exact IH|exact Hcs|]. intros a b Hb Hab. by apply Hb.
Qed.

Lemma tree_in_mono h (P Q : nat -> Prop) T :
  (forall x, P x -> Q x) -> forall l, tree_in h P l T -> tree_in h Q l T.
Proof.
  intros HPQ. induction T as [n lf cs IH] using Tree_ind'. intros l Hin.
  inversion Hin as [l' o cs' Ho HP Hcs]; subst. constructor; [done|by apply HPQ|].
  eapply Forall2_Forall_r; [exact IH|exact Hcs|]. intros a b Hb Hab. by apply Hb.
Qed.

Lemma tree_in_bound h P T : forall l, tree_in h P l T -> tree_in h (fun x => P x /\ x < length h) l T.
Proof.
  induction T as [n lf cs IH] using Tree_ind'. intros l Hin.
  inversion Hin as [l' o cs' Ho HP Hcs]; subst.
  constructor; [done|split; [done|by eapply lookup_lt_Some]|].
  eapply Forall2_Forall_r; [exact IH|exact Hcs|]. intros a b Hb Hab. by apply Hb.
Qed.

Section Walk.

Variable os : os_env.
Variable fnmatch : list N -> list N -> bool.
Variable root_path : list N.
Variable ignore_patterns : option (list (list N)).

(** The entry [item] of the directory [p] is not ignored. *)
Definition kept (p item : list N) : bool :=
  negb (_should_ignore os fnmatch
          (os_relpath os (PosixPath.join p item) root_path) ignore_patterns).

(** [snapshot p T]: the tree a walk of the directory [p] meets is [T].  The
    children of a directory are its entries that are not ignored, in the
    order of the listing; a directory that may not be listed shows no
    child; an entry that is no directory is a leaf. *)
Fixpoint snapshot (p : list N) (T : Tree) : Prop :=
  match T with
  | Entry _ lf cs =>
    lf = false /\
    match os_listdir os p with
    | Entries items =>
      (fix each (items : list (list N)) (cs : list Tree) {struct cs} : Prop :=
         match cs, items with
         | [], [] => True
         | c :: cs, item :: items =>
           (t_name c = item
            /\ if os_isdir os (PosixPath.join p item)
               then snapshot (PosixPath.join p item) c
               else c = Entry item true [])
           /\ each items cs
         | _, _ => False
         end) (filter (fun item => kept p item = true) items) cs
    | PermissionDenied => cs = []
    | ListingFails => False
    end
  end.

Section Capped.

Variable folder_depth file_depth : Z.

(** The entry [item] of the directory [p], met at folder depth [d], is
    neither ignored nor passed over for a cap. *)
Definition admitted (p : list N) (d : Z) (item : list N) : bool :=
  kept p item
  && if os_isdir os (PosixPath.join p item)
     then negb (negb (folder_depth =? 0)%Z && (d =? folder_depth)%Z)
     else negb (negb (file_depth =? 0)%Z && (file_depth <=? d)%Z).

(** [capped_snapshot d p T]: the tree the walk under the caps meets from
    the directory [p], queued at folder depth [d]. *)
Fixpoint capped_snapshot (d : Z) (p : list N) (T : Tree) : Prop :=
  match T with
  | Entry _ lf cs =>
    lf = false /\
    if negb (folder_depth =? 0)%Z && (folder_depth <? d)%Z then cs = []
    else
      match os_listdir os p with
      | Entries items =>
        (fix each (items : list (list N)) (cs : list Tree) {struct cs} : Prop :=
           match cs, items with
           | [], [] => True
           | c :: cs, item :: items =>
             (t_name c = item
              /\ if os_isdir os (PosixPath.join p item)
                 then capped_snapshot (d + 1) (PosixPath.join p item) c
                 else c = Entry item true [])
             /\ each items cs
           | _, _ => False
           end) (filter (fun item => admitted p d item = true) items) cs
      | PermissionDenied => cs = []
      | ListingFails => False
      end
  end.

Definition entry_of (p : list N) (d : Z) (item : list N) (c : Tree) : Prop :=
  t_name c = item
  /\ if os_isdir os (PosixPath.join p item)
     then capped_snapshot (d + 1) (PosixPath.join p item) c
     else c = Entry item true [].

Lemma capped_snapshot_unfold d p n lf cs :
  capped_snapshot d p (Entry n lf cs)
  <-> lf = false /\
      if negb (folder_depth =? 0)%Z && (folder_depth <? d)%Z then cs = []
      else
        match os_listdir os p with
        | Entries items =>
          Forall2 (entry_of p d) (filter (fun item => admitted p d item = true) items) cs
        | PermissionDenied => cs = []
        | ListingFails => False
        end.
Proof.
  cbn [capped_snapshot]. apply and_iff_compat_l.
  destruct (_ && _); [done|]. destruct (os_listdir os p) as [items| |]; [|done..].
  generalize (filter (fun item => admitted p d item = true) items). intros A.
  revert A. induction cs as [|c cs IH]; intros [|item A].
  - split; [constructor|done].
  - split; [done|]. intros H. inversion H.
  - split; [done|]. intros H. inversion H.
  - rewrite IH. split.
    + intros [H1 H2]. by constructor.
    + intros H. inversion H; subst. done.
Qed.

End Capped.

Definition file_entry (p item : list N) (c : Tree) : Prop :=
  t_name c = item
  /\ if os_isdir os (PosixPath.join p item)
     then snapshot (PosixPath.join p item) c
     else c = Entry item true [].

Lemma snapshot_unfold p n lf cs :
  snapshot p (Entry n lf cs)
  <-> lf = false /\
      match os_listdir os p with
      | Entries items =>
        Forall2 (file_entry p) (filter (fun item => kept p item = true) items) cs
      | PermissionDenied => cs = []
      | ListingFails => False
      end.
Proof.
  cbn [snapshot]. apply and_iff_compat_l.
  destruct (os_listdir os p) as [items| |]; [|done..].
  generalize (filter (fun item => kept p item = true) items). intros A.
  revert A. induction cs as [|c cs IH]; intros [|item A].
  - split; [constructor|done].
  - split; [done|]. intros H. inversion H.
  - split; [done|]. intros H. inversion H.
  - rewrite IH. split.
    + intros [H1 H2]. by constructor.
    + intros H. inversion H; subst. done.
Qed.

End Walk.

(** ** What the depth-bounded walk builds *)

Section DepthBuild.

Variable os : os_env.
Variable fnmatch : list N -> list N -> bool.
Variable root_path : list N.
Variable ignore_patterns : option (list (list N)).
Variable folder_depth file_depth : Z.

Lemma depth_loop_S fuel h node p d stack :
  depth_loop os fnmatch (S fuel) root_path folder_depth file_depth ignore_patterns
    (h, (node, p, d) :: stack)
  = if negb (folder_depth =? 0)%Z && (folder_depth <? d)%Z
    then depth_loop os fnmatch fuel root_path folder_depth file_depth ignore_patterns (h, stack)
    else
      match os_listdir os p with
      | Entries items =>
        st <- for_items (depth_item os fnmatch root_path folder_depth file_depth
                           ignore_patterns node p d) items (h, stack);;
        depth_loop os fnmatch fuel root_path folder_depth file_depth ignore_patterns st
      | PermissionDenied =>
        depth_loop os fnmatch fuel root_path folder_depth file_depth ignore_patterns (h, stack)
      | ListingFails => Raise OSError
      end.
Proof.
  cbn [depth_loop depth_step]. destruct (_ && _); [done|].
  by destruct (os_listdir os p).
Qed.

Lemma depth_loop_done fuel h :
  depth_loop os fnmatch fuel root_path folder_depth file_depth ignore_patterns (h, []) = Ok h.
Proof. by destruct fuel. Qed.

(** The node made for an entry, before anything is attached to it. *)
Definition shallow (p item : list N) : Tree :=
  Entry item (negb (os_isdir os (PosixPath.join p item))) [].

(** The stack once the directories among the admitted entries are pushed,
    the first entry being given the reference [base]. *)
Fixpoint queued (p : list N) (d : Z) (base : nat) (A : list (list N))
    (stack : list (nat * list N * Z)) : list (nat * list N * Z) :=
  match A with
  | [] => stack
  | item :: A =>
    queued p d (S base) A
      (if os_isdir os (PosixPath.join p item)
       then (base, PosixPath.join p item, (d + 1)%Z) :: stack else stack)
  end.

(** The [for item in os.listdir(...)] loop on a directory object. *)
Lemma depth_items_effect node p d items : forall h o stack,
  h !! node = Some o -> is_Some (non_leaf_names o) ->
  for_items (depth_item os fnmatch root_path folder_depth file_depth ignore_patterns
               node p d) items (h, stack)
  = Ok (<[node := adopt o (length h)
                    (map (shallow p)
                       (filter (fun item => admitted os fnmatch root_path ignore_patterns
                                              folder_depth file_depth p d item = true) items))]> h
        ++ flatten_forest (length h)
             (map (shallow p)
                (filter (fun item => admitted os fnmatch root_path ignore_patterns
                                       folder_depth file_depth p d item = true) items)),
        queued p d (length h)
          (filter (fun item => admitted os fnmatch root_path ignore_patterns
                                 folder_depth file_depth p d item = true) items) stack).
Proof.
  induction items as [|item items IH]; intros h o stack Ho Hnl.
  { cbn [for_items filter list_filter map flatten_forest queued].
    by rewrite adopt_nil, list_insert_id, app_nil_r. }
  pose proof (lookup_lt_Some _ _ _ Ho) as Hlt.
  assert (Hstep : forall lf, lf = negb (os_isdir os (PosixPath.join p item)) ->
    forall stack',
    (st <- (h' <- Node.add_child node (length h)
                    (h ++ [mkTreeNode item lf [] (if lf then None else Some ∅)]);;
            Ok (h', stack'));;
     for_items (depth_item os fnmatch root_path folder_depth file_depth ignore_patterns
                  node p d) items st)
    = Ok (<[node := adopt o (length h)
                      (shallow p item
                       :: map (shallow p)
                            (filter (fun item => admitted os fnmatch root_path ignore_patterns
                                       folder_depth file_depth p d item = true) items))]> h
          ++ flatten_forest (length h)
               (shallow p item
                :: map (shallow p)
                     (filter (fun item => admitted os fnmatch root_path ignore_patterns
                                folder_depth file_depth p d item = true) items)),
          queued p d (S (length h))
            (filter (fun item => admitted os fnmatch root_path ignore_patterns
                                   folder_depth file_depth p d item = true) items) stack')).
  { intros lf Hlf stack'. rewrite (new_add_child h node o item lf Ho Hnl). cbn [bind].
    rewrite (IH _ (adopt o (length h) [Entry item lf []])).
    - rewrite length_app, length_insert. cbn [length]. rewrite Nat.add_1_r.
      f_equal. f_equal.
      set (rest := map (shallow p) _).
      replace (shallow p item) with (Entry item lf []) by (unfold shallow; by rewrite Hlf).
      rewrite insert_app_l by (by rewrite length_insert).
      rewrite list_insert_insert_eq, flatten_forest_cons.
      rewrite <- (adopt_cons o (length h) (Entry item lf []) rest).
      change (size (Entry item lf [])) with 1. rewrite Nat.add_1_r.
      rewrite <- app_assoc. reflexivity.
    - rewrite lookup_app_l by (by rewrite length_insert). by rewrite list_lookup_insert_eq.
    - unfold adopt. cbn [non_leaf_names]. destruct Hnl as [s ->]. eauto. }
  rewrite filter_cons. cbn [for_items].
  destruct (decide (admitted os fnmatch root_path ignore_patterns folder_depth file_depth
                      p d item = true)) as [Hadm|Hadm].
  - unfold admitted, kept in Hadm. apply andb_true_iff in Hadm as [Hk Hc].
    apply negb_true_iff in Hk. unfold depth_item at 1. rewrite Hk.
    cbn [map queued]. unfold Node.new.
    destruct (os_isdir os (PosixPath.join p item)) eqn:Hdir;
      apply negb_true_iff in Hc; rewrite Hc.
    + exact (Hstep false eq_refl ((length h, PosixPath.join p item, (d + 1)%Z) :: stack)).
    + exact (Hstep true eq_refl stack).
  - assert (depth_item os fnmatch root_path folder_depth file_depth ignore_patterns
              node p d item (h, stack) = Ok (h, stack)) as ->.
    { unfold depth_item. unfold admitted, kept in Hadm.
      destruct (_should_ignore os fnmatch _ ignore_patterns); [done|].
      cbn [negb andb] in Hadm.
      destruct (os_isdir os (PosixPath.join p item));
        match goal with |- (if ?b then _ else _) = _ => destruct b end; done. }
    cbn [bind]. by apply IH.
Qed.

(** The admitted entries with the references of their nodes and the trees
    they stand for, the first node having the reference [base]. *)
Fixpoint placed (p : list N) (base : nat) (A : list (list N)) (cs : list Tree)
  : list (nat * list N * Tree) :=
  match A, cs with
  | item :: A, c :: cs => (base, PosixPath.join p item, c) :: placed p (S base) A cs
  | _, _ => []
  end.

Definition is_dir_entry (e : nat * list N * Tree) : Prop := os_isdir os e.1.2 = true.

Definition fresh_node (p item : list N) : TreeNode :=
  mkTreeNode item (negb (os_isdir os (PosixPath.join p item))) []
    (if negb (os_isdir os (PosixPath.join p item)) then None else Some ∅).

Lemma flatten_forest_shallow p A : forall base,
  flatten_forest base (map (shallow p) A) = map (fresh_node p) A.
Proof.
  induction A as [|item A IH]; intros base; [done|].
  cbn [map]. rewrite flatten_forest_cons, IH. reflexivity.
Qed.

Lemma child_locs_shallow p A : forall base,
  child_locs base (map (shallow p) A) = seq base (length A).
Proof.
  induction A as [|item A IH]; intros base; [done|].
  cbn [map child_locs length seq]. f_equal.
  change (size (shallow p item)) with 1. rewrite Nat.add_1_r. apply IH.
Qed.

Lemma placed_spec (R : list N -> Tree -> Prop) p A cs :
  Forall2 R A cs ->
  forall base,
    Forall (fun e => exists i item,
              A !! i = Some item /\ cs !! i = Some e.2 /\ e.1.1 = base + i
              /\ e.1.2 = PosixPath.join p item /\ R item e.2)
      (placed p base A cs).
Proof.
  induction 1 as [|item c A cs Hic _ IH]; intros base; [constructor|].
  cbn [placed]. constructor.
  - exists 0, item. cbn. by rewrite Nat.add_0_r.
  - eapply Forall_impl; [apply (IH (S base))|].
    intros e (i & it & H1 & H2 & H3 & H4 & H5). exists (S i), it.
    repeat split; try done. lia.
Qed.

Lemma placed_locs p A cs :
  length A = length cs ->
  forall base, map (fun e : nat * list N * Tree => e.1.1) (placed p base A cs)
               = seq base (length A).
Proof.
  revert cs. induction A as [|item A IH]; intros [|c cs] Hlen base; try done.
  cbn [placed map length seq fst]. f_equal. apply IH. cbn in Hlen. lia.
Qed.

Lemma placed_trees p A cs :
  length A = length cs ->
  forall base, map (fun e : nat * list N * Tree => e.2) (placed p base A cs) = cs.
Proof.
  revert cs. induction A as [|item A IH]; intros [|c cs] Hlen base; try done.
  cbn [placed map snd]. f_equal. apply IH. cbn in Hlen. lia.
Qed.

Lemma queued_placed p d A : forall cs base stack,
  length A = length cs ->
  queued p d base A stack
  = map (fun e : nat * list N * Tree => (e.1.1, e.1.2, (d + 1)%Z))
      (rev (filter is_dir_entry (placed p base A cs))) ++ stack.
Proof.
  induction A as [|item A IH]; intros [|c cs] base stack Hlen; try done.
  cbn [queued placed]. rewrite filter_cons.
  rewrite (IH cs) by (cbn in Hlen; lia).
  destruct (decide (is_dir_entry (base, PosixPath.join p item, c))) as [Hd|Hd];
    unfold is_dir_entry in Hd; cbn [fst snd] in Hd.
  - rewrite Hd. cbn [rev]. rewrite map_app, <- app_assoc. reflexivity.
  - apply not_true_is_false in Hd. rewrite Hd. reflexivity.
Qed.

Lemma list_sum_filter_le {A : Type} (f : A -> nat) (Q : A -> Prop)
    `{forall x, Decision (Q x)} (l : list A) :
  list_sum (map f (filter Q l)) <= list_sum (map f l).
Proof.
  induction l as [|x l IH]; [done|]. rewrite filter_cons.
  destruct (decide (Q x)); simpl; lia.
Qed.

Lemma list_sum_rev {A : Type} (f : A -> nat) (l : list A) :
  list_sum (map f (rev l)) = list_sum (map f l).
Proof.
  induction l as [|x l IH]; [done|]. cbn [rev]. rewrite map_app, list_sum_app, IH.
  simpl. lia.
Qed.

Local Abbreviation walk_loop := (depth_loop os fnmatch) (only parsing).

(** A pass of the loop on a fresh directory node queued for [p] at depth
    [d] hangs the tree met from [p] below the node: nothing but the node
    and new objects is written. *)
Definition visit (T : Tree) : Prop :=
  forall node p d h nm,
    capped_snapshot os fnmatch root_path ignore_patterns folder_depth file_depth d p T ->
    h !! node = Some (mkTreeNode nm false [] (Some ∅)) ->
    exists k h',
      k <= size T
      /\ (forall fuel stack,
            walk_loop (k + fuel) root_path folder_depth file_depth ignore_patterns
              (h, (node, p, d) :: stack)
            = walk_loop fuel root_path folder_depth file_depth ignore_patterns (h', stack))
      /\ length h <= length h'
      /\ (forall x, x < length h -> x <> node -> h' !! x = h !! x)
      /\ tree_in h' (fun x => x = node \/ length h <= x) node (Entry nm false (t_children T)).

Definition locs_of (D : list (nat * list N * Tree)) : list nat :=
  map (fun e : nat * list N * Tree => e.1.1) D.

Lemma depth_pending D :
  Forall (fun e : nat * list N * Tree => visit e.2) D ->
  forall d h,
    Forall (fun e : nat * list N * Tree =>
              h !! e.1.1 = Some (mkTreeNode (t_name e.2) false [] (Some ∅))
              /\ capped_snapshot os fnmatch root_path ignore_patterns
                   folder_depth file_depth d e.1.2 e.2) D ->
    NoDup (locs_of D) ->
    exists k h',
      k <= list_sum (map (fun e : nat * list N * Tree => size e.2) D)
      /\ (forall fuel stack,
            walk_loop (k + fuel) root_path folder_depth file_depth ignore_patterns
              (h, map (fun e : nat * list N * Tree => (e.1.1, e.1.2, d)) D ++ stack)
            = walk_loop fuel root_path folder_depth file_depth ignore_patterns (h', stack))
      /\ length h <= length h'
      /\ (forall x, x < length h -> x ∉ locs_of D -> h' !! x = h !! x)
      /\ Forall (fun e : nat * list N * Tree =>
                   tree_in h' (fun x => x ∈ locs_of D \/ length h <= x) e.1.1 e.2) D.
Proof.
  induction 1 as [|[[l q] c] D Hc _ IH]; intros d h Hfresh Hnd.
  { exists 0, h. split; [done|]. split; [done|]. split; [done|]. split; [done|constructor]. }
  inversion Hfresh as [|? ? [Hl Hsnap] Hrest]; subst. cbn [fst snd] in *.
  cbn [locs_of map fst] in Hnd. apply NoDup_cons in Hnd as [Hnotin Hnd].
  fold (locs_of D) in Hnotin, Hnd.
  destruct (Hc l q d h (t_name c) Hsnap Hl) as (k1 & h1 & Hk1 & Hrun1 & Hlen1 & Hframe1 & Htree1).
  assert (Hbelow : Forall (fun x => x < length h) (locs_of D)).
  { apply Forall_forall. intros x Hx. apply list_elem_of_fmap in Hx as (e & -> & He).
    rewrite Forall_forall in Hrest. destruct (Hrest e He) as [Hle _].
    by eapply lookup_lt_Some. }
  destruct (IH d h1) as (k2 & h' & Hk2 & Hrun2 & Hlen2 & Hframe2 & Htree2); [|done|].
  { rewrite Forall_forall in Hrest. apply Forall_forall. intros e He.
    destruct (Hrest e He) as [Hle Hse]. split; [|done].
    rewrite Hframe1; [done|by eapply lookup_lt_Some|].
    intros E. apply Hnotin. rewrite <- E. apply list_elem_of_fmap. by exists e. }
  assert (Hc' : c = Entry (t_name c) false (t_children c)).
  { destruct c as [n lf cs]. cbn [capped_snapshot] in Hsnap. destruct Hsnap as [-> _]. done. }
  exists (k1 + k2), h'. split; [simpl; lia|]. split; [|split; [lia|split]].
  - intros fuel stack. cbn [map app fst snd]. by rewrite <- Nat.add_assoc, Hrun1, Hrun2.
  - intros x Hx Hout. cbn [locs_of map fst] in Hout. fold (locs_of D) in Hout.
    apply not_elem_of_cons in Hout as [Hne Hout].
    rewrite Hframe2 by (done || lia). by apply Hframe1.
  - constructor.
    + cbn [fst snd]. rewrite <- Hc' in Htree1.
      eapply (tree_in_mono _ (fun x => (x = l \/ length h <= x) /\ x < length h1)).
      { intros x [[->|Hx] _]; [left; by left|by right]. }
      eapply tree_in_agree; [|apply tree_in_bound; exact Htree1].
      intros x o [[->|Hx] Hlt] Hxo.
      * by rewrite Hframe2.
      * rewrite Hframe2; [done..|]. intros Hin. rewrite Forall_forall in Hbelow.
        specialize (Hbelow x Hin). lia.
    + eapply Forall_impl; [exact Htree2|]. intros e He.
      eapply tree_in_mono; [|exact He]. intros x [Hx|Hx]; [left; by right|right; lia].
Qed.

Lemma elem_of_rev_iff {A : Type} (l : list A) x : x ∈ rev l <-> x ∈ l.
Proof.
  split; intros H; apply list_elem_of_In; apply list_elem_of_In in H.
  - by apply (proj2 (in_rev l x)).
  - by apply (proj1 (in_rev l x)).
Qed.

Lemma NoDup_map_filter {A B : Type} (f : A -> B) (Q : A -> Prop)
    `{forall x, Decision (Q x)} (l : list A) :
  NoDup (map f l) -> NoDup (map f (filter Q l)).
Proof.
  induction l as [|x l IH]; [done|]. cbn [map]. intros Hnd.
  apply NoDup_cons in Hnd as [Hx Hnd]. rewrite filter_cons.
  destruct (decide (Q x)); [|by apply IH]. cbn [map]. apply NoDup_cons. split; [|by apply IH].
  intros Hin. apply Hx. apply list_elem_of_fmap in Hin as (y & -> & Hy).
  apply list_elem_of_filter in Hy as [_ Hy]. apply list_elem_of_fmap. by exists y.
Qed.

Lemma depth_tree T : visit T.
Proof.
  induction T as [n lf cs IH] using Tree_ind'.
  intros node p d h nm Hsnap Ho.
  apply capped_snapshot_unfold in Hsnap as [-> Hsnap]. cbn [t_children].
  set (o0 := mkTreeNode nm false [] (Some ∅)) in *.
  pose proof (lookup_lt_Some _ _ _ Ho) as Hnode.
  assert (Hskip : cs = [] ->
    (forall fuel stack,
       walk_loop (1 + fuel) root_path folder_depth file_depth ignore_patterns
         (h, (node, p, d) :: stack)
       = walk_loop fuel root_path folder_depth file_depth ignore_patterns (h, stack)) ->
    exists k h',
      k <= size (Entry n false cs)
      /\ (forall fuel stack,
            walk_loop (k + fuel) root_path folder_depth file_depth ignore_patterns
              (h, (node, p, d) :: stack)
            = walk_loop fuel root_path folder_depth file_depth ignore_patterns (h', stack))
      /\ length h <= length h'
      /\ (forall x, x < length h -> x <> node -> h' !! x = h !! x)
      /\ tree_in h' (fun x => x = node \/ length h <= x) node (Entry nm false cs)).
  { intros -> Hrun. exists 1, h. split; [cbn; lia|]. split; [exact Hrun|].
    split; [done|]. split; [done|].
    change (Entry nm false []) with (Entry (name o0) (is_leaf o0) []).
    constructor; [done|by left|constructor]. }
  destruct (negb (folder_depth =? 0)%Z && (folder_depth <? d)%Z) eqn:Hcap.
  { apply Hskip; [done|]. intros fuel stack. change (1 + fuel) with (S fuel).
    by rewrite depth_loop_S, Hcap. }
  destruct (os_listdir os p) as [items| |] eqn:Hlist; [| |done].
  2:{ apply Hskip; [done|]. intros fuel stack. change (1 + fuel) with (S fuel).
      by rewrite depth_loop_S, Hcap, Hlist. }
  clear Hskip.
  set (A := filter (fun item => admitted os fnmatch root_path ignore_patterns
                                 folder_depth file_depth p d item = true) items) in *.
  pose proof (Forall2_length _ _ _ Hsnap) as HlenA.
  set (PL := placed p (length h) A cs).
  set (h1 := <[node := adopt o0 (length h) (map (shallow p) A)]> h
             ++ flatten_forest (length h) (map (shallow p) A)).
  assert (Hlen1 : length h1 = length h + length A).
  { unfold h1. by rewrite length_app, length_insert, flatten_forest_shallow, length_map. }
  assert (Hold : forall x, x < length h -> x <> node -> h1 !! x = h !! x).
  { intros x Hx Hne. unfold h1. rewrite lookup_app_l by (by rewrite length_insert).
    by rewrite list_lookup_insert_ne. }
  assert (Hnode1 : h1 !! node = Some (adopt o0 (length h) (map (shallow p) A))).
  { unfold h1. rewrite lookup_app_l by (by rewrite length_insert).
    by rewrite list_lookup_insert_eq. }
  pose proof (placed_spec _ p A cs Hsnap (length h)) as Hspec. fold PL in Hspec.
  assert (Hnew : Forall (fun e : nat * list N * Tree =>
                   length h <= e.1.1 /\ e.1.1 < length h1
                   /\ h1 !! e.1.1 = Some (fresh_node p (t_name e.2))
                   /\ e.1.2 = PosixPath.join p (t_name e.2)
                   /\ e.2 ∈ cs
                   /\ entry_of os fnmatch root_path ignore_patterns folder_depth file_depth
                        p d (t_name e.2) e.2) PL).
  { eapply Forall_impl; [exact Hspec|].
    intros e (i & item & HA & Hcs & Hloc & Hpath & Hent).
    pose proof (lookup_lt_Some _ _ _ HA) as Hi.
    destruct Hent as [Hname Hent]. rewrite Hname.
    split; [lia|]. split; [lia|]. split; [|split; [done|split; [|by split]]].
    - unfold h1. rewrite Hloc, lookup_app_r by (rewrite length_insert; lia).
      rewrite length_insert. replace (length h + i - length h) with i by lia.
      by rewrite flatten_forest_shallow, list_lookup_fmap, HA.
    - apply list_elem_of_lookup. eauto. }
  assert (Htrees : map (fun e : nat * list N * Tree => e.2) PL = cs)
    by (by apply placed_trees).
  assert (Hlocs : NoDup (locs_of PL)).
  { unfold locs_of, PL. rewrite placed_locs by done. apply NoDup_seq. }
  set (D := rev (filter is_dir_entry PL)).
  assert (HD : forall e, e ∈ D <-> e ∈ PL /\ is_dir_entry e).
  { intros e. unfold D. rewrite elem_of_rev_iff, list_elem_of_filter. tauto. }
  rewrite Forall_forall in Hnew.
  destruct (depth_pending D) with (d := (d + 1)%Z) (h := h1)
    as (k2 & h' & Hk2 & Hrun2 & Hlen2 & Hframe2 & Htree2).
  { apply Forall_forall. intros e He. apply HD in He as [He _].
    rewrite Forall_forall in IH. apply IH. by apply Hnew. }
  { apply Forall_forall. intros e He. apply HD in He as [He Hdir].
    destruct (Hnew e He) as (_ & _ & Hobj & Hpath & _ & _ & Hent).
    unfold is_dir_entry in Hdir. rewrite Hpath in Hdir.
    rewrite Hdir in Hent. rewrite Hobj. unfold fresh_node. rewrite Hdir.
    split; [done|]. by rewrite Hpath. }
  { unfold D, locs_of. rewrite map_rev. apply NoDup_ListNoDup, NoDup_rev, NoDup_ListNoDup.
    by apply NoDup_map_filter. }
  assert (HDnew : forall x, x ∈ locs_of D -> length h <= x).
  { intros x Hx. apply list_elem_of_fmap in Hx as (e & -> & He). apply HD in He as [He _].
    by apply Hnew. }
  exists (S k2), h'. split.
  { cbn [size]. apply le_n_S. etransitivity; [exact Hk2|]. unfold D.
    rewrite list_sum_rev. etransitivity; [apply list_sum_filter_le|].
    rewrite <- Htrees. by rewrite map_map. }
  split.
  { intros fuel stack. cbn [Nat.add]. rewrite depth_loop_S, Hcap, Hlist.
    rewrite (depth_items_effect node p d items h o0 stack Ho) by (by eexists).
    cbn [bind]. fold A. fold h1. rewrite (queued_placed p d A cs) by done.
    fold PL. fold D. apply Hrun2. }
  split; [lia|]. split.
  { intros x Hx Hne. rewrite Hframe2; [by apply Hold|lia|].
    intros Hin. apply HDnew in Hin. lia. }
  assert (Hnode' : h' !! node = Some (adopt o0 (length h) (map (shallow p) A))).
  { rewrite Hframe2; [done|lia|]. intros Hin. apply HDnew in Hin. lia. }
  change (Entry nm false cs)
    with (Entry (name (adopt o0 (length h) (map (shallow p) A)))
                (is_leaf (adopt o0 (length h) (map (shallow p) A))) cs).
  constructor; [done|by left|].
  unfold adopt. cbn [children o0 app]. rewrite child_locs_shallow.
  rewrite <- (placed_locs p A cs HlenA (length h)). fold PL.
  rewrite <- Htrees.
  apply Forall2_fmap, Forall_Forall2_diag, Forall_forall. intros e He.
  destruct (Hnew e He) as (Hge & Hlt & Hobj & Hpath & _ & Hname & Hent).
  destruct (os_isdir os (PosixPath.join p (t_name e.2))) eqn:Hdir.
  - rewrite Forall_forall in Htree2.
    eapply tree_in_mono; [|apply Htree2; apply HD; split; [done|]].
    + intros x [Hx|Hx]; right; [by apply HDnew|lia].
    + unfold is_dir_entry. by rewrite Hpath.
  - rewrite Hent.
    assert (Hobj' : h' !! e.1.1 = Some (fresh_node p (t_name e.2))).
    { rewrite Hframe2; [done..|]. intros Hin.
      apply list_elem_of_fmap in Hin as (e' & Heq & He').
      apply HD in He' as [He' Hdir'].
      assert (e' = e) as ->.
      { unfold locs_of in Hlocs.
        apply list_elem_of_lookup in He as [i Hi]. apply list_elem_of_lookup in He' as [j Hj].
        assert (i = j) as ->; [|congruence].
        eapply (NoDup_lookup _ i j (e.1.1) Hlocs).
        - by rewrite list_lookup_fmap, Hi.
        - by rewrite list_lookup_fmap, Hj, Heq. }
      unfold is_dir_entry in Hdir'. rewrite Hpath in Hdir'. congruence. }
    change (Entry (t_name e.2) true [])
      with (Entry (name (fresh_node p (t_name e.2))) true []).
    replace true with (is_leaf (fresh_node p (t_name e.2))) at 1
      by (unfold fresh_node; cbn [is_leaf]; by rewrite Hdir).
    constructor; [done|by right|]. unfold fresh_node. cbn [children]. constructor.
Qed.

End DepthBuild.

(** ** The walk under caps and the caps of the encoders *)

Section WalkPrune.

Variable os : os_env.
Variable fnmatch : list N -> list N -> bool.
Variable root_path : list N.
Variable ignore_patterns : option (list (list N)).
Variable folder_depth file_depth : Z.

Lemma t_name_prune fd ld lvl T : t_name (prune fd ld lvl T) = t_name T.
Proof. by destruct T. Qed.

(** Under the caps the walk meets the tree the encoders keep of the whole
    tree. *)
Lemma snapshot_capped T : forall p d,
  (folder_depth = 0 \/ d <= folder_depth)%Z ->
  snapshot os fnmatch root_path ignore_patterns p T ->
  capped_snapshot os fnmatch root_path ignore_patterns folder_depth file_depth d p
    (prune folder_depth file_depth d T).
Proof.
  induction T as [n lf cs IH] using Tree_ind'. intros p d Hd Hsnap.
  apply snapshot_unfold in Hsnap as [-> Hsnap].
  rewrite prune_unfold. apply capped_snapshot_unfold. split; [done|].
  assert (negb (folder_depth =? 0)%Z && (folder_depth <? d)%Z = false) as ->.
  { destruct Hd as [->|Hd]; [done|]. apply andb_false_iff. right. lia. }
  destruct (os_listdir os p) as [items| |]; [|by subst cs|done].
  revert cs IH Hsnap. induction items as [|item items IHitems]; intros cs IH Hsnap.
  { cbn in Hsnap. inversion Hsnap; subst. constructor. }
  rewrite filter_cons in Hsnap. rewrite filter_cons.
  assert (Hadm : admitted os fnmatch root_path ignore_patterns folder_depth file_depth p d item
                 = kept os fnmatch root_path ignore_patterns p item
                   && if os_isdir os (PosixPath.join p item)
                      then negb (negb (folder_depth =? 0)%Z && (d =? folder_depth)%Z)
                      else negb (negb (file_depth =? 0)%Z && (file_depth <=? d)%Z))
    by reflexivity.
  destruct (decide (kept os fnmatch root_path ignore_patterns p item = true)) as [Hkept|Hkept].
  2:{ rewrite decide_False by (rewrite Hadm; by destruct (kept _ _ _ _ _ _)).
      by apply IHitems. }
  rewrite Hkept in Hadm. cbn [andb] in Hadm.
  inversion Hsnap as [|? c ? cs' [Hname Hent] Hrest]; subst.
  inversion IH as [|? ? IHc IHcs]; subst.
  unfold pruned_children. cbn [flat_map]. fold (pruned_children folder_depth file_depth (d + 1) cs').
  unfold within_caps.
  destruct (os_isdir os (PosixPath.join p (t_name c))) eqn:Hdir.
  - assert (Hlf : t_leaf c = false).
    { destruct c as [n' lf' cs'']. cbn [snapshot] in Hent. by destruct Hent as [-> _]. }
    rewrite Hlf.
    destruct ((folder_depth =? 0)%Z || (d + 1 <=? folder_depth)%Z) eqn:Hin.
    + rewrite decide_True.
      2:{ rewrite Hadm. apply negb_true_iff, andb_false_iff.
          apply orb_true_iff in Hin as [Hin|Hin]; [left; by rewrite Hin|right; lia]. }
      cbn [app]. constructor; [|by apply IHitems].
      split; [apply t_name_prune|]. rewrite Hdir. apply IHc; [|done].
      apply orb_true_iff in Hin as [Hin|Hin]; [left|right]; lia.
    + rewrite decide_False.
      2:{ rewrite Hadm. apply orb_false_iff in Hin as [H0 H1]. rewrite H0. cbn [negb andb].
          destruct Hd as [Hd|Hd]; [lia|].
          assert ((d =? folder_depth)%Z = true) as -> by lia. done. }
      cbn [app]. by apply IHitems.
  - destruct c as [nc lfc csc]. cbn [t_name] in *. injection Hent as -> ->. cbn [t_leaf].
    destruct ((file_depth =? 0)%Z || (d + 1 <=? file_depth)%Z) eqn:Hin.
    + rewrite decide_True.
      2:{ rewrite Hadm. apply negb_true_iff, andb_false_iff.
          apply orb_true_iff in Hin as [Hin|Hin]; [left; by rewrite Hin|right; lia]. }
      cbn [app]. constructor; [|by apply IHitems].
      split; [done|]. by rewrite Hdir.
    + rewrite decide_False.
      2:{ rewrite Hadm. apply orb_false_iff in Hin as [H0 H1]. rewrite H0. cbn [negb andb].
          assert ((file_depth <=? d)%Z = true) as -> by lia. done. }
      cbn [app]. by apply IHitems.
Qed.

End WalkPrune.

(** ** The two walks *)

Section Uncapped.

Variable os : os_env.
Variable fnmatch : list N -> list N -> bool.
Variable root_path : list N.
Variable ignore_patterns : option (list (list N)).

(** The stack of [_build_tree_with_depth] without its depths. *)
Definition untagged (stack : list (nat * list N * Z)) : list (nat * list N) :=
  map (fun e : nat * list N * Z => (e.1.1, e.1.2)) stack.

Lemma depth_item_uncapped node p d item h stack :
  build_item os fnmatch root_path ignore_patterns node p item (h, untagged stack)
  = (st <- depth_item os fnmatch root_path 0 0 ignore_patterns node p d item (h, stack);;
     Ok (st.1, untagged st.2)).
Proof.
  unfold build_item, depth_item.
  destruct (_should_ignore os fnmatch _ ignore_patterns); [done|].
  destruct (os_isdir os (PosixPath.join p item)); cbn [Z.eqb negb andb]; unfold Node.new;
    by destruct (Node.add_child _ _ _).
Qed.

Lemma for_items_uncapped node p d items : forall h stack,
  for_items (build_item os fnmatch root_path ignore_patterns node p) items (h, untagged stack)
  = (st <- for_items (depth_item os fnmatch root_path 0 0 ignore_patterns node p d)
             items (h, stack);;
     Ok (st.1, untagged st.2)).
Proof.
  induction items as [|item items IH]; intros h stack; [done|].
  cbn [for_items]. rewrite (depth_item_uncapped node p d).
  destruct (depth_item os fnmatch root_path 0 0 ignore_patterns node p d item (h, stack))
    as [[h1 stack1]| | |]; cbn [bind fst snd]; [apply IH|done..].
Qed.

Lemma build_loop_uncapped fuel : forall h stack,
  build_loop os fnmatch fuel root_path ignore_patterns (h, untagged stack)
  = depth_loop os fnmatch fuel root_path 0 0 ignore_patterns (h, stack).
Proof.
  induction fuel as [|fuel IH]; intros h [|[[node p] d] stack]; try done.
  rewrite depth_loop_S. cbn [untagged map build_loop fst snd Z.eqb negb andb].
  fold (untagged stack).
  destruct (os_listdir os p) as [items| |]; [|apply IH|done].
  rewrite (for_items_uncapped node p d).
  destruct (for_items _ items (h, stack)) as [[h1 stack1]| | |]; cbn [bind fst snd];
    [apply IH|done..].
Qed.

(** Every pattern list under which [*] stands last ignores every path. *)
Lemma star_ignores path :
  (forall x, fnmatch x STAR = true) ->
  _should_ignore os fnmatch path (Some [STAR]) = true.
Proof.
  intros Hstar. unfold _should_ignore.
  change (rev (default [] (Some [STAR]))) with [STAR]. cbn [scan_patterns].
  change (startswith STAR [BANG]) with false. cbn match. by rewrite Hstar.
Qed.

Lemma for_items_all_ignored current_node current_path items st :
  (forall x, fnmatch x STAR = true) ->
  for_items (build_item os fnmatch root_path (Some [STAR]) current_node current_path) items st
  = Ok st.
Proof.
  intros Hstar. induction items as [|item items IH]; [done|].
  cbn [for_items]. destruct st as [h stack]. unfold build_item at 1.
  rewrite star_ignores by done. cbn [bind]. exact IH.
Qed.

End Uncapped.

Section Built.

Variable os : os_env.
Variable fnmatch : list N -> list N -> bool.
Variable root_path : list N.
Variable ignore_patterns : option (list (list N)).

(** The walk under caps, started on a fresh root node. *)
Lemma depth_build_tree folder_depth file_depth T fuel h nm :
  snapshot os fnmatch root_path ignore_patterns root_path T ->
  (0 <= folder_depth)%Z -> size T <= fuel ->
  exists h',
    _build_tree_with_depth os fnmatch fuel (length h) root_path
      (folder_depth, file_depth) ignore_patterns
      (h ++ [mkTreeNode nm false [] (Some ∅)]) = Ok h'
    /\ length h < length h'
    /\ (forall x, x < length h -> h' !! x = h !! x)
    /\ tree_in h' (fun x => length h <= x) (length h)
         (Entry nm false (t_children (prune folder_depth file_depth 0 T))).
Proof.
  intros Hsnap Hfd Hfuel.
  pose proof (snapshot_capped os fnmatch root_path ignore_patterns folder_depth file_depth
                T root_path 0%Z (or_intror Hfd) Hsnap) as Hcap.
  destruct (depth_tree os fnmatch root_path ignore_patterns folder_depth file_depth
              (prune folder_depth file_depth 0 T) (length h) root_path 0%Z
              (h ++ [mkTreeNode nm false [] (Some ∅)]) nm Hcap)
    as (k & h' & Hk & Hrun & Hlen & Hframe & Htree).
  { by apply list_lookup_middle. }
  pose proof (size_prune_le folder_depth file_depth T 0) as Hsize.
  rewrite length_app in Hlen, Hframe. cbn [length] in Hlen, Hframe.
  exists h'. split; [|split; [lia|split]].
  - unfold _build_tree_with_depth. replace fuel with (k + (fuel - k)) by lia.
    rewrite Hrun. apply depth_loop_done.
  - intros x Hx. rewrite Hframe by lia. by apply lookup_app_l.
  - eapply tree_in_mono; [|exact Htree]. intros x [->|Hx]; [done|].
    rewrite length_app in Hx. lia.
Qed.

Lemma build_tree_tree T fuel h nm :
  snapshot os fnmatch root_path ignore_patterns root_path T -> size T <= fuel ->
  exists h',
    _build_tree os fnmatch fuel (length h) root_path ignore_patterns
      (h ++ [mkTreeNode nm false [] (Some ∅)]) = Ok h'
    /\ length h < length h'
    /\ (forall x, x < length h -> h' !! x = h !! x)
    /\ tree_in h' (fun x => length h <= x) (length h) (Entry nm false (t_children T)).
Proof.
  intros Hsnap Hfuel.
  destruct (depth_build_tree 0 0 T fuel h nm Hsnap) as (h' & Hrun & Hrest); [lia|done|].
  exists h'. rewrite prune_uncapped in Hrest. split; [|exact Hrest].
  rewrite <- Hrun. unfold _build_tree, _build_tree_with_depth.
  apply (build_loop_uncapped os fnmatch root_path ignore_patterns fuel _
           [(length h, root_path, 0%Z)]).
Qed.

Lemma tree_in_app h ext P T l :
  tree_in h P l T -> tree_in (h ++ ext) P l T.
Proof.
  intros Htree. eapply tree_in_agree; [|exact Htree].
  intros x o _ Hx. by apply lookup_app_l_Some.
Qed.

(** The empty tree [TrimmedTree] has [FileTree] make. *)
Lemma FileTree_init_star T fuel h :
  snapshot os fnmatch root_path ignore_patterns root_path T ->
  os_exists os root_path = true ->
  (forall x, fnmatch x STAR = true) -> 0 < fuel ->
  FileTree_init os fnmatch fuel root_path (Some [STAR]) h
  = Ok (mkFileTree root_path (Some (length h)),
        h ++ [mkTreeNode (PosixPath.basename root_path) false [] (Some ∅)]).
Proof.
  intros Hsnap Hex Hstar Hfuel. unfold FileTree_init. rewrite Hex. cbn [negb].
  unfold Node.new, _build_tree. destruct fuel as [|fuel]; [lia|].
  cbn [build_loop]. destruct T as [n lf cs]. cbn [snapshot] in Hsnap.
  destruct Hsnap as [_ Hsnap].
  destruct (os_listdir os root_path) as [items| |]; [| |done].
  - rewrite for_items_all_ignored by done. cbn [bind]. by destruct fuel.
  - by destruct fuel.
Qed.

End Built.

Section BuiltTrees.

Variable os : os_env.
Variable fnmatch : list N -> list N -> bool.
Variable root_path : list N.
Variable ignore_patterns : option (list (list N)).

Lemma FileTree_init_tree T fuel h :
  snapshot os fnmatch root_path ignore_patterns root_path T ->
  os_exists os root_path = true -> size T <= fuel ->
  exists h',
    FileTree_init os fnmatch fuel root_path ignore_patterns h
    = Ok (mkFileTree root_path (Some (length h)), h')
    /\ represents h' (length h) (Entry (PosixPath.basename root_path) false (t_children T))
    /\ (forall x, x < length h -> h' !! x = h !! x).
Proof.
  intros Hsnap Hex Hfuel.
  destruct (build_tree_tree os fnmatch root_path ignore_patterns T fuel h
              (PosixPath.basename root_path) Hsnap Hfuel) as (h' & Hrun & _ & Hframe & Htree).
  exists h'. split; [|split; [by eapply tree_in_represents|done]].
  unfold FileTree_init. rewrite Hex. cbn [negb]. unfold Node.new. by rewrite Hrun.
Qed.

Lemma TrimmedTree_tree folder_depth file_depth T fuel h :
  snapshot os fnmatch root_path ignore_patterns root_path T ->
  os_exists os root_path = true -> (0 <= folder_depth)%Z ->
  (forall x, fnmatch x STAR = true) -> size T <= fuel ->
  exists h',
    TrimmedTree os fnmatch fuel root_path (folder_depth, file_depth) ignore_patterns h
    = Ok (mkFileTree root_path (Some (length h)), h')
    /\ represents h' (length h)
         (Entry (PosixPath.basename root_path) false
            (t_children (prune folder_depth file_depth 0 T)))
    /\ (forall x, x < length h -> h' !! x = h !! x).
Proof.
  intros Hsnap Hex Hfd Hstar Hfuel.
  destruct (depth_build_tree os fnmatch root_path ignore_patterns folder_depth file_depth
              T fuel h (PosixPath.basename root_path) Hsnap Hfd Hfuel)
    as (h' & Hrun & Hlen & Hframe & Htree).
  exists (h' ++ [mkTreeNode (PosixPath.basename root_path) false [] (Some ∅)]).
  split; [|split].
  - unfold TrimmedTree, Node.new. rewrite Hrun. cbn [bind].
    rewrite (FileTree_init_star os fnmatch root_path ignore_patterns T fuel h') by
      (done || (pose proof (size_pos T); lia)).
    reflexivity.
  - eapply tree_in_represents, tree_in_app. exact Htree.
  - intros x Hx. rewrite lookup_app_l by lia. by apply Hframe.
Qed.

End BuiltTrees.

(** root/{a/{b.txt}, c.txt} on disk. *)
Definition os_example : os_env :=
  {| os_exists := fun p => bool_decide (p = py "root");
     os_isdir := fun p => bool_decide (p = py "root/a");
     os_listdir := fun p =>
       if bool_decide (p = py "root") then Entries [py "a"; py "c.txt"]
       else if bool_decide (p = py "root/a") then Entries [py "b.txt"]
       else ListingFails;
     os_relpath := fun p start => drop (S (length start)) p |}.

Lemma snapshot_example : snapshot os_example fnmatchcase (py "root") None (py "root") T_example.
Proof. vm_compute. repeat split. Qed.

Lemma glob_star s : fnmatchcase s STAR = true.
Proof.
  unfold fnmatchcase. induction s as [|c s IH]; [done|].
  change (glob STAR (c :: s)) with (glob [] (c :: s) || glob STAR s). by rewrite IH.
Qed.

(** C7: the depth-bounded walk with caps [(folder_depth, file_depth)],
    [0] meaning no cap.  When the walk without caps meets the tree [T], the
    walk under the caps returns and hangs under the root node the tree
    [prune folder_depth file_depth 0 T]: of the entries that are not
    ignored, a directory met while the current folder depth equals a
    non-zero [folder_depth] is passed over, no node being made for it and
    nothing being queued, and a file met while the current folder depth is
    at least a non-zero [file_depth] is passed over; every other entry is
    attached, a directory being queued one level deeper.  So the tree built
    holds no directory at a level above a non-zero [folder_depth] and no
    file at a level above a non-zero [file_depth], no directory beyond the
    cap is ever in the queue, and each cap is read for its own kind of
    entry only.  [TrimmedTree] returns that tree. *)
Theorem depth_bounded_walk (os : os_env) (fnmatch : list N -> list N -> bool)
    (root_path : list N) (folder_depth file_depth : Z)
    (ignore_patterns : option (list (list N)))
    (T : Tree) (fuel : nat) (h : list TreeNode) (nm : list N) :
  snapshot os fnmatch root_path ignore_patterns root_path T ->
  (0 <= folder_depth)%Z -> size T <= fuel ->
  (exists h',
     _build_tree_with_depth os fnmatch fuel (length h) root_path
       (folder_depth, file_depth) ignore_patterns
       (h ++ [mkTreeNode nm false [] (Some ∅)]) = Ok h'
     /\ represents h' (length h)
          (Entry nm false (t_children (prune folder_depth file_depth 0 T)))
     /\ (forall x, x < length h -> h' !! x = h !! x))
  /\ capped_snapshot os fnmatch root_path ignore_patterns folder_depth file_depth 0
       root_path (prune folder_depth file_depth 0 T)
  /\ (forall lvl M, (lvl, M) ∈ nodes_at 0 (prune folder_depth file_depth 0 T) ->
        (t_leaf M = false -> (0 < folder_depth)%Z -> (lvl <= folder_depth)%Z)
        /\ (t_leaf M = true -> (0 < file_depth)%Z -> (lvl <= file_depth)%Z))
  /\ (os_exists os root_path = true -> (forall x, fnmatch x STAR = true) ->
      exists h',
        TrimmedTree os fnmatch fuel root_path (folder_depth, file_depth) ignore_patterns h
        = Ok (mkFileTree root_path (Some (length h)), h')
        /\ represents h' (length h)
             (Entry (PosixPath.basename root_path) false
                (t_children (prune folder_depth file_depth 0 T))))
  /\ (forall current_node current_path current_folder_depth item hx stack,
        let item_path := PosixPath.join current_path item in
        let run := depth_item os fnmatch root_path folder_depth file_depth ignore_patterns
                     current_node current_path current_folder_depth item (hx, stack) in
        _should_ignore os fnmatch (os_relpath os item_path root_path) ignore_patterns = false ->
        (os_isdir os item_path = true ->
           (folder_depth <> 0%Z /\ current_folder_depth = folder_depth ->
            run = Ok (hx, stack))
           /\ (folder_depth = 0%Z \/ current_folder_depth <> folder_depth ->
               run = (h' <- Node.add_child current_node (length hx)
                              (hx ++ [mkTreeNode item false [] (Some ∅)]);;
                      Ok (h', (length hx, item_path, (current_folder_depth + 1)%Z) :: stack))))
        /\ (os_isdir os item_path = false ->
           (file_depth <> 0%Z /\ (file_depth <= current_folder_depth)%Z ->
            run = Ok (hx, stack))
           /\ (file_depth = 0%Z \/ (current_folder_depth < file_depth)%Z ->
               run = (h' <- Node.add_child current_node (length hx)
                              (hx ++ [mkTreeNode item true [] None]);;
                      Ok (h', stack)))))
  /\ (forall root_node fuel' hx h',
        _build_tree_with_depth os fnmatch fuel' root_node root_path
          (folder_depth, file_depth) ignore_patterns hx = Ok h' ->
        walk_reaches os fnmatch root_path folder_depth file_depth ignore_patterns
          (hx, [(root_node, root_path, 0%Z)]) (h', [])
        /\ forall st,
             walk_reaches os fnmatch root_path folder_depth file_depth ignore_patterns
               (hx, [(root_node, root_path, 0%Z)]) st ->
             Forall (fun e : nat * list N * Z =>
                       (0 < folder_depth)%Z -> (e.2 <= folder_depth)%Z) st.2).
Proof.
  intros Hsnap Hfd Hfuel.
  split.
  { destruct (depth_build_tree os fnmatch root_path ignore_patterns folder_depth file_depth
                T fuel h nm Hsnap Hfd Hfuel) as (h' & Hrun & _ & Hframe & Htree).
    exists h'. split; [exact Hrun|]. split; [|exact Hframe].
    eapply tree_in_represents. exact Htree. }
  split.
  { apply snapshot_capped; [by right|done]. }
  split.
  { intros lvl M Hin.
    assert (Hw : within_caps folder_depth file_depth lvl M = true).
    { eapply nodes_at_prune_within; [|exact Hin].
      destruct T as [n lf cs]. apply snapshot_unfold in Hsnap as [-> _].
      unfold within_caps. cbn [t_leaf]. apply orb_true_iff. right. by apply Z.leb_le. }
    unfold within_caps in Hw. split; intros Hlf Hcap; rewrite Hlf in Hw;
      apply orb_true_iff in Hw as [Hw|Hw];
      first [apply Z.eqb_eq in Hw; lia | by apply Z.leb_le in Hw]. }
  split.
  { intros Hex Hstar.
    destruct (TrimmedTree_tree os fnmatch root_path ignore_patterns folder_depth file_depth
                T fuel h Hsnap Hex Hfd Hstar Hfuel) as (h' & Hrun & Hrep & _).
    by exists h'. }
  split.
  { intros current_node current_path current_folder_depth item hx stack item_path run Hkeep.
    subst run. unfold depth_item. fold item_path. rewrite Hkeep. split.
    - intros ->. split.
      + intros [Hne ->]. apply Z.eqb_neq in Hne. by rewrite Hne, Z.eqb_refl.
      + intros Hcase.
        assert (negb (folder_depth =? 0)%Z && (current_folder_depth =? folder_depth)%Z = false)
          as ->; [|done].
        destruct Hcase as [->|Hne]; [done|].
        apply andb_false_iff. right. by apply Z.eqb_neq.
    - intros ->. split.
      + intros [Hne Hle]. apply Z.eqb_neq in Hne. apply Z.leb_le in Hle.
        by rewrite Hne, Hle.
      + intros Hcase.
        assert (negb (file_depth =? 0)%Z && (file_depth <=? current_folder_depth)%Z = false)
          as ->; [|done].
        destruct Hcase as [->|Hlt]; [done|].
        apply andb_false_iff. right. apply Z.leb_gt. done. }
  intros root_node fuel' hx h' Hrun. unfold _build_tree_with_depth in Hrun.
  split; [by eapply depth_loop_reaches|].
  intros st Hreach.
  assert (Hq : queue_within_cap folder_depth st).
  { eapply walk_reaches_queue; [exact Hreach|].
    constructor; [|constructor]. cbn [snd]. split; [done|]. intros _. done. }
  eapply Forall_impl; [exact Hq|]. intros e [_ He] Hpos. apply He. lia.
Qed.

Lemma depth_bounded_walk_witness :
  exists h',
    _build_tree_with_depth os_example fnmatchcase 4 (length (@nil TreeNode)) (py "root")
      (1%Z, 1%Z) None ([] ++ [mkTreeNode (py "root") false [] (Some ∅)]) = Ok h'
    /\ represents h' (length (@nil TreeNode))
         (Entry (py "root") false (t_children (prune 1 1 0 T_example)))
    /\ (forall x, x < length (@nil TreeNode) -> h' !! x = @nil TreeNode !! x).
Proof.
  refine (proj1 (depth_bounded_walk os_example fnmatchcase (py "root") 1 1 None
                   T_example 4 [] (py "root") _ _ _)).
  - exact snapshot_example.
  - lia.
  - vm_compute. lia.
Defined.

(** X1: when the walk of [root_path] meets the tree [T], [FileTree(root_path,
    ignore)] returns a tree whose root carries the base name of the path
    and whose children are those of [T], in the order of the listings; the
    objects the store held before are left as they were. *)
Theorem FileTree_init_builds_snapshot (os : os_env) (fnmatch : list N -> list N -> bool)
    (root_path : list N) (ignore : option (list (list N))) (T : Tree) (fuel : nat)
    (h : list TreeNode) :
  snapshot os fnmatch root_path ignore root_path T ->
  os_exists os root_path = true -> size T <= fuel ->
  exists h',
    FileTree_init os fnmatch fuel root_path ignore h
    = Ok (mkFileTree root_path (Some (length h)), h')
    /\ represents h' (length h) (Entry (PosixPath.basename root_path) false (t_children T))
    /\ (forall x, x < length h -> h' !! x = h !! x).
Proof.
  intros Hsnap Hex Hfuel.
  destruct (build_tree_tree os fnmatch root_path ignore T fuel h
              (PosixPath.basename root_path) Hsnap Hfuel) as (h' & Hrun & _ & Hframe & Htree).
  exists h'. split; [|split].
  - unfold FileTree_init. rewrite Hex. cbn [negb]. unfold Node.new. by rewrite Hrun.
  - eapply tree_in_represents. exact Htree.
  - exact Hframe.
Qed.

Lemma FileTree_init_builds_snapshot_witness :
  exists h',
    FileTree_init os_example fnmatchcase 4 (py "root") None []
    = Ok (mkFileTree (py "root") (Some 0), h')
    /\ represents h' 0 (Entry (PosixPath.basename (py "root")) false (t_children T_example))
    /\ (forall x, x < 0 -> h' !! x = @nil TreeNode !! x).
Proof.
  apply (FileTree_init_builds_snapshot os_example fnmatchcase (py "root") None T_example 4 []).
  - exact snapshot_example.
  - reflexivity.
  - vm_compute. lia.
Defined.

(** X2: [TrimmedTree(root_path, (fd, ld), ignore)] with [fd >= 0] returns
    the tree of the whole walk cut as the encoders cut it under the same
    caps: a directory stays when its level is at most [fd], a file when its
    level is at most [ld], [0] capping nothing. *)
Theorem TrimmedTree_builds_pruned (os : os_env) (fnmatch : list N -> list N -> bool)
    (root_path : list N) (ignore : option (list (list N))) (folder_depth file_depth : Z)
    (T : Tree) (fuel : nat) (h : list TreeNode) :
  snapshot os fnmatch root_path ignore root_path T ->
  os_exists os root_path = true -> (0 <= folder_depth)%Z ->
  (forall x, fnmatch x STAR = true) -> size T <= fuel ->
  exists h',
    TrimmedTree os fnmatch fuel root_path (folder_depth, file_depth) ignore h
    = Ok (mkFileTree root_path (Some (length h)), h')
    /\ represents h' (length h)
         (Entry (PosixPath.basename root_path) false
            (t_children (prune folder_depth file_depth 0 T)))
    /\ (forall x, x < length h -> h' !! x = h !! x).
Proof.
  intros Hsnap Hex Hfd Hstar Hfuel.
  destruct (depth_build_tree os fnmatch root_path ignore folder_depth file_depth
              T fuel h (PosixPath.basename root_path) Hsnap Hfd Hfuel)
    as (h' & Hrun & Hlen & Hframe & Htree).
  exists (h' ++ [mkTreeNode (PosixPath.basename root_path) false [] (Some ∅)]).
  split; [|split].
  - unfold TrimmedTree, Node.new. rewrite Hrun. cbn [bind].
    rewrite (FileTree_init_star os fnmatch root_path ignore T fuel h') by
      (done || (pose proof (size_pos T); lia)).
    reflexivity.
  - eapply tree_in_represents, tree_in_app. exact Htree.
  - intros x Hx. rewrite lookup_app_l by lia. by apply Hframe.
Qed.

Lemma TrimmedTree_builds_pruned_witness :
  exists h',
    TrimmedTree os_example fnmatchcase 4 (py "root") (1%Z, 1%Z) None []
    = Ok (mkFileTree (py "root") (Some 0), h')
    /\ represents h' 0
         (Entry (PosixPath.basename (py "root")) false (t_children (prune 1 1 0 T_example)))
    /\ (forall x, x < 0 -> h' !! x = @nil TreeNode !! x).
Proof.
  apply (TrimmedTree_builds_pruned os_example fnmatchcase (py "root") None 1 1 T_example 4 []).
  - exact snapshot_example.
  - reflexivity.
  - lia.
  - apply glob_star.
  - vm_compute. lia.
Defined.

(** X3: with both caps [0] the depth-bounded walk does what the unbounded
    walk does, whatever the file system and the patterns: the two leave the
    same store, or fail alike. *)
Theorem uncapped_walks_agree (os : os_env) (fnmatch : list N -> list N -> bool)
    (fuel : nat) (root_node : nat) (root_path : list N)
    (ignore : option (list (list N))) (h : list TreeNode) :
  _build_tree_with_depth os fnmatch fuel root_node root_path (0%Z, 0%Z) ignore h
  = _build_tree os fnmatch fuel root_node root_path ignore h.
Proof.
  unfold _build_tree, _build_tree_with_depth. symmetry.
  apply (build_loop_uncapped os fnmatch root_path ignore fuel h [(root_node, root_path, 0%Z)]).
Qed.

(** X4: listing or drawing the tree of [FileTree(root_path)] under the caps
    [(fd, ld)] gives the text that listing or drawing the tree of
    [TrimmedTree(root_path, (fd, ld))] gives with no cap. *)
Theorem capped_text_of_whole_tree (os : os_env) (fnmatch : list N -> list N -> bool)
    (root_path : list N) (ignore : option (list (list N))) (folder_depth file_depth : Z)
    (T : Tree) (fuel : nat) (h : list TreeNode) :
  snapshot os fnmatch root_path ignore root_path T ->
  os_exists os root_path = true -> (0 <= folder_depth)%Z -> (0 <= file_depth)%Z ->
  (forall x, fnmatch x STAR = true) -> size T <= fuel ->
  exists whole h1 trimmed h2 listing diagram,
    FileTree_init os fnmatch fuel root_path ignore h = Ok (mkFileTree root_path (Some whole), h1)
    /\ TrimmedTree os fnmatch fuel root_path (folder_depth, file_depth) ignore h
       = Ok (mkFileTree root_path (Some trimmed), h2)
    /\ Node.to_repr fuel h1 whole 0 (folder_depth, file_depth) = Ok listing
    /\ Node.to_repr fuel h2 trimmed 0 (0%Z, 0%Z) = Ok listing
    /\ Node.to_md fuel h1 whole 0 false [] (folder_depth, file_depth) = Ok diagram
    /\ Node.to_md fuel h2 trimmed 0 false [] (0%Z, 0%Z) = Ok diagram.
Proof.
  intros Hsnap Hex Hfd Hld Hstar Hfuel.
  destruct (FileTree_init_tree os fnmatch root_path ignore T fuel h Hsnap Hex Hfuel)
    as (h1 & Hrun1 & Hrep1 & _).
  destruct (TrimmedTree_tree os fnmatch root_path ignore folder_depth file_depth T fuel h
              Hsnap Hex Hfd Hstar Hfuel) as (h2 & Hrun2 & Hrep2 & _).
  set (T1 := Entry (PosixPath.basename root_path) false (t_children T)) in *.
  set (T2 := Entry (PosixPath.basename root_path) false
               (t_children (prune folder_depth file_depth 0 T))) in *.
  assert (Hcut : prune folder_depth file_depth 0 T1 = T2) by (by destruct T).
  assert (Hs1 : size T1 <= fuel) by (by destruct T).
  assert (Hs2 : size T2 <= fuel).
  { rewrite <- Hcut. etransitivity; [apply size_prune_le|done]. }
  exists (length h), h1, (length h), h2, (repr_text 0 T2), (md_text [] false 0 false [] T2).
  split; [done|]. split; [done|].
  rewrite (to_repr_text h1 (length h) T1), (to_repr_text h2 (length h) T2) by (done || lia).
  rewrite (to_md_text h1 (length h) T1), (to_md_text h2 (length h) T2) by (done || lia).
  by rewrite Hcut, prune_uncapped.
Qed.

Lemma capped_text_of_whole_tree_witness :
  exists whole h1 trimmed h2 listing diagram,
    FileTree_init os_example fnmatchcase 4 (py "root") None []
    = Ok (mkFileTree (py "root") (Some whole), h1)
    /\ TrimmedTree os_example fnmatchcase 4 (py "root") (1%Z, 1%Z) None []
       = Ok (mkFileTree (py "root") (Some trimmed), h2)
    /\ Node.to_repr 4 h1 whole 0 (1%Z, 1%Z) = Ok listing
    /\ Node.to_repr 4 h2 trimmed 0 (0%Z, 0%Z) = Ok listing
    /\ Node.to_md 4 h1 whole 0 false [] (1%Z, 1%Z) = Ok diagram
    /\ Node.to_md 4 h2 trimmed 0 false [] (0%Z, 0%Z) = Ok diagram.
Proof.
  apply (capped_text_of_whole_tree os_example fnmatchcase (py "root") None 1 1 T_example 4 []).
  - exact snapshot_example.
  - reflexivity.
  - lia.
  - lia.
  - apply glob_star.
  - vm_compute. lia.
Defined.

(** * The text decoders on any text *)

(** While a text is decoded: the stack is not empty and holds directories
    made since the call, the objects made before the call are as they were
    in [h0], and the root made for the first line keeps its name and tag. *)
Definition decoding (n0 : nat) (h0 : list TreeNode) (rn : list N)
    (st : list TreeNode * list nat) : Prop :=
  st.2 <> []
  /\ Forall (fun l => n0 <= l /\ exists o, st.1 !! l = Some o /\ is_Some (non_leaf_names o)) st.2
  /\ (forall x, x < n0 -> st.1 !! x = h0 !! x)
  /\ (exists o, st.1 !! n0 = Some o /\ name o = rn /\ is_leaf o = false).

Lemma attach_total n0 h0 rn nm lf level st :
  decoding n0 h0 rn st ->
  exists st', Node.attach nm lf level st = Ok st'
              /\ decoding n0 h0 rn st' /\ length st'.1 = S (length st.1).
Proof.
  destruct st as [h stack]. intros (Hne & Hstack & Hframe & (ro & Hro & Hrn & Hrl)).
  cbn [fst snd] in *. unfold Node.attach, Node.new.
  rewrite pop_to_level_take by done.
  destruct (last (take (S level) stack)) as [p|] eqn:Hlast.
  2:{ apply last_None in Hlast. destruct stack; [done|discriminate Hlast]. }
  cbn [bind].
  assert (Hsub : forall l, l ∈ take (S level) stack -> l ∈ stack).
  { intros l Hl. apply list_elem_of_lookup in Hl as [i Hi].
    apply lookup_take_Some in Hi as [Hi _]. apply list_elem_of_lookup. eauto. }
  rewrite Forall_forall in Hstack.
  assert (Hp : p ∈ stack).
  { apply Hsub. apply last_Some in Hlast as [front ->]. set_solver. }
  destruct (Hstack p Hp) as (Hpn & op & Hop & Hnames).
  pose proof (lookup_lt_Some _ _ _ Hop) as Hplt.
  pose proof (lookup_lt_Some _ _ _ Hro) as Hrlt.
  rewrite (new_add_child h p op nm lf Hop Hnames). cbn [bind].
  eexists. split; [reflexivity|]. cbn [fst snd].
  split; [|by cbn [fst]; rewrite length_app, length_insert; cbn; lia].
  assert (Hkeep : forall l o, l <> p -> h !! l = Some o ->
            (<[p := adopt op (length h) [Entry nm lf []]]> h
             ++ [mkTreeNode nm lf [] (if lf then None else Some ∅)]) !! l = Some o).
  { intros l o Hl Hlo. rewrite lookup_app_l by (rewrite length_insert; by eapply lookup_lt_Some).
    by rewrite list_lookup_insert_ne. }
  assert (Hat : (<[p := adopt op (length h) [Entry nm lf []]]> h
                 ++ [mkTreeNode nm lf [] (if lf then None else Some ∅)]) !! p
                = Some (adopt op (length h) [Entry nm lf []])).
  { rewrite lookup_app_l by (by rewrite length_insert). by rewrite list_lookup_insert_eq. }
  assert (Hold : Forall (fun l => n0 <= l /\ exists o,
                   (<[p := adopt op (length h) [Entry nm lf []]]> h
                    ++ [mkTreeNode nm lf [] (if lf then None else Some ∅)]) !! l = Some o
                   /\ is_Some (non_leaf_names o)) (take (S level) stack)).
  { apply Forall_forall. intros l Hl. destruct (Hstack l (Hsub l Hl)) as (Hln & o & Hlo & Hnl).
    split; [done|]. destruct (decide (l = p)) as [->|Hlp].
    - eexists. split; [exact Hat|]. unfold adopt. cbn [non_leaf_names].
      destruct Hnames as [s ->]. eauto.
    - exists o. split; [by apply Hkeep|done]. }
  split; [|split; [|split]].
  - destruct lf; cbn [negb fst snd]; [|by destruct (take (S level) stack)].
    intros E. rewrite E in Hlast. discriminate Hlast.
  - destruct lf; cbn [negb fst snd]; [exact Hold|].
    apply Forall_app. split; [exact Hold|]. constructor; [|constructor].
    split; [lia|]. eexists. split; [by apply list_lookup_middle; rewrite length_insert|].
    by eexists.
  - cbn [fst]. intros x Hx. rewrite lookup_app_l by (rewrite length_insert; lia).
    rewrite list_lookup_insert_ne by lia. by apply Hframe.
  - cbn [fst]. destruct (decide (n0 = p)) as [->|Hnp].
    + eexists. split; [exact Hat|]. rewrite Hop in Hro. injection Hro as <-. done.
    + exists ro. split; [by apply Hkeep|done].
Qed.

Lemma for_lines_total n0 h0 rn body lines :
  (forall line st, exists nm lf level, body line st = Node.attach nm lf level st) ->
  forall st, decoding n0 h0 rn st ->
  exists st', Node.for_lines body lines st = Ok st'
              /\ decoding n0 h0 rn st' /\ length st'.1 = length st.1 + length lines.
Proof.
  intros Hbody. induction lines as [|line lines IH]; intros st Hst.
  { exists st. split; [done|]. split; [done|]. cbn. lia. }
  destruct (Hbody line st) as (nm & lf & level & Hline).
  destruct (attach_total n0 h0 rn nm lf level st Hst) as (st1 & Hrun1 & Hst1 & Hlen1).
  destruct (IH st1 Hst1) as (st' & Hrun & Hst' & Hlen).
  exists st'. split; [|split; [done|]].
  - cbn [Node.for_lines]. rewrite Hline, Hrun1. cbn [bind]. exact Hrun.
  - rewrite Hlen, Hlen1. cbn [length]. lia.
Qed.

Lemma decoding_start h rn :
  decoding (length h) h rn (h ++ [mkTreeNode rn false [] (Some ∅)], [length h]).
Proof.
  split; [done|]. split; [|split].
  - constructor; [|constructor]. split; [done|]. eexists.
    split; [by apply list_lookup_middle|by eexists].
  - intros x Hx. by apply lookup_app_l.
  - eexists. split; [by apply list_lookup_middle|done].
Qed.

(** X5: [from_repr] and [from_md] raise on no text.  A text that is blank
    once stripped gives [None] and leaves the store alone; any other text
    gives a root, a directory named after the first line with every [/]
    removed, and one new node for each line, whatever the lines hold; the
    objects that were in the store are left as they were. *)
Theorem text_decoders_total (s : list N) (h : list TreeNode) :
  (splitlines (strip s) = [] ->
   Node.from_repr s h = Ok (None, h) /\ Node.from_md s h = Ok (None, h))
  /\ (forall line0 lines, splitlines (strip s) = line0 :: lines ->
      forall decoder, decoder = Node.from_repr \/ decoder = Node.from_md ->
      exists h' o,
        decoder s h = Ok (Some (length h), h')
        /\ length h' = length h + S (length lines)
        /\ (forall x, x < length h -> h' !! x = h !! x)
        /\ h' !! length h = Some o
        /\ name o = replace (strip line0) [SLASH] [] /\ is_leaf o = false).
Proof.
  split.
  { intros Hblank. unfold Node.from_repr, Node.from_md. by rewrite Hblank. }
  intros line0 lines Hlines decoder Hdec.
  set (rn := replace (strip line0) [SLASH] []).
  assert (Hrun : exists body,
    (forall line st, exists nm lf level, body line st = Node.attach nm lf level st)
    /\ decoder s h
       = (st <- Node.for_lines body lines (h ++ [mkTreeNode rn false [] (Some ∅)], [length h]);;
          Ok (Some (length h), st.1))).
  { destruct Hdec as [->| ->].
    - exists Node.from_repr_line. split.
      + intros line st. unfold Node.from_repr_line. by eexists _, _, _.
      + unfold Node.from_repr. by rewrite Hlines.
    - exists Node.from_md_line. split.
      + intros line st. unfold Node.from_md_line. by eexists _, _, _.
      + unfold Node.from_md. by rewrite Hlines. }
  destruct Hrun as (body & Hbody & ->).
  destruct (for_lines_total (length h) h rn body lines Hbody _ (decoding_start h rn))
    as ([h' stack'] & Hrun & (_ & _ & Hframe & (o & Ho & Hn & Hl)) & Hlen).
  cbn [fst snd] in *. exists h', o. rewrite Hrun. cbn [bind fst].
  rewrite length_app in Hlen. cbn [length] in Hlen.
  repeat split; try done. lia.
Qed.

(** * What a call leaves alone *)

(** [kept_below n0 h0 h]: the objects of [h0] below [n0] are in [h] as they
    were. *)
Definition kept_below (n0 : nat) (h0 h : list TreeNode) : Prop :=
  n0 <= length h /\ forall x, x < n0 -> h !! x = h0 !! x.

Lemma kept_below_refl h : kept_below (length h) h h.
Proof. split; done. Qed.

Lemma kept_below_new n0 h0 h nm lf :
  kept_below n0 h0 h -> kept_below n0 h0 (Node.new nm lf h).2.
Proof.
  intros [Hlen Hsame]. cbn [Node.new snd]. split.
  - rewrite length_app. lia.
  - intros x Hx. rewrite lookup_app_l by lia. by apply Hsame.
Qed.

Lemma kept_below_add_child n0 h0 h p c h' :
  kept_below n0 h0 h -> n0 <= p -> Node.add_child p c h = Ok h' -> kept_below n0 h0 h'.
Proof.
  intros [Hlen Hsame] Hp Hrun. unfold Node.add_child in Hrun.
  do 2 bind_inv Hrun.
  assert (forall o, kept_below n0 h0 (<[p := o]> h)) as Hins.
  { intros o. split; [by rewrite length_insert|].
    intros x Hx. rewrite list_lookup_insert_ne by lia. by apply Hsame. }
  destruct (is_leaf a0); [injection Hrun as <-; apply Hins|].
  destruct (non_leaf_names a); [|done]. injection Hrun as <-. apply Hins.
Qed.

Lemma represents_kept h h' T :
  kept_below (length h) h h' -> forall l, represents h l T -> represents h' l T.
Proof.
  intros [_ Hsame]. induction T as [n lf cs IH] using Tree_ind'. intros l Hrep.
  inversion Hrep as [l' o cs' Ho Hcs]; subst.
  constructor; [rewrite Hsame; [done|by eapply lookup_lt_Some]|].
  eapply Forall2_Forall_r; [exact IH|exact Hcs|]. intros a b Hb Hab. by apply Hb.
Qed.

Section Frames.

Variable os : os_env.
Variable fnmatch : list N -> list N -> bool.

(** During a walk the stack names nodes made since the call. *)
Definition walking {E : Type} (loc_of : E -> nat) (n0 : nat) (h0 : list TreeNode)
    (st : list TreeNode * list E) : Prop :=
  kept_below n0 h0 st.1 /\ Forall (fun e => n0 <= loc_of e) st.2.

Lemma walking_build_item n0 h0 root_path ignore current_node current_path item st st' :
  n0 <= current_node ->
  walking fst n0 h0 st ->
  build_item os fnmatch root_path ignore current_node current_path item st = Ok st' ->
  walking fst n0 h0 st'.
Proof.
  destruct st as [h stack]. intros Hnode [Hkept Hstack] Hrun. unfold build_item in Hrun.
  cbn [fst snd] in *.
  destruct (_should_ignore _ _ _ _); [by injection Hrun as <-|].
  pose proof (proj1 Hkept) as Hlen.
  destruct (os_isdir os _); unfold Node.new in Hrun; bind_inv Hrun; injection Hrun as <-;
    (split; cbn [fst snd];
     [exact (kept_below_add_child n0 h0 _ current_node _ _
               (kept_below_new _ _ _ item _ Hkept) Hnode Hstep)|]).
  - constructor; [cbn; lia|done].
  - done.
Qed.

Lemma walking_build_loop n0 h0 root_path ignore fuel :
  forall st h', walking fst n0 h0 st ->
  build_loop os fnmatch fuel root_path ignore st = Ok h' -> kept_below n0 h0 h'.
Proof.
  induction fuel as [|fuel IH]; intros [h stack] h' Hw Hrun.
  - destruct stack as [|[node path] stack]; [|done]. injection Hrun as <-. apply Hw.
  - destruct stack as [|[node path] stack]; [injection Hrun as <-; apply Hw|].
    destruct Hw as [Hkept Hstack]. cbn [fst snd] in *.
    inversion Hstack as [|? ? Hnode Hrest]; subst. cbn [fst] in Hnode.
    cbn [build_loop] in Hrun. destruct (os_listdir os path) as [items| |]; [| |done].
    + bind_inv Hrun. eapply IH; [|exact Hrun].
      refine (for_items_inv (walking fst n0 h0) _ _ _ (h, stack) _ _ Hstep).
      * intros. eapply walking_build_item; eassumption.
      * by split.
    + eapply IH; [|exact Hrun]. by split.
Qed.

Lemma walking_depth_item n0 h0 root_path fd ld ignore current_node current_path cfd item st st' :
  n0 <= current_node ->
  walking (fun e : nat * list N * Z => e.1.1) n0 h0 st ->
  depth_item os fnmatch root_path fd ld ignore current_node current_path cfd item st = Ok st' ->
  walking (fun e : nat * list N * Z => e.1.1) n0 h0 st'.
Proof.
  destruct st as [h stack]. intros Hnode [Hkept Hstack] Hrun. unfold depth_item in Hrun.
  cbn [fst snd] in *.
  destruct (_should_ignore _ _ _ _); [by injection Hrun as <-|].
  pose proof (proj1 Hkept) as Hlen.
  destruct (os_isdir os _); (destruct (_ && _); [by injection Hrun as <-|]);
    unfold Node.new in Hrun; bind_inv Hrun; injection Hrun as <-;
    (split; cbn [fst snd];
     [exact (kept_below_add_child n0 h0 _ current_node _ _
               (kept_below_new _ _ _ item _ Hkept) Hnode Hstep)|]).
  - constructor; [cbn; lia|done].
  - done.
Qed.

Lemma walking_depth_loop n0 h0 root_path fd ld ignore fuel :
  forall st h', walking (fun e : nat * list N * Z => e.1.1) n0 h0 st ->
  depth_loop os fnmatch fuel root_path fd ld ignore st = Ok h' -> kept_below n0 h0 h'.
Proof.
  induction fuel as [|fuel IH]; intros [h stack] h' Hw Hrun.
  - destruct stack as [|[[node path] d] stack]; [|done]. injection Hrun as <-. apply Hw.
  - destruct stack as [|[[node path] d] stack]; [injection Hrun as <-; apply Hw|].
    destruct Hw as [Hkept Hstack]. cbn [fst snd] in *.
    inversion Hstack as [|? ? Hnode Hrest]; subst. cbn [fst] in Hnode.
    rewrite depth_loop_S in Hrun. destruct (_ && _); [eapply IH; [|exact Hrun]; by split|].
    destruct (os_listdir os path) as [items| |]; [| |done].
    + bind_inv Hrun. eapply IH; [|exact Hrun].
      refine (for_items_inv (walking (fun e : nat * list N * Z => e.1.1) n0 h0)
                _ _ _ (h, stack) _ _ Hstep).
      * intros. eapply walking_depth_item; eassumption.
      * by split.
    + eapply IH; [|exact Hrun]. by split.
Qed.

Lemma FileTree_init_kept fuel root_path ignore h tree h' :
  FileTree_init os fnmatch fuel root_path ignore h = Ok (tree, h') ->
  tree = mkFileTree root_path (Some (length h)) /\ kept_below (length h) h h'.
Proof.
  intros Hrun. unfold FileTree_init in Hrun. destruct (negb _); [done|].
  unfold Node.new in Hrun. bind_inv Hrun. injection Hrun as <- <-. split; [done|].
  eapply walking_build_loop; [|exact Hstep]. split; cbn [fst snd].
  - apply (kept_below_new _ _ _ (PosixPath.basename root_path) false (kept_below_refl h)).
  - constructor; [done|constructor].
Qed.

Lemma kept_below_trans h h1 h2 :
  kept_below (length h) h h1 -> kept_below (length h1) h1 h2 -> kept_below (length h) h h2.
Proof.
  intros [Hl1 Hs1] [Hl2 Hs2]. split; [lia|].
  intros x Hx. rewrite Hs2 by lia. by apply Hs1.
Qed.

Lemma TrimmedTree_kept fuel root_path depth ignore h tree h' :
  TrimmedTree os fnmatch fuel root_path depth ignore h = Ok (tree, h') ->
  tree = mkFileTree root_path (Some (length h)) /\ kept_below (length h) h h'.
Proof.
  intros Hrun. unfold TrimmedTree, Node.new in Hrun. do 2 bind_inv Hrun.
  destruct a0 as [t h2]. injection Hrun as <- <-.
  apply FileTree_init_kept in Hstep0 as [-> Hk2]. split; [done|].
  unfold _build_tree_with_depth in Hstep. destruct depth as [fd ld].
  assert (Hk1 : kept_below (length h) h a).
  { eapply walking_depth_loop; [|exact Hstep]. split; cbn [fst snd].
    - apply (kept_below_new _ _ _ (PosixPath.basename root_path) false (kept_below_refl h)).
    - constructor; [done|constructor]. }
  by eapply kept_below_trans.
Qed.

End Frames.

Lemma from_dict_loop_kept n0 h0 fuel :
  forall stack root h dh r h' dh',
    kept_below n0 h0 h ->
    Forall (fun e : option nat * nat => forall p, e.1 = Some p -> n0 <= p) stack ->
    Mapping.from_dict_loop fuel stack root (h, dh) = Ok (r, (h', dh')) ->
    kept_below n0 h0 h'.
Proof.
  induction fuel as [|fuel IH]; intros stack root h dh r h' dh' Hkept Hstack Hrun.
  - destruct stack as [|[parent cur] stack]; [|done]. by injection Hrun as _ <- _.
  - destruct stack as [|[parent cur] stack]; [by injection Hrun as _ <- _|].
    inversion Hstack as [|? ? Hparent Hrest]; subst. cbn [fst] in Hparent.
    rewrite from_dict_loop_S in Hrun. do 4 bind_inv Hrun.
    pose proof (proj1 Hkept) as Hlen.
    assert (Hkept1 : kept_below n0 h0 a2).
    { pose proof (kept_below_new n0 h0 h a0
                    (match a1 with PyNone => true | PyDict _ => false end) Hkept) as Hnew.
      destruct parent as [p|].
      - eapply kept_below_add_child; [exact Hnew|by apply Hparent|exact Hstep2].
      - by injection Hstep2 as <-. }
    destruct a1 as [|d].
    + eapply IH; eassumption.
    + bind_inv Hrun. cbv zeta in Hrun.
      destruct (push_singles (length h) a1 stack dh) as (es & Hfold & _).
      rewrite Hfold in Hrun. cbn [fst snd] in Hrun.
      eapply IH; [exact Hkept1| |exact Hrun].
      apply Forall_app. split; [|exact Hrest].
      apply Forall_forall. intros e He. apply list_elem_of_fmap in He as (x & -> & _).
      intros p [= <-]. exact Hlen.
Qed.

Lemma from_md_kept s h r h' :
  Node.from_md s h = Ok (r, h') -> kept_below (length h) h h'.
Proof.
  unfold Node.from_md. destruct (splitlines (strip s)) as [|line0 lines].
  { intros [= _ <-]. apply kept_below_refl. }
  unfold Node.new.
  destruct (for_lines_total (length h) h (replace (strip line0) [SLASH] [])
              Node.from_md_line lines) with
    (st := (h ++ [mkTreeNode (replace (strip line0) [SLASH] []) false [] (Some ∅)], [length h]))
    as ([h1 stack1] & Hrun & (_ & _ & Hframe & _) & Hlen).
  { intros line st. unfold Node.from_md_line. by eexists _, _, _. }
  { apply decoding_start. }
  rewrite Hrun. cbn [bind fst snd] in *. intros [= _ <-].
  split; [|exact Hframe]. rewrite Hlen, length_app. lia.
Qed.

Section FacadeFrames.

Variable os : os_env.
Variable fnmatch : list N -> list N -> bool.

Lemma create_subtree_kept fuel h self relative_path sub h' :
  create_subtree os fnmatch fuel h self relative_path = Ok (sub, h') ->
  kept_below (length h) h h'.
Proof.
  intros Hrun. unfold create_subtree in Hrun. do 3 bind_inv Hrun.
  destruct a1 as [t h2]. injection Hrun as _ <-.
  by apply FileTree_init_kept in Hstep1 as [_ Hk].
Qed.

Lemma FileTree_from_md_kept fuel md_str h r h' :
  FileTree_from_md os fnmatch fuel md_str h = Ok (r, h') -> kept_below (length h) h h'.
Proof.
  intros Hrun. unfold FileTree_from_md in Hrun.
  destruct (splitlines md_str) as [|l0 ls]; [injection Hrun as _ <-; apply kept_below_refl|].
  destruct (find_fences _ _ _) as [[a|] [b|]]; try done.
  do 2 bind_inv Hrun. destruct (negb _); [done|].
  bind_inv Hrun. destruct a2 as [[root|] h1]; [|done].
  do 2 bind_inv Hrun. destruct a3 as [t h2]. injection Hrun as _ <-.
  apply from_md_kept in Hstep1. apply FileTree_init_kept in Hstep3 as [_ Hk].
  by eapply kept_below_trans.
Qed.

End FacadeFrames.

(** X6: no constructor and no decoder of the facade changes an object that
    was in the store when it was called, so that a tree the store spelt
    before the call it still spells after it: [FileTree()], [TrimmedTree()],
    [create_subtree], [FileTree.from_md] and [TreeNode.from_dict] only write
    to the nodes they make. *)
Theorem calls_keep_the_store (os : os_env) (fnmatch : list N -> list N -> bool)
    (h : list TreeNode) (l : nat) (T : Tree) :
  represents h l T ->
  (forall fuel root_path ignore tree h',
     FileTree_init os fnmatch fuel root_path ignore h = Ok (tree, h') -> represents h' l T)
  /\ (forall fuel root_path depth ignore tree h',
        TrimmedTree os fnmatch fuel root_path depth ignore h = Ok (tree, h') ->
        represents h' l T)
  /\ (forall fuel self relative_path sub h',
        create_subtree os fnmatch fuel h self relative_path = Ok (sub, h') ->
        represents h' l T)
  /\ (forall fuel md_str r h',
        FileTree_from_md os fnmatch fuel md_str h = Ok (r, h') -> represents h' l T)
  /\ (forall fuel d dh r h' dh',
        Mapping.from_dict fuel d (h, dh) = Ok (r, (h', dh')) -> represents h' l T).
Proof.
  intros Hrep.
  split. { intros fuel root_path ignore tree h' Hrun.
           apply FileTree_init_kept in Hrun as [_ Hk]. by eapply represents_kept. }
  split. { intros fuel root_path depth ignore tree h' Hrun.
           apply TrimmedTree_kept in Hrun as [_ Hk]. by eapply represents_kept. }
  split. { intros fuel self relative_path sub h' Hrun.
           apply create_subtree_kept in Hrun. by eapply represents_kept. }
  split. { intros fuel md_str r h' Hrun.
           apply FileTree_from_md_kept in Hrun. by eapply represents_kept. }
  intros fuel d dh r h' dh' Hrun. eapply represents_kept; [|exact Hrep].
  eapply from_dict_loop_kept; [apply kept_below_refl| |exact Hrun].
  constructor; [by intros p [=]|constructor].
Qed.

Lemma calls_keep_the_store_witness :
  exists tree h',
    FileTree_init os_example fnmatchcase 4 (py "root") None h_example = Ok (tree, h')
    /\ represents h' 0 T_example.
Proof.
  destruct (FileTree_init os_example fnmatchcase 4 (py "root") None h_example)
    as [[tree h']| | |] eqn:Hrun; try (vm_compute in Hrun; discriminate Hrun).
  exists tree, h'. split; [reflexivity|].
  refine (proj1 (calls_keep_the_store os_example fnmatchcase h_example 0 T_example _)
            4 (py "root") None tree h' Hrun).
  apply (reify_represents 3). reflexivity.
Defined.

(** * Subtree extraction that succeeds *)

(** The child of a directory that carries a name, and the node a list of
    names leads to. *)
Definition child_of (T : Tree) (part : list N) : option Tree :=
  List.find (fun c => bool_decide (t_name c = part)) (t_children T).

Fixpoint subtree_at (T : Tree) (parts : list (list N)) : option Tree :=
  match parts with
  | [] => Some T
  | part :: rest =>
    match child_of T part with
    | Some c => subtree_at c rest
    | None => None
    end
  end.

Lemma navigate_subtree h relative_path parts : forall T l S,
  represents h l T -> name_sorted T -> subtree_at T parts = Some S ->
  exists l', navigate h relative_path parts (Some l) = Ok (Some l') /\ represents h l' S.
Proof.
  induction parts as [|part rest IH]; intros T l S Hrep Hsorted Hat.
  { injection Hat as <-. by exists l. }
  cbn [subtree_at] in Hat. destruct (child_of T part) as [c|] eqn:Hchild; [|done].
  unfold child_of in Hchild. apply find_some in Hchild as [Hin Hname].
  apply bool_decide_eq_true_1 in Hname.
  inversion Hrep as [l0 o cs Ho Hcs]; subst. cbn [t_children] in Hin.
  apply name_sorted_unfold in Hsorted as [Hasc Hsorted].
  apply list_elem_of_In, list_elem_of_lookup in Hin as [k Hk].
  destruct (Forall2_lookup_r _ _ _ _ _ Hcs Hk) as (lk & Hlk & Hrepk).
  cbn [navigate]. rewrite Ho. cbn [deref bind].
  rewrite (child_named_present h (children o) (map t_name cs) (t_name c) k lk).
  - cbn [bind]. eapply IH; [exact Hrepk| |exact Hat].
    rewrite Forall_forall in Hsorted. apply Hsorted. apply list_elem_of_lookup. eauto.
  - by apply names_of_represents.
  - by apply ascending_names.
  - by rewrite list_lookup_fmap, Hk.
  - exact Hlk.
Qed.



(** * The mapping codec, read the other way *)

(** The mapping [to_dict] returns has one key, the name of the root, over
    what lies below it. *)
Lemma to_dict_single h l T dh fuel :
  represents h l T -> well_formed T -> size T <= fuel ->
  exists d dh1 v,
    Mapping.to_dict fuel h l dh = Ok (d, dh1)
    /\ dh1 !! d = Some [(t_name T, v)] /\ holds dh1 v T
    /\ (forall x, x < length dh -> dh1 !! x = dh !! x).
Proof.
  intros Hrep Hwf Hfuel.
  pose proof (visits_le_size T) as Hv.
  exists (S (length dh) + (if t_leaf T then 0 else 1)),
         (dh ++ [[]] ++ dflatten (S (length dh)) T), (dvalue (S (length dh)) T).
  split; [apply to_dict_root; [done..|lia]|]. split; [|split].
  - rewrite app_assoc. rewrite lookup_app_r by (rewrite length_app; cbn; lia).
    rewrite length_app. cbn [length].
    destruct T as [n [|] cs]; cbn [t_leaf t_name].
    + replace (S (length dh) + 0 - (length dh + 1)) with 0 by lia. reflexivity.
    + replace (S (length dh) + 1 - (length dh + 1)) with 1 by lia. reflexivity.
  - rewrite app_assoc.
    replace (S (length dh)) with (length (dh ++ [[]])) by (rewrite length_app; cbn; lia).
    rewrite <- (app_nil_r (dflatten _ T)). by apply holds_dflatten.
  - intros x Hx. by rewrite lookup_app_l.
Qed.

(** X8: a mapping whose first key stands over a nested mapping that spells
    the tree [T] is decoded by [from_dict] into [T], its other top-level
    keys being passed over, and [to_dict] of the decoded tree is a mapping
    with one key that spells [T] again; the [dict] objects given are not
    changed. *)
Theorem mapping_decoded_then_encoded (d : nat) (dh : list (list (list N * pyval)))
    (h : list TreeNode) (T : Tree) (v : pyval) (more : list (list N * pyval)) (fuel : nat) :
  dh !! d = Some ((t_name T, v) :: more) -> holds dh v T ->
  well_formed T -> size T <= fuel ->
  exists root h1 dh1 d' dh2 v',
    Mapping.from_dict fuel d (h, dh) = Ok (Some root, (h1, dh1))
    /\ represents h1 root T
    /\ Mapping.to_dict fuel h1 root dh1 = Ok (d', dh2)
    /\ dh2 !! d' = Some [(t_name T, v')] /\ holds dh2 v' T
    /\ (forall x, x < length dh -> dh2 !! x = dh !! x).
Proof.
  intros Hd Hv Hwf Hfuel.
  destruct (from_dict_root T d dh h fuel) as (ext & Hdec); [by exists v, more|done|].
  assert (Hrep : represents (h ++ flatten (length h) T) (length h) T).
  { rewrite <- (app_nil_r (flatten _ T)). apply represents_flatten. }
  destruct (to_dict_single _ _ T (dh ++ ext) fuel Hrep Hwf Hfuel)
    as (d' & dh2 & v' & Henc & Hd' & Hv' & Hold).
  exists (length h), (h ++ flatten (length h) T), (dh ++ ext), d', dh2, v'.
  repeat split; try done.
  intros x Hx. rewrite Hold by (rewrite length_app; lia). by apply lookup_app_l.
Qed.

(** {root: {a: {b.txt: None}, c.txt: None}, stray: None} *)
Definition dh_example : list (list (list N * pyval)) :=
  [ [(py "root", PyDict 1); (py "stray", PyNone)];
    [(py "a", PyDict 2); (py "c.txt", PyNone)];
    [(py "b.txt", PyNone)] ].

Lemma holds_example : holds dh_example (PyDict 1) T_example.
Proof.
  econstructor; [reflexivity|].
  constructor; [split; [reflexivity|]|constructor; [split; [reflexivity|constructor]|constructor]].
  econstructor; [reflexivity|].
  constructor; [split; [reflexivity|constructor]|constructor].
Qed.

Lemma mapping_decoded_then_encoded_witness :
  exists root h1 dh1 d' dh2 v',
    Mapping.from_dict 4 0 ([], dh_example) = Ok (Some root, (h1, dh1))
    /\ represents h1 root T_example
    /\ Mapping.to_dict 4 h1 root dh1 = Ok (d', dh2)
    /\ dh2 !! d' = Some [(t_name T_example, v')] /\ holds dh2 v' T_example
    /\ (forall x, x < length dh_example -> dh2 !! x = dh_example !! x).
Proof.
  apply (mapping_decoded_then_encoded 0 dh_example [] T_example (PyDict 1)
           [(py "stray", PyNone)] 4).
  - reflexivity.
  - exact holds_example.
  - exact well_formed_example.
  - vm_compute. lia.
Defined.

(** * Looking a child up by bisection *)

(** The children [b], [a], in that order. *)
Definition h_unsorted : list TreeNode :=
  [ mkTreeNode (py "b") true [] None; mkTreeNode (py "a") true [] None ].

Lemma child_named_sound h a ns x l :
  names_of h a ns -> child_named h a x = Ok (Some l) ->
  exists k, a !! k = Some l /\ ns !! k = Some x.
Proof.
  intros Hn. unfold child_named, bisect_left.
  pose proof (Forall2_length _ _ _ Hn) as Hlen.
  destruct (bisect_loop_ends h a ns x Hn (length a) 0 (length a)) as [i Hi]; [lia..|].
  rewrite Hi. cbn [deref bind]. destruct (a !! i) as [l0|] eqn:El; [|done].
  destruct (Forall2_lookup_l _ _ _ _ _ Hn El) as (n & Hni & o & Ho & Hname).
  rewrite Ho. cbn [deref bind]. destruct (bool_decide (name o = x)) eqn:E; [|done].
  apply bool_decide_eq_true_1 in E. intros [= <-]. exists i. split; [done|congruence].
Qed.

Lemma child_named_total h a ns x :
  names_of h a ns -> exists r, child_named h a x = Ok r.
Proof.
  intros Hn. unfold child_named, bisect_left.
  pose proof (Forall2_length _ _ _ Hn) as Hlen.
  destruct (bisect_loop_ends h a ns x Hn (length a) 0 (length a)) as [i Hi]; [lia..|].
  rewrite Hi. cbn [deref bind]. destruct (a !! i) as [l0|] eqn:El; [|by eexists].
  destruct (Forall2_lookup_l _ _ _ _ _ Hn El) as (n & Hni & o & Ho & Hname).
  rewrite Ho. cbn [deref bind]. by eexists.
Qed.

(** X9: the lookup [where] and [create_subtree] make in a list of children,
    [bisect_left] under the order of names followed by a test of the name
    at the index found.  On children of the store it never fails; a child
    it returns is a child of the list that carries the name; when the names
    are in ascending order it finds the child that carries the name; and
    when they are not it can miss a child that is there: among [b], [a] the
    name [a] is not found. *)
Theorem lookup_by_bisection (h : list TreeNode) (a : list nat) (ns : list (list N))
    (x : list N) :
  names_of h a ns ->
  (exists r, child_named h a x = Ok r)
  /\ (forall l, child_named h a x = Ok (Some l) ->
        exists k, a !! k = Some l /\ ns !! k = Some x)
  /\ (ascending ns ->
      forall k l, ns !! k = Some x -> a !! k = Some l -> child_named h a x = Ok (Some l))
  /\ (names_of h_unsorted [0; 1] [py "b"; py "a"]
      /\ child_named h_unsorted [0; 1] (py "a") = Ok None).
Proof.
  intros Hn. split; [by eapply child_named_total|].
  split; [intros l; by apply child_named_sound|].
  split; [intros Hasc k l Hk Hl; by eapply child_named_present|].
  split; [|reflexivity].
  constructor; [by eexists|]. constructor; [by eexists|constructor].
Qed.

Lemma lookup_by_bisection_witness :
  child_named h_example [1; 3] (py "c.txt") = Ok (Some 3).
Proof.
  refine (proj1 (proj2 (proj2 (lookup_by_bisection h_example [1; 3] [py "a"; py "c.txt"]
                                 (py "c.txt") _))) _ 1 3 _ _).
  - constructor; [by eexists|]. constructor; [by eexists|constructor].
  - intros i j x y Hij Hi Hj. destruct i as [|[|i]], j as [|[|j]]; try done; try lia.
    injection Hi as <-. injection Hj as <-. reflexivity.
  - reflexivity.
  - reflexivity.
Defined.

(** * [where] on a tree in any order *)

Section WhereAnyOrder.

Variable h : list TreeNode.
Variable target : list N.

(** A visit of the loop answers with a path at which the name stands, or
    goes on with the rest of the stack. *)
Definition where_any_visit (l : nat) (T : Tree) : Prop :=
  exists k, forall path, exists res,
    (forall fuel stack,
       where_loop (k + fuel) h target ((l, path) :: stack)
       = match res with
         | Some p => Ok (Some p)
         | None => where_loop fuel h target stack
         end)
    /\ (forall p, res = Some p -> exists N, (p, N) ∈ paths path T /\ t_name N = target).

Lemma where_any_forest ds :
  Forall (fun ld : nat * Tree => where_any_visit ld.1 ld.2) ds ->
  exists k, forall path, exists res,
    (forall fuel stack,
       where_loop (k + fuel) h target
         (map (fun ld : nat * Tree => (ld.1, PosixPath.join path (t_name ld.2))) ds ++ stack)
       = match res with
         | Some p => Ok (Some p)
         | None => where_loop fuel h target stack
         end)
    /\ (forall p, res = Some p ->
        exists ld N, ld ∈ ds /\ (p, N) ∈ paths (PosixPath.join path (t_name ld.2)) ld.2
                     /\ t_name N = target).
Proof.
  induction 1 as [|[l d] ds (k1 & Hhead) _ (k2 & Hrest)].
  { exists 0. intros path. exists None. split; [done|done]. }
  exists (k1 + k2). intros path. cbn [fst snd] in *.
  destruct (Hhead (PosixPath.join path (t_name d))) as (res1 & Hrun1 & Hsound1).
  destruct (Hrest path) as (res2 & Hrun2 & Hsound2).
  destruct res1 as [p1|].
  - exists (Some p1). split.
    + intros fuel stack. cbn [map app fst snd]. by rewrite <- Nat.add_assoc, Hrun1.
    + intros p [= <-]. destruct (Hsound1 p1 eq_refl) as (N & HN & Hname).
      exists (l, d), N. split; [left|done].
  - exists res2. split.
    + intros fuel stack. cbn [map app fst snd]. by rewrite <- Nat.add_assoc, Hrun1, Hrun2.
    + intros p Hp. destruct (Hsound2 p Hp) as (ld & N & Hld & HN & Hname).
      exists ld, N. split; [by right|done].
Qed.

Lemma push_found_any a cs :
  Forall2 (represents h) a cs -> NoDup (map t_name cs) ->
  forall names,
    Forall (fun nm => exists d, d ∈ cs /\ t_leaf d = false /\ t_name d = nm) names ->
    exists ds : list (nat * Tree),
      (forall path stack,
         push_found h a path names stack
         = Ok (map (fun ld : nat * Tree => (ld.1, PosixPath.join path (t_name ld.2))) ds
               ++ stack))
      /\ Forall (fun ld : nat * Tree =>
                   represents h ld.1 ld.2 /\ ld.2 ∈ cs /\ t_leaf ld.2 = false) ds.
Proof.
  intros Hcs Hnd. pose proof (names_of_represents _ _ _ Hcs) as Hns.
  induction names as [|nm names IH]; intros Hnames.
  { exists []. split; [done|constructor]. }
  inversion Hnames as [|? ? (d & Hd & Hdir & Hdn) Hrest]; subst.
  destruct (IH Hrest) as (ds & Hpush & Hds).
  destruct (child_named_total h a (map t_name cs) (t_name d) Hns) as [[l|] Hfound].
  - destruct (child_named_sound h a (map t_name cs) (t_name d) l Hns Hfound)
      as (k & Hak & Hnk).
    rewrite list_lookup_fmap in Hnk. destruct (cs !! k) as [c|] eqn:Hck; [|done].
    injection Hnk as Hname.
    assert (c = d) as ->.
    { apply list_elem_of_lookup in Hd as [j Hj].
      assert (k = j) as ->; [|congruence].
      eapply (NoDup_lookup _ k j (t_name d) Hnd); rewrite list_lookup_fmap.
      - by rewrite Hck, <- Hname.
      - by rewrite Hj. }
    exists (ds ++ [(l, d)]). split.
    + intros path stack. cbn [push_found]. rewrite Hfound. cbn [bind].
      rewrite Hpush, map_app, <- app_assoc. reflexivity.
    + apply Forall_app. split; [done|]. constructor; [|constructor].
      split; [|by split]. cbn [fst snd].
      destruct (Forall2_lookup_l _ _ _ _ _ Hcs Hak) as (c' & Hc' & Hrep). congruence.
  - exists ds. split; [|done].
    intros path stack. cbn [push_found]. rewrite Hfound. cbn [bind]. apply Hpush.
Qed.

Lemma where_any_tree T :
  heap_inv h ->
  forall l, represents h l T -> well_formed T -> t_leaf T = false -> where_any_visit l T.
Proof.
  intros Hinv. induction T as [n lf cs IH] using Tree_ind'.
  intros l Hrep Hwf Hdir.
  inversion Hrep as [l' o cs' Ho Hcs]; subst. cbn [t_leaf] in Hdir.
  apply well_formed_unfold in Hwf as (_ & Hnd & Hwfs).
  pose proof (names_of_represents _ _ _ Hcs) as Hns.
  destruct (child_named_total h (children o) (map t_name cs) target Hns) as [[lk|] Hfound].
  - exists 1. intros path. exists (Some (PosixPath.join path target)). split.
    + intros fuel stack. change (1 + fuel) with (S fuel).
      rewrite where_loop_S, Ho. cbn [deref bind]. by rewrite Hfound.
    + intros p [= <-].
      destruct (child_named_sound h _ _ target lk Hns Hfound) as (k & Hak & Hnk).
      rewrite list_lookup_fmap in Hnk. destruct (cs !! k) as [c|] eqn:Hck; [|done].
      injection Hnk as Hname. exists c. split; [|done].
      rewrite paths_unfold. apply list_elem_of_In, in_flat_map. exists c.
      split; [apply list_elem_of_In, list_elem_of_lookup; eauto|]. left. by rewrite Hname.
  - destruct (Hinv l o Ho) as [_ Hset]. specialize (Hset Hdir).
    pose proof (dir_pairs_represents h _ _ Hcs) as Hpairs. rewrite Forall_forall in Hpairs.
    destruct (push_found_any (children o) cs Hcs Hnd
                (sorted_names (dir_child_names h (children o)))) as (ds & Hpush & Hds).
    { apply Forall_forall. intros nm Hnm. unfold sorted_names in Hnm.
      rewrite merge_sort_Permutation in Hnm. apply elem_of_elements in Hnm.
      rewrite (dir_child_names_pairs h _ cs Hcs) in Hnm.
      apply elem_of_list_to_set, list_elem_of_fmap in Hnm as (ld & -> & Hld).
      destruct (Hpairs ld Hld) as (_ & Hin & Hleaf). by exists ld.2. }
    destruct (where_any_forest ds) as (k & Hforest).
    { rewrite Forall_forall in IH. rewrite Forall_forall in Hwfs.
      eapply Forall_impl; [exact Hds|]. intros ld (Hr & Hin & Hleaf). apply IH; auto. }
    exists (S k). intros path. destruct (Hforest path) as (res & Hrun & Hsound).
    exists res. split.
    + intros fuel stack. cbn [Nat.add]. rewrite where_loop_S, Ho. cbn [deref bind].
      rewrite Hfound. cbn [bind]. rewrite Hset, Hpush. cbn [bind]. apply Hrun.
    + intros p Hp. destruct (Hsound p Hp) as (ld & N & Hld & HN & Hname).
      rewrite Forall_forall in Hds. destruct (Hds ld Hld) as (_ & Hin & Hleaf).
      exists N. split; [|done].
      rewrite paths_unfold. apply list_elem_of_In, in_flat_map. exists ld.2.
      split; [by apply list_elem_of_In|]. right. rewrite Hleaf. by apply list_elem_of_In.
Qed.

End WhereAnyOrder.

(** root/{b, a}: the children as a listing may give them. *)
Definition h_root_unsorted : list TreeNode :=
  [ mkTreeNode (py "root") false [1; 2] (Some ∅);
    mkTreeNode (py "b") true [] None;
    mkTreeNode (py "a") true [] None ].

(** X10: on any tree with a directory at its root, leaves without children
    and distinct sibling names, sorted or not, [where] ends without an
    error and a path it returns is the path of a node that carries the
    name.  Sortedness only matters for finding: in root/{b, a}, in that
    order, [where("a")] finds nothing. *)
Theorem where_on_any_order (h : list TreeNode) (l : nat) (T : Tree)
    (start target : list N) :
  represents h l T -> heap_inv h -> well_formed T -> t_leaf T = false ->
  (exists n r,
     (forall fuel, n <= fuel -> where_ fuel h (mkFileTree start (Some l)) target = Ok r)
     /\ (forall p, r = Some p -> exists N, (p, N) ∈ paths start T /\ t_name N = target))
  /\ (represents h_root_unsorted 0
        (Entry (py "root") false [Entry (py "b") true []; Entry (py "a") true []])
      /\ where_ 1 h_root_unsorted (mkFileTree (py "root") (Some 0)) (py "a") = Ok None).
Proof.
  intros Hrep Hinv Hwf Hdir. split.
  - destruct (where_any_tree h target T Hinv l Hrep Hwf Hdir) as (k & Hvisit).
    destruct (Hvisit start) as (res & Hrun & Hsound).
    exists k, res. split; [|exact Hsound].
    intros fuel Hfuel. unfold where_. cbn [root_node root_path].
    replace fuel with (k + (fuel - k)) by lia. rewrite Hrun.
    destruct res; [done|]. by destruct (fuel - k).
  - split; [apply (reify_represents 2); reflexivity|reflexivity].
Qed.

Lemma where_on_any_order_witness :
  exists n r,
    (forall fuel, n <= fuel ->
       where_ fuel h_example (mkFileTree (py "root") (Some 0)) B_TXT = Ok r)
    /\ (forall p, r = Some p -> exists N, (p, N) ∈ paths (py "root") T_example
                                          /\ t_name N = B_TXT).
Proof.
  refine (proj1 (where_on_any_order h_example 0 T_example (py "root") B_TXT _ _ _ _)).
  - apply (reify_represents 3). reflexivity.
  - exact heap_inv_example.
  - exact well_formed_example.
  - reflexivity.
Defined.

(** * A diagram written to a file and read back *)

(** Below the root the prefix the call was given plays no part. *)
Lemma md_text_prefix0 p T : forall more lvl il pfx,
  (0 < lvl)%Z -> md_text p more lvl il pfx T = md_text [] more lvl il pfx T.
Proof.
  induction T as [n lf cs IH] using Tree_ind'. intros more lvl il pfx Hlvl.
  rewrite !md_text_unfold. unfold md_new_prefix.
  assert ((0 <? lvl)%Z = true) as -> by lia.
  do 2 f_equal. destruct lf; [done|].
  assert (Hl1 : (0 < lvl + 1)%Z) by lia. revert Hl1.
  generalize (lvl + 1)%Z (pfx ++ (if il then Node.INDENT else Node.BAR_INDENT)).
  intros lv np Hlv. clear Hlvl.
  induction IH as [|c cs Hc Hcs IHcs]; [done|].
  destruct cs as [|c2 cs].
  - change (md_forest ?q more lv np [c]) with (md_text q more lv true np c).
    by apply Hc.
  - rewrite !md_forest_cons2, IHcs. f_equal. by apply Hc.
Qed.

Lemma md_forest_lines p more lv np c cs :
  (0 < lv)%Z ->
  md_forest p more lv np (c :: cs) ++ (if more then [] else [NL])
  = terminated (forest_lines np (c :: cs)).
Proof.
  intros Hlv. revert c. induction cs as [|c2 cs IHcs]; intros c.
  - change (md_forest p more lv np [c]) with (md_text p more lv true np c).
    rewrite forest_lines_cons. cbn [nonempty negb forest_lines]. rewrite app_nil_r.
    rewrite md_text_prefix0 by done. by apply md_text_lines.
  - rewrite md_forest_cons2, forest_lines_cons, terminated_app. cbn [nonempty negb].
    rewrite <- app_assoc, IHcs. f_equal.
    rewrite md_text_prefix0 by done.
    rewrite <- (md_text_lines c true lv false np Hlv). by rewrite app_nil_r.
Qed.

Lemma tree_lines_prefix p T : forall il pfx,
  tree_lines il (p ++ pfx) T = map (app p) (tree_lines il pfx T).
Proof.
  induction T as [n lf cs IH] using Tree_ind'. intros il pfx.
  rewrite !tree_lines_unfold. cbn [map]. rewrite <- !app_assoc. f_equal.
  destruct lf; [done|].
  generalize (pfx ++ (if il then Node.INDENT else Node.BAR_INDENT)). intros np.
  induction IH as [|c cs Hc _ IHcs]; [done|].
  rewrite !forest_lines_cons, map_app, IHcs. f_equal. apply Hc.
Qed.

Lemma forest_lines_prefix p cs np :
  forest_lines (p ++ np) cs = map (app p) (forest_lines np cs).
Proof.
  induction cs as [|c cs IH]; [done|].
  by rewrite !forest_lines_cons, map_app, IH, tree_lines_prefix.
Qed.

(** The diagram [to_md] writes for a directory when it is given a prefix:
    the lines of the plain diagram, the prefix before each. *)
Lemma md_text_root_prefix p n cs :
  md_text p false 0 false p (Entry n false cs)
  = PyStr.join [NL] (map (app p) ((n ++ [SLASH]) :: forest_lines [] cs)).
Proof.
  apply (app_inj_tail _ _ NL NL). cbn [map]. rewrite <- terminated_join.
  change (terminated ((p ++ n ++ [SLASH]) :: ?r))
    with (((p ++ n ++ [SLASH]) ++ [NL]) ++ terminated r).
  rewrite md_text_unfold. unfold md_line, md_new_prefix.
  change (0 <? 0)%Z with false. cbn [app negb andb orb].
  rewrite <- !app_assoc. do 3 f_equal.
  destruct cs as [|c cs]; [done|]. cbn [nonempty app]. f_equal.
  change (0 + 1)%Z with 1%Z.
  rewrite <- forest_lines_prefix, app_nil_r.
  by apply (md_forest_lines p false).
Qed.

(** ** Lines and line feeds *)

Lemma splitlines_terminated lines :
  Forall no_linebreak lines -> splitlines (terminated lines) = lines.
Proof.
  unfold splitlines. induction 1 as [|l lines Hl _ IH]; [done|].
  change (terminated (l :: lines)) with ((l ++ [NL]) ++ terminated lines).
  rewrite <- app_assoc, splitlines_from_line by done. rewrite app_nil_r.
  cbn [app splitlines_from]. change (is_linebreak NL) with true. cbn match.
  change ((NL =? CR)%N) with false. cbn [andb].
  rewrite rev_involutive. destruct (terminated lines); by rewrite <- IH.
Qed.

Lemma universal_newlines_id s :
  Forall (fun c => c <> CR) s -> universal_newlines s = s.
Proof.
  induction 1 as [|c s Hc _ IH]; [done|].
  cbn [universal_newlines]. apply N.eqb_neq in Hc. by rewrite Hc, IH.
Qed.

Lemma terminated_no_cr lines :
  Forall no_linebreak lines -> Forall (fun c => c <> CR) (terminated lines).
Proof.
  induction 1 as [|l lines Hl _ IH]; [constructor|].
  change (terminated (l :: lines)) with ((l ++ [NL]) ++ terminated lines).
  apply Forall_app. split; [|done]. apply Forall_app. split.
  - eapply Forall_impl; [exact Hl|]. intros c Hc ->. done.
  - by repeat constructor.
Qed.

(** ** Lines that hold no fence *)

Definition BACKTICK : char := 96%N.

(** No name holds three backticks in a row. *)
Fixpoint unfenced_names (T : Tree) : bool :=
  match T with
  | Entry n _ cs => negb (contains n FENCE) && forallb unfenced_names cs
  end.

Lemma contains_absent c s old : c ∉ s -> contains s (c :: old) = false.
Proof.
  induction s as [|x s IH]; intros Hc; [done|].
  apply not_elem_of_cons in Hc as [Hne Hc].
  cbn [contains startswith]. apply N.eqb_neq in Hne. rewrite Hne, IH by done. done.
Qed.

Lemma contains_app_absent_l a s c old :
  c ∉ a -> contains (a ++ s) (c :: old) = contains s (c :: old).
Proof.
  induction a as [|x a IH]; intros Hc; [done|].
  apply not_elem_of_cons in Hc as [Hne Hc].
  change ((x :: a) ++ s) with (x :: (a ++ s)).
  cbn [contains startswith]. apply N.eqb_neq in Hne. rewrite Hne. cbn [andb orb].
  by apply IH.
Qed.

Lemma startswith_app_absent old : forall n b,
  Forall (fun c => c ∉ b) old -> startswith (n ++ b) old = startswith n old.
Proof.
  induction old as [|p old IH]; intros n b Hold; [by destruct n, b|].
  inversion Hold as [|? ? Hp Hrest]; subst.
  destruct n as [|x n].
  - cbn [app]. destruct b as [|y b]; [done|].
    apply not_elem_of_cons in Hp as [Hne _]. cbn [startswith].
    apply N.eqb_neq in Hne. by rewrite Hne.
  - change ((x :: n) ++ b) with (x :: (n ++ b)). cbn [startswith]. by rewrite IH.
Qed.

Lemma contains_app_absent_r n b c old :
  Forall (fun x => x ∉ b) (c :: old) -> contains (n ++ b) (c :: old) = contains n (c :: old).
Proof.
  intros Hold. induction n as [|x n IH].
  - cbn [app]. rewrite contains_absent; [done|]. by inversion Hold.
  - change ((x :: n) ++ b) with (x :: (n ++ b)).
    change (contains (x :: n ++ b) (c :: old))
      with (startswith ((x :: n) ++ b) (c :: old) || contains (n ++ b) (c :: old)).
    rewrite startswith_app_absent, IH by done. reflexivity.
Qed.

(** A name between two texts without a backtick. *)
Lemma unfenced_line a n b :
  BACKTICK ∉ a -> BACKTICK ∉ b -> contains n FENCE = false -> ~ fenced (a ++ n ++ b).
Proof.
  intros Ha Hb Hn. unfold fenced.
  change FENCE with [BACKTICK; BACKTICK; BACKTICK] in *.
  rewrite contains_app_absent_l, contains_app_absent_r, Hn by (done || by repeat constructor).
  done.
Qed.

Lemma bars_no_backtick pfx : bars pfx -> BACKTICK ∉ pfx.
Proof.
  intros H Hin. unfold bars in H. rewrite Forall_forall in H.
  by destruct (H _ Hin).
Qed.

Lemma blanks_no_backtick p : blanks p -> BACKTICK ∉ p.
Proof.
  intros H Hin. unfold blanks in H. rewrite Forall_forall in H. by specialize (H _ Hin).
Qed.

Lemma tree_lines_unfenced p T : forall il pfx,
  unfenced_names T = true -> blanks p -> bars pfx ->
  Forall (fun l => ~ fenced l) (tree_lines il (p ++ pfx) T).
Proof.
  induction T as [n lf cs IH] using Tree_ind'. intros il pfx Hnames Hp Hpfx.
  cbn [unfenced_names] in Hnames. apply andb_true_iff in Hnames as [Hn Hcs].
  apply negb_true_iff in Hn.
  rewrite tree_lines_unfold. constructor.
  - rewrite <- app_assoc, !app_assoc, <- (app_assoc _ n).
    apply unfenced_line; [|by destruct lf; vm_compute; set_solver|done].
    rewrite !not_elem_of_app. split; [split|].
    + by apply blanks_no_backtick.
    + by apply bars_no_backtick.
    + destruct il; vm_compute; set_solver.
  - destruct lf; [constructor|].
    pose proof (bars_cont pfx il Hpfx) as Hnp. revert Hnp.
    rewrite <- app_assoc.
    generalize (pfx ++ (if il then Node.INDENT else Node.BAR_INDENT)). intros np Hnp.
    induction IH as [|c cs Hc _ IHcs]; [constructor|].
    cbn [forallb] in Hcs. apply andb_true_iff in Hcs as [Hc1 Hcs].
    rewrite forest_lines_cons. apply Forall_app. split; [by apply Hc|by apply IHcs].
Qed.

Lemma forest_lines_unfenced p cs :
  forallb unfenced_names cs = true -> blanks p ->
  Forall (fun l => ~ fenced l) (forest_lines p cs).
Proof.
  intros Hcs Hp. induction cs as [|c cs IH]; [constructor|].
  cbn [forallb] in Hcs. apply andb_true_iff in Hcs as [Hc Hcs].
  rewrite forest_lines_cons. apply Forall_app. split; [|by apply IH].
  rewrite <- (app_nil_r p). apply tree_lines_unfenced; [done|done|constructor].
Qed.

(** ** Pruning keeps what the names and the leaves satisfy *)

Lemma pruned_children_forallb (P : Tree -> bool) fd ld cs :
  Forall (fun c => forall lvl, P c = true -> P (prune fd ld lvl c) = true) cs ->
  forall lvl, forallb P cs = true -> forallb P (pruned_children fd ld lvl cs) = true.
Proof.
  intros IH lvl. induction IH as [|c cs Hc _ IHcs]; [done|].
  cbn [forallb]. intros H. apply andb_true_iff in H as [H1 H2].
  change (pruned_children fd ld lvl (c :: cs))
    with ((if within_caps fd ld lvl c then [prune fd ld lvl c] else [])
          ++ pruned_children fd ld lvl cs).
  rewrite forallb_app, IHcs by done. rewrite andb_true_r.
  destruct (within_caps fd ld lvl c); [|done]. cbn [forallb]. by rewrite Hc.
Qed.

Lemma plain_names_prune fd ld T : forall lvl,
  plain_names T = true -> plain_names (prune fd ld lvl T) = true.
Proof.
  induction T as [n lf cs IH] using Tree_ind'. intros lvl H.
  rewrite prune_unfold. cbn [plain_names] in *.
  apply andb_true_iff in H as [Hn Hcs]. rewrite Hn. cbn [andb].
  by apply pruned_children_forallb.
Qed.

Lemma unfenced_names_prune fd ld T : forall lvl,
  unfenced_names T = true -> unfenced_names (prune fd ld lvl T) = true.
Proof.
  induction T as [n lf cs IH] using Tree_ind'. intros lvl H.
  rewrite prune_unfold. cbn [unfenced_names] in *.
  apply andb_true_iff in H as [Hn Hcs]. rewrite Hn. cbn [andb].
  by apply pruned_children_forallb.
Qed.

Lemma bare_leaves_prune fd ld T : forall lvl,
  bare_leaves T = true -> bare_leaves (prune fd ld lvl T) = true.
Proof.
  induction T as [n lf cs IH] using Tree_ind'. intros lvl H.
  rewrite prune_unfold. cbn [bare_leaves] in *.
  apply andb_true_iff in H as [Hlf Hcs].
  rewrite pruned_children_forallb by done. rewrite andb_true_r.
  destruct lf; [|done]. cbn [negb orb] in *. by destruct cs.
Qed.

(** ** From the file to the tree *)

Lemma to_md_text_prefix h l T p fd ld fuel :
  represents h l T -> (0 <= fd)%Z -> (0 <= ld)%Z -> size T <= fuel ->
  Node.to_md fuel h l 0 false p (fd, ld)
  = Ok (md_text p false 0 false p (prune fd ld 0 T)).
Proof.
  intros Hrep Hfd Hld Hfuel. unfold Node.to_md.
  destruct (Z.ltb_spec fd 0), (Z.ltb_spec ld 0); try lia. cbn [orb].
  pose proof (visits_le_size (prune fd ld 0 T)) as Hv.
  pose proof (size_prune_le fd ld T 0%Z) as Hs.
  replace fuel with (visits (prune fd ld 0 T) + (fuel - visits (prune fd ld 0 T))) by lia.
  rewrite (to_md_loop_tree h p fd ld T l 0%Z Hrep).
  by destruct (fuel - _).
Qed.

Lemma blanks_times indent : blanks (times [SPACE] indent).
Proof.
  unfold times. induction (Z.to_nat indent) as [|k IH]; [constructor|].
  cbn [replicate concat app]. by constructor.
Qed.

Lemma blanks_no_linebreak p : blanks p -> no_linebreak p.
Proof. intros H. eapply Forall_impl; [exact H|]. by intros c ->. Qed.

Lemma fence_indent p : blanks p -> leading_indent (p ++ FENCE) = length p.
Proof.
  intros Hp. unfold leading_indent.
  change FENCE with (BACKTICK :: [BACKTICK; BACKTICK]).
  rewrite blanks_lstrip, length_app by done. lia.
Qed.

Lemma fence_fenced p : blanks p -> fenced (p ++ FENCE).
Proof.
  intros Hp. unfold fenced. change FENCE with [BACKTICK; BACKTICK; BACKTICK].
  by rewrite contains_app_absent_l by (by apply blanks_no_backtick).
Qed.

Lemma unindent_lines p lines :
  Forall line_ok lines ->
  map (fun line => rstrip (drop (length p) line)) (map (app p) lines) = lines.
Proof.
  induction 1 as [|l lines (_ & f & d & -> & Hd) _ IH]; [done|].
  cbn [map]. rewrite IH, drop_app_length. f_equal. by apply rstrip_last.
Qed.

(** When the lines of a document are a block between two fences of the
    same indentation, the first fences of the document, the decoder goes
    on with the lines of the block. *)
Lemma from_md_block os fnmatch fuel md_str h pre open mid close post :
  splitlines md_str = pre ++ open :: mid ++ close :: post ->
  Forall (fun l => ~ fenced l) pre -> fenced open ->
  Forall (fun l => ~ fenced l) mid -> fenced close ->
  leading_indent open = leading_indent close ->
  FileTree_from_md os fnmatch fuel md_str h
  = decode_fenced os fnmatch fuel (leading_indent open) mid h.
Proof.
  intros Heq Hpre Ho Hmid Hc He.
  unfold FileTree_from_md. rewrite Heq.
  rewrite match_nonempty by (by destruct pre).
  rewrite find_fences_pair by done. simpl.
  replace ((pre ++ open :: mid ++ close :: post) !! length pre) with (Some open)
    by (symmetry; apply list_lookup_middle; done).
  replace ((pre ++ open :: mid ++ close :: post) !! (length pre + 1 + length mid)%nat)
    with (Some close).
  2:{ symmetry. rewrite lookup_app_r by lia.
      replace (length pre + 1 + length mid - length pre)%nat with (S (length mid)) by lia.
      simpl. apply list_lookup_middle. done. }
  simpl. rewrite <- He, Nat.eqb_refl. simpl. unfold decode_fenced.
  replace (take (length pre + 1 + length mid - (length pre + 1))
             (drop (length pre + 1) (pre ++ open :: mid ++ close :: post))) with mid.
  { done. }
  rewrite drop_app, drop_ge by lia.
  replace (length pre + 1 - length pre)%nat with 1%nat by lia. simpl.
  replace (length pre + 1 + length mid - (length pre + 1))%nat with (length mid) by lia.
  by rewrite drop_0, take_app_length.
Qed.

(** The lines of the diagram of a directory with plain names. *)
Lemma diagram_lines_ok n cs :
  plain_names (Entry n false cs) = true ->
  Forall line_ok ((n ++ [SLASH]) :: forest_lines [] cs).
Proof.
  intros Hplain. cbn [plain_names] in Hplain.
  apply andb_true_iff in Hplain as [Hn Hcs]. constructor.
  - split; [|by exists n, SLASH].
    apply Forall_app. split; [by apply plain_name_no_linebreak|by repeat constructor].
  - apply forest_lines_ok; [done|constructor].
Qed.

(** A document whose lines are: lines without a fence, a fence after
    [p] blanks, the diagram of a directory tree with [p] before each line,
    the same fence.  Reading it decodes the tree and builds a facade for
    the name of its root. *)
Lemma from_md_document os fnmatch fuel pre p n cs h0 :
  Forall no_linebreak pre -> Forall (fun l => ~ fenced l) pre -> blanks p ->
  plain_names (Entry n false cs) = true -> bare_leaves (Entry n false cs) = true ->
  unfenced_names (Entry n false cs) = true ->
  load_md os fnmatch fuel
    (terminated (pre ++ (p ++ FENCE)
                       :: map (app p) ((n ++ [SLASH]) :: forest_lines [] cs)
                       ++ [p ++ FENCE])) h0
  = (built <- FileTree_init os fnmatch fuel n None
                (h0 ++ flatten (length h0) (Entry n false cs));;
     Ok (Some (set_root_node built.1 (Some (length h0))), built.2)).
Proof.
  intros Hnl Hpre Hp Hplain Hbare Hfence.
  pose proof (diagram_lines_ok n cs Hplain) as Hall.
  set (L := (n ++ [SLASH]) :: forest_lines [] cs) in *.
  assert (Hfl : no_linebreak (p ++ FENCE)).
  { apply Forall_app. split; [by apply blanks_no_linebreak|by repeat constructor]. }
  assert (Hlines : Forall no_linebreak (pre ++ (p ++ FENCE) :: map (app p) L ++ [p ++ FENCE])).
  { apply Forall_app. split; [done|]. constructor; [done|].
    apply Forall_app. split; [|by repeat constructor].
    apply Forall_map. eapply Forall_impl; [exact Hall|]. intros l [Hl _]. cbn.
    apply Forall_app. split; [by apply blanks_no_linebreak|done]. }
  unfold load_md. rewrite universal_newlines_id by (by apply terminated_no_cr).
  rewrite (from_md_block os fnmatch fuel _ h0 pre (p ++ FENCE) (map (app p) L) (p ++ FENCE) []).
  all: try (by apply fence_fenced). all: try done.
  2:{ by apply splitlines_terminated. }
  2:{ unfold L. cbn [map]. constructor.
      - cbn [unfenced_names] in Hfence. apply andb_true_iff in Hfence as [Hn _].
        apply negb_true_iff in Hn.
        apply unfenced_line; [by apply blanks_no_backtick|vm_compute; set_solver|done].
      - rewrite <- forest_lines_prefix, app_nil_r. apply forest_lines_unfenced; [|done].
        cbn [unfenced_names] in Hfence. by apply andb_true_iff in Hfence as [_ Hcs]. }
  rewrite fence_indent by done. unfold decode_fenced.
  rewrite unindent_lines by done. unfold L.
  rewrite <- md_text_root, from_md_md_text by done. cbn [bind].
  unfold Node.get_name. rewrite flatten_unfold.
  rewrite list_lookup_middle by done. cbn [deref bind name].
  destruct (FileTree_init _ _ _ _ _ _) as [[tree h1]| | |]; reflexivity.
Qed.

(** X11: [dump_md] and [load_md] on one file.  For a tree with a directory
    at its root, leaves without children, plain names and no name that
    holds three backticks, and a title of one line without a fence,
    [dump_md] with any indentation and any caps (after lines without a
    fence, when it appends) writes a file from which [load_md] decodes the
    tree as the caps leave it.  The facade [load_md] returns is built for
    the name of the root, not for the path the tree was read from: when no
    path of that name exists the load raises [ValueError], and when it
    returns, the root of the facade spells the pruned tree. *)
Theorem dump_md_then_load_md (os : os_env) (fnmatch : list N -> list N -> bool)
    (h : list TreeNode) (l : nat) (T : Tree) (self : FileTree)
    (old : list N) (append : bool) (indent fd ld : Z) (title : option (list N))
    (h0 : list TreeNode) (fuel fuel' : nat) :
  root_node self = Some l -> represents h l T -> t_leaf T = false ->
  plain_names T = true -> bare_leaves T = true -> unfenced_names T = true ->
  (0 <= fd)%Z -> (0 <= ld)%Z -> size T <= fuel ->
  (forall t, title = Some t -> no_linebreak t /\ ~ fenced t) ->
  (append = true ->
   exists pre, old = terminated pre
               /\ Forall no_linebreak pre /\ Forall (fun line => ~ fenced line) pre) ->
  exists text,
    dump_md fuel h self old append indent (fd, ld) title = (text, Ok tt)
    /\ load_md os fnmatch fuel' text h0
       = (built <- FileTree_init os fnmatch fuel' (t_name T) None
                     (h0 ++ flatten (length h0) (prune fd ld 0 T));;
          Ok (Some (set_root_node built.1 (Some (length h0))), built.2))
    /\ (os_exists os (t_name T) = false ->
        load_md os fnmatch fuel' text h0
        = Raise (ValueError (py "The path " ++ t_name T ++ py " does not exist.")))
    /\ (forall r h1,
          load_md os fnmatch fuel' text h0 = Ok (r, h1) ->
          r = Some (mkFileTree (t_name T) (Some (length h0)))
          /\ represents h1 (length h0) (prune fd ld 0 T)).
Proof.
  intros Hroot Hrep Hdir Hplain Hbare Hfence Hfd Hld Hfuel Htitle Hold.
  destruct T as [n lf cs]. cbn [t_leaf] in Hdir. subst lf.
  apply (plain_names_prune fd ld _ 0%Z) in Hplain.
  apply (bare_leaves_prune fd ld _ 0%Z) in Hbare.
  apply (unfenced_names_prune fd ld _ 0%Z) in Hfence.
  pose proof (to_md_text_prefix h l _ (times [SPACE] indent) fd ld fuel Hrep Hfd Hld Hfuel)
    as Hmd.
  rewrite prune_unfold in *. cbn [t_name].
  set (cs' := pruned_children fd ld (0 + 1) cs) in *.
  set (p := times [SPACE] indent) in *.
  assert (Hp : blanks p) by apply blanks_times.
  set (L := (n ++ [SLASH]) :: forest_lines [] cs').
  set (tl := match title with Some t => [t; []] | None => [] end).
  assert (Hpre : exists pre, (if append then old else []) = terminated pre
                   /\ Forall no_linebreak pre /\ Forall (fun line => ~ fenced line) pre).
  { destruct append; [by apply Hold|]. exists []. by repeat split. }
  destruct Hpre as (pre & Epre & Hpre1 & Hpre2).
  assert (Htl : Forall no_linebreak tl /\ Forall (fun line => ~ fenced line) tl).
  { unfold tl. destruct title as [t|]; [|by split].
    destruct (Htitle t eq_refl) as [Ht1 Ht2].
    split; (constructor; [done|]); constructor; (done || constructor). }
  destruct Htl as [Htl1 Htl2].
  assert (Hload : load_md os fnmatch fuel'
            (terminated ((pre ++ tl) ++ (p ++ FENCE) :: map (app p) L ++ [p ++ FENCE])) h0
          = (built <- FileTree_init os fnmatch fuel' n None
                        (h0 ++ flatten (length h0) (Entry n false cs'));;
             Ok (Some (set_root_node built.1 (Some (length h0))), built.2))).
  { apply from_md_document; try done; by apply Forall_app. }
  exists (terminated ((pre ++ tl) ++ (p ++ FENCE) :: map (app p) L ++ [p ++ FENCE])).
  split; [|split; [exact Hload|split]].
  - unfold dump_md. rewrite Hroot. fold p. rewrite Hmd, md_text_root_prefix, Epre.
    f_equal. fold L.
    rewrite !terminated_app.
    change (terminated ((p ++ FENCE) :: ?r)) with (((p ++ FENCE) ++ [NL]) ++ terminated r).
    rewrite terminated_app.
    change (terminated [p ++ FENCE]) with (((p ++ FENCE) ++ [NL]) ++ []).
    unfold L at 2. cbn [map]. rewrite terminated_join. fold L.
    rewrite app_nil_r, <- !app_assoc. do 2 f_equal.
    unfold tl. destruct title as [t|]; [|done].
    cbn [terminated flat_map app]. by rewrite <- !app_assoc.
  - intros Hmissing. rewrite Hload. unfold FileTree_init. by rewrite Hmissing.
  - intros r h1 Hrun. rewrite Hload in Hrun.
    destruct (FileTree_init _ _ _ _ _ _) as [[tree h2]| | |] eqn:Hinit; try done.
    cbn [bind fst snd] in Hrun. injection Hrun as <- <-.
    pose proof (FileTree_init_kept os fnmatch _ _ _ _ _ _ Hinit) as [-> Hk].
    split; [done|]. eapply represents_kept; [exact Hk|].
    rewrite <- (app_nil_r (flatten _ _)). apply represents_flatten.
Qed.

Definition TITLE : list N := Eval vm_compute in py "# Tree".

Lemma dump_md_then_load_md_witness :
  exists text,
    dump_md 4 h_example (mkFileTree (py "root") (Some 0)) [] false 2 (1%Z, 1%Z) (Some TITLE)
    = (text, Ok tt)
    /\ load_md os_example fnmatchcase 4 text []
       = (built <- FileTree_init os_example fnmatchcase 4 (t_name T_example) None
                     ([] ++ flatten (length (@nil TreeNode)) (prune 1 1 0 T_example));;
          Ok (Some (set_root_node built.1 (Some (length (@nil TreeNode)))), built.2))
    /\ (os_exists os_example (t_name T_example) = false ->
        load_md os_example fnmatchcase 4 text []
        = Raise (ValueError (py "The path " ++ t_name T_example ++ py " does not exist.")))
    /\ (forall r h1,
          load_md os_example fnmatchcase 4 text [] = Ok (r, h1) ->
          r = Some (mkFileTree (t_name T_example) (Some (length (@nil TreeNode))))
          /\ represents h1 (length (@nil TreeNode)) (prune 1 1 0 T_example)).
Proof.
  apply (dump_md_then_load_md os_example fnmatchcase h_example 0 T_example
           (mkFileTree (py "root") (Some 0)) [] false 2 1 1 (Some TITLE) [] 4 4).
  - reflexivity.
  - apply (reify_represents 3). reflexivity.
  - reflexivity.
  - reflexivity.
  - reflexivity.
  - reflexivity.
  - lia.
  - lia.
  - vm_compute. lia.
  - intros t [= <-]. split; [by repeat constructor|]. unfold fenced. vm_compute. discriminate.
  - discriminate.
Defined.

(** * Searching a tree that was built from the disk *)

Section BuiltSearch.

Variable os : os_env.
Variable fnmatch : list N -> list N -> bool.
Variable root_path : list N.
Variable ignore_patterns : option (list (list N)).

(** A node of the tree a walk meets sits at the path of an entry that a
    listing gave and that was not ignored. *)
Lemma paths_listed T : forall p q M,
  snapshot os fnmatch root_path ignore_patterns p T -> (q, M) ∈ paths p T ->
  exists parent items,
    q = PosixPath.join parent (t_name M)
    /\ os_listdir os parent = Entries items /\ t_name M ∈ items
    /\ kept os fnmatch root_path ignore_patterns parent (t_name M) = true.
Proof using Type.
  induction T as [n lf cs IH] using Tree_ind'. intros p q M Hsnap Hin.
  apply snapshot_unfold in Hsnap as [_ Hsnap]. rewrite paths_unfold in Hin.
  apply list_elem_of_In, in_flat_map in Hin as (c & Hc & Hin).
  apply list_elem_of_In in Hc.
  destruct (os_listdir os p) as [items| |] eqn:Hlist; [|subst cs; set_solver|done].
  apply list_elem_of_lookup in Hc as [k Hk].
  destruct (Forall2_lookup_r _ _ _ _ _ Hsnap Hk) as (item & Hitem & Hname & Hent).
  apply list_elem_of_lookup_2, list_elem_of_filter in Hitem as [Hkept Hlisted].
  destruct Hin as [[= <- <-]|Hin].
  - exists p, items. rewrite Hname. by repeat split.
  - destruct (t_leaf c) eqn:Hleaf; [done|].
    destruct (os_isdir os (PosixPath.join p item)).
    2:{ subst c. done. }
    rewrite Forall_forall in IH. rewrite Hname in Hin.
    apply (IH c (list_elem_of_lookup_2 _ _ _ Hk) _ _ _ Hent). by apply list_elem_of_In.
Qed.

End BuiltSearch.

(** root/{b, a} on disk, listed in that order. *)
Definition os_unsorted : os_env :=
  {| os_exists := fun p => bool_decide (p = py "root");
     os_isdir := fun _ => false;
     os_listdir := fun p =>
       if bool_decide (p = py "root") then Entries [py "b"; py "a"] else ListingFails;
     os_relpath := fun p start => drop (S (length start)) p |}.

(** X12: [FileTree(dir, ignore)] followed by [where(target)].  When the
    listings the walk meets come in ascending order of names, the search on
    the tree just built ends; a path it returns is the path of an entry
    named [target] that a listing gave and that was not ignored, and it
    returns [None] only when the walk met no entry of that name.  The order
    is needed: with a directory listed as [b, a], [where("a")] on the tree
    built from it finds nothing. *)
Theorem FileTree_init_then_where (os : os_env) (fnmatch : list N -> list N -> bool)
    (dir : list N) (ignore : option (list (list N))) (T : Tree)
    (target : list N) (h : list TreeNode) :
  heap_inv h -> snapshot os fnmatch dir ignore dir T ->
  os_exists os dir = true -> name_sorted T ->
  (exists r,
     (forall fuel, size T <= fuel ->
        exists h',
          FileTree_init os fnmatch fuel dir ignore h
          = Ok (mkFileTree dir (Some (length h)), h')
          /\ exists n, forall fuel', n <= fuel' ->
               where_ fuel' h' (mkFileTree dir (Some (length h))) target = Ok r)
     /\ (forall p, r = Some p ->
           exists parent items,
             p = PosixPath.join parent target
             /\ os_listdir os parent = Entries items /\ target ∈ items
             /\ kept os fnmatch dir ignore parent target = true)
     /\ (r = None -> forall p M, (p, M) ∈ paths dir T -> t_name M <> target))
  /\ (exists h',
        FileTree_init os_unsorted fnmatchcase 3 (py "root") None []
        = Ok (mkFileTree (py "root") (Some 0), h')
        /\ where_ 3 h' (mkFileTree (py "root") (Some 0)) (py "a") = Ok None).
Proof.
  intros Hinv Hsnap Hex Hsorted. split.
  2:{ eexists. split; vm_compute; reflexivity. }
  destruct T as [n lf cs].
  pose proof Hsnap as Hsnap'. apply snapshot_unfold in Hsnap' as [-> _].
  set (T' := Entry (PosixPath.basename dir) false cs).
  assert (Hsame : forall path, where_descending path T' target
                               = where_descending path (Entry n false cs) target)
    by reflexivity.
  exists (where_descending dir (Entry n false cs) target).
  split; [|split].
  - intros fuel Hfuel.
    destruct (FileTree_init_tree os fnmatch dir ignore (Entry n false cs) fuel h
                Hsnap Hex Hfuel) as (h' & Hrun & Hrep & _).
    exists h'. split; [exact Hrun|]. cbn [t_children] in Hrep. fold T' in Hrep.
    pose proof (heap_inv_FileTree_init os fnmatch _ _ _ _ _ _ Hinv Hrun) as Hinv'.
    destruct (where_loop_tree h' target T' Hinv' _ Hrep) as (k & Hvisit); [done|done|].
    exists k. intros fuel' Hk.
    unfold where_. cbn [root_node root_path].
    replace fuel' with (k + (fuel' - k)) by lia. rewrite Hvisit, Hsame.
    destruct (where_descending _ _ _); [done|]. by destruct (fuel' - k).
  - intros p Hp. apply where_descending_sound in Hp as (M & HM & <-).
    by eapply paths_listed.
  - apply where_descending_complete.
Qed.

Lemma FileTree_init_then_where_witness :
  exists r,
    (forall fuel, size T_example <= fuel ->
       exists h',
         FileTree_init os_example fnmatchcase fuel (py "root") None []
         = Ok (mkFileTree (py "root") (Some (length (@nil TreeNode))), h')
         /\ exists n, forall fuel', n <= fuel' ->
              where_ fuel' h' (mkFileTree (py "root") (Some (length (@nil TreeNode)))) B_TXT
              = Ok r)
    /\ (forall p, r = Some p ->
          exists parent items,
            p = PosixPath.join parent B_TXT
            /\ os_listdir os_example parent = Entries items /\ B_TXT ∈ items
            /\ kept os_example fnmatchcase (py "root") None parent B_TXT = true)
    /\ (r = None -> forall p M, (p, M) ∈ paths (py "root") T_example -> t_name M <> B_TXT).
Proof.
  refine (proj1 (FileTree_init_then_where os_example fnmatchcase (py "root") None
                   T_example B_TXT [] _ _ _ _)).
  - intros l o Hl. done.
  - exact snapshot_example.
  - reflexivity.
  - exact name_sorted_example.
Defined.

(** * The mapping of a facade *)



(** * The listing of a facade read back *)

(** ** The lines of a listing *)

(** The lines [to_repr] writes below the root: four blanks for each level,
    the connector, the name, a [/] after a directory. *)
Fixpoint repr_lines (k : nat) (T : Tree) : list (list N) :=
  match T with
  | Entry n lf cs =>
    (times Node.INDENT (Z.of_nat k) ++ Node.CONNECTOR ++ n ++ (if lf then [] else [SLASH]))
    :: (if lf then [] else flat_map (repr_lines (S k)) cs)
  end.

Lemma repr_lines_unfold k n lf cs :
  repr_lines k (Entry n lf cs)
  = (times Node.INDENT (Z.of_nat k) ++ Node.CONNECTOR ++ n ++ (if lf then [] else [SLASH]))
    :: (if lf then [] else flat_map (repr_lines (S k)) cs).
Proof. reflexivity. Qed.

Lemma repr_text_lines T : forall k,
  0 < k -> repr_text (Z.of_nat k) T = flat_map (fun l => NL :: l) (repr_lines k T).
Proof.
  induction T as [n lf cs IH] using Tree_ind'. intros k Hk.
  rewrite repr_lines_unfold. cbn [repr_text flat_map].
  assert ((0 <? Z.of_nat k)%Z = true) as -> by lia.
  cbn [app]. f_equal. rewrite <- !app_assoc. do 3 f_equal.
  destruct lf; [done|]. cbn [app]. f_equal.
  replace (Z.of_nat k + 1)%Z with (Z.of_nat (S k)) by lia.
  induction IH as [|c cs Hc _ IHcs]; [done|].
  cbn [flat_map]. rewrite flat_map_app, IHcs. f_equal. apply Hc. lia.
Qed.

Lemma join_lines l lines :
  PyStr.join [NL] (l :: lines) = l ++ flat_map (fun x => NL :: x) lines.
Proof.
  revert l. induction lines as [|l2 lines IH]; intros l.
  - cbn. by rewrite app_nil_r.
  - change (PyStr.join [NL] (l :: l2 :: lines))
      with (l ++ [NL] ++ PyStr.join [NL] (l2 :: lines)).
    rewrite IH. reflexivity.
Qed.

Lemma repr_text_root n cs :
  repr_text 0 (Entry n false cs)
  = PyStr.join [NL] ((n ++ [SLASH]) :: flat_map (repr_lines 1) cs).
Proof.
  rewrite join_lines. cbn [repr_text]. change (0 <? 0)%Z with false. cbn match.
  rewrite <- app_assoc. do 2 f_equal. change (0 + 1)%Z with (Z.of_nat 1).
  induction cs as [|c cs IH]; [done|].
  cbn [flat_map]. rewrite flat_map_app, IH. f_equal. apply repr_text_lines. lia.
Qed.

(** ** Names a listing can carry *)

(** A plain name that does not hold the connector. *)
Definition listing_name (n : list N) : bool :=
  plain_name n && negb (contains n Node.CONNECTOR).

Fixpoint listing_names (T : Tree) : bool :=
  match T with Entry n _ cs => listing_name n && forallb listing_names cs end.

Lemma replace_from_uncontained old new s :
  contains s old = false -> replace_from old new 0 s = s.
Proof.
  induction s as [|x s IH]; [done|].
  cbn [contains replace_from]. intros H. apply orb_false_iff in H as [H1 H2].
  rewrite H1. f_equal. by apply IH.
Qed.

Lemma blanks_indent k :
  blanks (times Node.INDENT (Z.of_nat k))
  /\ length (times Node.INDENT (Z.of_nat k)) = 4 * k.
Proof.
  unfold times. rewrite Nat2Z.id. induction k as [|k [IH1 IH2]]; [by split; [constructor|]|].
  cbn [replicate concat]. split.
  - apply Forall_app. split; [by repeat constructor|done].
  - rewrite length_app, IH2. cbn [length Node.INDENT]. lia.
Qed.

Lemma listing_name_plain n : listing_name n = true -> plain_name n = true.
Proof. unfold listing_name. intros H. by apply andb_true_iff in H as [? _]. Qed.

Section ListingLine.
Variables (sp n : list N) (k : nat) (lf : bool).
Hypothesis Hsp : blanks sp.
Hypothesis Hlen : length sp = 4 * k.
Hypothesis Hn : listing_name n = true.

Let sl : list N := if lf then [] else [SLASH].
Let line : list N := sp ++ Node.CONNECTOR ++ n ++ sl.

Lemma listing_line_end :
  exists f d, Node.CONNECTOR ++ n ++ sl = f ++ [d] /\ isspace d = false
              /\ (d = SLASH <-> lf = false).
Proof using All.
  pose proof (listing_name_plain n Hn) as Hplain.
  destruct (plain_name_last n Hplain) as (f & d & E & Hd).
  unfold sl. destruct lf.
  - exists (Node.CONNECTOR ++ f), d. rewrite app_nil_r, E, app_assoc.
    split; [done|]. split; [done|]. split; [|done]. intros ->.
    exfalso. apply (plain_name_chars n SLASH Hplain); [done|].
    rewrite E. set_solver.
  - exists (Node.CONNECTOR ++ n), SLASH. by rewrite app_assoc.
Qed.

Lemma listing_line_content : strip line = Node.CONNECTOR ++ n ++ sl.
Proof using All.
  unfold line, strip.
  change Node.CONNECTOR with (124%N :: [45; 45; 32]%N). cbn [app].
  rewrite blanks_lstrip by done.
  destruct listing_line_end as (f & d & E & Hd & _).
  change (124%N :: 45%N :: 45%N :: 32%N :: n ++ sl) with (Node.CONNECTOR ++ n ++ sl).
  rewrite E. by apply rstrip_last.
Qed.

Lemma listing_line_indent : (length line - length (lstrip line)) / 4 = k.
Proof using All.
  unfold line.
  change Node.CONNECTOR with (124%N :: [45; 45; 32]%N). cbn [app].
  rewrite blanks_lstrip by done. rewrite length_app. cbn [length].
  generalize (length (n ++ sl)). intros m.
  replace (length sp + S (S (S (S m))) - S (S (S (S m)))) with (k * 4) by lia.
  apply Nat.div_mul. lia.
Qed.

Lemma listing_line_leaf : negb (endswith (Node.CONNECTOR ++ n ++ sl) [SLASH]) = lf.
Proof using All.
  destruct listing_line_end as (f & d & -> & _ & Hd).
  unfold endswith. rewrite rev_unit. cbn [rev app startswith].
  assert (startswith (rev f) [] = true) as -> by (by destruct (rev f)).
  rewrite andb_true_r. destruct (N.eqb_spec SLASH d) as [Heq|Hne].
  - symmetry in Heq. apply Hd in Heq. by rewrite Heq.
  - destruct lf; [done|]. exfalso. apply Hne. symmetry. by apply Hd.
Qed.

Lemma listing_line_name :
  strip (replace (if lf then Node.CONNECTOR ++ n ++ sl
                  else replace (Node.CONNECTOR ++ n ++ sl) [SLASH] [])
           Node.CONNECTOR []) = n.
Proof using All.
  pose proof (listing_name_plain n Hn) as Hplain.
  assert ((if lf then Node.CONNECTOR ++ n ++ sl
           else replace (Node.CONNECTOR ++ n ++ sl) [SLASH] []) = Node.CONNECTOR ++ n) as ->.
  { unfold sl. destruct lf; [by rewrite app_nil_r|].
    rewrite replace_char, !filter_app, (filter_absent n) by (by apply plain_name_chars).
    rewrite filter_cons, decide_False by naive_solver.
    change (filter _ []) with (@nil N). rewrite app_nil_r. f_equal. }
  unfold replace.
  change Node.CONNECTOR with (124%N :: [45; 45; 32]%N).
  pose proof (replace_from_first 124%N [45; 45; 32]%N [] [] n) as E.
  cbn [app] in E. cbn [app]. rewrite E by set_solver.
  rewrite replace_from_uncontained.
  2:{ unfold listing_name in Hn. apply andb_true_iff in Hn as [_ H].
      by apply negb_true_iff in H. }
  apply strip_ends; [by apply plain_name_head|by apply plain_name_last].
Qed.

Lemma from_repr_line_attach st :
  Node.from_repr_line line st = Node.attach n lf k st.
Proof using All.
  unfold Node.from_repr_line. rewrite listing_line_indent, listing_line_content.
  rewrite listing_line_leaf.
  pose proof listing_line_name as E. destruct lf; by rewrite E.
Qed.

Lemma listing_line_ok : line_ok line.
Proof using All.
  split.
  - unfold line, no_linebreak. rewrite !Forall_app. repeat split.
    + by apply blanks_no_linebreak.
    + by repeat constructor.
    + by apply plain_name_no_linebreak, listing_name_plain.
    + unfold sl. destruct lf; by repeat constructor.
  - destruct listing_line_end as (f & d & E & Hd & _).
    exists (sp ++ f), d. unfold line. by rewrite E, app_assoc.
Qed.

End ListingLine.

(** ** Trees a listing gives back *)

(** Every child but the last one is a leaf, at every directory. *)
Fixpoint dirs_last (T : Tree) : bool :=
  match T with
  | Entry _ _ cs =>
    (fix each (cs : list Tree) : bool :=
       match cs with
       | [] => true
       | c :: rest => (negb (nonempty rest) || t_leaf c) && dirs_last c && each rest
       end) cs
  end.

Definition dirs_last_forest : list Tree -> bool :=
  fix each (cs : list Tree) : bool :=
    match cs with
    | [] => true
    | c :: rest => (negb (nonempty rest) || t_leaf c) && dirs_last c && each rest
    end.

Lemma dirs_last_unfold n lf cs : dirs_last (Entry n lf cs) = dirs_last_forest cs.
Proof. reflexivity. Qed.

Lemma for_lines_app body a b st :
  Node.for_lines body (a ++ b) st
  = (st' <- Node.for_lines body a st;; Node.for_lines body b st').
Proof.
  revert st. induction a as [|l a IH]; intros st; [done|].
  cbn [app Node.for_lines]. destruct (body l st); cbn [bind]; [apply IH|done..].
Qed.

(** A node read at level [k] while the stack holds no more than [k + 1]
    nodes goes to the top of the stack. *)
Lemma attach_top nm lf k h stack p op :
  length stack <= S k -> last stack = Some p ->
  h !! p = Some op -> is_Some (non_leaf_names op) ->
  Node.attach nm lf k (h, stack)
  = Ok (<[p := adopt op (length h) [Entry nm lf []]]> h
          ++ [mkTreeNode nm lf [] (if lf then None else Some ∅)],
        if lf then stack else stack ++ [length h]).
Proof.
  intros Hlen Hlast Hp Hnl. unfold Node.attach, Node.new.
  rewrite pop_to_level_take by done. rewrite take_ge by lia.
  rewrite Hlast. cbn [bind].
  rewrite (new_add_child h p op) by done. cbn [bind]. by destruct lf.
Qed.

(** Reading the lines of a tree at level [k] while the stack holds [k]
    nodes attaches the tree to the top of the stack; after a leaf the stack
    is as before. *)
Definition listing_visit (T : Tree) : Prop :=
  forall k h stack p op,
    length stack = k -> last stack = Some p ->
    h !! p = Some op -> is_Some (non_leaf_names op) ->
    exists stack',
      Node.for_lines Node.from_repr_line (repr_lines k T) (h, stack)
      = Ok (<[p := adopt op (length h) [T]]> h ++ flatten (length h) T, stack')
      /\ (t_leaf T = true -> stack' = stack).

Lemma listing_forest cs :
  Forall listing_visit cs -> dirs_last_forest cs = true ->
  forall k h stack x ox,
    length stack = k -> last stack = Some x ->
    h !! x = Some ox -> is_Some (non_leaf_names ox) ->
    exists stack',
      Node.for_lines Node.from_repr_line (flat_map (repr_lines k) cs) (h, stack)
      = Ok (<[x := adopt ox (length h) cs]> h ++ flatten_forest (length h) cs, stack').
Proof.
  induction 1 as [|c cs Hc _ IH]; intros Hlast k h stack x ox Hlen Htop Hx Hnl.
  - exists stack. cbn [flat_map Node.for_lines flatten_forest].
    by rewrite app_nil_r, adopt_nil, list_insert_id.
  - cbn [dirs_last_forest] in Hlast.
    apply andb_true_iff in Hlast as [Hlast Hrest].
    apply andb_true_iff in Hlast as [Hleaf _].
    cbn [flat_map]. rewrite for_lines_app.
    destruct (Hc k h stack x ox Hlen Htop Hx Hnl) as (stack1 & Hrun1 & Hst1).
    rewrite Hrun1. cbn [bind].
    pose proof (lookup_lt_Some _ _ _ Hx) as Hlt.
    destruct cs as [|c2 cs].
    { exists stack1. cbn [flat_map Node.for_lines flatten_forest]. by rewrite app_nil_r. }
    cbn [nonempty negb orb] in Hleaf. rewrite (Hst1 Hleaf).
    destruct (IH Hrest k (<[x := adopt ox (length h) [c]]> h ++ flatten (length h) c) stack
                x (adopt ox (length h) [c]) Hlen Htop) as (stack2 & Hrun2).
    + rewrite lookup_app_l by (by rewrite length_insert). by rewrite list_lookup_insert_eq.
    + unfold adopt. cbn [non_leaf_names]. destruct Hnl as [s ->]. eauto.
    + exists stack2. rewrite Hrun2. do 2 f_equal.
      rewrite length_app, length_insert, length_flatten, adopt_cons.
      rewrite insert_app_l by (by rewrite length_insert).
      rewrite list_insert_insert_eq, (flatten_forest_cons _ c). by rewrite <- app_assoc.
Qed.

Lemma listing_tree T :
  listing_names T = true -> bare_leaves T = true -> dirs_last T = true ->
  listing_visit T.
Proof.
  induction T as [n lf cs IH] using Tree_ind'.
  intros Hnames Hbare Hlast k h stack p op Hlen Htop Hp Hnl.
  cbn [listing_names bare_leaves] in Hnames, Hbare. rewrite dirs_last_unfold in Hlast.
  apply andb_true_iff in Hnames as [Hn Hcs]. apply andb_true_iff in Hbare as [Hlf Hbs].
  rewrite repr_lines_unfold, for_lines_cons.
  destruct (blanks_indent k) as [Hsp Hsplen].
  rewrite (from_repr_line_attach _ n k lf Hsp Hsplen Hn).
  rewrite (attach_top n lf k h stack p op) by (done || lia). cbn [bind].
  pose proof (lookup_lt_Some _ _ _ Hp) as Hplt.
  destruct lf.
  - destruct cs as [|c cs]; [|done]. exists stack. split; [|done]. reflexivity.
  - set (x0 := mkTreeNode n false [] (Some ∅)).
    set (A := <[p := adopt op (length h) [Entry n false []]]> h).
    assert (HA : length A = length h) by apply length_insert.
    destruct (listing_forest cs) with
      (k := S k) (h := A ++ [x0]) (stack := stack ++ [length h]) (x := length h)
      (ox := x0) as (stack2 & Hrun); try done.
    + rewrite Forall_forall in IH. apply Forall_forall. intros c Hc.
      rewrite forallb_forall in Hcs, Hbs. apply list_elem_of_In in Hc as Hc'.
      assert (Hdl : dirs_last c = true).
      { clear -Hlast Hc. induction cs as [|c0 cs IHcs]; [set_solver|].
        cbn [dirs_last_forest] in Hlast.
        apply andb_true_iff in Hlast as [Hl Hrest].
        apply andb_true_iff in Hl as [_ Hl].
        apply elem_of_cons in Hc as [->|Hc]; [done|by apply IHcs]. }
      apply IH; [done|by apply Hcs|by apply Hbs|done].
    + rewrite length_app. cbn [length]. lia.
    + by rewrite last_snoc.
    + rewrite <- HA. by apply list_lookup_middle.
    + exists stack2. split; [|done].
      rewrite Hrun. do 2 f_equal. rewrite <- HA at 1. unfold x0. rewrite flatten_grown.
      unfold A. rewrite length_insert.
      pose proof (adopt_single op (length h) (Entry n false cs)) as Ha.
      cbn [t_name t_leaf] in Ha. by rewrite Ha.
Qed.

Lemma repr_lines_ok T : forall k,
  listing_names T = true -> Forall line_ok (repr_lines k T).
Proof.
  induction T as [n lf cs IH] using Tree_ind'. intros k Hnames.
  cbn [listing_names] in Hnames. apply andb_true_iff in Hnames as [Hn Hcs].
  rewrite repr_lines_unfold. destruct (blanks_indent k) as [Hsp Hsplen].
  constructor; [by apply (listing_line_ok _ n k lf)|].
  destruct lf; [constructor|].
  generalize (S k). intros k'.
  induction IH as [|c cs Hc _ IHcs]; [constructor|].
  cbn [forallb] in Hcs. apply andb_true_iff in Hcs as [Hc1 Hcs].
  cbn [flat_map]. apply Forall_app. split; [by apply Hc|by apply IHcs].
Qed.

(** Decoding the listing of a directory tree in which every directory
    comes last lays the tree out at the end of the store. *)
Lemma from_repr_repr_text n cs h0 :
  listing_names (Entry n false cs) = true -> bare_leaves (Entry n false cs) = true ->
  dirs_last (Entry n false cs) = true ->
  Node.from_repr (repr_text 0 (Entry n false cs)) h0
  = Ok (Some (length h0), h0 ++ flatten (length h0) (Entry n false cs)).
Proof.
  intros Hnames Hbare Hlast. rewrite repr_text_root.
  pose proof Hnames as Hnames'. pose proof Hbare as Hbare'.
  cbn [listing_names bare_leaves] in Hnames', Hbare'. rewrite dirs_last_unfold in Hlast.
  apply andb_true_iff in Hnames' as [Hn Hcs]. apply andb_true_iff in Hbare' as [_ Hbs].
  pose proof (listing_name_plain n Hn) as Hplain.
  destruct (plain_name_head n Hplain) as (c & r & En & Hc).
  assert (Hl0 : line_ok (n ++ [SLASH])).
  { split; [|by exists n, SLASH].
    apply Forall_app. split; [by apply plain_name_no_linebreak|by repeat constructor]. }
  assert (Hall : Forall line_ok ((n ++ [SLASH]) :: flat_map (repr_lines 1) cs)).
  { constructor; [done|]. clear -Hcs. induction cs as [|c cs IH]; [constructor|].
    cbn [forallb] in Hcs. apply andb_true_iff in Hcs as [Hc Hcs].
    cbn [flat_map]. apply Forall_app. split; [by apply repr_lines_ok|by apply IH]. }
  unfold Node.from_repr. rewrite strip_ends; [| |by apply join_last].
  2:{ rewrite En. destruct (flat_map (repr_lines 1) cs); eexists _, _; (split; [reflexivity|done]). }
  rewrite splitlines_join; [| |by apply line_ok_last].
  2:{ eapply Forall_impl; [exact Hall|]. by intros ? [? _]. }
  rewrite (strip_ends (n ++ [SLASH]));
    [|by rewrite En; eexists _, _|by exists n, SLASH].
  rewrite replace_char, filter_app, (filter_absent n) by (by apply plain_name_chars).
  rewrite filter_cons, decide_False by naive_solver.
  change (filter _ []) with (@nil N). rewrite app_nil_r.
  unfold Node.new.
  set (x0 := mkTreeNode n false [] (Some ∅)).
  destruct (listing_forest cs) with
    (k := 1) (h := h0 ++ [x0]) (stack := [length h0]) (x := length h0)
    (ox := x0) as (stack2 & Hrun); try done.
  - apply Forall_forall. intros t Ht. rewrite forallb_forall in Hcs, Hbs.
    apply list_elem_of_In in Ht as Ht'. apply listing_tree; [by apply Hcs|by apply Hbs|].
    clear -Hlast Ht. induction cs as [|c0 cs IHcs]; [set_solver|].
    cbn [dirs_last_forest] in Hlast.
    apply andb_true_iff in Hlast as [Hl Hrest].
    apply andb_true_iff in Hl as [_ Hl].
    apply elem_of_cons in Ht as [->|Ht]; [done|by apply IHcs].
  - by apply list_lookup_middle.
  - rewrite Hrun. cbn [bind fst]. unfold x0. by rewrite flatten_grown.
Qed.

Lemma t_leaf_prune fd ld lvl T : t_leaf (prune fd ld lvl T) = t_leaf T.
Proof. by destruct T. Qed.

Lemma listing_names_prune fd ld T : forall lvl,
  listing_names T = true -> listing_names (prune fd ld lvl T) = true.
Proof.
  induction T as [n lf cs IH] using Tree_ind'. intros lvl H.
  rewrite prune_unfold. cbn [listing_names] in *.
  apply andb_true_iff in H as [Hn Hcs]. rewrite Hn. cbn [andb].
  by apply pruned_children_forallb.
Qed.

Lemma dirs_last_prune fd ld T : forall lvl,
  dirs_last T = true -> dirs_last (prune fd ld lvl T) = true.
Proof.
  induction T as [n lf cs IH] using Tree_ind'. intros lvl H.
  rewrite prune_unfold, dirs_last_unfold in *.
  generalize (lvl + 1)%Z. intros lv.
  induction IH as [|c cs Hc _ IHcs]; [done|].
  cbn [dirs_last_forest] in H.
  apply andb_true_iff in H as [H Hrest]. apply andb_true_iff in H as [Hleaf Hdl].
  change (pruned_children fd ld lv (c :: cs))
    with ((if within_caps fd ld lv c then [prune fd ld lv c] else [])
          ++ pruned_children fd ld lv cs).
  destruct (within_caps fd ld lv c); [|by apply IHcs].
  cbn [app dirs_last_forest]. rewrite Hc, IHcs, t_leaf_prune by done.
  rewrite !andb_true_r. destruct (t_leaf c); [by rewrite orb_true_r|].
  rewrite orb_false_r in Hleaf. by destruct cs.
Qed.


(** root/{c.txt, z/{b.txt}}: the directory comes last. *)
Definition T_last : Tree :=
  Entry (py "root") false
    [Entry (py "c.txt") true []; Entry (py "z") false [Entry (py "b.txt") true []]].

Definition h_last : list TreeNode := flatten 0 T_last.


(** * The patterns of an ignore file *)

(** ** What [strip] leaves *)

Lemma lstrip_decompose s :
  exists a, s = a ++ lstrip s /\ Forall (fun c => isspace c = true) a.
Proof.
  induction s as [|c s (a & E & Ha)]; [by exists []|].
  cbn [lstrip]. destruct (isspace c) eqn:Hc.
  - exists (c :: a). split; [by rewrite E at 1|by constructor].
  - by exists [].
Qed.

Lemma lstrip_head_nonspace s c r : lstrip s = c :: r -> isspace c = false.
Proof.
  induction s as [|x s IH]; [done|]. cbn [lstrip].
  destruct (isspace x) eqn:Hx; [exact IH|]. by intros [= <- _].
Qed.

Lemma rstrip_decompose s :
  exists a, s = rstrip s ++ a /\ Forall (fun c => isspace c = true) a.
Proof.
  destruct (lstrip_decompose (rev s)) as (a & E & Ha).
  exists (rev a). split.
  - unfold rstrip. rewrite <- rev_app_distr, <- E. by rewrite rev_involutive.
  - apply Forall_forall. intros x Hx. rewrite Forall_forall in Ha. apply Ha.
    by apply (proj1 (elem_of_rev_iff _ _)) in Hx.
Qed.

(** A text that is not blank keeps, once stripped, a first and a last
    character that are no white space. *)
Lemma strip_nonempty_ends s :
  strip s <> [] ->
  (exists c r, strip s = c :: r /\ isspace c = false)
  /\ (exists f d, strip s = f ++ [d] /\ isspace d = false).
Proof.
  intros Hne. unfold strip in *. split.
  - destruct (rstrip_decompose (lstrip s)) as (a & E & _).
    destruct (rstrip (lstrip s)) as [|c r] eqn:Er; [done|].
    exists c, r. split; [done|]. cbn [app] in E. by eapply lstrip_head_nonspace.
  - unfold rstrip in *. destruct (lstrip (rev (lstrip s))) as [|d w] eqn:Ew; [done|].
    exists (rev w), d. split; [done|]. by eapply lstrip_head_nonspace.
Qed.

Lemma strip_strip s : strip (strip s) = strip s.
Proof.
  destruct (strip s) as [|c r] eqn:E; [done|]. rewrite <- E.
  destruct (strip_nonempty_ends s) as [H1 H2]; [by rewrite E|].
  by apply strip_ends.
Qed.

Lemma strip_sub s x : x ∈ strip s -> x ∈ s.
Proof.
  unfold strip. intros Hx.
  destruct (rstrip_decompose (lstrip s)) as (a & E & _).
  destruct (lstrip_decompose s) as (b & E' & _).
  rewrite E', E. set_solver.
Qed.

Lemma rstrip_snoc_space t c : isspace c = true -> rstrip (t ++ [c]) = rstrip t.
Proof. intros Hc. unfold rstrip. rewrite rev_unit. cbn [lstrip]. by rewrite Hc. Qed.

Lemma strip_snoc_space s c : isspace c = true -> strip (s ++ [c]) = strip s.
Proof.
  intros Hc. unfold strip.
  destruct (lstrip_decompose s) as (a & E & Ha).
  rewrite E at 1. rewrite <- app_assoc, lstrip_spaces by done.
  destruct (lstrip s) as [|x u] eqn:Eu.
  - cbn [app lstrip]. by rewrite Hc.
  - cbn [app]. rewrite lstrip_head by (by eapply lstrip_head_nonspace).
    change (x :: u ++ [c]) with ((x :: u) ++ [c]). by apply rstrip_snoc_space.
Qed.

(** ** The lines of a file *)

Lemma universal_newlines_no_cr s : CR ∉ universal_newlines s.
Proof.
  assert (Hgen : forall n s, length s <= n -> CR ∉ universal_newlines s).
  { clear s. induction n as [|n IH]; intros s Hlen.
    - destruct s; [set_solver|cbn in Hlen; lia].
    - destruct s as [|c r]; [set_solver|]. cbn [length] in Hlen.
      cbn [universal_newlines]. destruct (N.eqb_spec c CR) as [->|Hc].
      + destruct r as [|c' r']; [set_solver|]. cbn [length] in Hlen.
        destruct (c' =? NL)%N; apply not_elem_of_cons; (split; [done|]);
          apply IH; cbn [length]; lia.
      + apply not_elem_of_cons. split; [done|]. apply IH. lia. }
  by apply (Hgen (length s)).
Qed.

Lemma readlines_from_chars s : forall cur line x,
  line ∈ readlines_from cur s -> x ∈ line -> x ∈ cur \/ x ∈ s.
Proof.
  induction s as [|c r IH]; intros cur line x Hline Hx.
  - cbn [readlines_from] in Hline. destruct cur as [|y cur]; [set_solver|].
    apply list_elem_of_singleton in Hline. subst line. left.
    by apply (proj1 (elem_of_rev_iff _ _)) in Hx.
  - cbn [readlines_from] in Hline. destruct (c =? NL)%N.
    + apply elem_of_cons in Hline as [->|Hline].
      * apply (proj1 (elem_of_rev_iff _ _)) in Hx. set_solver.
      * destruct (IH _ _ _ Hline Hx); set_solver.
    + destruct (IH _ _ _ Hline Hx); set_solver.
Qed.

(** A line of the file is a text without a line feed, closed by a line
    feed or, for a last line, by nothing. *)
Lemma readlines_from_shape s : forall cur line,
  NL ∉ cur -> line ∈ readlines_from cur s ->
  exists body, (line = body ++ [NL] \/ line = body) /\ NL ∉ body.
Proof.
  induction s as [|c r IH]; intros cur line Hcur Hline.
  - cbn [readlines_from] in Hline. destruct cur as [|y cur]; [set_solver|].
    apply list_elem_of_singleton in Hline. subst line.
    exists (rev (y :: cur)). split; [by right|].
    intros Hin. apply Hcur. by apply (proj1 (elem_of_rev_iff _ _)) in Hin.
  - cbn [readlines_from] in Hline. destruct (N.eqb_spec c NL) as [->|Hc].
    + apply elem_of_cons in Hline as [->|Hline].
      * exists (rev cur). split; [by left|].
        intros Hin. apply Hcur. by apply (proj1 (elem_of_rev_iff _ _)) in Hin.
      * eapply IH; [|exact Hline]. set_solver.
    + eapply IH; [|exact Hline]. set_solver.
Qed.

Lemma readlines_from_line l : forall cur rest,
  NL ∉ l ->
  readlines_from cur (l ++ NL :: rest) = (rev cur ++ l ++ [NL]) :: readlines_from [] rest.
Proof.
  induction l as [|c l IH]; intros cur rest Hl.
  - cbn [app readlines_from]. change (NL =? NL)%N with true. cbn [rev]. done.
  - apply not_elem_of_cons in Hl as [Hc Hl].
    cbn [app readlines_from]. apply N.eqb_neq in Hc. rewrite N.eqb_sym, Hc.
    rewrite IH by done. cbn [rev]. by rewrite <- !app_assoc.
Qed.

Lemma readlines_terminated ps :
  Forall (fun p => (NL ∉ p) /\ (CR ∉ p)) ps ->
  readlines (terminated ps) = map (fun p => p ++ [NL]) ps.
Proof.
  intros Hps. unfold readlines. rewrite universal_newlines_id.
  2:{ induction Hps as [|p ps [_ Hp] _ IH]; [constructor|].
      change (terminated (p :: ps)) with ((p ++ [NL]) ++ terminated ps).
      apply Forall_app. split; [|done]. apply Forall_app. split; [|by repeat constructor].
      apply Forall_forall. intros x Hx ->. done. }
  induction Hps as [|p ps [Hp _] _ IH]; [done|].
  change (terminated (p :: ps)) with ((p ++ [NL]) ++ terminated ps).
  rewrite <- app_assoc. cbn [app]. rewrite readlines_from_line by done.
  cbn [rev app map]. by rewrite IH.
Qed.

(** ** The patterns *)

Lemma parsed_lines_elem sym lines p :
  p ∈ parsed_lines sym lines ->
  exists line, line ∈ lines /\ p = strip line /\ p <> [] /\ startswith p sym = false.
Proof.
  induction lines as [|line lines IH]; [set_solver|].
  cbn [parsed_lines]. cbn zeta.
  destruct (strip line) as [|c r] eqn:E.
  { cbn [andb]. intros H. destruct (IH H) as (l & ? & ?). exists l. set_solver. }
  destruct (startswith (c :: r) sym) eqn:Hs; cbn [negb andb].
  { intros H. destruct (IH H) as (l & ? & ?). exists l. set_solver. }
  intros H. apply elem_of_cons in H as [->|H].
  - exists line. rewrite E. set_solver.
  - destruct (IH H) as (l & ? & ?). exists l. set_solver.
Qed.

Lemma parsed_lines_fixed sym ps :
  Forall (fun p => p <> [] /\ strip p = p /\ startswith p sym = false) ps ->
  parsed_lines sym (map (fun p => p ++ [NL]) ps) = ps.
Proof.
  induction 1 as [|p ps (Hne & Hstrip & Hsym) _ IH]; [done|].
  cbn [map parsed_lines]. cbn zeta.
  rewrite strip_snoc_space, Hstrip, Hsym, IH by done.
  by destruct p.
Qed.

(** X15: [parse_ignore_file] raises [FileNotFoundError] for a path that
    does not exist and for one that is no regular file.  Otherwise it
    returns patterns that are not empty, have no white space at either
    end, hold no line feed and no carriage return and do not start with
    the comment symbol; with the empty comment symbol it returns no
    pattern at all; and a file holding the returned patterns, one on each
    line, is parsed to the same patterns. *)
Theorem parse_ignore_file_patterns (os : os_env) (os_isfile : list N -> bool)
    (content file_path comment_symbol : list N) :
  (os_exists os file_path = false ->
   parse_ignore_file os os_isfile content file_path comment_symbol
   = FileNotFoundError (py "The file '" ++ file_path ++ py "' does not exist."))
  /\ (os_exists os file_path = true -> os_isfile file_path = false ->
      parse_ignore_file os os_isfile content file_path comment_symbol
      = FileNotFoundError (py "'" ++ file_path ++ py "' is not a valid file."))
  /\ (os_exists os file_path = true -> os_isfile file_path = true ->
      exists patterns,
        parse_ignore_file os os_isfile content file_path comment_symbol = Patterns patterns
        /\ (forall p, p ∈ patterns ->
              p <> [] /\ strip p = p /\ (NL ∉ p) /\ (CR ∉ p)
              /\ startswith p comment_symbol = false)
        /\ (comment_symbol = [] -> patterns = [])
        /\ parse_ignore_file os os_isfile (terminated patterns) file_path comment_symbol
           = Patterns patterns).
Proof.
  split; [|split].
  - intros Hex. unfold parse_ignore_file. by rewrite Hex.
  - intros Hex Hfile. unfold parse_ignore_file. by rewrite Hex, Hfile.
  - intros Hex Hfile. unfold parse_ignore_file. rewrite Hex, Hfile. cbn [negb].
    eexists. split; [reflexivity|].
    assert (Hall : forall p, p ∈ parsed_lines comment_symbol (readlines content) ->
              p <> [] /\ strip p = p /\ (NL ∉ p) /\ (CR ∉ p)
              /\ startswith p comment_symbol = false).
    { intros p Hp. apply parsed_lines_elem in Hp as (line & Hline & -> & Hne & Hsym).
      split; [done|]. split; [apply strip_strip|]. split; [|split; [|done]].
      - unfold readlines in Hline.
        apply readlines_from_shape in Hline as (body & Hshape & Hbody); [|set_solver].
        assert (strip line = strip body) as ->.
        { destruct Hshape as [-> | ->]; [by apply strip_snoc_space|done]. }
        intros Hin. by apply Hbody, strip_sub.
      - intros Hin. apply strip_sub in Hin. unfold readlines in Hline.
        destruct (readlines_from_chars _ _ _ _ Hline Hin) as [H|H]; [set_solver|].
        by apply universal_newlines_no_cr in H. }
    split; [exact Hall|]. split.
    + intros ->. destruct (parsed_lines [] (readlines content)) as [|p ps] eqn:E; [done|].
      destruct (Hall p) as (_ & _ & _ & _ & Hs); [set_solver|]. by destruct p.
    + f_equal. rewrite readlines_terminated.
      * apply parsed_lines_fixed. apply Forall_forall. intros p Hp.
        destruct (Hall p Hp) as (? & ? & _ & _ & ?). done.
      * apply Forall_forall. intros p Hp.
        destruct (Hall p Hp) as (_ & _ & ? & ? & _). done.
Qed.

(** * What is in a tree built from the disk *)

Section Members.

Variable os : os_env.
Variable fnmatch : list N -> list N -> bool.
Variable root_path : list N.
Variable ignore_patterns : option (list (list N)).

(** [met p q]: the path [q] is reached from the directory [p] through
    entries that the listings give and that are not ignored, every entry
    but the last one being a directory. *)
Inductive met (p : list N) : list N -> Prop :=
| met_here items item :
    os_listdir os p = Entries items -> item ∈ items ->
    kept os fnmatch root_path ignore_patterns p item = true ->
    met p (PosixPath.join p item)
| met_below items item q :
    os_listdir os p = Entries items -> item ∈ items ->
    kept os fnmatch root_path ignore_patterns p item = true ->
    os_isdir os (PosixPath.join p item) = true ->
    met (PosixPath.join p item) q ->
    met p q.

Lemma paths_met T : forall p q M,
  snapshot os fnmatch root_path ignore_patterns p T -> (q, M) ∈ paths p T -> met p q.
Proof using Type.
  induction T as [n lf cs IH] using Tree_ind'. intros p q M Hsnap Hin.
  apply snapshot_unfold in Hsnap as [_ Hsnap]. rewrite paths_unfold in Hin.
  apply list_elem_of_In, in_flat_map in Hin as (c & Hc & Hin).
  apply list_elem_of_In in Hc.
  destruct (os_listdir os p) as [items| |] eqn:Hlist; [|subst cs; set_solver|done].
  apply list_elem_of_lookup in Hc as [k Hk].
  destruct (Forall2_lookup_r _ _ _ _ _ Hsnap Hk) as (item & Hitem & Hname & Hent).
  apply list_elem_of_lookup_2, list_elem_of_filter in Hitem as [Hkept Hlisted].
  destruct Hin as [[= <- <-]|Hin].
  - rewrite Hname. by eapply met_here.
  - destruct (t_leaf c) eqn:Hleaf; [done|].
    destruct (os_isdir os (PosixPath.join p item)) eqn:Hdir.
    2:{ subst c. done. }
    rewrite Forall_forall in IH. rewrite Hname in Hin.
    eapply met_below; try done.
    apply (IH c (list_elem_of_lookup_2 _ _ _ Hk) _ _ M Hent). by apply list_elem_of_In.
Qed.

Lemma met_paths p q :
  met p q ->
  forall T, snapshot os fnmatch root_path ignore_patterns p T -> exists M, (q, M) ∈ paths p T.
Proof using Type.
  induction 1 as [p items item Hlist Hitem Hkept
                 |p items item q Hlist Hitem Hkept Hdir _ IH]; intros [n lf cs] Hsnap.
  - apply snapshot_unfold in Hsnap as [_ Hsnap]. rewrite Hlist in Hsnap.
    assert (Hin : item ∈ filter (fun item => kept os fnmatch root_path ignore_patterns p item = true) items)
      by (by apply list_elem_of_filter).
    apply list_elem_of_lookup in Hin as [k Hk].
    destruct (Forall2_lookup_l _ _ _ _ _ Hsnap Hk) as (c & Hc & Hname & _).
    exists c. rewrite paths_unfold. apply list_elem_of_In, in_flat_map.
    exists c. split; [by eapply list_elem_of_In, list_elem_of_lookup_2|].
    left. by rewrite Hname.
  - apply snapshot_unfold in Hsnap as [_ Hsnap]. rewrite Hlist in Hsnap.
    assert (Hin : item ∈ filter (fun item => kept os fnmatch root_path ignore_patterns p item = true) items)
      by (by apply list_elem_of_filter).
    apply list_elem_of_lookup in Hin as [k Hk].
    destruct (Forall2_lookup_l _ _ _ _ _ Hsnap Hk) as (c & Hc & Hname & Hent).
    rewrite Hdir in Hent. destruct (IH c Hent) as (M & HM).
    exists M. rewrite paths_unfold. apply list_elem_of_In, in_flat_map.
    exists c. split; [by eapply list_elem_of_In, list_elem_of_lookup_2|].
    right. destruct c as [nc lfc csc]. pose proof Hent as Hent'.
    apply snapshot_unfold in Hent' as [-> _]. cbn [t_leaf t_name] in *. subst nc.
    by apply list_elem_of_In.
Qed.

End Members.

(** X16: the nodes of the tree [FileTree(dir, ignore)] builds.  When the
    walk of [dir] meets the tree [T], the call returns a tree in which a
    node stands at the path [q] exactly when [q] is reached from [dir]
    through entries that the listings give and that are not ignored, each
    entry before the last being a directory: no such entry is left out, and
    nothing is in the tree that is reached only through an ignored entry. *)
Theorem FileTree_init_members (os : os_env) (fnmatch : list N -> list N -> bool)
    (dir : list N) (ignore : option (list (list N))) (T : Tree) (fuel : nat)
    (h : list TreeNode) :
  snapshot os fnmatch dir ignore dir T ->
  os_exists os dir = true -> size T <= fuel ->
  exists h' T',
    FileTree_init os fnmatch fuel dir ignore h = Ok (mkFileTree dir (Some (length h)), h')
    /\ represents h' (length h) T'
    /\ (forall q, (exists M, (q, M) ∈ paths dir T') <-> met os fnmatch dir ignore dir q).
Proof.
  intros Hsnap Hex Hfuel.
  destruct (FileTree_init_tree os fnmatch dir ignore T fuel h Hsnap Hex Hfuel)
    as (h' & Hrun & Hrep & _).
  exists h', (Entry (PosixPath.basename dir) false (t_children T)).
  split; [exact Hrun|]. split; [exact Hrep|].
  assert (Hpaths : paths dir (Entry (PosixPath.basename dir) false (t_children T))
                   = paths dir T) by (by destruct T).
  rewrite Hpaths. intros q. split.
  - intros (M & HM). by eapply paths_met.
  - intros Hmet. by eapply met_paths.
Qed.

Lemma FileTree_init_members_witness :
  exists h' T',
    FileTree_init os_example fnmatchcase 4 (py "root") None []
    = Ok (mkFileTree (py "root") (Some (length (@nil TreeNode))), h')
    /\ represents h' (length (@nil TreeNode)) T'
    /\ (forall q, (exists M, (q, M) ∈ paths (py "root") T')
                  <-> met os_example fnmatchcase (py "root") None (py "root") q).
Proof.
  apply (FileTree_init_members os_example fnmatchcase (py "root") None T_example 4 []).
  - exact snapshot_example.
  - reflexivity.
  - vm_compute. lia.
Defined.

(** * A negative folder cap *)

(** X17: a negative folder cap is answered in two ways.  The encoders
    [to_repr] and [to_md] raise [ValueError] before they read the tree.
    [TrimmedTree] raises nothing: the walk passes over the root itself, so
    that the tree it returns is the bare root, whatever the directory
    holds and whatever the file cap is. *)
Theorem negative_folder_cap (os : os_env) (fnmatch : list N -> list N -> bool)
    (dir : list N) (fd ld : Z) (ignore : option (list (list N))) (fuel : nat)
    (h : list TreeNode) :
  (fd < 0)%Z -> os_exists os dir = true -> os_listdir os dir <> ListingFails ->
  (forall x, fnmatch x STAR = true) -> 2 <= fuel ->
  (exists h',
     TrimmedTree os fnmatch fuel dir (fd, ld) ignore h
     = Ok (mkFileTree dir (Some (length h)), h')
     /\ represents h' (length h) (Entry (PosixPath.basename dir) false []))
  /\ (forall hx l level is_last prefix,
        Node.to_repr fuel hx l level (fd, ld)
        = Raise (ValueError (py "Depth values cannot be negative"))
        /\ Node.to_md fuel hx l level is_last prefix (fd, ld)
           = Raise (ValueError (py "Depth values must be non-negative"))).
Proof.
  intros Hfd Hex Hlist Hstar Hfuel. split.
  - exists ((h ++ [mkTreeNode (PosixPath.basename dir) false [] (Some ∅)])
            ++ [mkTreeNode (PosixPath.basename dir) false [] (Some ∅)]).
    split.
    + unfold TrimmedTree, Node.new, _build_tree_with_depth.
      destruct fuel as [|[|fuel]]; [lia|lia|].
      rewrite depth_loop_S.
      assert (negb (fd =? 0)%Z && (fd <? 0)%Z = true) as -> by lia.
      rewrite depth_loop_done. cbn [bind].
      unfold FileTree_init. rewrite Hex. cbn [negb].
      unfold Node.new, _build_tree. cbn [build_loop].
      destruct (os_listdir os dir) as [items| |]; [| |done].
      * rewrite for_items_all_ignored by done. cbn [bind]. rewrite length_app.
        cbn [length]. by rewrite Nat.add_1_r.
      * cbn [bind]. rewrite length_app. cbn [length]. by rewrite Nat.add_1_r.
    + set (o := mkTreeNode (PosixPath.basename dir) false [] (Some ∅)).
      change (Entry (PosixPath.basename dir) false []) with (Entry (name o) (is_leaf o) []).
      constructor; [|constructor].
      rewrite <- app_assoc. by apply list_lookup_middle.
  - intros hx l level is_last prefix. unfold Node.to_repr, Node.to_md.
    assert ((fd <? 0)%Z = true) as -> by lia. done.
Qed.

Lemma negative_folder_cap_witness :
  (exists h',
     TrimmedTree os_example fnmatchcase 2 (py "root") ((-1)%Z, 0%Z) None []
     = Ok (mkFileTree (py "root") (Some (length (@nil TreeNode))), h')
     /\ represents h' (length (@nil TreeNode))
          (Entry (PosixPath.basename (py "root")) false []))
  /\ (forall hx l level is_last prefix,
        Node.to_repr 2 hx l level ((-1)%Z, 0%Z)
        = Raise (ValueError (py "Depth values cannot be negative"))
        /\ Node.to_md 2 hx l level is_last prefix ((-1)%Z, 0%Z)
           = Raise (ValueError (py "Depth values must be non-negative"))).
Proof.
  apply (negative_folder_cap os_example fnmatchcase (py "root") (-1) 0 None 2 []).
  - lia.
  - reflexivity.
  - discriminate.
  - exact glob_star.
  - lia.
Defined.

(** * Caps on a tree that was cut before *)

(** The tighter of two caps, [0] capping nothing. *)
Definition tighter (x y : Z) : Z :=
  if (x =? 0)%Z then y else if (y =? 0)%Z then x else Z.min x y.

Lemma within_caps_prune a b c d lvl lvl' T :
  within_caps a b lvl (prune c d lvl' T) = within_caps a b lvl T.
Proof. by destruct T. Qed.

Lemma within_caps_tighter a b c d lvl T :
  within_caps c d lvl T && within_caps a b lvl T
  = within_caps (tighter a c) (tighter b d) lvl T.
Proof.
  unfold within_caps, tighter. destruct (t_leaf T).
  - destruct (Z.eqb_spec b 0), (Z.eqb_spec d 0); cbn [orb andb].
    + done.
    + by rewrite andb_true_r.
    + destruct (Z.eqb_spec b 0); [done|]. done.
    + destruct (Z.eqb_spec (Z.min b d) 0); [lia|]. cbn [orb]. lia.
  - destruct (Z.eqb_spec a 0), (Z.eqb_spec c 0); cbn [orb andb].
    + done.
    + by rewrite andb_true_r.
    + destruct (Z.eqb_spec a 0); [done|]. done.
    + destruct (Z.eqb_spec (Z.min a c) 0); [lia|]. cbn [orb]. lia.
Qed.

(** Cutting a tree that was cut is cutting it once under the tighter
    caps. *)
Lemma prune_prune a b c d T : forall lvl,
  prune a b lvl (prune c d lvl T) = prune (tighter a c) (tighter b d) lvl T.
Proof.
  induction T as [n lf cs IH] using Tree_ind'. intros lvl.
  rewrite !prune_unfold. f_equal.
  generalize (lvl + 1)%Z. intros lv.
  induction IH as [|c0 cs Hc _ IHcs]; [done|].
  change (pruned_children c d lv (c0 :: cs))
    with ((if within_caps c d lv c0 then [prune c d lv c0] else [])
          ++ pruned_children c d lv cs).
  change (pruned_children (tighter a c) (tighter b d) lv (c0 :: cs))
    with ((if within_caps (tighter a c) (tighter b d) lv c0
           then [prune (tighter a c) (tighter b d) lv c0] else [])
          ++ pruned_children (tighter a c) (tighter b d) lv cs).
  rewrite pruned_children_app, IHcs. f_equal.
  rewrite <- within_caps_tighter.
  destruct (within_caps c d lv c0); cbn [andb]; [|done].
  change (pruned_children a b lv [prune c d lv c0])
    with ((if within_caps a b lv (prune c d lv c0)
           then [prune a b lv (prune c d lv c0)] else []) ++ []).
  rewrite within_caps_prune, app_nil_r.
  destruct (within_caps a b lv c0); [|done]. by rewrite Hc.
Qed.

Lemma tighter_nonneg x y : (0 <= x)%Z -> (0 <= y)%Z -> (0 <= tighter x y)%Z.
Proof. unfold tighter. destruct (x =? 0)%Z, (y =? 0)%Z; lia. Qed.

(** X18: caps compose.  When a second tree is the first one cut under the
    caps [(c, d)], as [TrimmedTree] builds it and as a text written under
    these caps decodes, then listing or drawing the second tree under caps
    [(a, b)] gives the text of the first tree under the tighter cap of each
    pair, [0] capping nothing.  In particular the caps a tree was cut under
    change nothing when they are given again. *)
Theorem caps_compose (h h' : list TreeNode) (l l' : nat) (T : Tree)
    (a b c d : Z) (fuel : nat) :
  represents h l T -> represents h' l' (prune c d 0 T) ->
  (0 <= a)%Z -> (0 <= b)%Z -> (0 <= c)%Z -> (0 <= d)%Z -> size T <= fuel ->
  Node.to_repr fuel h' l' 0 (a, b) = Node.to_repr fuel h l 0 (tighter a c, tighter b d)
  /\ Node.to_md fuel h' l' 0 false [] (a, b)
     = Node.to_md fuel h l 0 false [] (tighter a c, tighter b d)
  /\ Node.to_repr fuel h' l' 0 (c, d) = Node.to_repr fuel h' l' 0 (0%Z, 0%Z)
  /\ Node.to_md fuel h' l' 0 false [] (c, d) = Node.to_md fuel h' l' 0 false [] (0%Z, 0%Z).
Proof.
  intros Hrep Hrep' Ha Hb Hc Hd Hfuel.
  pose proof (size_prune_le c d T 0%Z) as Hs.
  pose proof (tighter_nonneg a c Ha Hc) as Hac.
  pose proof (tighter_nonneg b d Hb Hd) as Hbd.
  assert (Hsame : prune c d 0 (prune c d 0 T) = prune c d 0 T).
  { rewrite prune_prune. f_equal; unfold tighter; destruct (_ =? 0)%Z eqn:E; lia. }
  split; [|split; [|split]].
  - rewrite (to_repr_text h' l' (prune c d 0 T)) by (done || lia).
    rewrite (to_repr_text h l T) by done. by rewrite prune_prune.
  - rewrite (to_md_text h' l' (prune c d 0 T)) by (done || lia).
    rewrite (to_md_text h l T) by done. by rewrite prune_prune.
  - rewrite !(to_repr_text h' l' (prune c d 0 T)) by (done || lia).
    by rewrite Hsame, prune_uncapped.
  - rewrite !(to_md_text h' l' (prune c d 0 T)) by (done || lia).
    by rewrite Hsame, prune_uncapped.
Qed.

Lemma caps_compose_witness :
  Node.to_repr 4 h_capped 0 0 (1%Z, 0%Z)
  = Node.to_repr 4 h_example 0 0 (tighter 1 0, tighter 0 1)
  /\ Node.to_md 4 h_capped 0 0 false [] (1%Z, 0%Z)
     = Node.to_md 4 h_example 0 0 false [] (tighter 1 0, tighter 0 1)
  /\ Node.to_repr 4 h_capped 0 0 (0%Z, 1%Z) = Node.to_repr 4 h_capped 0 0 (0%Z, 0%Z)
  /\ Node.to_md 4 h_capped 0 0 false [] (0%Z, 1%Z)
     = Node.to_md 4 h_capped 0 0 false [] (0%Z, 0%Z).
Proof.
  apply (caps_compose h_example h_capped 0 0 T_example 1 0 0 1 4).
  - apply (reify_represents 3). reflexivity.
  - apply (reify_represents 3). reflexivity.
  - lia.
  - lia.
  - lia.
  - lia.
  - vm_compute. lia.
Defined.
